(** * UFDR ingestion pipeline: a shallow embedding and its verified properties

    The development follows [backend/app]: the field normalisers of
    [utils/graph.py] and [services/ufdr_ingest.py], the relational ledger of
    [db.py], the graph client of [services/graph.py], and the ingestion
    orchestrator.  Python library calls are modelled in [Module Py]; the
    stores are explicit state, and exceptions are explicit results. *)

From Stdlib Require Import ZArith String Ascii List Bool Lia.
From Stdlib Require Import Floats.SpecFloat.
From Stdlib Require Import Numbers.DecimalString Numbers.DecimalPos Numbers.DecimalZ.
From stdpp Require Import base option list gmap strings.

Local Open Scope string_scope.
Local Open Scope Z_scope.

(** ** Python runtime model *)

Module Py.

(** *** Exceptions

    Only the classes the ingestion code raises, catches or can receive from
    the libraries it calls.  [subclass_of] is Python's class hierarchy
    restricted to them ([FileNotFoundError] derives from [OSError],
    [IntegrityError] and [OperationalError] from [DatabaseError], the upload
    errors from each other); every class derives from [Exception]. *)

Inductive exn_class : Type :=
  | Exception
  | TypeError
  | ValueError
  | OverflowError
  | OSError
  | FileNotFoundError
  | RuntimeError
  | IntegrityError
  | OperationalError
  | DatabaseError
  | ParseError
  | BadZipFile
  | UploadPersistenceError
  | UploadStorageFullError
  | HTTPException (status_code : Z).

Record exn : Type := mk_exn { exn_cls : exn_class; exn_msg : string }.

Definition exn_class_eqb (a b : exn_class) : bool :=
  match a, b with
  | Exception, Exception | TypeError, TypeError | ValueError, ValueError
  | OverflowError, OverflowError | OSError, OSError
  | FileNotFoundError, FileNotFoundError | RuntimeError, RuntimeError
  | IntegrityError, IntegrityError | OperationalError, OperationalError
  | DatabaseError, DatabaseError
  | ParseError, ParseError | BadZipFile, BadZipFile
  | UploadPersistenceError, UploadPersistenceError
  | UploadStorageFullError, UploadStorageFullError => true
  | HTTPException a, HTTPException b => Z.eqb a b
  | _, _ => false
  end.

Definition subclass_of (c parent : exn_class) : bool :=
  match parent with
  | Exception => true
  | OSError => match c with OSError | FileNotFoundError => true | _ => false end
  | DatabaseError =>
      match c with
      | DatabaseError | IntegrityError | OperationalError => true
      | _ => false
      end
  | UploadPersistenceError =>
      match c with
      | UploadPersistenceError | UploadStorageFullError => true
      | _ => false
      end
  | _ => exn_class_eqb c parent
  end.

(** [except (A, B, ...)]: does the handler catch [e]? *)
Definition caught_by (handlers : list exn_class) (e : exn) : bool :=
  existsb (subclass_of (exn_cls e)) handlers.

Inductive result (A : Type) : Type :=
  | Ok (a : A)
  | Raise (e : exn).
Arguments Ok {A} a.
Arguments Raise {A} e.

Definition is_ok {A} (r : result A) : bool :=
  match r with Ok _ => true | Raise _ => false end.

(** *** Strings

    A Python [str] is modelled by a [string] of 8-bit characters.  Characters
    above 127 are opaque: not whitespace, not digits, unchanged by [lower]. *)

Definition is_space (c : ascii) : bool :=
  let n := nat_of_ascii c in
  (((9 <=? n) && (n <=? 13)) || ((28 <=? n) && (n <=? 32)))%nat.

Definition isdigit (c : ascii) : bool :=
  let n := nat_of_ascii c in ((48 <=? n) && (n <=? 57))%nat.

Definition lower_char (c : ascii) : ascii :=
  let n := nat_of_ascii c in
  if ((65 <=? n) && (n <=? 90))%nat then ascii_of_nat (n + 32) else c.

Fixpoint lower (s : string) : string :=
  match s with
  | EmptyString => EmptyString
  | String c s' => String (lower_char c) (lower s')
  end.

Fixpoint lstrip (s : string) : string :=
  match s with
  | EmptyString => EmptyString
  | String c s' => if is_space c then lstrip s' else s
  end.

(** [rstrip] keeps a character when it is not whitespace or when something
    non-blank follows it. *)
Fixpoint rstrip (s : string) : string :=
  match s with
  | EmptyString => EmptyString
  | String c s' =>
      match rstrip s' with
      | EmptyString => if is_space c then EmptyString else String c EmptyString
      | r => String c r
      end
  end.

Definition strip (s : string) : string := rstrip (lstrip s).

Fixpoint startswith (s p : string) : bool :=
  match p, s with
  | EmptyString, _ => true
  | String a p', String b s' => Ascii.eqb a b && startswith s' p'
  | String _ _, EmptyString => false
  end.

(** [c in s] for a one-character needle. *)
Fixpoint contains_char (c : ascii) (s : string) : bool :=
  match s with
  | EmptyString => false
  | String b s' => Ascii.eqb c b || contains_char c s'
  end.

(** [needle in s] for strings. *)
Fixpoint contains (needle s : string) : bool :=
  startswith s needle ||
  match s with
  | EmptyString => false
  | String _ s' => contains needle s'
  end.

Fixpoint filter_chars (f : ascii -> bool) (s : string) : string :=
  match s with
  | EmptyString => EmptyString
  | String c s' => if f c then String c (filter_chars f s') else filter_chars f s'
  end.

(** [s[n:]] and [s[:n]] for [n >= 0]. *)
Fixpoint slice_from (n : nat) (s : string) : string :=
  match n, s with
  | O, _ => s
  | S n', String _ s' => slice_from n' s'
  | S _, EmptyString => EmptyString
  end.

Fixpoint slice_to (n : nat) (s : string) : string :=
  match n, s with
  | O, _ => EmptyString
  | S n', String c s' => String c (slice_to n' s')
  | S _, EmptyString => EmptyString
  end.

(** Truthiness of [Optional[str]]: [None] and [""] are falsy. *)
Definition truthy (o : option string) : bool :=
  match o with
  | Some (String _ _) => true
  | _ => false
  end.

(** [a or b] on optional strings. *)
Definition or_else (a b : option string) : option string :=
  if truthy a then a else b.

(** [str(n)] for an [int]. *)
Definition str_of_Z (z : Z) : string := NilZero.string_of_int (Z.to_int z).

Fixpoint join (sep : string) (l : list string) : string :=
  match l with
  | [] => EmptyString
  | [x] => x
  | x :: rest => x ++ sep ++ join sep rest
  end.

(** *** Floats: IEEE 754 binary64

    Python's [float] is the C double.  It is modelled by [spec_float] with
    the binary64 parameters, so that [/], [-] and [>] round and compare as the
    hardware does. *)

Definition float : Type := spec_float.

Definition fdiv : float -> float -> float := SFdiv 53 1024.
Definition fsub : float -> float -> float := SFsub 53 1024.
Definition fmul : float -> float -> float := SFmul 53 1024.
Definition fgt (x y : float) : bool := SFltb y x.

Definition float_of_Z (z : Z) : float := binary_normalize 53 1024 z 0 false.

(** The double nearest to [(-1)^neg * m * 10^e10] (round to nearest, ties to
    even), computed from the exact integer quotient. *)
Definition float_of_decimal (neg : bool) (m e10 : Z) : float :=
  if m <=? 0 then S754_zero neg
  else if 0 <=? e10 then binary_normalize 53 1024 (cond_Zopp neg (m * 10 ^ e10)) 0 false
  else
    let '(q, e', l) := SFdiv_core_binary 53 1024 m 0 (10 ^ (- e10)) 0 in
    binary_round_aux 53 1024 neg q e' l.

Definition digit_val (c : ascii) : Z := Z.of_nat (nat_of_ascii c) - 48.

(** [digitpart ::= digit (["_"] digit)*]: value, number of digits, rest. *)
Fixpoint scan_digits_aux (acc : Z) (n : Z) (s : string) : Z * Z * string :=
  match s with
  | EmptyString => (acc, n, s)
  | String c s' =>
      if isdigit c then scan_digits_aux (10 * acc + digit_val c) (n + 1) s'
      else if Ascii.eqb c "_" then
        match s' with
        | String d _ => if isdigit d then scan_digits_aux acc n s' else (acc, n, s)
        | EmptyString => (acc, n, s)
        end
      else (acc, n, s)
  end.

Definition scan_digits (s : string) : option (Z * Z * string) :=
  match s with
  | String c _ => if isdigit c then Some (scan_digits_aux 0 0 s) else None
  | EmptyString => None
  end.

Definition scan_sign (s : string) : bool * string :=
  match s with
  | String "-" s' => (true, s')
  | String "+" s' => (false, s')
  | _ => (false, s)
  end.

(** [exponent ::= ("e" | "E") [sign] digitpart], or nothing. *)
Definition scan_exponent (s : string) : option (Z * string) :=
  match s with
  | String c s' =>
      if Ascii.eqb (lower_char c) "e" then
        let '(neg, s'') := scan_sign s' in
        match scan_digits s'' with
        | Some (v, _, rest) => Some (cond_Zopp neg v, rest)
        | None => None
        end
      else Some (0, s)
  | EmptyString => Some (0, s)
  end.

(** [number ::= [digitpart] "." digitpart | digitpart ["."]]: mantissa,
    number of fraction digits, rest. *)
Definition scan_number (s : string) : option (Z * Z * string) :=
  match scan_digits s with
  | Some (ip, _, String "." rest) =>
      match scan_digits rest with
      | Some _ => Some (scan_digits_aux ip 0 rest)
      | None => Some (ip, 0, rest)
      end
  | Some (ip, _, rest) => Some (ip, 0, rest)
  | None =>
      match s with
      | String "." rest =>
          match scan_digits rest with
          | Some r => Some r
          | None => None
          end
      | _ => None
      end
  end.

(** [float(s)] for a [str]: surrounding whitespace is dropped, then
    [[sign] (floatnumber | "inf" | "infinity" | "nan")], letters in any case.
    Anything else raises [ValueError]. *)
Definition parse_float (s : string) : option float :=
  let '(neg, body) := scan_sign (strip s) in
  let low := lower body in
  if String.eqb low "inf" || String.eqb low "infinity" then Some (S754_infinity neg)
  else if String.eqb low "nan" then Some S754_nan
  else
    match scan_number body with
    | Some (m, nfrac, rest) =>
        match scan_exponent rest with
        | Some (e, EmptyString) => Some (float_of_decimal neg m (e - nfrac))
        | _ => None
        end
    | None => None
    end.

Definition float_of_str (s : string) : result float :=
  match parse_float s with
  | Some x => Ok x
  | None => Raise (mk_exn ValueError ("could not convert string to float: " ++ s))
  end.

(** *** datetime

    An aware or naive [datetime]: civil fields plus an optional UTC offset in
    microseconds. *)

Record datetime : Type := mk_datetime {
  dt_year : Z; dt_month : Z; dt_day : Z;
  dt_hour : Z; dt_minute : Z; dt_second : Z; dt_microsecond : Z;
  dt_tzinfo : option Z
}.

Definition utc : option Z := Some 0.

Definition replace_tzinfo (d : datetime) (tz : option Z) : datetime :=
  mk_datetime (dt_year d) (dt_month d) (dt_day d) (dt_hour d) (dt_minute d)
    (dt_second d) (dt_microsecond d) tz.

Definition is_leap (y : Z) : bool :=
  ((y mod 4 =? 0) && negb (y mod 100 =? 0)) || (y mod 400 =? 0).

Definition days_in_month (y m : Z) : Z :=
  if m =? 2 then (if is_leap y then 29 else 28)
  else if (m =? 4) || (m =? 6) || (m =? 9) || (m =? 11) then 30
  else 31.

(** Civil date of a day count since 1970-01-01 (proleptic Gregorian). *)
Definition civil_from_days (z0 : Z) : Z * Z * Z :=
  let z := z0 + 719468 in
  let era := z / 146097 in
  let doe := z - era * 146097 in
  let yoe := (doe - doe / 1460 + doe / 36524 - doe / 146096) / 365 in
  let y := yoe + era * 400 in
  let doy := doe - (365 * yoe + yoe / 4 - yoe / 100) in
  let mp := (5 * doy + 2) / 153 in
  let d := doy - (153 * mp + 2) / 5 + 1 in
  let m := if mp <? 10 then mp + 3 else mp - 9 in
  (if m <=? 2 then y + 1 else y, m, d).

(** [modf]: integral part and fractional part (same sign) of a finite double. *)
Definition modf (x : float) : Z * float :=
  match x with
  | S754_finite s m e =>
      if 0 <=? e then (cond_Zopp s (Zpos m * 2 ^ e), S754_zero s)
      else
        let d := 2 ^ (- e) in
        (cond_Zopp s (Zpos m / d),
         binary_normalize 53 1024 (cond_Zopp s (Zpos m mod d)) e s)
  | _ => (0, x)
  end.

(** Nearest integer of a finite double, ties to even. *)
Definition round_half_even (x : float) : Z :=
  match x with
  | S754_finite s m e =>
      if 0 <=? e then cond_Zopp s (Zpos m * 2 ^ e)
      else
        let d := 2 ^ (- e) in
        let q := Zpos m / d in
        let r := Zpos m mod d in
        cond_Zopp s
          match 2 * r ?= d with
          | Lt => q
          | Gt => q + 1
          | Eq => if Z.even q then q else q + 1
          end
  | _ => 0
  end.

(** Seconds ([time_t]) and microseconds of a timestamp, as CPython's
    conversion of a double with [ROUND_HALF_EVEN] computes them. *)
Definition timet_of_float (x : float) : result (Z * Z) :=
  match x with
  | S754_nan => Raise (mk_exn ValueError "Invalid value NaN (not a number)")
  | S754_infinity _ =>
      Raise (mk_exn OverflowError "timestamp out of range for platform time_t")
  | _ =>
      let '(ip, fp) := modf x in
      let us := round_half_even (fmul fp (float_of_Z 1000000)) in
      let '(ip, us) :=
        if 1000000 <=? us then (ip + 1, us - 1000000)
        else if us <? 0 then (ip - 1, us + 1000000)
        else (ip, us) in
      if (- 2 ^ 63 <=? ip) && (ip <? 2 ^ 63) then Ok (ip, us)
      else Raise (mk_exn OverflowError "timestamp out of range for platform time_t")
  end.

(** [datetime.fromtimestamp(x, tz=timezone.utc)] on a 64-bit glibc platform:
    [gmtime_r] fails with [EOVERFLOW] when the year does not fit the C [int]
    field [tm_year] (raised as [OSError]); a year outside 1..9999 is rejected
    by the [datetime] constructor with [ValueError]. *)
Definition fromtimestamp_utc (x : float) : result datetime :=
  match timet_of_float x with
  | Raise e => Raise e
  | Ok (t, us) =>
      let '(y, m, d) := civil_from_days (t / 86400) in
      let sod := t mod 86400 in
      if negb ((- 2 ^ 31 <=? y - 1900) && (y - 1900 <? 2 ^ 31)) then
        Raise (mk_exn OSError "[Errno 75] Value too large for defined data type")
      else if negb ((1 <=? y) && (y <=? 9999)) then
        Raise (mk_exn ValueError ("year " ++ str_of_Z y ++ " is out of range"))
      else
        Ok (mk_datetime y m d (sod / 3600) (sod mod 3600 / 60) (sod mod 60) us utc)
  end.

(** Zero-padded decimal of a non-negative number, [w] digits wide. *)
Fixpoint pad_digits (w : nat) (n : Z) : string :=
  match w with
  | O => EmptyString
  | S w' => pad_digits w' (n / 10) ++ String (ascii_of_nat (Z.to_nat (48 + n mod 10))) EmptyString
  end.

Definition format_offset (off : Z) : string :=
  let a := Z.abs off in
  let secs := a / 1000000 in
  let us := a mod 1000000 in
  (if off <? 0 then "-" else "+")
  ++ pad_digits 2 (secs / 3600) ++ ":" ++ pad_digits 2 (secs mod 3600 / 60)
  ++ (if (secs mod 60 =? 0) && (us =? 0) then ""
      else ":" ++ pad_digits 2 (secs mod 60)
           ++ (if us =? 0 then "" else "." ++ pad_digits 6 us)).

(** [datetime.isoformat()]. *)
Definition isoformat (d : datetime) : string :=
  pad_digits 4 (dt_year d) ++ "-" ++ pad_digits 2 (dt_month d) ++ "-"
  ++ pad_digits 2 (dt_day d) ++ "T" ++ pad_digits 2 (dt_hour d) ++ ":"
  ++ pad_digits 2 (dt_minute d) ++ ":" ++ pad_digits 2 (dt_second d)
  ++ (if dt_microsecond d =? 0 then "" else "." ++ pad_digits 6 (dt_microsecond d))
  ++ match dt_tzinfo d with
     | None => ""
     | Some off => format_offset off
     end.

End Py.

Import Py.

(** ** Paths ([pathlib.Path])

    A path is absolute or relative and has a list of components. *)

Record Path : Type := mk_path { is_absolute : bool; parts : list string }.

(** [str(path)] *)
Definition path_str (p : Path) : string :=
  (if is_absolute p then "/" else "") ++ join "/" (parts p).

(** [path / name] *)
Definition path_join (p : Path) (name : string) : Path :=
  mk_path (is_absolute p) (parts p ++ [name]).

(** [base / rel] for a relative path [rel] *)
Definition path_concat (base rel : Path) : Path :=
  mk_path (is_absolute base) (parts base ++ parts rel).

(** [path.name] *)
Definition path_name (p : Path) : string := List.last (parts p) "".

(** Index of the last ["."] of [s], counting from [i]. *)
Fixpoint rfind_dot (s : string) (i : nat) : option nat :=
  match s with
  | EmptyString => None
  | String c s' =>
      match rfind_dot s' (S i) with
      | Some j => Some j
      | None => if Ascii.eqb c "." then Some i else None
      end
  end.

(** [path.suffix]: the last dot-suffix of the name; empty when the only dot
    leads or ends the name. *)
Definition path_suffix (p : Path) : string :=
  let name := path_name p in
  match rfind_dot name O with
  | Some i =>
      if ((0 <? i) && (i <? String.length name - 1))%nat then slice_from i name
      else ""
  | None => ""
  end.

(** [path.stem] *)
Definition path_stem (p : Path) : string :=
  let name := path_name p in
  slice_to (String.length name - String.length (path_suffix p)) name.

Fixpoint strip_prefix (l base : list string) : option (list string) :=
  match base, l with
  | [], _ => Some l
  | b :: base', c :: l' => if String.eqb b c then strip_prefix l' base' else None
  | _ :: _, [] => None
  end.

(** [path.relative_to(base)]; [None] stands for [ValueError]. *)
Definition relative_to (p base : Path) : option Path :=
  if Bool.eqb (is_absolute p) (is_absolute base) then
    match strip_prefix (parts p) (parts base) with
    | Some rest => Some (mk_path false rest)
    | None => None
    end
  else None.

(** ** Data model *)

(** A cell read from a source database.  [REAL] and [BLOB] cells are
    represented by the text [str()] gives them: the ingestion code reads
    cells only through [str()], truthiness and comparison with [""]. *)
Inductive sqlval : Type :=
  | VNull
  | VInt (z : Z)
  | VText (s : string)
  | VReal (repr : string)
  | VBlob (repr : string).

Definition py_str (v : sqlval) : string :=
  match v with
  | VNull => "None"
  | VInt z => str_of_Z z
  | VText s => s
  | VReal r => r
  | VBlob r => r
  end.

(** A row as a [dict]: lower-cased column name to cell. *)
Abbreviation payload := (gmap string sqlval).

Inductive json : Type :=
  | JStr (s : string)
  | JInt (z : Z)
  | JList (l : list string).

Abbreviation metadata := (gmap string json).

(** A table of a source database.  Reading it can fail although the file
    opens: [tbl_info_error] is what [PRAGMA table_info('<name>')] raises, if
    it does (a name that holds a quote, a damaged schema), and
    [tbl_select_error] what [SELECT rowid AS _rowid_, * FROM '<name>'] raises,
    if it does (a [WITHOUT ROWID] table, a virtual table whose module is
    missing, a damaged page). *)
Record SqliteTable : Type := {
  tbl_name : string;
  tbl_columns : list string;
  tbl_rows : list (list sqlval);   (* [rowid] first, then the columns *)
  tbl_info_error : option exn;
  tbl_select_error : option exn
}.

Record XmlContact : Type := {
  xc_display_name : option string;
  xc_first_name : option string;
  xc_last_name : option string;
  xc_phone : option string;
  xc_email : option string;
  xc_children : list (string * option string)
}.

(** A property-list tree; a leaf carries [str(value)]. *)
#[warnings="-register-all"]
Inductive plist : Type :=
  | PDict (items : list (string * plist))
  | PList (items : list plist)
  | PLeaf (text : string).

(** What opening and reading an archive member gives. *)
Inductive FileContent : Type :=
  | FSqlite (tables : list SqliteTable)
  | FXml (contacts : list XmlContact)
  | FPlist (tree : plist)
  | FUnreadable (e : exn)
  | FOther.

(** *** The relational ledger ([db.py])

    The [id] of [messages], [contacts] and [system_info] is never read by the
    ingestion code; these tables are kept as lists in insertion order.  JSON
    text columns hold the value they encode. *)

Record MessageRow : Type := {
  m_external_id : string;
  m_conversation_id : option string;
  m_sender : option string;
  m_receiver : option string;
  m_timestamp : option string;
  m_body : option string;
  m_direction : option string;
  m_message_type : option string;
  m_attachments : sqlval;
  m_source : string;
  m_raw_data : payload;
  m_vector_id : option string
}.

Record ContactRow : Type := {
  c_external_id : string;
  c_display_name : option string;
  c_given_name : sqlval;
  c_family_name : sqlval;
  c_phone_number : option string;
  c_email : option string;
  c_source : string;
  c_raw_data : payload
}.

Record SystemInfoRow : Type := {
  s_info_key : string;
  s_info_value : string;
  s_category : string;
  s_source : string
}.

(** The [metadata] column of [images]: NULL or empty text, text that is not
    JSON, or a JSON object. *)
Inductive meta_cell : Type :=
  | MetaNull
  | MetaInvalid (text : string)
  | MetaJson (m : metadata).

Record ImageRow : Type := {
  i_id : Z;
  i_file_path : string;
  i_relative_path : option string;
  i_description : option string;
  i_tags : option string;
  i_detected_text : option string;
  i_source : option string;
  i_metadata : meta_cell;
  i_vector_id : option string;
  i_caption_status : option string;
  i_caption_error : option string;
  i_last_captioned_at : option string
}.

Record Ledger : Type := {
  messages : list MessageRow;
  contacts : list ContactRow;
  system_info : list SystemInfoRow;
  images : list ImageRow;
  images_seq : Z   (* largest image id ever assigned (AUTOINCREMENT) *)
}.

Definition empty_ledger : Ledger :=
  {| messages := []; contacts := []; system_info := []; images := []; images_seq := 0 |}.

(** *** The graph store ([services/graph.py], Neo4j)

    Nodes [Person] keyed by [id]; edges [MESSAGED] keyed by the two end
    nodes and [message_id], as the Cypher [MERGE] clauses match them.
    [g_log] records every call of the client's write API, in order. *)

Record Person : Type := {
  p_raw_identifier : option string;
  p_display_name : option string;
  p_given_name : option string;
  p_family_name : option string;
  p_last_seen_source : option string
}.

Record Relationship : Type := {
  r_timestamp : option string;
  r_body : option string;
  r_conversation_id : option string;
  r_source : option string
}.

Inductive GraphCall : Type :=
  | CallRegisterPerson (identifier : string)
  | CallRegisterMessage (message_id sender_id receiver_id : string).

Record GraphDb : Type := {
  persons : gmap string Person;
  relationships : gmap (string * string * string) Relationship;
  g_log : list GraphCall
}.

Definition empty_graph : GraphDb :=
  {| persons := ∅; relationships := ∅; g_log := [] |}.

(** *** The vector store ([services/vector_store.py], Chroma) *)

Record VectorEntry : Type := {
  ve_embedding : list float;
  ve_metadata : gmap string string;
  ve_document : string
}.

Record EmbeddingRecord : Type := {
  er_vector_id : string;
  er_text : string;
  er_metadata : gmap string string
}.

Record ImageInventoryRecord : Type := {
  ir_id : Z;
  ir_file_path : Path;
  ir_relative_path : Path;
  ir_metadata : metadata
}.

Record ImageDescription : Type := {
  d_caption : string;
  d_tags : list string;
  d_detected_text : option string
}.

Record IngestionSummary : Type := {
  archive_name : string;
  extraction_id : string;
  notes : list string;
  messages_ingested : Z;
  contacts_ingested : Z;
  system_records_ingested : Z;
  images_logged : Z;
  images_captioned : Z
}.

(** [GraphStats] of [ufdr_ingest.py]. *)
Record GraphStats : Type := {
  contacts_registered : Z;
  relationships_registered : Z;
  seen_contact_identifiers : gset string;
  seen_message_ids : gset string
}.

Definition new_GraphStats : GraphStats :=
  {| contacts_registered := 0; relationships_registered := 0;
     seen_contact_identifiers := ∅; seen_message_ids := ∅ |}.

(** *** The world the ingestion runs in

    [Env] holds what the code does not decide: configuration, the behaviour
    of the collaborators, and the library calls left abstract.  Collaborator
    outcomes are indexed by a clock so that they may differ from call to
    call.  [World] is the mutable state: the three stores, the process-wide
    [CONTACT_ALIAS_MAP], the [GraphStats] object of the current run, and the
    clock. *)

Record Env : Type := {
  fromisoformat : string -> option datetime;
    (* datetime.fromisoformat; None is ValueError *)
  graph_enabled : bool;
    (* GRAPH_CLIENT.is_enabled() *)
  neo4j_commits : nat -> bool;
    (* does the n-th write transaction of the driver commit? *)
  vector_enabled : bool;
    (* VECTOR_STORE.is_enabled() *)
  embedder_encode : list string -> result (list (list float));
    (* get_embedder().encode(texts) *)
  chroma_upsert : list string -> option exn;
    (* an exception raised by collection.upsert(ids, ...), if any *)
  vision_client : option exn;
    (* an exception raised by get_gemini_vision_client(), if any *)
  describe_image : nat -> Path -> result ImageDescription;
    (* vision_client.describe_image(path) at clock n *)
  now_isoformat : nat -> string;
    (* datetime.now(timezone.utc).isoformat() at clock n *)
  stat_file : Path -> option (Z * string * string);
    (* st_size and the ISO renderings of st_mtime, st_ctime; None is OSError *)
  guess_mime_type : string -> option string;
    (* mimetypes.guess_type(str(path))[0] *)
  extracted_dir : Path;
    (* settings.extracted_dir *)
  uploads_dir : Path
    (* settings.uploads_dir *)
}.

Record World : Type := {
  ledger : Ledger;
  graph : GraphDb;
  vectors : gmap string VectorEntry;
  alias_map : gmap string string;
  run_stats : GraphStats;
  clock : nat
}.

Definition set_ledger (l : Ledger) (w : World) : World :=
  {| ledger := l; graph := graph w; vectors := vectors w;
     alias_map := alias_map w; run_stats := run_stats w; clock := clock w |}.

Definition set_graph (g : GraphDb) (w : World) : World :=
  {| ledger := ledger w; graph := g; vectors := vectors w;
     alias_map := alias_map w; run_stats := run_stats w; clock := clock w |}.

Definition set_vectors (v : gmap string VectorEntry) (w : World) : World :=
  {| ledger := ledger w; graph := graph w; vectors := v;
     alias_map := alias_map w; run_stats := run_stats w; clock := clock w |}.

Definition set_alias_map (a : gmap string string) (w : World) : World :=
  {| ledger := ledger w; graph := graph w; vectors := vectors w;
     alias_map := a; run_stats := run_stats w; clock := clock w |}.

Definition set_run_stats (st : GraphStats) (w : World) : World :=
  {| ledger := ledger w; graph := graph w; vectors := vectors w;
     alias_map := alias_map w; run_stats := st; clock := clock w |}.

Definition set_clock (n : nat) (w : World) : World :=
  {| ledger := ledger w; graph := graph w; vectors := vectors w;
     alias_map := alias_map w; run_stats := run_stats w; clock := n |}.

(** *** State and exceptions

    A computation reads and updates the world and returns or raises; the
    world survives an exception, as the stores do. *)

Definition M (A : Type) : Type := World -> result A * World.

Definition ret {A} (a : A) : M A := fun w => (Ok a, w).

Definition raise {A} (e : exn) : M A := fun w => (Raise e, w).

Definition bind {A B} (m : M A) (k : A -> M B) : M B :=
  fun w =>
    match m w with
    | (Ok a, w') => k a w'
    | (Raise e, w') => (Raise e, w')
    end.

Notation "'let*' x := m 'in' k" := (bind m (fun x => k))
  (at level 10, x pattern, m at level 200, k at level 200, only parsing).

Definition get_world : M World := fun w => (Ok w, w).

Definition modify (f : World -> World) : M unit := fun w => (Ok tt, f w).

Definition lift {A} (r : result A) : M A := fun w => (r, w).

(** [try: m except (handlers) as exc: h exc] *)
Definition try_except {A} (m : M A) (handlers : list exn_class) (h : exn -> M A) : M A :=
  fun w =>
    match m w with
    | (Ok a, w') => (Ok a, w')
    | (Raise e, w') => if caught_by handlers e then h e w' else (Raise e, w')
    end.

(** [with get_connection() as conn: body]: the connection is closed when the
    block is left; changes not committed are lost.  Every block of the
    ingestion code commits as its last statement, so the ledger keeps the
    changes exactly when the block ends without an exception. *)
Definition with_connection {A} (body : M A) : M A :=
  fun w =>
    match body w with
    | (Ok a, w') => (Ok a, w')
    | (Raise e, w') => (Raise e, set_ledger (ledger w) w')
    end.

(** [for x in l: body x], threading an accumulator. *)
Fixpoint for_each {A S} (l : list A) (body : A -> S -> M S) (acc : S) : M S :=
  match l with
  | [] => ret acc
  | x :: rest => let* acc' := body x acc in for_each rest body acc'
  end.

(** ** [utils/graph.py] *)

Definition canonicalize_actor (value : option string) : option string :=
  match value with
  | None => None
  | Some value =>
      let text := strip value in
      if String.eqb text "" then None
      else
        let lower_text := lower text in
        let '(text, lower_text) :=
          if startswith lower_text "tel:"
          then (slice_from 4 text, lower (slice_from 4 text))
          else (text, lower_text) in
        if contains_char "@" text then Some lower_text
        else
          let digits := filter_chars isdigit text in
          if negb (String.eqb digits "") then
            let prefix := if startswith (strip text) "+" then "+" else "" in
            Some (prefix ++ digits)
          else Some lower_text
  end.

(** Truthiness of a Python value read from a cell. *)
Definition truthy_val (v : sqlval) : bool :=
  match v with
  | VNull => false
  | VInt z => negb (z =? 0)
  | VText s => negb (String.eqb s "")
  | VReal r => negb (String.eqb r "0.0" || String.eqb r "-0.0")
  | VBlob r => negb (String.eqb r "b''")
  end.

(** [a or b] on Python values. *)
Definition or_val (a b : sqlval) : sqlval := if truthy_val a then a else b.

Definition val_of_opt (o : option string) : sqlval :=
  match o with Some s => VText s | None => VNull end.

Definition compose_display_name (given_name family_name : sqlval) : option string :=
  let parts := [given_name; family_name] in
  let filtered := map (fun part => strip (py_str part)) (List.filter truthy_val parts) in
  match filtered with
  | [] => None
  | _ => Some (join " " filtered)
  end.

(** ** [services/ufdr_ingest.py]: field normalisers *)

Definition IMAGE_EXTENSIONS : list string :=
  [".jpg"; ".jpeg"; ".png"; ".gif"; ".bmp"; ".heic"; ".heif"; ".tiff"].
Definition TEXT_FIELDS : list string :=
  ["text"; "body"; "message"; "content"; "value"; "notes"].
Definition TIMESTAMP_FIELDS : list string :=
  ["timestamp"; "date"; "created"; "sent"; "received"; "time"; "modified"].
Definition SENDER_FIELDS : list string :=
  ["sender"; "from"; "author"; "handle"; "address"; "account"; "source"].
Definition RECEIVER_FIELDS : list string :=
  ["receiver"; "to"; "target"; "recipient"; "destination"].
Definition CONVERSATION_FIELDS : list string :=
  ["conversation"; "thread"; "chat"; "dialog"; "room"].
Definition DIRECTION_FIELDS : list string :=
  ["direction"; "is_from_me"; "incoming"; "outgoing"; "type"].
Definition MESSAGE_TYPE_FIELDS : list string :=
  ["type"; "message_type"; "category"; "service"].

Definition APPLE_EPOCH_OFFSET : Z := 978307200.

(** The arithmetic of the numeric branch of [_safe_parse_timestamp]. *)
Definition adjust_numeric (numeric_value : float) : float :=
  let numeric_value :=
    if fgt numeric_value (float_of_decimal false 1 12)
    then fdiv numeric_value (float_of_Z 1000) else numeric_value in
  if fgt numeric_value (float_of_Z APPLE_EPOCH_OFFSET)
  then fsub numeric_value (float_of_Z APPLE_EPOCH_OFFSET) else numeric_value.

Definition _safe_parse_timestamp (E : Env) (value : option string) : result (option string) :=
  match value with
  | None => Ok None
  | Some value =>
      match float_of_str value with
      | Raise e =>
          if caught_by [TypeError; ValueError] e then
            match fromisoformat E value with
            | Some parsed =>
                let parsed :=
                  match dt_tzinfo parsed with
                  | None => replace_tzinfo parsed utc
                  | Some _ => parsed
                  end in
                Ok (Some (isoformat parsed))
            | None => Ok (Some value)
            end
          else Raise e
      | Ok numeric_value =>
          match fromtimestamp_utc (adjust_numeric numeric_value) with
          | Ok parsed => Ok (Some (isoformat parsed))
          | Raise e =>
              if caught_by [OverflowError; ValueError] e then Ok (Some value)
              else Raise e
          end
      end
  end.

Definition is_blank_val (v : sqlval) : bool :=
  match v with
  | VNull => true
  | VText s => String.eqb s ""
  | _ => false
  end.

Fixpoint _pick_first_value (row : payload) (keys : list string) : option string :=
  match keys with
  | [] => None
  | key :: rest =>
      match row !! key with
      | Some v => if is_blank_val v then _pick_first_value row rest else Some (py_str v)
      | None => _pick_first_value row rest
      end
  end.

(** [payload.get(key)] *)
Definition payload_get (row : payload) (key : string) : sqlval :=
  default VNull (row !! key).

Definition _compose_display_name (row : payload) : option string :=
  let parts := [payload_get row "first"; payload_get row "middle"; payload_get row "last"] in
  let filtered := map py_str (List.filter truthy_val parts) in
  match filtered with
  | [] => None
  | _ => Some (join " " filtered)
  end.

(** [dict(zip(keys, values))]: a later duplicate key overrides. *)
Fixpoint dict_zip (keys : list string) (values : list sqlval) (acc : payload) : payload :=
  match keys, values with
  | k :: keys', v :: values' => dict_zip keys' values' (<[k := v]> acc)
  | _, _ => acc
  end.

Definition make_payload (columns : list string) (row : list sqlval) : payload :=
  dict_zip (map lower ("_rowid_" :: columns)) row ∅.

(** ** SQL statements against the ledger ([db.py] schema)

    [messages] has the partial unique index [idx_messages_vector_id] on
    [vector_id] where not NULL; [images] has [file_path UNIQUE] and the
    partial unique index [idx_images_vector_id]. *)

Fixpoint somes {A} (l : list (option A)) : list A :=
  match l with
  | [] => []
  | Some x :: rest => x :: somes rest
  | None :: rest => somes rest
  end.

Fixpoint distinct (l : list string) : bool :=
  match l with
  | [] => true
  | x :: rest => negb (existsb (String.eqb x) rest) && distinct rest
  end.

Definition message_vector_ids (rows : list MessageRow) : list string :=
  somes (map m_vector_id rows).

Definition image_vector_ids (rows : list ImageRow) : list string :=
  somes (map i_vector_id rows).

Definition set_messages (rows : list MessageRow) (l : Ledger) : Ledger :=
  {| messages := rows; contacts := contacts l; system_info := system_info l;
     images := images l; images_seq := images_seq l |}.

Definition set_images (rows : list ImageRow) (seq : Z) (l : Ledger) : Ledger :=
  {| messages := messages l; contacts := contacts l; system_info := system_info l;
     images := rows; images_seq := seq |}.

(** [INSERT OR IGNORE INTO messages (...)]: the row is dropped when its
    non-NULL [vector_id] is already indexed.  Returns [rowcount > 0]. *)
Definition insert_or_ignore_message (row : MessageRow) (l : Ledger) : bool * Ledger :=
  match m_vector_id row with
  | Some v =>
      if existsb (String.eqb v) (message_vector_ids (messages l)) then (false, l)
      else (true, set_messages (messages l ++ [row]) l)
  | None => (true, set_messages (messages l ++ [row]) l)
  end.

Definition coalesce_vector_id (vector_id external_id : string) (row : MessageRow) : MessageRow :=
  if String.eqb (m_external_id row) external_id then
    {| m_external_id := m_external_id row;
       m_conversation_id := m_conversation_id row;
       m_sender := m_sender row; m_receiver := m_receiver row;
       m_timestamp := m_timestamp row; m_body := m_body row;
       m_direction := m_direction row; m_message_type := m_message_type row;
       m_attachments := m_attachments row; m_source := m_source row;
       m_raw_data := m_raw_data row;
       m_vector_id := match m_vector_id row with
                      | Some old => Some old
                      | None => Some vector_id
                      end |}
  else row.

(** [UPDATE messages SET vector_id = COALESCE(vector_id, ?) WHERE external_id = ?].
    The statement aborts with [IntegrityError] when it would index one
    [vector_id] twice. *)
Definition update_message_vector_id (vector_id external_id : string) (l : Ledger) : result Ledger :=
  let rows := map (coalesce_vector_id vector_id external_id) (messages l) in
  if distinct (message_vector_ids rows) then Ok (set_messages rows l)
  else Raise (mk_exn IntegrityError "UNIQUE constraint failed: messages.vector_id").

Definition insert_contact (row : ContactRow) (l : Ledger) : Ledger :=
  {| messages := messages l; contacts := contacts l ++ [row];
     system_info := system_info l; images := images l; images_seq := images_seq l |}.

Definition insert_system_info (row : SystemInfoRow) (l : Ledger) : Ledger :=
  {| messages := messages l; contacts := contacts l;
     system_info := system_info l ++ [row]; images := images l;
     images_seq := images_seq l |}.

(** [INSERT OR IGNORE INTO images (file_path, relative_path, source, metadata,
    caption_status)]: [Some id] is [lastrowid] when a row was inserted. *)
Definition insert_or_ignore_image (file_path relative_path source : string)
    (meta : metadata) (caption_status : string) (l : Ledger) : option Z * Ledger :=
  if existsb (fun r => String.eqb (i_file_path r) file_path) (images l) then (None, l)
  else
    let id := images_seq l + 1 in
    (Some id,
     set_images
       (images l ++
        [{| i_id := id; i_file_path := file_path;
            i_relative_path := Some relative_path;
            i_description := None; i_tags := None; i_detected_text := None;
            i_source := Some source; i_metadata := MetaJson meta;
            i_vector_id := None; i_caption_status := Some caption_status;
            i_caption_error := None; i_last_captioned_at := None |}])
       id l).

(** [SELECT id, caption_status, metadata FROM images WHERE file_path = ?]
    followed by [fetchone()]. *)
Definition select_image_by_path (file_path : string) (l : Ledger)
  : option (Z * option string * meta_cell) :=
  match List.find (fun r => String.eqb (i_file_path r) file_path) (images l) with
  | Some r => Some (i_id r, i_caption_status r, i_metadata r)
  | None => None
  end.

Definition update_image_rows (f : ImageRow -> ImageRow) (id : Z) (l : Ledger) : Ledger :=
  set_images (map (fun r => if i_id r =? id then f r else r) (images l)) (images_seq l) l.

(** The [SET] clauses of the four [UPDATE images] statements, on one row. *)
Definition with_inventory (relative_path source : string) (meta : metadata) (r : ImageRow) : ImageRow :=
  {| i_id := i_id r; i_file_path := i_file_path r;
     i_relative_path := Some relative_path;
     i_description := i_description r; i_tags := i_tags r;
     i_detected_text := i_detected_text r;
     i_source := Some source; i_metadata := MetaJson meta;
     i_vector_id := i_vector_id r; i_caption_status := i_caption_status r;
     i_caption_error := i_caption_error r;
     i_last_captioned_at := i_last_captioned_at r |}.

Definition with_status (caption_status : string) (r : ImageRow) : ImageRow :=
  {| i_id := i_id r; i_file_path := i_file_path r;
     i_relative_path := i_relative_path r;
     i_description := i_description r; i_tags := i_tags r;
     i_detected_text := i_detected_text r;
     i_source := i_source r; i_metadata := i_metadata r;
     i_vector_id := i_vector_id r; i_caption_status := Some caption_status;
     i_caption_error := i_caption_error r;
     i_last_captioned_at := i_last_captioned_at r |}.

Definition with_caption (description : string) (tags detected_text : option string)
    (vector_id caption_status last_captioned_at : string) (meta : metadata)
    (r : ImageRow) : ImageRow :=
  {| i_id := i_id r; i_file_path := i_file_path r;
     i_relative_path := i_relative_path r;
     i_description := Some description; i_tags := tags;
     i_detected_text := detected_text;
     i_source := i_source r; i_metadata := MetaJson meta;
     i_vector_id := Some vector_id; i_caption_status := Some caption_status;
     i_caption_error := None;
     i_last_captioned_at := Some last_captioned_at |}.

Definition with_failure (caption_status caption_error last_captioned_at : string)
    (r : ImageRow) : ImageRow :=
  {| i_id := i_id r; i_file_path := i_file_path r;
     i_relative_path := i_relative_path r;
     i_description := i_description r; i_tags := i_tags r;
     i_detected_text := i_detected_text r;
     i_source := i_source r; i_metadata := i_metadata r;
     i_vector_id := i_vector_id r; i_caption_status := Some caption_status;
     i_caption_error := Some caption_error;
     i_last_captioned_at := Some last_captioned_at |}.

(** [UPDATE images SET relative_path = ?, source = ?, metadata = ? WHERE id = ?] *)
Definition update_image_inventory (relative_path source : string) (meta : metadata)
    (id : Z) (l : Ledger) : Ledger :=
  update_image_rows (with_inventory relative_path source meta) id l.

(** [UPDATE images SET caption_status = ? WHERE id = ?] *)
Definition update_image_status (caption_status : string) (id : Z) (l : Ledger) : Ledger :=
  update_image_rows (with_status caption_status) id l.

(** [UPDATE images SET description = ?, tags = ?, detected_text = ?,
    vector_id = ?, caption_status = ?, caption_error = NULL,
    last_captioned_at = ?, metadata = ? WHERE id = ?]; aborts when the
    [vector_id] index would hold a duplicate. *)
Definition update_image_caption (description : string) (tags detected_text : option string)
    (vector_id caption_status last_captioned_at : string) (meta : metadata)
    (id : Z) (l : Ledger) : result Ledger :=
  let l' :=
    update_image_rows
      (with_caption description tags detected_text vector_id caption_status
         last_captioned_at meta) id l in
  if distinct (image_vector_ids (images l')) then Ok l'
  else Raise (mk_exn IntegrityError "UNIQUE constraint failed: images.vector_id").

(** [UPDATE images SET caption_status = ?, caption_error = ?,
    last_captioned_at = ? WHERE id = ?] *)
Definition update_image_failure (caption_status caption_error last_captioned_at : string)
    (id : Z) (l : Ledger) : Ledger :=
  update_image_rows (with_failure caption_status caption_error last_captioned_at) id l.

(** The constraints [_ensure_schema] declares. *)
Definition ledger_constraints (l : Ledger) : Prop :=
  distinct (message_vector_ids (messages l)) = true /\
  distinct (map i_file_path (images l)) = true /\
  distinct (image_vector_ids (images l)) = true /\
  Forall (fun r => i_id r <= images_seq l) (images l) /\
  NoDup (map i_id (images l)).

(** ** [services/graph.py]: the graph client *)

Definition null_person : Person :=
  {| p_raw_identifier := None; p_display_name := None; p_given_name := None;
     p_family_name := None; p_last_seen_source := None |}.

Definition opt_eqb (a b : option string) : bool :=
  match a, b with
  | Some x, Some y => String.eqb x y
  | _, _ => false   (* a comparison with null is not true *)
  end.

(** The Cypher statement of [register_person]:  [MERGE (p:Person {id: $id})]
    and the two [SET] clauses, the second reading what the first wrote. *)
Definition cypher_merge_person (id : string) (display_name given_name family_name : option string)
    (raw_identifier : string) (source : option string) (g : gmap string Person)
  : gmap string Person :=
  let p := default null_person (g !! id) in
  let raw := match p_raw_identifier p with
             | Some r => Some r
             | None => Some raw_identifier
             end in
  let is_null_or_empty (o : option string) :=
    match o with None => true | Some s => String.eqb s "" end in
  <[id :=
     {| p_raw_identifier := raw;
        p_last_seen_source := source;
        p_display_name :=
          match display_name, p_display_name p with
          | Some dn, None => Some dn
          | Some dn, Some old => if opt_eqb (Some old) raw then Some dn else Some old
          | None, old => old
          end;
        p_given_name :=
          match given_name with
          | Some gn => if is_null_or_empty (p_given_name p) then Some gn else p_given_name p
          | None => p_given_name p
          end;
        p_family_name :=
          match family_name with
          | Some fn => if is_null_or_empty (p_family_name p) then Some fn else p_family_name p
          | None => p_family_name p
          end |}]> g.

(** One [MERGE (x:Person {id})] of [register_message] with its [SET]. *)
Definition cypher_merge_endpoint (id : string) (label : string) (source : option string)
    (g : gmap string Person) : gmap string Person :=
  let p := default null_person (g !! id) in
  <[id :=
     {| p_raw_identifier := p_raw_identifier p;
        p_display_name := match p_display_name p with
                          | None => Some label
                          | Some old => Some old
                          end;
        p_given_name := p_given_name p;
        p_family_name := p_family_name p;
        p_last_seen_source := source |}]> g.

Definition log_call (c : GraphCall) (g : GraphDb) : GraphDb :=
  {| persons := persons g; relationships := relationships g; g_log := g_log g ++ [c] |}.

Definition tick : M nat :=
  fun w => (Ok (clock w), set_clock (S (clock w)) w).

(** [session.execute_write(_tx)] inside [try ... except Exception: return
    False]: the transaction applies [tx] or leaves the graph untouched. *)
Definition execute_write (E : Env) (tx : GraphDb -> GraphDb) : M bool :=
  let* n := tick in
  if neo4j_commits E n then
    let* _ := modify (fun w => set_graph (tx (graph w)) w) in ret true
  else ret false.

(** Python values as Cypher parameters: names read from a cell are passed
    as the text of the cell. *)
Definition param_of_val (v : sqlval) : option string :=
  match v with VNull => None | _ => Some (py_str v) end.

Definition register_person (E : Env) (identifier : string) (display_name : option string)
    (given_name family_name : sqlval) (raw_identifier : option string)
    (source : option string) : M bool :=
  let* _ := modify (fun w => set_graph (log_call (CallRegisterPerson identifier) (graph w)) w) in
  if negb (graph_enabled E) || String.eqb identifier "" then ret false
  else
    let raw := if truthy raw_identifier then default identifier raw_identifier else identifier in
    execute_write E (fun g =>
      {| persons := cypher_merge_person identifier display_name
                      (param_of_val given_name) (param_of_val family_name)
                      raw source (persons g);
         relationships := relationships g; g_log := g_log g |}).

Definition register_message (E : Env) (message_id sender_id receiver_id : string)
    (timestamp body conversation_id sender_label receiver_label source : option string)
  : M bool :=
  let* _ := modify (fun w =>
      set_graph (log_call (CallRegisterMessage message_id sender_id receiver_id) (graph w)) w) in
  if negb (graph_enabled E) then ret false
  else if String.eqb message_id "" || String.eqb sender_id "" || String.eqb receiver_id ""
  then ret false
  else
    let sender_label := if truthy sender_label then default sender_id sender_label else sender_id in
    let receiver_label := if truthy receiver_label then default receiver_id receiver_label else receiver_id in
    execute_write E (fun g =>
      {| persons := cypher_merge_endpoint receiver_id receiver_label source
                      (cypher_merge_endpoint sender_id sender_label source (persons g));
         relationships :=
           <[(sender_id, receiver_id, message_id) :=
              {| r_timestamp := timestamp; r_body := body;
                 r_conversation_id := conversation_id; r_source := source |}]>
             (relationships g);
         g_log := g_log g |}).

(** ** [services/ufdr_ingest.py]: graph registration *)

Definition _register_contact_with_graph (E : Env) (display_name : option string)
    (given_name family_name : sqlval) (phone_number email : option string)
    (source : string) : M unit :=
  if negb (graph_enabled E) then ret tt
  else
    let identifiers :=
      flat_map (fun raw =>
        match canonicalize_actor raw with
        | Some canonical =>
            if truthy (Some canonical)
            then [(canonical, default canonical (or_else raw (Some canonical)))]
            else []
        | None => []
        end) [phone_number; email] in
    let identifiers :=
      match identifiers, truthy display_name with
      | [], true =>
          match canonicalize_actor display_name with
          | Some canonical =>
              if truthy (Some canonical)
              then [(canonical, default canonical display_name)]
              else []
          | None => []
          end
      | _, _ => identifiers
      end in
    let preferred_name :=
      or_else display_name
        (or_else (compose_display_name given_name family_name)
           (match identifiers with
            | (_, raw) :: _ => Some raw
            | [] => None
            end)) in
    for_each identifiers (fun '(canonical, raw) (_ : unit) =>
      let* success :=
        register_person E canonical preferred_name given_name family_name
          (Some raw) (Some source) in
      if success then
        let* _ := modify (fun w =>
          let st := run_stats w in
          if bool_decide (canonical ∈ seen_contact_identifiers st) then w
          else set_run_stats
                 {| contacts_registered := contacts_registered st + 1;
                    relationships_registered := relationships_registered st;
                    seen_contact_identifiers := {[canonical]} ∪ seen_contact_identifiers st;
                    seen_message_ids := seen_message_ids st |} w) in
        let alias_value := or_else preferred_name (Some raw) in
        match alias_value with
        | Some a =>
            if truthy alias_value
            then modify (fun w => set_alias_map (<[canonical := a]> (alias_map w)) w)
            else ret tt
        | None => ret tt
        end
      else ret tt) tt.

Definition _register_message_with_graph (E : Env) (message_id : string)
    (sender receiver timestamp_iso message_body conversation_id : option string)
    (source : string) : M unit :=
  if negb (graph_enabled E) then ret tt
  else
    let sender_id := canonicalize_actor sender in
    let receiver_id := canonicalize_actor receiver in
    match sender_id, receiver_id with
    | Some sender_id, Some receiver_id =>
        if negb (truthy (Some sender_id)) || negb (truthy (Some receiver_id)) then ret tt
        else
          let* w := get_world in
          let sender_label :=
            default sender_id (or_else (alias_map w !! sender_id) (or_else sender (Some sender_id))) in
          let receiver_label :=
            default receiver_id (or_else (alias_map w !! receiver_id) (or_else receiver (Some receiver_id))) in
          let* success :=
            register_message E message_id sender_id receiver_id timestamp_iso message_body
              conversation_id (Some sender_label) (Some receiver_label) (Some source) in
          if success then
            let* _ := modify (fun w =>
              let st := run_stats w in
              if bool_decide (message_id ∈ seen_message_ids st) then w
              else set_run_stats
                     {| contacts_registered := contacts_registered st;
                        relationships_registered := relationships_registered st + 1;
                        seen_contact_identifiers := seen_contact_identifiers st;
                        seen_message_ids := {[message_id]} ∪ seen_message_ids st |} w) in
            modify (fun w =>
              set_alias_map
                (<[receiver_id := receiver_label]> (<[sender_id := sender_label]> (alias_map w))) w)
          else ret tt
    | _, _ => ret tt
    end.

(** ** [services/ufdr_ingest.py]: ledger ingestion *)

(** [l.append(x)] *)
Definition append {A} (l : list A) (x : A) : list A := (l ++ [x])%list.

Definition put_ledger (l : Ledger) : M unit := modify (set_ledger l).

(** [f"{db_path.name}:{table_name}:{payload.get('_rowid_')}"] *)
Definition message_external_id (db_path : Path) (table_name : string) (row : payload) : string :=
  path_name db_path ++ ":" ++ table_name ++ ":" ++ py_str (payload_get row "_rowid_").

(** [vector_id = None; if message_body and message_body.strip(): vector_id =
    f"msg:{external_id}"] *)
Definition message_vector_id (message_body : option string) (external_id : string) : option string :=
  match message_body with
  | Some body =>
      if truthy message_body && negb (String.eqb (strip body) "")
      then Some ("msg:" ++ external_id) else None
  | None => None
  end.

(** The fields of one source row, as the first half of the loop body of
    [_ingest_messages_from_table] computes them. *)
Definition build_message_row (E : Env) (db_path : Path) (table_name : string)
    (columns : list string) (row : list sqlval) : result MessageRow :=
  let payload := make_payload columns row in
  let message_body := _pick_first_value payload TEXT_FIELDS in
  let timestamp_raw := _pick_first_value payload TIMESTAMP_FIELDS in
  match _safe_parse_timestamp E timestamp_raw with
  | Raise e => Raise e
  | Ok timestamp_iso =>
      let sender := _pick_first_value payload SENDER_FIELDS in
      let receiver := _pick_first_value payload RECEIVER_FIELDS in
      let conversation_id := _pick_first_value payload CONVERSATION_FIELDS in
      let direction := _pick_first_value payload DIRECTION_FIELDS in
      let message_type := _pick_first_value payload MESSAGE_TYPE_FIELDS in
      let external_id := message_external_id db_path table_name payload in
      let vector_id := message_vector_id message_body external_id in
      Ok {| m_external_id := external_id; m_conversation_id := conversation_id;
            m_sender := sender; m_receiver := receiver; m_timestamp := timestamp_iso;
            m_body := message_body; m_direction := direction;
            m_message_type := message_type;
            m_attachments := payload_get payload "attachments";
            m_source := path_str db_path; m_raw_data := payload;
            m_vector_id := vector_id |}
  end.

(** The [INSERT OR IGNORE] of the loop body and the [UPDATE] that follows an
    ignored insert of a row with a [vector_id].  Returns [inserted]. *)
Definition store_message (row : MessageRow) (l : Ledger) : result (bool * Ledger) :=
  let '(inserted, l) := insert_or_ignore_message row l in
  if inserted then Ok (true, l)
  else
    match m_vector_id row with
    | Some v =>
        match update_message_vector_id v (m_external_id row) l with
        | Ok l' => Ok (false, l')
        | Raise e => Raise e
        end
    | None => Ok (false, l)
    end.

(** The body of the row loop of [_ingest_messages_from_table]; the
    accumulator is [(ingested, embedding_records)]. *)
Definition ingest_message_row (E : Env) (db_path : Path) (table_name : string)
    (columns : list string) (row : list sqlval)
    (acc : Z * list EmbeddingRecord) : M (Z * list EmbeddingRecord) :=
  let '(ingested, embedding_records) := acc in
  let* message := lift (build_message_row E db_path table_name columns row) in
  let* w := get_world in
  let* (inserted, l) := lift (store_message message (ledger w)) in
  let* _ := put_ledger l in
  let ingested := if inserted then ingested + 1 else ingested in
  let* _ :=
    _register_message_with_graph E (m_external_id message) (m_sender message)
      (m_receiver message) (m_timestamp message) (m_body message)
      (m_conversation_id message) (path_str db_path) in
  match m_vector_id message with
  | Some v =>
      let metadata : gmap string string :=
        list_to_map
          [("external_id", m_external_id message);
           ("conversation_id", default "" (or_else (m_conversation_id message) (Some "")));
           ("sender", default "" (or_else (m_sender message) (Some "")));
           ("receiver", default "" (or_else (m_receiver message) (Some "")));
           ("timestamp", default "" (or_else (m_timestamp message) (Some "")));
           ("source", path_str db_path);
           ("table", table_name)] in
      ret (ingested,
           append embedding_records
             {| er_vector_id := v; er_text := default "" (m_body message);
                er_metadata := metadata |})
  | None => ret (ingested, embedding_records)
  end.

(** [connection.execute(f"SELECT rowid AS _rowid_, * FROM '{table_name}'")]
    and [cursor.fetchall()], before the ledger is opened. *)
Definition select_rows (table : SqliteTable) : result (list (list sqlval)) :=
  match tbl_select_error table with
  | Some e => Raise e
  | None => Ok (tbl_rows table)
  end.

Definition _ingest_messages_from_table (E : Env) (db_path : Path) (table : SqliteTable)
  : M (Z * list EmbeddingRecord) :=
  let* rows := lift (select_rows table) in
  match rows with
  | [] => ret (0, [])
  | _ =>
      with_connection
        (for_each rows
           (ingest_message_row E db_path (tbl_name table) (tbl_columns table))
           (0, []))
  end.

Definition any_in (fields lowered : list string) : bool :=
  existsb (fun field => existsb (String.eqb field) lowered) fields.

Definition _looks_like_message_table (columns : list string) : bool :=
  let lowered := map lower columns in
  any_in TEXT_FIELDS lowered && any_in TIMESTAMP_FIELDS lowered.

Definition _looks_like_contact_table (columns : list string) : bool :=
  let lowered := map lower columns in
  (any_in ["contact"] lowered || any_in ["first"; "last"; "name"] lowered)
  && any_in ["phone"; "number"; "email"; "address"] lowered.

(** [name NOT LIKE 'sqlite_%'] fails for [sqlite], one more character, and
    anything after, in any case. *)
Definition is_reserved_table (name : string) : bool :=
  startswith (lower name) "sqlite" && (7 <=? String.length name)%nat.

(** [list(_iter_user_tables(connection))] on a file opened read-only.  The
    list is built before the first table is read, so the first
    [PRAGMA table_info] that raises fails the whole file; [FUnreadable] is a
    file for which [sqlite3.connect] or the query on [sqlite_master] raises. *)
Definition _iter_user_tables (content : FileContent) : result (list SqliteTable) :=
  match content with
  | FSqlite tables =>
      let user_tables :=
        List.filter (fun t => negb (is_reserved_table (tbl_name t))) tables in
      match somes (map tbl_info_error user_tables) with
      | e :: _ => Raise e
      | [] => Ok user_tables
      end
  | FUnreadable e => Raise e
  | _ => Raise (mk_exn DatabaseError "file is not a database")
  end.

Definition ingest_messages_from_sqlite (E : Env) (db_path : Path) (content : FileContent)
  : M (Z * list EmbeddingRecord) :=
  let* tables := lift (_iter_user_tables content) in
  for_each tables
    (fun table '(total_ingested, embedding_records) =>
       if negb (_looks_like_message_table (tbl_columns table))
       then ret (total_ingested, embedding_records)
       else
         let* (processed, records) := _ingest_messages_from_table E db_path table in
         ret (total_ingested + processed, (embedding_records ++ records)%list))
    (0, []).

Definition ingest_contact_row (E : Env) (db_path : Path) (table_name : string)
    (columns : list string) (row : list sqlval) (ingested : Z) : M Z :=
  let payload := make_payload columns row in
  let display_name :=
    or_else (_pick_first_value payload ["display_name"; "name"; "full_name"; "fullname"])
            (_compose_display_name payload) in
  let given_name :=
    or_val (payload_get payload "first")
      (or_val (payload_get payload "given") (payload_get payload "firstname")) in
  let family_name :=
    or_val (payload_get payload "last")
      (or_val (payload_get payload "surname") (payload_get payload "lastname")) in
  let phone_number :=
    _pick_first_value payload
      ["phone"; "phone_number"; "number"; "mobile"; "msisdn"; "home"; "work"] in
  let email := _pick_first_value payload ["email"; "email_address"; "mail"] in
  let* _ := modify (fun w =>
    set_ledger
      (insert_contact
         {| c_external_id :=
              path_name db_path ++ ":" ++ table_name ++ ":"
              ++ py_str (payload_get payload "_rowid_");
            c_display_name := display_name;
            c_given_name := given_name; c_family_name := family_name;
            c_phone_number := phone_number; c_email := email;
            c_source := path_str db_path; c_raw_data := payload |}
         (ledger w)) w) in
  let* _ :=
    _register_contact_with_graph E display_name given_name family_name
      phone_number email (path_str db_path) in
  ret (ingested + 1).

Definition _ingest_contacts_from_table (E : Env) (db_path : Path) (table : SqliteTable) : M Z :=
  let* rows := lift (select_rows table) in
  match rows with
  | [] => ret 0
  | _ =>
      with_connection
        (for_each rows
           (ingest_contact_row E db_path (tbl_name table) (tbl_columns table)) 0)
  end.

Definition ingest_contacts_from_sqlite (E : Env) (db_path : Path) (content : FileContent) : M Z :=
  let* tables := lift (_iter_user_tables content) in
  for_each tables
    (fun table total_ingested =>
       if negb (_looks_like_contact_table (tbl_columns table)) then ret total_ingested
       else
         let* processed := _ingest_contacts_from_table E db_path table in
         ret (total_ingested + processed))
    0.

(** [ET.parse(xml_path)] and [root.findall(".//contact")] *)
Definition parse_contacts_xml (content : FileContent) : result (list XmlContact) :=
  match content with
  | FXml contacts => Ok contacts
  | FUnreadable e => Raise e
  | _ => Raise (mk_exn ParseError "syntax error: line 1, column 0")
  end.

Definition ingest_contacts_from_xml (E : Env) (xml_path : Path) (content : FileContent) : M Z :=
  let* contact_elems := lift (parse_contacts_xml content) in
  with_connection
    (for_each contact_elems
       (fun contact_elem count =>
          let display_name := xc_display_name contact_elem in
          let given_name := xc_first_name contact_elem in
          let family_name := xc_last_name contact_elem in
          let phone_number := xc_phone contact_elem in
          let email := xc_email contact_elem in
          let raw_data : payload :=
            fold_left (fun acc '(tag, text) => <[tag := val_of_opt text]> acc)
              (xc_children contact_elem) ∅ in
          let* _ := modify (fun w =>
            set_ledger
              (insert_contact
                 {| c_external_id := path_name xml_path ++ ":" ++ str_of_Z count;
                    c_display_name := display_name;
                    c_given_name := val_of_opt given_name;
                    c_family_name := val_of_opt family_name;
                    c_phone_number := phone_number; c_email := email;
                    c_source := path_str xml_path; c_raw_data := raw_data |}
                 (ledger w)) w) in
          let* _ :=
            _register_contact_with_graph E display_name (val_of_opt given_name)
              (val_of_opt family_name) phone_number email (path_str xml_path) in
          ret (count + 1))
       0).

(** [_flatten] of [ingest_system_info_from_plist] *)
Fixpoint _flatten (prefix : string) (value : plist) : list (string * string) :=
  match value with
  | PDict items =>
      (fix over_items (items : list (string * plist)) : list (string * string) :=
         match items with
         | [] => []
         | (key, nested_value) :: rest =>
             let nested_prefix :=
               if negb (String.eqb prefix "") then prefix ++ "." ++ key else key in
             (_flatten nested_prefix nested_value ++ over_items rest)%list
         end) items
  | PList items =>
      (fix over_items (index : Z) (items : list plist) : list (string * string) :=
         match items with
         | [] => []
         | nested_value :: rest =>
             let nested_prefix := prefix ++ "[" ++ str_of_Z index ++ "]" in
             (_flatten nested_prefix nested_value ++ over_items (index + 1) rest)%list
         end) 0 items
  | PLeaf text => [(prefix, text)]
  end.

(** [plistlib.load(handle)] *)
Definition load_plist (content : FileContent) : result plist :=
  match content with
  | FPlist tree => Ok tree
  | FUnreadable e => Raise e
  | _ => Raise (mk_exn ValueError "Invalid file")
  end.

Definition ingest_system_info_from_plist (E : Env) (plist_path : Path) (content : FileContent) : M Z :=
  let* plist_data := lift (load_plist content) in
  let flattened := _flatten "" plist_data in
  with_connection
    (for_each flattened
       (fun '(key, value) count =>
          let* _ := modify (fun w =>
            set_ledger
              (insert_system_info
                 {| s_info_key := key; s_info_value := value;
                    s_category := path_stem plist_path;
                    s_source := path_str plist_path |} (ledger w)) w) in
          ret (count + 1))
       0).

(** ** Image inventory and captioning *)

Definition _build_image_metadata (E : Env) (image_path relative_path extraction_dir : Path) : metadata :=
  let meta : metadata :=
    <["extraction_id" := JStr (path_name extraction_dir)]>
      (<["relative_path" := JStr (path_str relative_path)]>
         (<["file_path" := JStr (path_str image_path)]> ∅)) in
  let meta :=
    match stat_file E image_path with
    | Some (size, mtime, ctime) =>
        <["created_at" := JStr ctime]>
          (<["modified_at" := JStr mtime]> (<["size_bytes" := JInt size]> meta))
    | None => meta
    end in
  match guess_mime_type E (path_str image_path) with
  | Some mime_type =>
      if negb (String.eqb mime_type "") then <["mime_type" := JStr mime_type]> meta
      else if existsb (String.eqb (lower (path_suffix image_path))) [".heic"; ".heif"]
      then <["mime_type" := JStr "image/heic"]> meta else meta
  | None =>
      if existsb (String.eqb (lower (path_suffix image_path))) [".heic"; ".heif"]
      then <["mime_type" := JStr "image/heic"]> meta else meta
  end.

(** [{**existing_metadata, **metadata}] *)
Definition dict_merge (existing new : metadata) : metadata := new ∪ existing.

(** The body of the loop of [log_image_inventory]; the accumulator is
    [(records, seen_paths, processed)]. *)
Definition log_image (E : Env) (extraction_dir image_path : Path)
    (acc : list ImageInventoryRecord * gset string * Z)
  : M (list ImageInventoryRecord * gset string * Z) :=
  let '(records, seen_paths, processed) := acc in
  let normalized_path := path_str image_path in
  if bool_decide (normalized_path ∈ seen_paths) then ret acc
  else
    let seen_paths := {[normalized_path]} ∪ seen_paths in
    let processed := processed + 1 in
    let relative_path := default image_path (relative_to image_path extraction_dir) in
    let meta := _build_image_metadata E image_path relative_path extraction_dir in
    let* w := get_world in
    match insert_or_ignore_image normalized_path (path_str relative_path) "ufdr"
            meta "pending" (ledger w) with
    | (Some image_id, l) =>
        let* _ := put_ledger l in
        ret ((records ++
              [{| ir_id := image_id; ir_file_path := image_path;
                  ir_relative_path := relative_path; ir_metadata := meta |}])%list,
             seen_paths, processed)
    | (None, l) =>
        match select_image_by_path normalized_path l with
        | None => ret (records, seen_paths, processed)
        | Some (image_id, existing_status, existing_cell) =>
            let existing_status := default "" (or_else existing_status (Some "")) in
            let existing_metadata : metadata :=
              match existing_cell with
              | MetaJson m => m
              | MetaInvalid _ => ∅
              | MetaNull => ∅
              end in
            let merged_metadata := dict_merge existing_metadata meta in
            let l := update_image_inventory (path_str relative_path) "ufdr"
                       merged_metadata image_id l in
            if negb (String.eqb (lower existing_status) "done") then
              let* _ := put_ledger (update_image_status "pending" image_id l) in
              ret ((records ++
                    [{| ir_id := image_id; ir_file_path := image_path;
                        ir_relative_path := relative_path;
                        ir_metadata := merged_metadata |}])%list,
                   seen_paths, processed)
            else
              let* _ := put_ledger l in
              ret (records, seen_paths, processed)
        end
    end.

Definition log_image_inventory (E : Env) (image_paths : list Path) (extraction_dir : Path)
  : M (Z * list ImageInventoryRecord) :=
  match image_paths with
  | [] => ret (0, [])
  | _ =>
      with_connection
        (let* (records, _, processed) :=
           for_each image_paths (log_image E extraction_dir) ([], ∅, 0) in
         ret (processed, records))
  end.

(** [", ".join(tags) if tags else None] *)
Definition tag_string_of (tags : list string) : option string :=
  match tags with
  | [] => None
  | _ => Some (join ", " tags)
  end.

(** [vector_id = f"img:{record.id}"] *)
Definition caption_vector_id (record : ImageInventoryRecord) : string :=
  "img:" ++ str_of_Z (ir_id record).

(** [metadata_update] of the [try] block *)
Definition caption_metadata (record : ImageInventoryRecord) (description : ImageDescription)
  : metadata :=
  let metadata_update : metadata :=
    <["caption" := JStr (d_caption description)]>
      (<["tags" := JList (d_tags description)]> (ir_metadata record)) in
  match d_detected_text description with
  | Some t => if truthy (Some t) then <["detected_text" := JStr t]> metadata_update
              else metadata_update
  | None => metadata_update
  end.

(** The [EmbeddingRecord] of the [try] block *)
Definition caption_embedding (record : ImageInventoryRecord) (description : ImageDescription)
  : EmbeddingRecord :=
  let tags_part : list string :=
    match d_tags description with
    | [] => []
    | tags => ["Tags: " ++ join ", " tags]
    end in
  let detected_part : list string :=
    match d_detected_text description with
    | Some t => if truthy (Some t) then ["Detected text: " ++ t] else []
    | None => []
    end in
  let embedding_text_parts := ([d_caption description] ++ tags_part ++ detected_part)%list in
  let embedding_text := join (String "010"%char "") embedding_text_parts in
  let embedding_metadata : gmap string string :=
    list_to_map
      [("type", "image");
       ("image_id", str_of_Z (ir_id record));
       ("relative_path", path_str (ir_relative_path record));
       ("source", "ufdr");
       ("caption_source", "gemini_vision")] in
  let embedding_metadata := <["caption" := slice_to 256 (d_caption description)]> embedding_metadata in
  let embedding_metadata :=
    match d_tags description with
    | [] => embedding_metadata
    | tags => <["tags" := join ", " tags]> embedding_metadata
    end in
  {| er_vector_id := caption_vector_id record; er_text := embedding_text;
     er_metadata := embedding_metadata |}.

(** The [try] block of the loop of [describe_and_index_images]. *)
Definition caption_image (E : Env) (record : ImageInventoryRecord) (timestamp_iso : string)
    (n : nat) (acc : Z * list EmbeddingRecord) : M (Z * list EmbeddingRecord) :=
  let '(successes, embeddings) := acc in
  let* description := lift (describe_image E n (ir_file_path record)) in
  let tag_string := tag_string_of (d_tags description) in
  let vector_id := caption_vector_id record in
  let metadata_update := caption_metadata record description in
  let* w := get_world in
  let* l := lift (update_image_caption (d_caption description) tag_string
                    (d_detected_text description) vector_id "done" timestamp_iso
                    metadata_update (ir_id record) (ledger w)) in
  let* _ := put_ledger l in
  let successes := successes + 1 in
  ret (successes, append embeddings (caption_embedding record description)).

(** The body of the loop of [describe_and_index_images]: [try] the
    captioning, and on any exception mark the row failed. *)
Definition describe_one (E : Env) (record : ImageInventoryRecord)
    (acc : Z * list EmbeddingRecord) : M (Z * list EmbeddingRecord) :=
  let* n := tick in
  let timestamp_iso := now_isoformat E n in
  try_except (caption_image E record timestamp_iso n acc) [Exception]
    (fun exc =>
       let* _ := modify (fun w =>
         set_ledger
           (update_image_failure "failed" (slice_to 512 (exn_msg exc)) timestamp_iso
              (ir_id record) (ledger w)) w) in
       ret acc).

Definition describe_and_index_images (E : Env) (records : list ImageInventoryRecord)
  : M (Z * list EmbeddingRecord) :=
  match records with
  | [] => ret (0, [])
  | _ =>
      let* _ := match vision_client E with
                | Some e => raise e
                | None => ret tt
                end in
      with_connection (for_each records (describe_one E) (0, []))
  end.

(** ** Embedding indexer *)

(** [collection.upsert(ids, embeddings, metadatas, documents)]: the entry of
    an id is replaced; a later duplicate of the batch wins. *)
Fixpoint chroma_store (ids : list string) (embeddings : list (list float))
    (metadatas : list (gmap string string)) (documents : list string)
    (store : gmap string VectorEntry) : gmap string VectorEntry :=
  match ids, embeddings, metadatas, documents with
  | id :: ids', e :: embeddings', m :: metadatas', d :: documents' =>
      chroma_store ids' embeddings' metadatas' documents'
        (<[id := {| ve_embedding := e; ve_metadata := m; ve_document := d |}]> store)
  | _, _, _, _ => store
  end.

(** [VECTOR_STORE.upsert] *)
Definition vector_store_upsert (E : Env) (ids : list string) (embeddings : list (list float))
    (metadatas : list (gmap string string)) (documents : list string) : M unit :=
  if negb (vector_enabled E) then ret tt
  else
    match chroma_upsert E ids with
    | Some e => raise e
    | None =>
        if negb (length embeddings =? length ids)%nat
        then raise (mk_exn ValueError "Unequal lengths for fields")
        else modify (fun w =>
               set_vectors (chroma_store ids embeddings metadatas documents (vectors w)) w)
    end.

(** [encode_texts] of [services/embedding.py] *)
Definition encode_texts (E : Env) (texts : list string) : result (list (list float)) :=
  match texts with
  | [] => Ok []
  | _ => embedder_encode E texts
  end.

Definition _index_embeddings (E : Env) (records : list EmbeddingRecord) : M unit :=
  match records with
  | [] => ret tt
  | _ =>
      if negb (vector_enabled E) then ret tt
      else
        let texts := map er_text records in
        let* embeddings := lift (encode_texts E texts) in
        match embeddings with
        | [] => ret tt
        | _ =>
            let ids := map er_vector_id records in
            let metadatas := map er_metadata records in
            vector_store_upsert E ids embeddings metadatas texts
        end
  end.

(** ** Archive intake ([utils/file_ops.py]) and the orchestrator *)

(** An upload as the orchestrator meets it: the file name, what writing the
    archive to disk does ([Some (enospc, text)] for an [OSError]), and what
    opening and extracting the zip gives: the members in the order the tree
    is walked, each with what reading it gives. *)
Record Upload : Type := {
  up_filename : option string;
  up_write_error : option (bool * string);
  up_extract : result (list (Path * FileContent))
}.

(** Paths classified by [discover_sources], each paired with the content of
    the file. *)
Record UFDRSources : Type := {
  report : option Path;
  message_dbs : list (Path * FileContent);
  contact_dbs : list (Path * FileContent);
  contact_xml_files : list (Path * FileContent);
  system_plists : list (Path * FileContent);
  image_files : list Path
}.

(** [persist_upload]: [unique_id] is [uuid.uuid4().hex]. *)
Definition persist_upload (E : Env) (upload : Upload) (unique_id : string) : result (Path * Path) :=
  let archive_filename :=
    match up_filename upload with
    | Some f => if truthy (Some f) then unique_id ++ "_" ++ f else unique_id ++ ".ufdr"
    | None => unique_id ++ ".ufdr"
    end in
  let archive_path := path_join (uploads_dir E) archive_filename in
  let extraction_dir := path_join (extracted_dir E) unique_id in
  match up_write_error upload with
  | Some (true, _) =>
      Raise (mk_exn UploadStorageFullError "Insufficient disk space while saving UFDR upload")
  | Some (false, text) =>
      Raise (mk_exn UploadPersistenceError ("Failed writing UFDR upload to disk: " ++ text))
  | None => Ok (archive_path, extraction_dir)
  end.

Definition add_message_db (x : Path * FileContent) (s : UFDRSources) : UFDRSources :=
  {| report := report s; message_dbs := message_dbs s ++ [x];
     contact_dbs := contact_dbs s; contact_xml_files := contact_xml_files s;
     system_plists := system_plists s; image_files := image_files s |}.

Definition add_contact_db (x : Path * FileContent) (s : UFDRSources) : UFDRSources :=
  {| report := report s; message_dbs := message_dbs s;
     contact_dbs := contact_dbs s ++ [x]; contact_xml_files := contact_xml_files s;
     system_plists := system_plists s; image_files := image_files s |}.

Definition add_contact_xml (x : Path * FileContent) (s : UFDRSources) : UFDRSources :=
  {| report := report s; message_dbs := message_dbs s;
     contact_dbs := contact_dbs s; contact_xml_files := contact_xml_files s ++ [x];
     system_plists := system_plists s; image_files := image_files s |}.

Definition add_system_plist (x : Path * FileContent) (s : UFDRSources) : UFDRSources :=
  {| report := report s; message_dbs := message_dbs s;
     contact_dbs := contact_dbs s; contact_xml_files := contact_xml_files s;
     system_plists := system_plists s ++ [x]; image_files := image_files s |}.

Definition add_image_file (x : Path) (s : UFDRSources) : UFDRSources :=
  {| report := report s; message_dbs := message_dbs s;
     contact_dbs := contact_dbs s; contact_xml_files := contact_xml_files s;
     system_plists := system_plists s; image_files := image_files s ++ [x] |}.

(** One step of the walk of [discover_sources]. *)
Definition classify_file (x : Path * FileContent) (sources : UFDRSources) : UFDRSources :=
  let path := fst x in
  let suffix := lower (path_suffix path) in
  let name_lower := lower (path_name path) in
  if existsb (String.eqb suffix) [".sqlite"; ".db"] then
    if existsb (fun keyword => contains keyword name_lower)
         ["sms"; "message"; "chat"; "imessage"; "mms"; "whatsapp"]
    then add_message_db x sources
    else if contains "contact" name_lower || contains "addressbook" name_lower
    then add_contact_db x sources
    else sources
  else if String.eqb suffix ".xml" && contains "contact" name_lower
  then add_contact_xml x sources
  else if String.eqb suffix ".plist" then add_system_plist x sources
  else if existsb (String.eqb suffix) IMAGE_EXTENSIONS then add_image_file path sources
  else sources.

Definition discover_sources (tree : list (Path * FileContent)) (report_path : option Path)
  : UFDRSources :=
  fold_left (fun sources x => classify_file x sources) tree
    {| report := report_path; message_dbs := []; contact_dbs := [];
       contact_xml_files := []; system_plists := []; image_files := [] |}.

(** [path.relative_to(extraction_dir)] as a note shows it; a [ValueError]
    when the path is not below the directory. *)
Definition relative_note (path extraction_dir : Path) : result string :=
  match relative_to path extraction_dir with
  | Some rel => Ok (path_str rel)
  | None =>
      Raise (mk_exn ValueError
               (path_str path ++ " is not in the subpath of " ++ path_str extraction_dir))
  end.

(** The note of a source that failed: [f"... {path.name}: {exc}"] *)
Definition failure_note (failed : string) (path : Path) (exc : exn) : string :=
  failed ++ path_name path ++ ": " ++ exn_msg exc.

(** The body of the loop over [sources.message_dbs]. *)
Definition message_db_step (E : Env) (extraction_dir : Path) (file : Path * FileContent)
    (acc : Z * list EmbeddingRecord * list string)
  : M (Z * list EmbeddingRecord * list string) :=
  let '(database_path, content) := file in
  let '(messages_ingested, message_embedding_records, notes) := acc in
  try_except
    (let* (processed, embeddings) :=
       ingest_messages_from_sqlite E database_path content in
     let messages_ingested := messages_ingested + processed in
     let message_embedding_records := (message_embedding_records ++ embeddings)%list in
     match relative_note database_path extraction_dir with
     | Ok rel =>
         ret (messages_ingested, message_embedding_records,
              append notes ("Parsed " ++ str_of_Z processed ++ " messages from " ++ rel))
     | Raise exc =>
         ret (messages_ingested, message_embedding_records,
              append notes (failure_note "Failed parsing messages from " database_path exc))
     end)
    [Exception]
    (fun exc =>
       ret (messages_ingested, message_embedding_records,
            append notes (failure_note "Failed parsing messages from " database_path exc))).

Definition ingest_message_dbs (E : Env) (extraction_dir : Path)
    (dbs : list (Path * FileContent)) (notes : list string)
  : M (Z * list EmbeddingRecord * list string) :=
  for_each dbs (message_db_step E extraction_dir) (0, [], notes).

(** The three remaining per-source loops have one shape: a count is added
    and a note appended. *)
Definition counted_step (extraction_dir : Path)
    (ingest_one : Path -> FileContent -> M Z) (what failed : string)
    (file : Path * FileContent) (acc : Z * list string) : M (Z * list string) :=
  let '(path, content) := file in
  let '(total, notes) := acc in
  try_except
    (let* processed := ingest_one path content in
     let total := total + processed in
     match relative_note path extraction_dir with
     | Ok rel =>
         ret (total, append notes ("Parsed " ++ str_of_Z processed ++ " " ++ what
                                ++ " from " ++ rel))
     | Raise exc => ret (total, append notes (failure_note failed path exc))
     end)
    [Exception]
    (fun exc => ret (total, append notes (failure_note failed path exc))).

Definition ingest_counted (extraction_dir : Path)
    (ingest_one : Path -> FileContent -> M Z) (what failed : string)
    (files : list (Path * FileContent)) (acc : Z * list string) : M (Z * list string) :=
  for_each files (counted_step extraction_dir ingest_one what failed) acc.

(** [extract_archive], [find_report_file] and [discover_sources] on the
    members of the archive, each placed under the extraction directory. *)
Definition classify_archive (extraction_dir : Path) (members : list (Path * FileContent))
  : UFDRSources :=
  let tree := map (fun '(rel, content) => (path_concat extraction_dir rel, content)) members in
  let report_path :=
    List.find (fun p => String.eqb (path_name p) "report.xml") (map fst tree) in
  discover_sources tree report_path.

Definition nat_str (n : nat) : string := str_of_Z (Z.of_nat n).

(** The captioning step of the orchestrator: [if new_images: try: ...
    except Exception]. *)
Definition caption_step (E : Env) (new_images : list ImageInventoryRecord)
    (notes : list string) : M (Z * list EmbeddingRecord * list string) :=
  match new_images with
  | [] => ret (0, [], notes)
  | _ =>
      try_except
        (let* (images_captioned, image_embedding_records) :=
           describe_and_index_images E new_images in
         if negb (images_captioned =? 0) then
           ret (images_captioned, image_embedding_records,
                append notes ("Generated captions for " ++ str_of_Z images_captioned
                           ++ " images"))
         else
           ret (images_captioned, image_embedding_records,
                append notes ("No image captions generated across "
                           ++ nat_str (length new_images)
                           ++ " attempts; review logs for vision errors")))
        [Exception]
        (fun exc => ret (0, [], append notes ("Image captioning failed: " ++ exn_msg exc)))
  end.

(** The embedding step of the orchestrator: [if VECTOR_STORE.is_enabled():
    ... try: _index_embeddings(combined_records) ... except RuntimeError]. *)
Definition index_step (E : Env) (message_embedding_records image_embedding_records
    : list EmbeddingRecord) (notes : list string) : M (list string) :=
  if vector_enabled E then
    let combined_records := (message_embedding_records ++ image_embedding_records)%list in
    match combined_records with
    | [] =>
        ret (append notes ("Vector store enabled but no content suitable for embeddings was found"))
    | _ =>
        try_except
          (let* _ := _index_embeddings E combined_records in
           let detail :=
             match message_embedding_records, image_embedding_records with
             | _ :: _, _ :: _ =>
                 nat_str (length message_embedding_records) ++ " messages and "
                 ++ nat_str (length image_embedding_records) ++ " images"
             | _ :: _, [] => nat_str (length message_embedding_records) ++ " messages"
             | [], _ => nat_str (length image_embedding_records) ++ " images"
             end in
           ret (append notes ("Stored embeddings for " ++ detail)))
          [RuntimeError]
          (fun exc => ret (append notes ("Vector store indexing failed: " ++ exn_msg exc)))
    end
  else
    ret (append notes ("Vector store disabled; set VECTOR_STORE_ENABLED=1 to enable embeddings")).

Definition ingest_ufdr_archive (E : Env) (upload : Upload) (unique_id : string)
  : M IngestionSummary :=
  if negb (truthy (up_filename upload)) then
    raise (mk_exn (HTTPException 400) "Uploaded file is missing a filename")
  else
  match persist_upload E upload unique_id with
  | Raise exc =>
      if caught_by [UploadStorageFullError] exc then
        raise (mk_exn (HTTPException 507)
                 "Uploads storage is full. Clear old ingests in storage/uploads or free disk space before retrying.")
      else if caught_by [UploadPersistenceError] exc then
        raise (mk_exn (HTTPException 500) (exn_msg exc))
      else raise exc
  | Ok (archive_path, extraction_dir) =>
  match up_extract upload with
  | Raise exc =>
      if caught_by [BadZipFile] exc then
        raise (mk_exn (HTTPException 400) "UFDR archive is corrupt or not a valid ZIP")
      else raise exc
  | Ok members =>
  let sources := classify_archive extraction_dir members in
  let notes : list string := [] in
  let* _ := modify (set_alias_map ∅) in
  let* _ := modify (set_run_stats new_GraphStats) in
  let notes :=
    match message_dbs sources, contact_dbs sources with
    | [], [] =>
        append notes ("No obvious message or contact databases were discovered. Review the extraction manually.")
    | _, _ => notes
    end in
  let* (messages_ingested, message_embedding_records, notes) :=
    ingest_message_dbs E extraction_dir (message_dbs sources) notes in
  let* (contacts_ingested, notes) :=
    ingest_counted extraction_dir (ingest_contacts_from_sqlite E) "contacts"
      "Failed parsing contacts from " (contact_dbs sources) (0, notes) in
  let* (contacts_ingested, notes) :=
    ingest_counted extraction_dir (ingest_contacts_from_xml E) "contacts"
      "Failed parsing contacts XML " (contact_xml_files sources) (contacts_ingested, notes) in
  let* (system_records_ingested, notes) :=
    ingest_counted extraction_dir (ingest_system_info_from_plist E) "system records"
      "Failed parsing system plist " (system_plists sources) (0, notes) in
  let* (image_count, new_images) :=
    log_image_inventory E (image_files sources) extraction_dir in
  let notes :=
    if negb (image_count =? 0)
    then append notes ("Logged " ++ str_of_Z image_count
                    ++ " image references for Phase 3 processing")
    else notes in
  let* (images_captioned, image_embedding_records, notes) :=
    caption_step E new_images notes in
  let* notes :=
    index_step E message_embedding_records image_embedding_records notes in
  let* w := get_world in
  let graph_stats := run_stats w in
  let notes :=
    if graph_enabled E then
      if negb (contacts_registered graph_stats =? 0)
         || negb (relationships_registered graph_stats =? 0)
      then append notes ("Neo4j graph updated (" ++ str_of_Z (contacts_registered graph_stats)
                      ++ " contacts, " ++ str_of_Z (relationships_registered graph_stats)
                      ++ " message links)")
      else append notes ("Neo4j graph integration enabled; no new contacts or message links were added")
    else append notes ("Neo4j integration skipped (set NEO4J_ENABLED=1 and install Phase 2 requirements to enable)") in
  ret {| archive_name := default "" (up_filename upload);
         extraction_id := path_name extraction_dir;
         notes := notes;
         messages_ingested := messages_ingested;
         contacts_ingested := contacts_ingested;
         system_records_ingested := system_records_ingested;
         images_logged := image_count;
         images_captioned := images_captioned |}
  end end.

(** ** The normalisers as the specification words them *)

(** "strip a leading [tel:] prefix (case-insensitive)" *)
Definition tel_remainder (trimmed : string) : string :=
  if startswith (lower trimmed) "tel:" then slice_from 4 trimmed else trimmed.

Inductive identity : Type :=
  | EmailIdentity (address : string)
  | PhoneIdentity (plus : bool) (digits : string)
  | FallbackIdentity (text : string).

Definition render_identity (i : identity) : string :=
  match i with
  | EmailIdentity address => address
  | PhoneIdentity plus digits => (if plus then "+" else "") ++ digits
  | FallbackIdentity text => text
  end.

(** "if the remainder contains [@], return it lowercased; else extract digit
    characters only, prefixing [+] iff [plus_from] began with [+]; if no
    digits remain and no [@] was present, return the trimmed value
    lowercased" *)
Definition classify_actor (plus_from remainder : string) : identity :=
  if contains_char "@" remainder then EmailIdentity (lower remainder)
  else
    match filter_chars isdigit remainder with
    | EmptyString => FallbackIdentity (lower remainder)
    | digits => PhoneIdentity (startswith plus_from "+") digits
    end.

(** The claim as worded: the [+] is taken from the trimmed original. *)
Definition canonicalizeActor_claimed (value : option string) : option string :=
  match value with
  | None => None
  | Some v =>
      match strip v with
      | EmptyString => None
      | trimmed => Some (render_identity (classify_actor trimmed (tel_remainder trimmed)))
      end
  end.

(** The claim as amended: the [+] is taken from the remainder, trimmed. *)
Definition canonicalizeActor_amended (value : option string) : option string :=
  match value with
  | None => None
  | Some v =>
      match strip v with
      | EmptyString => None
      | trimmed =>
          let remainder := tel_remainder trimmed in
          Some (render_identity (classify_actor (strip remainder) remainder))
      end
  end.

(** The UTC ISO-8601 rendering of a Unix epoch second. *)
Definition render_epoch_second (n : Z) : option string :=
  match fromtimestamp_utc (float_of_Z n) with
  | Ok d => Some (isoformat d)
  | Raise _ => None
  end.

(** ** Predicates used in the statements *)

(** A stored bodiless row under external id [e]. *)
Definition has_null_row (e : string) (rows : list MessageRow) : bool :=
  existsb (fun r => String.eqb (m_external_id r) e
                    && match m_vector_id r with None => true | Some _ => false end) rows.

(** ** Concrete worlds for the examples *)

(** A [datetime.fromisoformat] for the examples: it accepts
    [YYYY-MM-DDTHH:MM:SS] and nothing else, which every version of the
    library parses, and rejects ["not-a-date"], which every version rejects. *)
Definition two_digits (s : string) : option (Z * string) :=
  match s with
  | String a (String b rest) =>
      if isdigit a && isdigit b then Some (10 * digit_val a + digit_val b, rest) else None
  | _ => None
  end.

Definition sample_fromisoformat (s : string) : option datetime :=
  match two_digits s with
  | Some (c, s1) =>
    match two_digits s1 with
    | Some (y, String "-" s2) =>
      match two_digits s2 with
      | Some (m, String "-" s3) =>
        match two_digits s3 with
        | Some (d, String "T" s4) =>
          match two_digits s4 with
          | Some (hh, String ":" s5) =>
            match two_digits s5 with
            | Some (mm, String ":" s6) =>
              match two_digits s6 with
              | Some (ss, EmptyString) =>
                  let year := 100 * c + y in
                  if (1 <=? year) && (1 <=? m) && (m <=? 12) && (1 <=? d)
                     && (d <=? days_in_month year m) && (hh <=? 23) && (mm <=? 59)
                     && (ss <=? 59)
                  then Some (mk_datetime year m d hh mm ss 0 None) else None
              | _ => None
              end
            | _ => None
            end
          | _ => None
          end
        | _ => None
        end
      | _ => None
      end
    | _ => None
    end
  | None => None
  end.

(** Every collaborator available and succeeding; the vision model sees a
    cat in every image. *)
Definition sample_env : Env :=
  {| fromisoformat := sample_fromisoformat;
     graph_enabled := true;
     neo4j_commits := fun _ => true;
     vector_enabled := true;
     embedder_encode := fun texts => Ok (map (fun _ => []) texts);
     chroma_upsert := fun _ => None;
     vision_client := None;
     describe_image := fun _ _ =>
       Ok {| d_caption := "a cat"; d_tags := ["cat"]; d_detected_text := None |};
     now_isoformat := fun n => "2025-01-01T00:00:" ++ pad_digits 2 (Z.of_nat n) ++ "+00:00";
     stat_file := fun _ => None;
     guess_mime_type := fun _ => None;
     extracted_dir := mk_path true ["storage"; "extracted"];
     uploads_dir := mk_path true ["storage"; "uploads"] |}.

Definition empty_world : World :=
  {| ledger := empty_ledger; graph := empty_graph; vectors := ∅; alias_map := ∅;
     run_stats := new_GraphStats; clock := 0 |}.

Definition sample_message (body : option string) (vector_id : option string) : MessageRow :=
  {| m_external_id := "sms.db:message:1"; m_conversation_id := None; m_sender := None;
     m_receiver := None; m_timestamp := None; m_body := body; m_direction := None;
     m_message_type := None; m_attachments := VNull; m_source := "/x/sms.db";
     m_raw_data := ∅; m_vector_id := vector_id |}.

Definition sample_ledger_one : Ledger :=
  set_messages [sample_message (Some "hi") (Some "msg:sms.db:message:1")] empty_ledger.

(** ** Judgements on computations

    [preserves R m]: running [m] relates the world before to the world
    after by [R], whether it returns or raises.  [never_raises m]: [m] always
    returns. *)

Definition preserves {A} (R : World -> World -> Prop) (m : M A) : Prop :=
  forall w, R w (snd (m w)).

Definition never_raises {A} (m : M A) : Prop :=
  forall w, is_ok (fst (m w)) = true.

(** The ledger and the vector store are left as they are. *)
Definition same_ledger (w w' : World) : Prop :=
  ledger w' = ledger w /\ vectors w' = vectors w.

(** Only the ledger may change. *)
Definition only_ledger (w w' : World) : Prop :=
  graph w' = graph w /\ vectors w' = vectors w /\ alias_map w' = alias_map w
  /\ run_stats w' = run_stats w /\ clock w' = clock w.

(** Two message databases with one base name in two directories. *)
Definition sample_db_a : Path := mk_path true ["storage"; "extracted"; "u1"; "a"; "sms.db"].
Definition sample_db_b : Path := mk_path true ["storage"; "extracted"; "u1"; "b"; "sms.db"].

Definition sample_columns : list string := ["text"; "timestamp"; "sender"; "receiver"].

Definition sample_row_a : list sqlval :=
  [VInt 1; VText "hi"; VInt 700000000; VText "+15551230001"; VText "+15551230002"].
Definition sample_row_b : list sqlval :=
  [VInt 1; VText "see you"; VInt 700000100; VText "+15551230003"; VText "+15551230004"].

Definition from_ok (r : result MessageRow) : MessageRow :=
  match r with
  | Ok m => m
  | Raise _ => sample_message None None
  end.

Definition sample_message_a : MessageRow :=
  from_ok (build_message_row sample_env sample_db_a "message" sample_columns sample_row_a).
Definition sample_message_b : MessageRow :=
  from_ok (build_message_row sample_env sample_db_b "message" sample_columns sample_row_b).

Definition sample_ledger_a : Ledger := set_messages [sample_message_a] empty_ledger.

(** The row of [images] stored under a file path. *)
Definition image_at (file_path : string) (l : Ledger) : option ImageRow :=
  List.find (fun r => String.eqb (i_file_path r) file_path) (images l).

(** [existing_status.lower() == "done"] for the status column of a row. *)
Definition status_is_done (status : option string) : bool :=
  String.eqb (lower (default "" (or_else status (Some "")))) "done".

(** [AUTOINCREMENT]: ids are distinct and none exceeds the sequence. *)
Definition images_ok (l : Ledger) : Prop :=
  NoDup (map i_id (images l)) /\ Forall (fun r => i_id r <= images_seq l) (images l).

(** The JSON object of a [metadata] cell, as [log_image_inventory] reads it. *)
Definition metadata_of_cell (c : meta_cell) : metadata :=
  match c with
  | MetaJson m => m
  | MetaInvalid _ => ∅
  | MetaNull => ∅
  end.

(** What the inventory loop computes for one path before it touches the
    ledger. *)
Definition inventory_relative (image_path extraction_dir : Path) : Path :=
  default image_path (relative_to image_path extraction_dir).

Definition inventory_metadata (E : Env) (image_path extraction_dir : Path) : metadata :=
  _build_image_metadata E image_path (inventory_relative image_path extraction_dir) extraction_dir.

(** The row a first discovery inserts. *)
Definition fresh_image_row (id : Z) (file_path relative_path : string) (meta : metadata) : ImageRow :=
  {| i_id := id; i_file_path := file_path; i_relative_path := Some relative_path;
     i_description := None; i_tags := None; i_detected_text := None;
     i_source := Some "ufdr"; i_metadata := MetaJson meta; i_vector_id := None;
     i_caption_status := Some "pending"; i_caption_error := None;
     i_last_captioned_at := None |}.

(** The row a rediscovery leaves: path, caption, tags, text, vector id and
    caption error as before; metadata merged; status pending unless done. *)
Definition rediscovered_row (relative_path : string) (merged : metadata) (r : ImageRow) : ImageRow :=
  {| i_id := i_id r; i_file_path := i_file_path r; i_relative_path := Some relative_path;
     i_description := i_description r; i_tags := i_tags r;
     i_detected_text := i_detected_text r;
     i_source := Some "ufdr"; i_metadata := MetaJson merged;
     i_vector_id := i_vector_id r;
     i_caption_status :=
       if status_is_done (i_caption_status r) then i_caption_status r else Some "pending";
     i_caption_error := i_caption_error r;
     i_last_captioned_at := i_last_captioned_at r |}.

(** The inventory of one path, as the specification describes it: the row
    stored under the path afterwards, and the records handed to the
    captioner for it. *)
Definition inventory_outcome (E : Env) (extraction_dir image_path : Path) (l : Ledger)
  : ImageRow * list ImageInventoryRecord :=
  let relative_path := inventory_relative image_path extraction_dir in
  let meta := inventory_metadata E image_path extraction_dir in
  match image_at (path_str image_path) l with
  | None =>
      (fresh_image_row (images_seq l + 1) (path_str image_path) (path_str relative_path) meta,
       [{| ir_id := images_seq l + 1; ir_file_path := image_path;
           ir_relative_path := relative_path; ir_metadata := meta |}])
  | Some r =>
      let merged := dict_merge (metadata_of_cell (i_metadata r)) meta in
      (rediscovered_row (path_str relative_path) merged r,
       if status_is_done (i_caption_status r) then []
       else [{| ir_id := i_id r; ir_file_path := image_path;
                ir_relative_path := relative_path; ir_metadata := merged |}])
  end.

(** Everything but [images] is left as it is. *)
Definition only_images (l l' : Ledger) : Prop :=
  messages l' = messages l /\ contacts l' = contacts l /\ system_info l' = system_info l.

(** A path of this pass is new, or stored with a status other than done. *)
Definition to_caption (s : string) (l : Ledger) : Prop :=
  image_at s l = None \/
  exists r, image_at s l = Some r /\ status_is_done (i_caption_status r) = false.

(** The invariant of the inventory loop, relative to the ledger [l0] the
    pass started from and the paths [all] it walks. *)
Definition inventory_inv (E : Env) (extraction_dir : Path) (l0 : Ledger) (all : list Path)
    (seen : gset string) (records : list ImageInventoryRecord) (w : World) : Prop :=
  images_ok (ledger w) /\
  (forall s, s ∉ seen -> image_at s (ledger w) = image_at s l0) /\
  (forall rec, In rec records ->
     path_str (ir_file_path rec) ∈ seen /\ In (ir_file_path rec) all /\
     (exists r', image_at (path_str (ir_file_path rec)) (ledger w) = Some r'
                 /\ i_id r' = ir_id rec /\ i_caption_status r' = Some "pending") /\
     to_caption (path_str (ir_file_path rec)) l0) /\
  (forall s, s ∈ seen -> to_caption s l0 ->
     exists rec, In rec records /\ path_str (ir_file_path rec) = s) /\
  (forall s r, s ∈ seen -> image_at s l0 = Some r ->
     exists p, In p all /\ path_str p = s /\
       image_at s (ledger w) = Some (fst (inventory_outcome E extraction_dir p l0))).

(** A ledger that has seen [cat.jpg] (captioned) and [dog.jpg] (captioning
    failed) of the extraction [u1]. *)
Definition sample_dir : Path := mk_path true ["storage"; "extracted"; "u1"].
Definition sample_cat : Path := path_concat sample_dir (mk_path false ["media"; "cat.jpg"]).
Definition sample_dog : Path := path_concat sample_dir (mk_path false ["media"; "dog.jpg"]).
Definition sample_owl : Path := path_concat sample_dir (mk_path false ["media"; "owl.png"]).

Definition sample_images : list ImageRow :=
  [ with_caption "a cat" (Some "cat") None "img:1" "Done" "2025-01-01T00:00:00+00:00"
      {["caption" := JStr "a cat"; "extraction_id" := JStr "u0"]}
      (fresh_image_row 1 (path_str sample_cat) "media/cat.jpg" ∅);
    with_failure "failed" "Gemini Vision request failed" "2025-01-01T00:00:01+00:00"
      (fresh_image_row 2 (path_str sample_dog) "media/dog.jpg" {["extraction_id" := JStr "u0"]}) ].

Definition sample_image_world : World :=
  set_ledger (set_images sample_images 2 empty_ledger) empty_world.

(** The row of [images] with a given id. *)
Definition image_by_id (id : Z) (l : Ledger) : option ImageRow :=
  List.find (fun r => i_id r =? id) (images l).

(** Every stored image vector id is the one captioning gives the row. *)
Definition vector_ids_own (l : Ledger) : Prop :=
  Forall (fun r => i_vector_id r = None \/ i_vector_id r = Some ("img:" ++ str_of_Z (i_id r)))
         (images l).

Definition captions_ok (l : Ledger) : Prop :=
  NoDup (map i_id (images l)) /\ vector_ids_own l.

(** What a captioning attempt at clock [n] makes of the row of [record]:
    done with the caption, or failed with the truncated error text. *)
Definition caption_row (E : Env) (n : nat) (record : ImageInventoryRecord)
    (description : ImageDescription) : ImageRow -> ImageRow :=
  with_caption (d_caption description) (tag_string_of (d_tags description))
    (d_detected_text description) (caption_vector_id record) "done" (now_isoformat E n)
    (caption_metadata record description).

Definition failure_row (E : Env) (n : nat) (exc : exn) : ImageRow -> ImageRow :=
  with_failure "failed" (slice_to 512 (exn_msg exc)) (now_isoformat E n).

Definition attempt_row (E : Env) (n : nat) (record : ImageInventoryRecord) : ImageRow -> ImageRow :=
  match describe_image E n (ir_file_path record) with
  | Ok description => caption_row E n record description
  | Raise exc => failure_row E n exc
  end.

(** One embedding record per image the vision call describes, in order;
    the clock advances by one per image. *)
Fixpoint expected_embeddings (E : Env) (n : nat) (records : list ImageInventoryRecord)
  : list EmbeddingRecord :=
  match records with
  | [] => []
  | record :: rest =>
      (match describe_image E n (ir_file_path record) with
       | Ok description => [caption_embedding record description]
       | Raise _ => []
       end ++ expected_embeddings E (S n) rest)%list
  end.

(** A vision collaborator that fails its first call and then recovers. *)
Definition flaky_env : Env :=
  {| fromisoformat := fromisoformat sample_env;
     graph_enabled := graph_enabled sample_env;
     neo4j_commits := neo4j_commits sample_env;
     vector_enabled := vector_enabled sample_env;
     embedder_encode := embedder_encode sample_env;
     chroma_upsert := chroma_upsert sample_env;
     vision_client := vision_client sample_env;
     describe_image := fun n path =>
       match n with
       | O => Raise (mk_exn RuntimeError "Gemini Vision request failed: 503")
       | S _ => describe_image sample_env n path
       end;
     now_isoformat := now_isoformat sample_env;
     stat_file := stat_file sample_env;
     guess_mime_type := guess_mime_type sample_env;
     extracted_dir := extracted_dir sample_env;
     uploads_dir := uploads_dir sample_env |}.

Definition sample_records : list ImageInventoryRecord :=
  [ {| ir_id := 2; ir_file_path := sample_dog;
       ir_relative_path := mk_path false ["media"; "dog.jpg"]; ir_metadata := ∅ |};
    {| ir_id := 1; ir_file_path := sample_cat;
       ir_relative_path := mk_path false ["media"; "cat.jpg"]; ir_metadata := ∅ |} ].

(** A contacts database in which one person appears twice, the phone number
    written in two ways. *)
Definition sample_contacts_path : Path := path_concat sample_dir (mk_path false ["contacts.db"]).

Definition sample_contacts_db : FileContent :=
  FSqlite
    [ {| tbl_name := "contacts";
         tbl_columns := ["first"; "last"; "phone"; "email"];
         tbl_rows :=
           [ [VInt 1; VText "Jane"; VText "Smith"; VText "+1 (555) 123-0002"; VNull];
             [VInt 2; VText "Jane"; VText "S."; VText "tel:+15551230002"; VNull] ];
         tbl_info_error := None; tbl_select_error := None |} ].

(** The contacts counter counts the identifiers seen in this run. *)
Definition contacts_counted (st : GraphStats) : Prop :=
  contacts_registered st = Z.of_nat (size (seen_contact_identifiers st)).

Definition counter_grows (w w' : World) : Prop :=
  seen_contact_identifiers (run_stats w) ⊆ seen_contact_identifiers (run_stats w') /\
  (contacts_counted (run_stats w) -> contacts_counted (run_stats w')).

(** ** Outcomes of a computation

    [outcome m Q H]: from every world, [m] returns a value satisfying [Q] or
    raises an exception satisfying [H]. *)
Definition outcome {A} (m : M A) (Q : A -> Prop) (H : exn -> Prop) : Prop :=
  forall w, match fst (m w) with
            | Ok a => Q a
            | Raise e => H e
            end.

Definition no_exn : exn -> Prop := fun _ => False.

(** The collaborators of the embedding step fail, if at all, with a
    [RuntimeError], and the embedder gives one vector per text. *)
Definition embedding_fails_with_RuntimeError (E : Env) : Prop :=
  (forall texts,
     match embedder_encode E texts with
     | Ok vectors => length vectors = length texts
     | Raise e => caught_by [RuntimeError] e = true
     end) /\
  (forall ids,
     match chroma_upsert E ids with
     | Some e => caught_by [RuntimeError] e = true
     | None => True
     end).

(** The exception a file raises when it is opened, whatever the ledger. *)
Definition open_error (content : FileContent) : option exn :=
  match content with
  | FUnreadable e => Some e
  | _ => None
  end.

(** An archive with a message database that cannot be read before one that
    can. *)
Definition sample_sms : FileContent :=
  FSqlite
    [ {| tbl_name := "message";
         tbl_columns := ["text"; "timestamp"; "sender"; "receiver"];
         tbl_rows :=
           [ [VInt 1; VText "hi"; VText "2024-10-12T09:20:00+00:00";
              VText "+15551230004"; VText "+15551230002"] ];
         tbl_info_error := None; tbl_select_error := None |} ].

Definition sample_corrupt : FileContent :=
  FUnreadable (mk_exn DatabaseError "file is not a database").

(** A message database that opens and whose only table is a [WITHOUT ROWID]
    table. *)
Definition sample_without_rowid : FileContent :=
  FSqlite
    [ {| tbl_name := "message";
         tbl_columns := ["guid"; "text"; "timestamp"];
         tbl_rows := [];
         tbl_info_error := None;
         tbl_select_error := Some (mk_exn OperationalError "no such column: rowid") |} ].

Definition sample_upload_without_rowid : Upload :=
  {| up_filename := Some "case.ufdr";
     up_write_error := None;
     up_extract :=
       Ok [ (mk_path false ["db"; "chat.db"], sample_without_rowid);
            (mk_path false ["db"; "sms.db"], sample_sms) ] |}.

Definition sample_upload : Upload :=
  {| up_filename := Some "case.ufdr";
     up_write_error := None;
     up_extract :=
       Ok [ (mk_path false ["db"; "chat.db"], sample_corrupt);
            (mk_path false ["db"; "sms.db"], sample_sms) ] |}.

(** The embedding model cannot be loaded: [SentenceTransformer(name)] fails
    with an [OSError]. *)
Definition offline_env : Env :=
  {| fromisoformat := sample_fromisoformat;
     graph_enabled := true;
     neo4j_commits := fun _ => true;
     vector_enabled := true;
     embedder_encode := fun _ =>
       Raise (mk_exn OSError "We couldn't connect to 'https://huggingface.co' to load this file");
     chroma_upsert := fun _ => None;
     vision_client := None;
     describe_image := describe_image sample_env;
     now_isoformat := now_isoformat sample_env;
     stat_file := fun _ => None;
     guess_mime_type := fun _ => None;
     extracted_dir := extracted_dir sample_env;
     uploads_dir := uploads_dir sample_env |}.

(** [ingest_one] raises [e] on the file whatever the stores hold: the file
    cannot be opened, its tables cannot be listed, the first table it reads
    cannot be read, its first row raises. *)
Definition fails_with {A} (ingest_one : Path -> FileContent -> M A) (p : Path)
    (c : FileContent) (e : exn) : Prop :=
  forall w, fst (ingest_one p c w) = Raise e.

(** Every classified file whose ingestion raises whatever the stores hold is
    named in a note, with the exception it raises. *)
Definition names_failures (E : Env) (sources : UFDRSources) (notes : list string) : Prop :=
  (forall p c e, In (p, c) (message_dbs sources) ->
     fails_with (ingest_messages_from_sqlite E) p c e ->
     In (failure_note "Failed parsing messages from " p e) notes) /\
  (forall p c e, In (p, c) (contact_dbs sources) ->
     fails_with (ingest_contacts_from_sqlite E) p c e ->
     In (failure_note "Failed parsing contacts from " p e) notes) /\
  (forall p c e, In (p, c) (contact_xml_files sources) ->
     fails_with (ingest_contacts_from_xml E) p c e ->
     In (failure_note "Failed parsing contacts XML " p e) notes) /\
  (forall p c e, In (p, c) (system_plists sources) ->
     fails_with (ingest_system_info_from_plist E) p c e ->
     In (failure_note "Failed parsing system plist " p e) notes).

(** ** Two ingestions of one archive *)

(** The unique index on [messages.vector_id] holds. *)
Definition index_ok (l : Ledger) : Prop :=
  distinct (message_vector_ids (messages l)) = true.

(** What decides the fate of a message row is present in [l2] whenever it
    is in [l1]: the indexed vector ids and the external ids of the bodiless
    rows. *)
Definition ledger_below (l1 l2 : Ledger) : Prop :=
  incl (message_vector_ids (messages l1)) (message_vector_ids (messages l2)) /\
  (forall e, has_null_row e (messages l1) = true -> has_null_row e (messages l2) = true).

(** Keys are only added. *)
Definition grows (w w' : World) : Prop :=
  ledger_below (ledger w) (ledger w') /\
  dom (persons (graph w)) ⊆ dom (persons (graph w')) /\
  dom (relationships (graph w)) ⊆ dom (relationships (graph w')) /\
  dom (vectors w) ⊆ dom (vectors w') /\
  (index_ok (ledger w) -> index_ok (ledger w')).

(** Messages, graph and vector store are left as they are. *)
Definition keeps (w w' : World) : Prop :=
  messages (ledger w') = messages (ledger w) /\
  persons (graph w') = persons (graph w) /\
  relationships (graph w') = relationships (graph w) /\
  vectors w' = vectors w.

(** The identifiers of the embedding records of a batch. *)
Definition record_ids (records : list EmbeddingRecord) : list string :=
  map er_vector_id records.

(** Every identifier of the second batch is in the first. *)
Definition fewer_records (r1 r2 : list EmbeddingRecord) : Prop :=
  incl (record_ids r2) (record_ids r1).

(** A vector id of an image caption. *)
Definition is_caption_id (k : string) : bool := startswith k "img:".

(** The result of the second ingestion against the result of the first: the
    second may fail where the first did not, never the other way round. *)
Definition res_follows {A1 A2} (Q : A1 -> A2 -> Prop) (r1 : result A1) (r2 : result A2)
  : Prop :=
  match r2 with
  | Raise _ => True
  | Ok a2 => match r1 with
             | Ok a1 => Q a1 a2
             | Raise _ => False
             end
  end.

Section Behind.
Context (L : Ledger) (GP : gset string) (GR : gset (string * string * string))
  (GV : gset string).

(** The second ingestion, in world [w2], is behind the first, in world
    [w1]: it started from the ledger [L] and the keys [GP], [GR], [GV] the
    first ended with, and every key it has written since, the first had
    written at the same point; caption ids apart. *)
Definition behind (w1 w2 : World) : Prop :=
  index_ok (ledger w1) /\
  ledger_below L (ledger w2) /\
  dom (persons (graph w2)) ⊆ dom (persons (graph w1)) ∪ GP /\
  dom (relationships (graph w2)) ⊆ dom (relationships (graph w1)) ∪ GR /\
  (forall k, k ∈ dom (vectors w2) ->
     k ∈ dom (vectors w1) ∪ GV \/ is_caption_id k = true).

(** [m2], run by the second ingestion, follows [m1], run by the first,
    provided the ledger [m1] leaves satisfies [F]. *)
Definition follows (F : Ledger -> Prop) {A1 A2} (Q : A1 -> A2 -> Prop)
    (m1 : M A1) (m2 : M A2) : Prop :=
  forall w1 w2, behind w1 w2 -> F (ledger (snd (m1 w1))) ->
    behind (snd (m1 w1)) (snd (m2 w2)) /\ res_follows Q (fst (m1 w1)) (fst (m2 w2)).

(** The proviso of the steps between transactions: the ledger the first
    ingestion leaves is part of what it ends with. *)
Definition committed (l : Ledger) : Prop := ledger_below l L.
End Behind.

(** The graph store commits every write. *)
Definition graph_commits (E : Env) : Prop := forall n, neo4j_commits E n = true.

(** The embedder and the vector store accept every batch. *)
Definition embedding_succeeds (E : Env) : Prop :=
  (forall texts, exists vectors,
     embedder_encode E texts = Ok vectors /\ length vectors = length texts) /\
  (forall ids, chroma_upsert E ids = None).

(** A proviso on the ledger that holds of every smaller ledger. *)
Definition closed_below (F : Ledger -> Prop) : Prop :=
  forall l l', ledger_below l l' -> F l' -> F l.

(** Files of the two extractions that stand for one member of the archive. *)
Definition same_member (x1 x2 : Path * FileContent) : Prop :=
  path_name (fst x1) = path_name (fst x2) /\ snd x1 = snd x2.

(** A write to the graph that adds the person keys [SP] and the
    relationship keys [SR] and nothing else. *)
Definition adds (SP : gset string) (SR : gset (string * string * string)) (w w' : World)
  : Prop :=
  ledger w' = ledger w /\ vectors w' = vectors w /\
  dom (persons (graph w')) = SP ∪ dom (persons (graph w)) /\
  dom (relationships (graph w')) = SR ∪ dom (relationships (graph w)).

(** A member of an archive has a name: its relative path is not empty. *)
Definition relative_member (m : Path * FileContent) : Prop := parts (fst m) <> [].

(** The classified databases of two extractions of one archive. *)
Definition same_sources (s1 s2 : UFDRSources) : Prop :=
  Forall2 same_member (message_dbs s1) (message_dbs s2) /\
  Forall2 same_member (contact_dbs s1) (contact_dbs s2) /\
  Forall2 same_member (contact_xml_files s1) (contact_xml_files s2) /\
  Forall2 same_member (system_plists s1) (system_plists s2).

(** An archive with a message database, a property list and a picture. *)
Definition sample_plist : FileContent :=
  FPlist (PDict [("ProductVersion", PLeaf "17.1");
                 ("Accounts", PList [PLeaf "jane@example.com"])]).

Definition sample_archive_members : list (Path * FileContent) :=
  [ (mk_path false ["db"; "sms.db"], sample_sms);
    (mk_path false ["Info.plist"], sample_plist);
    (mk_path false ["media"; "cat.jpg"], FOther) ].

Definition sample_archive : Upload :=
  {| up_filename := Some "case.ufdr";
     up_write_error := None;
     up_extract := Ok sample_archive_members |}.

(** The worlds after a first and a second ingestion of the archive. *)
Definition once (E : Env) (upload : Upload) (u1 : string) (w : World) : World :=
  snd (ingest_ufdr_archive E upload u1 w).

Definition twice (E : Env) (upload : Upload) (u1 u2 : string) (w : World) : World :=
  once E upload u2 (once E upload u1 w).

(** ** Further observations on the ingestion helpers *)

(** The files [discover_sources] hands to a parser, list by list. *)
Definition classified_paths (s : UFDRSources) : list Path :=
  (map fst (message_dbs s) ++ map fst (contact_dbs s) ++ map fst (contact_xml_files s)
   ++ map fst (system_plists s) ++ image_files s)%list.



(** The tables read before the first one whose [SELECT] raises. *)
Fixpoint readable_prefix (tables : list SqliteTable) : list SqliteTable :=
  match tables with
  | [] => []
  | table :: rest =>
      match tbl_select_error table with
      | Some _ => []
      | None => table :: readable_prefix rest
      end
  end.

(** The first exception reading the tables raises, if one does. *)
Definition first_select_error (tables : list SqliteTable) : option exn :=
  head (somes (map tbl_select_error tables)).


(** The [system_info] row written for one flattened leaf. *)
Definition system_info_row (plist_path : Path) (leaf : string * string) : SystemInfoRow :=
  {| s_info_key := fst leaf; s_info_value := snd leaf;
     s_category := path_stem plist_path; s_source := path_str plist_path |}.

(** [k] contact rows were appended, and the other tables and the vector
    store were left as they are. *)
Definition contacts_added (k : nat) (w w' : World) : Prop :=
  exists added,
    length added = k /\
    contacts (ledger w') = (contacts (ledger w) ++ added)%list /\
    messages (ledger w') = messages (ledger w) /\
    system_info (ledger w') = system_info (ledger w) /\
    images (ledger w') = images (ledger w) /\
    vectors w' = vectors w.

(** [k] message rows were appended, and the other tables and the vector
    store were left as they are. *)
Definition messages_added (k : nat) (w w' : World) : Prop :=
  exists added,
    length added = k /\
    messages (ledger w') = (messages (ledger w) ++ added)%list /\
    contacts (ledger w') = contacts (ledger w) /\
    system_info (ledger w') = system_info (ledger w) /\
    images (ledger w') = images (ledger w) /\
    vectors w' = vectors w.

(** Graph, vector store and run counters are left as they are. *)
Definition stores_same (w w' : World) : Prop :=
  graph w' = graph w /\ vectors w' = vectors w /\ run_stats w' = run_stats w.

(** The world as the orchestrator makes it before it reads the first
    source: [CONTACT_ALIAS_MAP.clear()] and a new [GraphStats]. *)
Definition reset_run (w : World) : World :=
  set_run_stats new_GraphStats (set_alias_map ∅ w).

(** The message-link counter counts the message ids seen in this run. *)
Definition relationships_counted (st : GraphStats) : Prop :=
  relationships_registered st = Z.of_nat (size (seen_message_ids st)).

(** The counters of a run count the identifiers seen in it, every contact
    counted is a node of the graph, and every message counted an edge. *)
Definition run_counted (w : World) : Prop :=
  contacts_counted (run_stats w) /\
  relationships_counted (run_stats w) /\
  seen_contact_identifiers (run_stats w) ⊆ dom (persons (graph w)) /\
  (forall message_id, message_id ∈ seen_message_ids (run_stats w) ->
     exists sender_id receiver_id,
       (sender_id, receiver_id, message_id) ∈ dom (relationships (graph w))).

Definition counters_kept (w w' : World) : Prop := run_counted w -> run_counted w'.

(** Only the vector store may change. *)
Definition only_vectors (w w' : World) : Prop :=
  ledger w' = ledger w /\ graph w' = graph w /\ alias_map w' = alias_map w
  /\ run_stats w' = run_stats w /\ clock w' = clock w.

(** What the Cypher statements of the client never change on a node: a raw
    identifier once set, a display name that differs from the raw
    identifier, and given and family names that are not empty. *)
Definition person_kept (p p' : Person) : Prop :=
  (forall r, p_raw_identifier p = Some r -> p_raw_identifier p' = Some r) /\
  (forall r d, p_raw_identifier p = Some r -> p_display_name p = Some d -> d <> r ->
               p_display_name p' = Some d) /\
  (forall g, p_given_name p = Some g -> g <> "" -> p_given_name p' = Some g) /\
  (forall f, p_family_name p = Some f -> f <> "" -> p_family_name p' = Some f).

(** No node is removed, and what is settled on a node stays. *)
Definition persons_kept (w w' : World) : Prop :=
  forall id p, persons (graph w) !! id = Some p ->
    exists p', persons (graph w') !! id = Some p' /\ person_kept p p'.

Definition graph_untouched (w w' : World) : Prop := graph w' = graph w.

Definition vectors_untouched (w w' : World) : Prop := vectors w' = vectors w.

(** The default configuration: no graph database, no vector store. *)
Definition ledger_only_env : Env :=
  {| fromisoformat := sample_fromisoformat;
     graph_enabled := false;
     neo4j_commits := fun _ => false;
     vector_enabled := false;
     embedder_encode := embedder_encode sample_env;
     chroma_upsert := fun _ => None;
     vision_client := vision_client sample_env;
     describe_image := describe_image sample_env;
     now_isoformat := now_isoformat sample_env;
     stat_file := stat_file sample_env;
     guess_mime_type := guess_mime_type sample_env;
     extracted_dir := extracted_dir sample_env;
     uploads_dir := uploads_dir sample_env |}.

(** The three tables the summary counts grew by [m], [c] and [s] rows. *)
Definition rows_added (m c s : Z) (w w' : World) : Prop :=
  Z.of_nat (length (messages (ledger w'))) = Z.of_nat (length (messages (ledger w))) + m /\
  Z.of_nat (length (contacts (ledger w'))) = Z.of_nat (length (contacts (ledger w))) + c /\
  Z.of_nat (length (system_info (ledger w')))
  = Z.of_nat (length (system_info (ledger w))) + s.

(** The notes of the sources that failed begin alike. *)
Definition is_failure_note (note : string) : bool := startswith note "Failed parsing ".

Definition no_failure_notes (notes : list string) : Prop :=
  forall note, In note notes -> is_failure_note note = false.

(** The tables the summary counts are left as they are. *)
Definition tables_same (w w' : World) : Prop :=
  messages (ledger w') = messages (ledger w) /\
  contacts (ledger w') = contacts (ledger w) /\
  system_info (ledger w') = system_info (ledger w).

(** ** [services/graph.py]: clearing the graph *)

(** [clear_all]: [MATCH (n) DETACH DELETE n] in a write transaction.  The
    call is not listed in [g_log], which records the registrations. *)
Definition clear_all (E : Env) : M bool :=
  if negb (graph_enabled E) then ret false
  else
    execute_write E (fun g => {| persons := ∅; relationships := ∅; g_log := g_log g |}).

(** ** [services/graph_sync.py]: rebuilding the graph from the ledger *)

Record GraphResyncStats : Type := {
  cleared : bool;
  contacts_synced : Z;
  relationships_synced : Z;
  skipped_contacts : Z;
  skipped_messages : Z;
  detail : option string
}.

Definition new_GraphResyncStats : GraphResyncStats :=
  {| cleared := false; contacts_synced := 0; relationships_synced := 0;
     skipped_contacts := 0; skipped_messages := 0; detail := None |}.

Definition set_cleared (b : bool) (st : GraphResyncStats) : GraphResyncStats :=
  {| cleared := b; contacts_synced := contacts_synced st;
     relationships_synced := relationships_synced st;
     skipped_contacts := skipped_contacts st; skipped_messages := skipped_messages st;
     detail := detail st |}.

Definition set_detail (d : string) (st : GraphResyncStats) : GraphResyncStats :=
  {| cleared := cleared st; contacts_synced := contacts_synced st;
     relationships_synced := relationships_synced st;
     skipped_contacts := skipped_contacts st; skipped_messages := skipped_messages st;
     detail := Some d |}.

Definition add_contact_synced (st : GraphResyncStats) : GraphResyncStats :=
  {| cleared := cleared st; contacts_synced := contacts_synced st + 1;
     relationships_synced := relationships_synced st;
     skipped_contacts := skipped_contacts st; skipped_messages := skipped_messages st;
     detail := detail st |}.

Definition add_contact_skipped (st : GraphResyncStats) : GraphResyncStats :=
  {| cleared := cleared st; contacts_synced := contacts_synced st;
     relationships_synced := relationships_synced st;
     skipped_contacts := skipped_contacts st + 1; skipped_messages := skipped_messages st;
     detail := detail st |}.

Definition add_relationship_synced (st : GraphResyncStats) : GraphResyncStats :=
  {| cleared := cleared st; contacts_synced := contacts_synced st;
     relationships_synced := relationships_synced st + 1;
     skipped_contacts := skipped_contacts st; skipped_messages := skipped_messages st;
     detail := detail st |}.

Definition add_message_skipped (st : GraphResyncStats) : GraphResyncStats :=
  {| cleared := cleared st; contacts_synced := contacts_synced st;
     relationships_synced := relationships_synced st;
     skipped_contacts := skipped_contacts st; skipped_messages := skipped_messages st + 1;
     detail := detail st |}.

Definition reset_graph (E : Env) : M GraphResyncStats :=
  let stats := new_GraphResyncStats in
  if negb (graph_enabled E) then ret (set_detail "Neo4j integration is disabled" stats)
  else
    let* was_cleared := clear_all E in
    let stats := set_cleared was_cleared stats in
    if negb (cleared stats) then ret (set_detail "Failed to clear Neo4j graph" stats)
    else ret stats.

(** The state of the two loops of [resync_graph]: the statistics, the local
    [alias_map] and [seen_contacts]. *)
Record ResyncState : Type := {
  rs_stats : GraphResyncStats;
  rs_alias_map : gmap string (option string);
  rs_seen_contacts : gset string
}.

(** [identifiers] of a contact row: [(canonical, raw or canonical)] for the
    phone number and the e-mail address, or else for the name. *)
Definition resync_identifiers (row : ContactRow) : list (string * string) :=
  let identifier_of (raw : option string) : list (string * string) :=
    match canonicalize_actor raw with
    | Some canonical =>
        if truthy (Some canonical)
        then [(canonical, default canonical (or_else raw (Some canonical)))]
        else []
    | None => []
    end in
  let identifiers := flat_map identifier_of [c_phone_number row; c_email row] in
  match identifiers with
  | [] =>
      let composed :=
        or_else (c_display_name row)
          (compose_display_name (c_given_name row) (c_family_name row)) in
      identifier_of composed
  | _ => identifiers
  end.

(** [preferred_name] of a contact row whose identifiers are not empty. *)
Definition resync_preferred_name (row : ContactRow) (identifiers : list (string * string))
  : option string :=
  or_else (c_display_name row)
    (or_else (compose_display_name (c_given_name row) (c_family_name row))
       (match identifiers with
        | (_, raw) :: _ => Some raw
        | [] => None
        end)).

(** The body of [for canonical, raw in identifiers]. *)
Definition resync_identifier (E : Env) (row : ContactRow) (preferred_name : option string)
    (identifier : string * string) (st : ResyncState) : M ResyncState :=
  let '(canonical, raw) := identifier in
  if bool_decide (canonical ∈ rs_seen_contacts st) then
    ret {| rs_stats := rs_stats st;
           rs_alias_map := <[canonical := or_else preferred_name (Some raw)]> (rs_alias_map st);
           rs_seen_contacts := rs_seen_contacts st |}
  else
    let* success :=
      register_person E canonical preferred_name (c_given_name row) (c_family_name row)
        (Some raw) (Some (c_source row)) in
    if success then
      ret {| rs_stats := add_contact_synced (rs_stats st);
             rs_alias_map :=
               <[canonical := or_else preferred_name (Some raw)]> (rs_alias_map st);
             rs_seen_contacts := {[canonical]} ∪ rs_seen_contacts st |}
    else
      ret {| rs_stats := add_contact_skipped (rs_stats st);
             rs_alias_map := rs_alias_map st;
             rs_seen_contacts := rs_seen_contacts st |}.

(** The body of the loop over the [contacts] rows. *)
Definition resync_contact (E : Env) (row : ContactRow) (st : ResyncState) : M ResyncState :=
  let identifiers := resync_identifiers row in
  match identifiers with
  | [] =>
      ret {| rs_stats := add_contact_skipped (rs_stats st);
             rs_alias_map := rs_alias_map st;
             rs_seen_contacts := rs_seen_contacts st |}
  | _ =>
      let preferred_name := resync_preferred_name row identifiers in
      for_each identifiers (resync_identifier E row preferred_name) st
  end.

(** [alias_map.get(key)] and [alias_map.setdefault(key, value)] *)
Definition alias_get (alias : gmap string (option string)) (key : string) : option string :=
  default None (alias !! key).

Definition alias_setdefault (key : string) (value : option string)
    (alias : gmap string (option string)) : gmap string (option string) :=
  match alias !! key with
  | Some _ => alias
  | None => <[key := value]> alias
  end.

(** The body of the loop over the [messages] rows. *)
Definition resync_message (E : Env) (row : MessageRow) (st : ResyncState) : M ResyncState :=
  let sender_id := canonicalize_actor (m_sender row) in
  let receiver_id := canonicalize_actor (m_receiver row) in
  if negb (truthy sender_id) || negb (truthy receiver_id) then
    ret {| rs_stats := add_message_skipped (rs_stats st);
           rs_alias_map := rs_alias_map st;
           rs_seen_contacts := rs_seen_contacts st |}
  else
    let sender_id := default "" sender_id in
    let receiver_id := default "" receiver_id in
    let sender_label := or_else (alias_get (rs_alias_map st) sender_id) (m_sender row) in
    let receiver_label := or_else (alias_get (rs_alias_map st) receiver_id) (m_receiver row) in
    let* success :=
      register_message E (m_external_id row) sender_id receiver_id (m_timestamp row)
        (m_body row) (m_conversation_id row) sender_label receiver_label
        (Some (m_source row)) in
    if success then
      ret {| rs_stats := add_relationship_synced (rs_stats st);
             rs_alias_map :=
               alias_setdefault receiver_id receiver_label
                 (alias_setdefault sender_id sender_label (rs_alias_map st));
             rs_seen_contacts := rs_seen_contacts st |}
    else
      ret {| rs_stats := add_message_skipped (rs_stats st);
             rs_alias_map := rs_alias_map st;
             rs_seen_contacts := rs_seen_contacts st |}.

(** [resync_graph(clear_first)].  [db] is what the read-only connection
    gives: the rows of [contacts] and [messages] as the ledger holds them, or
    the exception of opening the database. *)
Definition resync_graph (E : Env) (clear_first : bool) (db : result Ledger)
  : M GraphResyncStats :=
  let stats := new_GraphResyncStats in
  if negb (graph_enabled E) then ret (set_detail "Neo4j integration is disabled" stats)
  else
    let* stats :=
      if clear_first then
        let* was_cleared := clear_all E in ret (set_cleared was_cleared stats)
      else ret stats in
    if clear_first && negb (cleared stats)
    then ret (set_detail "Failed to clear Neo4j graph" stats)
    else
      let start := {| rs_stats := stats; rs_alias_map := ∅; rs_seen_contacts := ∅ |} in
      match db with
      | Raise exc => ret (set_detail (exn_msg exc) stats)
      | Ok l =>
          let* st := for_each (contacts l) (resync_contact E) start in
          let* st := for_each (messages l) (resync_message E) st in
          ret (rs_stats st)
      end.

(** ** [routers/graph.py]: the maintenance endpoints *)

Record GraphMaintenanceResponse : Type := {
  resp_success : bool;
  resp_detail : option string;
  resp_stats : GraphResyncStats
}.

Definition _stats_to_response (stats : GraphResyncStats) : result GraphMaintenanceResponse :=
  match detail stats with
  | Some d =>
      if truthy (Some d) then
        let status_code := if contains "disabled" (lower d) then 503 else 500 in
        Raise (mk_exn (HTTPException status_code) d)
      else
        Ok {| resp_success := false; resp_detail := Some d; resp_stats := stats |}
  | None => Ok {| resp_success := true; resp_detail := None; resp_stats := stats |}
  end.

Definition reset_graph_view (E : Env) : M GraphMaintenanceResponse :=
  let* stats := reset_graph E in lift (_stats_to_response stats).

Definition resync_graph_view (E : Env) (clear_first : bool) (db : result Ledger)
  : M GraphMaintenanceResponse :=
  let* stats := resync_graph E clear_first db in lift (_stats_to_response stats).

(** *** What a resynchronisation is expected to write *)

(** The canonical identifiers of the contact rows, in the order met. *)
Definition resync_contact_ids (rows : list ContactRow) : list string :=
  flat_map (fun row => map fst (resync_identifiers row)) rows.

(** A message row the graph client accepts: both actors have a canonical
    identifier and the message has an external id. *)
Definition syncable (row : MessageRow) : bool :=
  truthy (canonicalize_actor (m_sender row)) && truthy (canonicalize_actor (m_receiver row))
  && negb (String.eqb (m_external_id row) "").

(** The key of the edge of a message row. *)
Definition edge_key (row : MessageRow) : string * string * string :=
  (default "" (canonicalize_actor (m_sender row)),
   default "" (canonicalize_actor (m_receiver row)), m_external_id row).

Definition resync_edge_keys (rows : list MessageRow) : gset (string * string * string) :=
  list_to_set (map edge_key (List.filter syncable rows)).

Definition resync_endpoint_ids (rows : list MessageRow) : gset string :=
  list_to_set (flat_map (fun row => [fst (fst (edge_key row)); snd (fst (edge_key row))])
                 (List.filter syncable rows)).

(** The identifiers of the [register_person] calls of a log. *)
Definition person_calls (log : list GraphCall) : list string :=
  flat_map (fun call => match call with
                        | CallRegisterPerson identifier => [identifier]
                        | CallRegisterMessage _ _ _ => []
                        end) log.

(** The first occurrences of a list, in order. *)
Fixpoint first_occurrences (seen : gset string) (l : list string) : list string :=
  match l with
  | [] => []
  | x :: rest =>
      if bool_decide (x ∈ seen) then first_occurrences seen rest
      else x :: first_occurrences ({[x]} ∪ seen) rest
  end.

(** What a stretch of the contact loop does when every write commits:
    [new] are the identifiers registered, in order, and [skipped] counts the
    rows skipped. *)
Definition resync_effect (new : list string) (skipped : Z) (st st' : ResyncState)
    (w w' : World) : Prop :=
  g_log (graph w') = (g_log (graph w) ++ map CallRegisterPerson new)%list /\
  rs_seen_contacts st' = list_to_set new ∪ rs_seen_contacts st /\
  contacts_synced (rs_stats st') = contacts_synced (rs_stats st) + Z.of_nat (length new) /\
  skipped_contacts (rs_stats st') = skipped_contacts (rs_stats st) + skipped /\
  relationships_synced (rs_stats st') = relationships_synced (rs_stats st) /\
  skipped_messages (rs_stats st') = skipped_messages (rs_stats st) /\
  cleared (rs_stats st') = cleared (rs_stats st) /\
  detail (rs_stats st') = detail (rs_stats st) /\
  dom (persons (graph w')) = list_to_set new ∪ dom (persons (graph w)) /\
  relationships (graph w') = relationships (graph w).

(** What a stretch of the message loop does when every write commits. *)
Definition resync_message_effect (rows : list MessageRow) (st st' : ResyncState)
    (w w' : World) : Prop :=
  person_calls (g_log (graph w')) = person_calls (g_log (graph w)) /\
  contacts_synced (rs_stats st') = contacts_synced (rs_stats st) /\
  skipped_contacts (rs_stats st') = skipped_contacts (rs_stats st) /\
  cleared (rs_stats st') = cleared (rs_stats st) /\
  detail (rs_stats st') = detail (rs_stats st) /\
  relationships_synced (rs_stats st')
  = relationships_synced (rs_stats st) + Z.of_nat (length (List.filter syncable rows)) /\
  skipped_messages (rs_stats st')
  = skipped_messages (rs_stats st)
    + Z.of_nat (length (List.filter (fun row => negb (syncable row)) rows)) /\
  dom (persons (graph w')) = resync_endpoint_ids rows ∪ dom (persons (graph w)) /\
  dom (relationships (graph w')) = resync_edge_keys rows ∪ dom (relationships (graph w)).

(** The statistics only count up: [k] more message rows were counted, as
    synchronised or as skipped, and the contact counters did not go down. *)
Definition stats_progress (k : Z) (s s' : GraphResyncStats) : Prop :=
  cleared s' = cleared s /\ detail s' = detail s /\
  contacts_synced s <= contacts_synced s' /\
  skipped_contacts s <= skipped_contacts s' /\
  relationships_synced s <= relationships_synced s' /\
  skipped_messages s <= skipped_messages s' /\
  relationships_synced s' + skipped_messages s'
  = relationships_synced s + skipped_messages s + k.

(** A ledger that lists one person twice: the contacts of
    [sample_contacts_db], and one message between two numbers. *)
Definition sample_sync_ledger : Ledger :=
  set_messages [sample_message_a]
    (ledger (snd (ingest_contacts_from_sqlite sample_env sample_contacts_path
                    sample_contacts_db empty_world))).

(** The graph rebuilt from [sample_sync_ledger]: Jane Smith's node carries her
    names and her number as written. *)
Definition sample_synced_world : World :=
  snd (resync_graph sample_env true (Ok sample_sync_ledger) empty_world).

(** What a stretch of the contact loop does whatever the store does: the
    identifiers seen grow within [ids], and [contacts_synced] grows by the
    number of identifiers added. *)
Definition contacts_progress (ids : gset string) (st st' : ResyncState) : Prop :=
  stats_progress 0 (rs_stats st) (rs_stats st') /\
  rs_seen_contacts st ⊆ rs_seen_contacts st' /\
  rs_seen_contacts st' ⊆ ids ∪ rs_seen_contacts st /\
  contacts_synced (rs_stats st') - contacts_synced (rs_stats st)
  = Z.of_nat (size (rs_seen_contacts st')) - Z.of_nat (size (rs_seen_contacts st)).

(** What a stretch of the message loop does whatever the store does. *)
Definition messages_progress (rows : list MessageRow) (st st' : ResyncState) : Prop :=
  stats_progress (Z.of_nat (length rows)) (rs_stats st) (rs_stats st') /\
  contacts_synced (rs_stats st') = contacts_synced (rs_stats st) /\
  skipped_contacts (rs_stats st') = skipped_contacts (rs_stats st) /\
  relationships_synced (rs_stats st') - relationships_synced (rs_stats st)
  <= Z.of_nat (length (List.filter syncable rows)).

(** A graph store that commits every second write. *)
Definition unreliable_graph_env : Env :=
  {| fromisoformat := fromisoformat sample_env;
     graph_enabled := true;
     neo4j_commits := Nat.even;
     vector_enabled := vector_enabled sample_env;
     embedder_encode := embedder_encode sample_env;
     chroma_upsert := chroma_upsert sample_env;
     vision_client := vision_client sample_env;
     describe_image := describe_image sample_env;
     now_isoformat := now_isoformat sample_env;
     stat_file := stat_file sample_env;
     guess_mime_type := guess_mime_type sample_env;
     extracted_dir := extracted_dir sample_env;
     uploads_dir := uploads_dir sample_env |}.

(** The statistics of a resynchronisation that did not reach the ledger. *)
Definition stats_unread (was_cleared : bool) (d : string) : GraphResyncStats :=
  {| cleared := was_cleared; contacts_synced := 0; relationships_synced := 0;
     skipped_contacts := 0; skipped_messages := 0; detail := Some d |}.

(** ** [services/llm.py]: the Gemini client *)

(** [s.endswith(suffix)] *)
Definition endswith (s suffix : string) : bool :=
  (String.length suffix <=? String.length s)%nat
  && String.eqb (slice_from (String.length s - String.length suffix) s) suffix.

Definition LEGACY_MODEL_NAMES : list string :=
  ["models/gemini-1.5-flash"; "models/gemini-1.5-pro"; "models/gemini-1.5-pro-vision";
   "models/gemini-pro-vision"].

Definition _normalize_model_name (model_name : option string) : result string :=
  match model_name with
  | None => Raise (mk_exn ValueError "Gemini model name is not configured")
  | Some name =>
      if negb (truthy model_name)
      then Raise (mk_exn ValueError "Gemini model name is not configured")
      else
        let normalized := strip name in
        if String.eqb normalized "" then Raise (mk_exn ValueError "Gemini model name is blank")
        else
          let normalized :=
            if negb (startswith normalized "models/") then "models/" ++ normalized
            else normalized in
          let lower_name := lower normalized in
          let '(normalized, lower_name) :=
            if startswith lower_name "models/models/"
            then (slice_from 7 normalized, lower (slice_from 7 normalized))
            else (normalized, lower_name) in
          if existsb (String.eqb lower_name) LEGACY_MODEL_NAMES
             && negb (endswith lower_name "-latest")
          then Ok (normalized ++ "-latest")
          else Ok normalized
  end.

(** What one call of [self._model.generate_content] gives: a response with
    its [text] ([None] for no response or no text), a [GoogleAPIError], or
    another exception. *)
Inductive GenerateOutcome : Type :=
  | GenText (text : option string)
  | GenApiError (message : string)
  | GenRaise (e : exn).

(** The retry loop of [GeminiClient.generate_answer]:
    [for attempt in range(attempt, attempt + remaining)], with [last_error]
    as its text. *)
Fixpoint generate_attempts (generate_content : nat -> GenerateOutcome)
    (attempt remaining : nat) (last_error : option string) : result string :=
  match remaining with
  | O => Raise (mk_exn RuntimeError ("Gemini request failed: " ++ default "None" last_error))
  | S remaining' =>
      match generate_content attempt with
      | GenText text =>
          if truthy text then Ok (strip (default "" text))
          else generate_attempts generate_content (S attempt) remaining'
                 (Some "Gemini returned an empty response.")
      | GenApiError message =>
          generate_attempts generate_content (S attempt) remaining' (Some message)
      | GenRaise e =>
          if caught_by [ValueError] e
          then generate_attempts generate_content (S attempt) remaining' (Some (exn_msg e))
          else Raise e
      end
  end.

(** [contents] of a request: [(role, text)] per turn. *)
Definition newline : string := String "010"%char "".

Definition genai_role (role : string) : string :=
  if existsb (String.eqb (lower role)) ["assistant"; "model"] then "model" else "user".

Definition build_contents (question : string) (context_sections : list string)
    (conversation : option (list (string * string))) : list (string * string) :=
  let history :=
    match conversation with
    | Some turns => map (fun '(role, message) => (genai_role role, message)) turns
    | None => []
    end in
  let context_block :=
    match context_sections with
    | [] => "No additional context provided."
    | _ => join (newline ++ newline) context_sections
    end in
  let user_prompt :=
    "Context:" ++ newline ++ context_block ++ newline ++ newline
    ++ "Question: " ++ question ++ newline ++ newline
    ++ "Respond clearly and reference evidence IDs in square brackets when applicable." in
  (history ++ [("user", user_prompt)])%list.

(** [GeminiClient.generate_answer] with [settings.gemini_retry_attempts];
    [generate_content] is given the contents and the number of the attempt. *)
Definition generate_answer (gemini_retry_attempts : Z)
    (generate_content : list (string * string) -> nat -> GenerateOutcome)
    (question : string) (context_sections : list string)
    (conversation : option (list (string * string))) : result string :=
  let contents := build_contents question context_sections conversation in
  generate_attempts (generate_content contents) 1 (Z.to_nat gemini_retry_attempts) None.

(** ** [services/query.py] *)

Record QueryRequest : Type := {
  question : string;
  filters : option (gmap string string);
  top_k : option Z;
  conversation : option (list (string * string))   (* (role, content) *)
}.

(** A Chroma query result: under each key a list with one row per query
    text, if anything.  A distance is a float or missing; a metadata entry
    is a [dict], in its order, or [None]. *)
Record SearchResults : Type := {
  res_ids : option (list (list string));
  res_distances : option (list (list (option float)));
  res_documents : option (list (list (option string)));
  res_metadatas : option (list (list (option (list (string * sqlval)))))
}.

Record EvidenceItem : Type := {
  ev_id : string;
  ev_text : string;
  ev_score : option float;
  ev_metadata : list (string * string)
}.

Record QueryResponse : Type := {
  answer : string;
  evidence : list EvidenceItem;
  model : string
}.

(** The calls [run_query] makes to its collaborators. *)
Inductive QueryCall : Type :=
  | CallSearch (query : string) (n_results : Z) (where_ : option (gmap string string))
  | CallGenerate (question : string) (context_sections : list string)
      (conversation : option (list (string * string))).

Record QueryEnv : Type := {
  settings_vector_store_enabled : bool;
    (* _SETTINGS.vector_store_enabled *)
  settings_gemini_api_key : option string;
    (* _SETTINGS.gemini_api_key *)
  store_is_enabled : bool;
    (* get_vector_store().is_enabled() *)
  query_default_top_k : Z;
    (* _SETTINGS.query_default_top_k *)
  similarity_search : string -> Z -> option (gmap string string) -> result SearchResults;
    (* store.similarity_search(query, n_results=..., where=...) *)
  gemini_answer : string -> list string -> option (list (string * string)) -> result string;
    (* get_gemini_client().generate_answer(...) *)
  gemini_model_name : string;
    (* gemini_client.model_name() *)
  format_score : float -> string
    (* format(score, ".4f") *)
}.

Definition _normalize_metadata (raw : option (list (string * sqlval))) : list (string * string) :=
  match raw with
  | None => []
  | Some items =>
      flat_map (fun '(key, value) =>
                  match value with
                  | VNull => []
                  | _ => [(key, py_str value)]
                  end) items
  end.

Definition _build_context_sections (E : QueryEnv) (evidence : list EvidenceItem)
  : list string :=
  map (fun item =>
         let metadata_str :=
           join ", " (map (fun '(k, v) => k ++ ": " ++ v) (ev_metadata item)) in
         let header :=
           match ev_score item with
           | Some score =>
               "Evidence " ++ ev_id item ++ " (score=" ++ format_score E score ++ ")"
           | None => "Evidence " ++ ev_id item
           end in
         let section := header ++ newline ++ strip (ev_text item) in
         if negb (String.eqb metadata_str "")
         then section ++ newline ++ "Metadata: " ++ metadata_str
         else section) evidence.

Definition _build_conversation (turns : option (list (string * string)))
  : list (string * string) :=
  match turns with
  | None => []
  | Some turns => List.filter (fun '(_, message) => negb (String.eqb message "")) turns
  end.

(** [(results.get(key) or [[]])[0]] *)
Definition first_row {A} (rows : option (list (list A))) : list A :=
  match rows with
  | Some (row :: _) => row
  | _ => []
  end.

(** The loop [for idx, doc in enumerate(documents_list)], from index [idx]. *)
Fixpoint collect_evidence (idx : nat) (documents_list : list (option string))
    (ids_list : list string) (scores_list : list (option float))
    (metadatas_list : list (option (list (string * sqlval)))) : list EvidenceItem :=
  match documents_list with
  | [] => []
  | doc :: rest =>
      if negb (truthy doc)
      then collect_evidence (S idx) rest ids_list scores_list metadatas_list
      else
        let evidence_id := default ("evidence-" ++ nat_str idx) (ids_list !! idx) in
        let score := default None (scores_list !! idx) in
        let metadata := _normalize_metadata (default None (metadatas_list !! idx)) in
        {| ev_id := evidence_id; ev_text := default "" doc; ev_score := score;
           ev_metadata := metadata |}
        :: collect_evidence (S idx) rest ids_list scores_list metadatas_list
  end.

Definition http_error (status_code : Z) (detail_text : string) : exn :=
  mk_exn (HTTPException status_code) detail_text.

(** [run_query]: the response or the exception, and the calls made. *)
Definition run_query (E : QueryEnv) (payload : QueryRequest)
  : result QueryResponse * list QueryCall :=
  if negb (settings_vector_store_enabled E)
  then (Raise (http_error 503 "Vector store is disabled"), [])
  else if negb (truthy (settings_gemini_api_key E))
  then (Raise (http_error 503 "Gemini integration is not configured"), [])
  else if negb (store_is_enabled E)
  then (Raise (http_error 503 "Vector store is not initialized"), [])
  else
    let top_k :=
      match top_k payload with
      | Some k => if k =? 0 then query_default_top_k E else k
      | None => query_default_top_k E
      end in
    let top_k := Z.max 1 (Z.min top_k 20) in
    let filters :=
      match filters payload with
      | Some f => if bool_decide (f = ∅) then None else Some f
      | None => None
      end in
    let searched := [CallSearch (question payload) top_k filters] in
    match similarity_search E (question payload) top_k filters with
    | Raise exc =>
        if caught_by [RuntimeError] exc
        then (Raise (http_error 500 (exn_msg exc)), searched)
        else (Raise exc, searched)
    | Ok results =>
        let evidence_items :=
          collect_evidence 0 (first_row (res_documents results)) (first_row (res_ids results))
            (first_row (res_distances results)) (first_row (res_metadatas results)) in
        let context_sections := _build_context_sections E evidence_items in
        let conversation_turns :=
          match conversation payload with
          | Some (turn :: turns) => Some (_build_conversation (Some (turn :: turns)))
          | _ => None
          end in
        let calls :=
          (searched ++ [CallGenerate (question payload) context_sections conversation_turns])%list in
        match gemini_answer E (question payload) context_sections conversation_turns with
        | Raise exc =>
            if caught_by [RuntimeError] exc
            then (Raise (http_error 502 (exn_msg exc)), calls)
            else (Raise exc, calls)
        | Ok text =>
            (Ok {| answer := text; evidence := evidence_items;
                   model := gemini_model_name E |}, calls)
        end
    end.

(** The error an attempt leaves in [last_error] when the loop goes on to
    the next attempt; [None] when the attempt ends the loop. *)
Definition retry_error (outcome : GenerateOutcome) : option string :=
  match outcome with
  | GenText text => if truthy text then None else Some "Gemini returned an empty response."
  | GenApiError message => Some message
  | GenRaise e => if caught_by [ValueError] e then Some (exn_msg e) else None
  end.

(** A model that fails twice, once with an API error and once with an empty
    response, and then answers. *)
Definition sample_generate (contents : list (string * string)) (attempt : nat)
  : GenerateOutcome :=
  match attempt with
  | 1%nat => GenApiError "503 Service Unavailable"
  | 2%nat => GenText None
  | _ => GenText (Some " The device was wiped on 2024-01-01 [msg:sms.db:message:1]. ")
  end.

(** *** Tags of an image description *)

(** The value under ["tags"] of the parsed response: [None], a string, a
    list (of the [str()] of its items), or another value (its [str()]). *)
Inductive TagsValue : Type :=
  | TagsNone
  | TagsStr (text : string)
  | TagsList (items : list string)
  | TagsOther (text : string).

(** [re.split(r"[,\n]\s*", value)]: a comma or a newline starts a
    separator, which takes the whitespace after it.  [skipping] says that a
    separator is being read, [current] is the part read so far. *)
Fixpoint re_split_tags (skipping : bool) (current : string) (s : string) : list string :=
  match s with
  | EmptyString => [current]
  | String c rest =>
      if skipping && is_space c then re_split_tags true current rest
      else if Ascii.eqb c "," || Ascii.eqb c "010"
      then current :: re_split_tags true "" rest
      else re_split_tags false (current ++ String c "") rest
  end.

Definition stripped_parts (parts : list string) : list string :=
  List.filter (fun part => negb (String.eqb part "")) (map strip parts).

Definition _normalize_tags (value : TagsValue) : list string :=
  match value with
  | TagsNone => []
  | TagsStr text => stripped_parts (re_split_tags false "" text)
  | TagsList items => stripped_parts items
  | TagsOther text => [strip text]
  end.

(** Every character of [s] passes [f]. *)
Fixpoint all_chars (f : ascii -> bool) (s : string) : bool :=
  match s with
  | EmptyString => true
  | String c rest => f c && all_chars f rest
  end.

(** A character that [re_split_tags] does not split at. *)
Definition not_separator (c : ascii) : bool :=
  negb (Ascii.eqb c "," || Ascii.eqb c "010").

(** * Properties *)

(** ** Field normaliser: [canonicalize_actor] *)

Lemma string_eqb_empty (s : string) :
  String.eqb s "" = match s with EmptyString => true | String _ _ => false end.
Proof. destruct s; reflexivity. Qed.

(** C5 (as amended).  [canonicalize_actor] gives the three identities the
    specification lists for ["tel:+1 (555) 123-0001"], ["Jane@Example.com"]
    and [""], and on every input it agrees with the wording of the
    specification once the [+] is taken from what remains after the [tel:]
    prefix: trim; drop a leading [tel:] in any case; an [@] gives the
    remainder lower-cased; otherwise the digits, with a [+] in front exactly
    when the trimmed remainder began with [+]; with no digits and no [@], the
    remainder lower-cased; nothing for an absent or blank input. *)
Theorem canonicalize_actor_meets_amended_spec :
  canonicalize_actor (Some "tel:+1 (555) 123-0001") = Some "+15551230001" /\
  canonicalize_actor (Some "Jane@Example.com") = Some "jane@example.com" /\
  canonicalize_actor (Some "") = None /\
  canonicalize_actor None = None /\
  forall value, canonicalize_actor value = canonicalizeActor_amended value.
Proof.
  repeat split; try reflexivity.
  intros [v|]; [|reflexivity].
  unfold canonicalize_actor, canonicalizeActor_amended, classify_actor, tel_remainder.
  rewrite string_eqb_empty.
  destruct (strip v) as [|c t] eqn:Hs; [reflexivity|].
  destruct (startswith (lower (String c t)) "tel:"); cbn zeta.
  - destruct (contains_char "@" (slice_from 4 (String c t))); [reflexivity|].
    rewrite string_eqb_empty.
    destruct (filter_chars isdigit (slice_from 4 (String c t))); reflexivity.
  - destruct (contains_char "@" (String c t)); [reflexivity|].
    rewrite string_eqb_empty.
    destruct (filter_chars isdigit (String c t)); reflexivity.
Qed.

(** C5 (as claimed) fails: with the [+] taken from the trimmed original, the
    number behind a [tel:] prefix would lose its [+], against the code and
    against the claim's own first example. *)
Lemma canonicalize_actor_claimed_plus_rule_fails :
  canonicalize_actor (Some "tel:+1 (555) 123-0001") = Some "+15551230001" /\
  canonicalizeActor_claimed (Some "tel:+1 (555) 123-0001") = Some "15551230001" /\
  canonicalize_actor (Some "tel:+1 (555) 123-0001")
    <> canonicalizeActor_claimed (Some "tel:+1 (555) 123-0001").
Proof. repeat split; try reflexivity. discriminate. Qed.

(** What the fallback returns when only the prefix is given: the empty
    string, which every caller treats as no identity. *)
Lemma canonicalize_actor_bare_prefix :
  canonicalize_actor (Some "tel:") = Some "".
Proof. reflexivity. Qed.

(** ** Field normaliser: [_safe_parse_timestamp] *)

(** C2.  The code at the numeric input [700000000]: nothing is added and
    nothing subtracted (the value does not exceed the offset), so the result
    renders Unix second 700000000, in 1992, and not second
    [700000000 + 978307200], in 2023, as the specification's example asks. *)
Theorem safe_parse_timestamp_700000000 (E : Env) :
  _safe_parse_timestamp E (Some "700000000") = Ok (render_epoch_second 700000000) /\
  render_epoch_second 700000000 = Some "1992-03-07T20:26:40+00:00" /\
  render_epoch_second (700000000 + APPLE_EPOCH_OFFSET) = Some "2023-03-08T20:26:40+00:00".
Proof. repeat split; vm_compute; reflexivity. Qed.

(** The offset is only ever subtracted: a Unix second of 2023 is moved back
    to 1992 as well. *)
Lemma safe_parse_timestamp_unix_2023 (E : Env) :
  _safe_parse_timestamp E (Some "1700000000") = Ok (render_epoch_second 721692800) /\
  render_epoch_second 1700000000 = Some "2023-11-14T22:13:20+00:00" /\
  render_epoch_second 721692800 = Some "1992-11-13T22:13:20+00:00".
Proof. repeat split; vm_compute; reflexivity. Qed.

(** The numeric branch in general: the division happens exactly when the
    value exceeds [1e12], the subtraction exactly when the (possibly divided)
    value exceeds the offset. *)
Lemma adjust_numeric_cases (x : float) :
  let ms := fgt x (float_of_decimal false 1 12) in
  let y := if ms then fdiv x (float_of_Z 1000) else x in
  adjust_numeric x =
    if fgt y (float_of_Z APPLE_EPOCH_OFFSET) then fsub y (float_of_Z APPLE_EPOCH_OFFSET) else y.
Proof. reflexivity. Qed.

Lemma safe_parse_timestamp_numeric (E : Env) (value : string) (x : float) :
  float_of_str value = Ok x ->
  _safe_parse_timestamp E (Some value) =
    match fromtimestamp_utc (adjust_numeric x) with
    | Ok parsed => Ok (Some (isoformat parsed))
    | Raise e => if caught_by [OverflowError; ValueError] e then Ok (Some value) else Raise e
    end.
Proof. intros H. unfold _safe_parse_timestamp. rewrite H. reflexivity. Qed.

Lemma float_of_str_raises_ValueError (s : string) (e : exn) :
  float_of_str s = Raise e -> exn_cls e = ValueError.
Proof.
  unfold float_of_str. destruct (parse_float s); [discriminate|].
  intros H. injection H as <-. reflexivity.
Qed.

Lemma timet_of_float_raises (x : float) (e : exn) :
  timet_of_float x = Raise e -> exn_cls e = ValueError \/ exn_cls e = OverflowError.
Proof.
  unfold timet_of_float.
  destruct x; try (intros H; injection H as <-; auto; fail).
  - destruct (modf _) as [ip fp].
    destruct (1000000 <=? _); [|destruct (_ <? 0)];
      match goal with |- context [if ?c then _ else _] => destruct c end;
      intros H; try discriminate; injection H as <-; auto.
  - destruct (modf _) as [ip fp].
    destruct (1000000 <=? _); [|destruct (_ <? 0)];
      match goal with |- context [if ?c then _ else _] => destruct c end;
      intros H; try discriminate; injection H as <-; auto.
Qed.

Lemma fromtimestamp_utc_raises (x : float) (e : exn) :
  fromtimestamp_utc x = Raise e ->
  exn_cls e = ValueError \/ exn_cls e = OverflowError \/ exn_cls e = OSError.
Proof.
  unfold fromtimestamp_utc.
  destruct (timet_of_float x) as [[t us]|e'] eqn:Ht.
  - destruct (civil_from_days _) as [[y m] d].
    destruct (negb _); [intros H; injection H as <-; auto|].
    destruct (negb _); [intros H; injection H as <-; auto|discriminate].
  - intros H; injection H as <-.
    destruct (timet_of_float_raises _ _ Ht); auto.
Qed.

(** Whatever the input, the only exception that leaves
    [_safe_parse_timestamp] is the [OSError] of [gmtime]. *)
Lemma safe_parse_timestamp_raises_only_OSError (E : Env) (value : option string) (e : exn) :
  _safe_parse_timestamp E value = Raise e -> exn_cls e = OSError.
Proof.
  destruct value as [v|]; [|discriminate].
  unfold _safe_parse_timestamp.
  destruct (float_of_str v) as [x|e'] eqn:Hf.
  - destruct (fromtimestamp_utc _) as [d|e'] eqn:Ht; [discriminate|].
    destruct (fromtimestamp_utc_raises _ _ Ht) as [H|[H|H]];
      unfold caught_by; cbn; rewrite H; cbn; intros H'; try discriminate.
    injection H' as <-. exact H.
  - apply float_of_str_raises_ValueError in Hf.
    unfold caught_by; cbn; rewrite Hf; cbn.
    destruct (fromisoformat E v); discriminate.
Qed.

(** C9.  The code at the numeric input ["1e20"]: [float] accepts it, the
    value is taken for milliseconds, and [datetime.fromtimestamp] fails in
    [gmtime] with [OSError], which [except (OverflowError, ValueError)] does
    not catch: the exception leaves [_safe_parse_timestamp]. *)
Theorem safe_parse_timestamp_1e20_raises (E : Env) :
  float_of_str "1e20" = Ok (float_of_decimal false 1 20) /\
  _safe_parse_timestamp E (Some "1e20")
  = Raise (mk_exn OSError "[Errno 75] Value too large for defined data type").
Proof. split; vm_compute; reflexivity. Qed.

(** The parts of C9 the code does satisfy: an absent value stays absent, a
    text that neither [float] nor [fromisoformat] accepts comes back
    verbatim, a naive ISO text is rendered with the UTC offset. *)
Lemma safe_parse_timestamp_fallbacks (E : Env) :
  _safe_parse_timestamp E None = Ok None /\
  (forall value,
     is_ok (float_of_str value) = false -> fromisoformat E value = None ->
     _safe_parse_timestamp E (Some value) = Ok (Some value)) /\
  (forall value parsed,
     is_ok (float_of_str value) = false -> fromisoformat E value = Some parsed ->
     dt_tzinfo parsed = None ->
     _safe_parse_timestamp E (Some value) = Ok (Some (isoformat (replace_tzinfo parsed utc)))).
Proof.
  split; [reflexivity|]. split.
  - intros value Hf Hi. unfold _safe_parse_timestamp.
    destruct (float_of_str value) as [x|e] eqn:He; [discriminate|].
    apply float_of_str_raises_ValueError in He.
    unfold caught_by; cbn; rewrite He; cbn. rewrite Hi. reflexivity.
  - intros value parsed Hf Hi Htz. unfold _safe_parse_timestamp.
    destruct (float_of_str value) as [x|e] eqn:He; [discriminate|].
    apply float_of_str_raises_ValueError in He.
    unfold caught_by; cbn; rewrite He; cbn. rewrite Hi, Htz. reflexivity.
Qed.

Lemma safe_parse_timestamp_examples :
  _safe_parse_timestamp sample_env (Some "not-a-date") = Ok (Some "not-a-date") /\
  _safe_parse_timestamp sample_env (Some "2024-01-01T00:00:00")
  = Ok (Some "2024-01-01T00:00:00+00:00").
Proof. split; vm_compute; reflexivity. Qed.

(** ** Computations: equations and frame rules *)

Lemma bind_ok {A B} (m : M A) (k : A -> M B) (w w1 : World) (a : A) :
  m w = (Ok a, w1) -> bind m k w = k a w1.
Proof. intros H. unfold bind. rewrite H. reflexivity. Qed.

Lemma bind_raise {A B} (m : M A) (k : A -> M B) (w w1 : World) (e : exn) :
  m w = (Raise e, w1) -> bind m k w = (Raise e, w1).
Proof. intros H. unfold bind. rewrite H. reflexivity. Qed.

Lemma for_each_app {A S} (l1 l2 : list A) (body : A -> S -> M S) (acc : S) (w : World) :
  for_each (l1 ++ l2) body acc w =
    match for_each l1 body acc w with
    | (Ok acc', w') => for_each l2 body acc' w'
    | (Raise e, w') => (Raise e, w')
    end.
Proof.
  revert acc w. induction l1 as [|x l1 IH]; intros acc w; cbn; [reflexivity|].
  unfold bind. destruct (body x acc w) as [[acc'|e] w']; [apply IH|reflexivity].
Qed.

Section Frame.
Context (R : World -> World -> Prop) `{!Reflexive R} `{!Transitive R}.

Lemma preserves_ret {A} (a : A) : preserves R (ret a).
Proof using Type*. intros w. cbn. reflexivity. Qed.

Lemma preserves_raise {A} (e : exn) : preserves R (@raise A e).
Proof using Type*. intros w. cbn. reflexivity. Qed.

Lemma preserves_lift {A} (r : result A) : preserves R (lift r).
Proof using Type*. intros w. cbn. reflexivity. Qed.

Lemma preserves_get_world : preserves R get_world.
Proof using Type*. intros w. cbn. reflexivity. Qed.

Lemma preserves_modify (f : World -> World) :
  (forall w, R w (f w)) -> preserves R (modify f).
Proof using Type. intros H w. cbn. apply H. Qed.

Lemma preserves_bind {A B} (m : M A) (k : A -> M B) :
  preserves R m -> (forall a, preserves R (k a)) -> preserves R (bind m k).
Proof using Type*.
  intros Hm Hk w. unfold bind. specialize (Hm w).
  destruct (m w) as [[a|e] w1]; cbn in *; [|exact Hm].
  etransitivity; [exact Hm|apply Hk].
Qed.

Lemma preserves_for_each {A S} (l : list A) (body : A -> S -> M S) (acc : S) :
  (forall x acc, preserves R (body x acc)) -> preserves R (for_each l body acc).
Proof using Type*.
  intros Hb. revert acc. induction l as [|x l IH]; intros acc; cbn.
  - apply preserves_ret.
  - apply preserves_bind; [apply Hb|intros a; apply IH].
Qed.

Lemma preserves_try_except {A} (m : M A) (handlers : list exn_class) (h : exn -> M A) :
  preserves R m -> (forall e, preserves R (h e)) -> preserves R (try_except m handlers h).
Proof using Type*.
  intros Hm Hh w. unfold try_except. specialize (Hm w).
  destruct (m w) as [[a|e] w1]; cbn in *; [exact Hm|].
  destruct (caught_by handlers e); cbn; [|exact Hm].
  etransitivity; [exact Hm|apply Hh].
Qed.

End Frame.

Lemma never_raises_ret {A} (a : A) : never_raises (ret a).
Proof. intros w. reflexivity. Qed.

Lemma never_raises_modify (f : World -> World) : never_raises (modify f).
Proof. intros w. reflexivity. Qed.

Lemma never_raises_get_world : never_raises get_world.
Proof. intros w. reflexivity. Qed.

Lemma never_raises_bind {A B} (m : M A) (k : A -> M B) :
  never_raises m -> (forall a, never_raises (k a)) -> never_raises (bind m k).
Proof.
  intros Hm Hk w. unfold bind. specialize (Hm w).
  destruct (m w) as [[a|e] w1]; cbn in *; [apply Hk|discriminate].
Qed.

Lemma never_raises_for_each {A S} (l : list A) (body : A -> S -> M S) (acc : S) :
  (forall x acc, never_raises (body x acc)) -> never_raises (for_each l body acc).
Proof.
  intros Hb. revert acc. induction l as [|x l IH]; intros acc; cbn.
  - apply never_raises_ret.
  - apply never_raises_bind; [apply Hb|intros a; apply IH].
Qed.

Lemma never_raises_try_except_all {A} (m : M A) (h : exn -> M A) :
  (forall e, never_raises (h e)) -> never_raises (try_except m [Exception] h).
Proof.
  intros Hh w. unfold try_except.
  destruct (m w) as [[a|e] w1]; cbn; [reflexivity|apply Hh].
Qed.

Lemma never_raises_with_connection {A} (m : M A) :
  never_raises m -> never_raises (with_connection m).
Proof.
  intros Hm w. unfold with_connection. specialize (Hm w).
  destruct (m w) as [[a|e] w1]; cbn in *; [reflexivity|discriminate].
Qed.

Lemma never_raises_returns {A} (m : M A) (w : World) :
  never_raises m -> exists a w', m w = (Ok a, w').
Proof.
  intros H. specialize (H w). destruct (m w) as [[a|e] w']; [eauto|discriminate].
Qed.

#[local] Instance same_ledger_refl : Reflexive same_ledger.
Proof. intros w. split; reflexivity. Qed.

#[local] Instance same_ledger_trans : Transitive same_ledger.
Proof. intros a b c [H1 H2] [H3 H4]. split; congruence. Qed.

#[local] Instance only_ledger_refl : Reflexive only_ledger.
Proof. intros w. repeat split; reflexivity. Qed.

#[local] Instance only_ledger_trans : Transitive only_ledger.
Proof. intros a b c (?&?&?&?&?) (?&?&?&?&?). repeat split; congruence. Qed.

(** *** The graph client never raises and leaves the ledger alone *)

Lemma tick_same_ledger : preserves same_ledger tick.
Proof. intros w. split; reflexivity. Qed.

Lemma tick_never_raises : never_raises tick.
Proof. intros w. reflexivity. Qed.

Lemma execute_write_same_ledger (E : Env) (tx : GraphDb -> GraphDb) :
  preserves same_ledger (execute_write E tx).
Proof.
  unfold execute_write. apply preserves_bind; [typeclasses eauto..|apply tick_same_ledger|].
  intros n. destruct (neo4j_commits E n); [|apply preserves_ret; typeclasses eauto].
  apply preserves_bind; [typeclasses eauto..| |intros; apply preserves_ret; typeclasses eauto].
  apply preserves_modify. intros w. split; reflexivity.
Qed.

Lemma execute_write_never_raises (E : Env) (tx : GraphDb -> GraphDb) :
  never_raises (execute_write E tx).
Proof.
  unfold execute_write. apply never_raises_bind; [apply tick_never_raises|].
  intros n. destruct (neo4j_commits E n); [|apply never_raises_ret].
  apply never_raises_bind; [apply never_raises_modify|intros; apply never_raises_ret].
Qed.

Lemma register_person_same_ledger (E : Env) id dn gn fn raw src :
  preserves same_ledger (register_person E id dn gn fn raw src).
Proof.
  unfold register_person. apply preserves_bind; [typeclasses eauto..| |].
  - apply preserves_modify. intros w. split; reflexivity.
  - intros _. destruct (_ || _); [apply preserves_ret; typeclasses eauto|].
    apply execute_write_same_ledger.
Qed.

Lemma register_person_never_raises (E : Env) id dn gn fn raw src :
  never_raises (register_person E id dn gn fn raw src).
Proof.
  unfold register_person. apply never_raises_bind; [apply never_raises_modify|].
  intros _. destruct (_ || _); [apply never_raises_ret|apply execute_write_never_raises].
Qed.

Lemma register_message_same_ledger (E : Env) mid s r ts body conv sl rl src :
  preserves same_ledger (register_message E mid s r ts body conv sl rl src).
Proof.
  unfold register_message. apply preserves_bind; [typeclasses eauto..| |].
  - apply preserves_modify. intros w. split; reflexivity.
  - intros _. destruct (negb _); [apply preserves_ret; typeclasses eauto|].
    destruct (_ || _); [apply preserves_ret; typeclasses eauto|].
    apply execute_write_same_ledger.
Qed.

Lemma register_message_never_raises (E : Env) mid s r ts body conv sl rl src :
  never_raises (register_message E mid s r ts body conv sl rl src).
Proof.
  unfold register_message. apply never_raises_bind; [apply never_raises_modify|].
  intros _. destruct (negb _); [apply never_raises_ret|].
  destruct (_ || _); [apply never_raises_ret|apply execute_write_never_raises].
Qed.

Lemma _register_message_with_graph_same_ledger (E : Env) mid s r ts body conv src :
  preserves same_ledger (_register_message_with_graph E mid s r ts body conv src).
Proof.
  unfold _register_message_with_graph.
  destruct (negb _); [apply preserves_ret; typeclasses eauto|].
  destruct (canonicalize_actor s); [|apply preserves_ret; typeclasses eauto].
  destruct (canonicalize_actor r); [|apply preserves_ret; typeclasses eauto].
  destruct (_ || _); [apply preserves_ret; typeclasses eauto|].
  apply preserves_bind; [typeclasses eauto..|apply preserves_get_world; typeclasses eauto|].
  intros w0. apply preserves_bind; [typeclasses eauto..|apply register_message_same_ledger|].
  intros [|]; [|apply preserves_ret; typeclasses eauto].
  apply preserves_bind; [typeclasses eauto..| |intros _].
  - apply preserves_modify. intros w.
    destruct (bool_decide _); split; reflexivity.
  - apply preserves_modify. intros w. split; reflexivity.
Qed.

Lemma _register_message_with_graph_never_raises (E : Env) mid s r ts body conv src :
  never_raises (_register_message_with_graph E mid s r ts body conv src).
Proof.
  unfold _register_message_with_graph.
  destruct (negb _); [apply never_raises_ret|].
  destruct (canonicalize_actor s); [|apply never_raises_ret].
  destruct (canonicalize_actor r); [|apply never_raises_ret].
  destruct (_ || _); [apply never_raises_ret|].
  apply never_raises_bind; [apply never_raises_get_world|].
  intros w0. apply never_raises_bind; [apply register_message_never_raises|].
  intros [|]; [|apply never_raises_ret].
  apply never_raises_bind; [apply never_raises_modify|intros _; apply never_raises_modify].
Qed.

Lemma _register_contact_with_graph_same_ledger (E : Env) dn gn fn ph em src :
  preserves same_ledger (_register_contact_with_graph E dn gn fn ph em src).
Proof.
  unfold _register_contact_with_graph.
  destruct (negb _); [apply preserves_ret; typeclasses eauto|].
  apply preserves_for_each; [typeclasses eauto..|].
  intros [canonical raw] []. apply preserves_bind; [typeclasses eauto..|apply register_person_same_ledger|].
  intros [|]; [|apply preserves_ret; typeclasses eauto].
  apply preserves_bind; [typeclasses eauto..| |intros _].
  - apply preserves_modify. intros w. destruct (bool_decide _); split; reflexivity.
  - destruct (or_else _ _); [|apply preserves_ret; typeclasses eauto].
    destruct (truthy _); [|apply preserves_ret; typeclasses eauto].
    apply preserves_modify. intros w. split; reflexivity.
Qed.

Lemma _register_contact_with_graph_never_raises (E : Env) dn gn fn ph em src :
  never_raises (_register_contact_with_graph E dn gn fn ph em src).
Proof.
  unfold _register_contact_with_graph.
  destruct (negb _); [apply never_raises_ret|].
  apply never_raises_for_each.
  intros [canonical raw] []. apply never_raises_bind; [apply register_person_never_raises|].
  intros [|]; [|apply never_raises_ret].
  apply never_raises_bind; [apply never_raises_modify|intros _].
  destruct (or_else _ _); [|apply never_raises_ret].
  destruct (truthy _); [apply never_raises_modify|apply never_raises_ret].
Qed.

(** Rules for [outcome]. *)
Lemma outcome_ret {A} (a : A) (Q : A -> Prop) (H : exn -> Prop) :
  Q a -> outcome (ret a) Q H.
Proof. intros Ha w. exact Ha. Qed.

Lemma outcome_bind {A B} (m : M A) (k : A -> M B) (Q1 : A -> Prop) (Q : B -> Prop)
    (H : exn -> Prop) :
  outcome m Q1 H -> (forall a, Q1 a -> outcome (k a) Q H) -> outcome (bind m k) Q H.
Proof.
  intros Hm Hk w. unfold bind. specialize (Hm w).
  destruct (m w) as [[a|e] w1]; cbn in *; [apply (Hk a Hm)|exact Hm].
Qed.

Lemma outcome_weaken {A} (m : M A) (Q Q' : A -> Prop) (H H' : exn -> Prop) :
  outcome m Q H -> (forall a, Q a -> Q' a) -> (forall e, H e -> H' e) -> outcome m Q' H'.
Proof.
  intros Hm HQ HH w. specialize (Hm w). destruct (fst (m w)); [apply HQ|apply HH]; exact Hm.
Qed.

Lemma outcome_never_raises {A} (m : M A) (H : exn -> Prop) :
  never_raises m -> outcome m (fun _ => True) H.
Proof. intros Hm w. specialize (Hm w). destruct (fst (m w)); [exact I|discriminate]. Qed.

Lemma outcome_try_except {A} (m : M A) (handlers : list exn_class) (h : exn -> M A)
    (Q : A -> Prop) (H1 H : exn -> Prop) :
  outcome m Q H1 ->
  (forall e, H1 e -> caught_by handlers e = true -> outcome (h e) Q H) ->
  (forall e, H1 e -> caught_by handlers e = false -> H e) ->
  outcome (try_except m handlers h) Q H.
Proof.
  intros Hm Hh Hpass w. unfold try_except. specialize (Hm w).
  destruct (m w) as [[a|e] w1]; cbn in *; [exact Hm|].
  destruct (caught_by handlers e) eqn:Hc; [apply (Hh e Hm Hc)|apply (Hpass e Hm Hc)].
Qed.

Lemma outcome_returns {A} (m : M A) (Q : A -> Prop) (w : World) :
  outcome m Q no_exn -> exists a w', m w = (Ok a, w') /\ Q a.
Proof.
  intros Hm. specialize (Hm w). destruct (m w) as [[a|e] w']; cbn in Hm; [eauto|destruct Hm].
Qed.

Lemma outcome_raise {A} (e : exn) (Q : A -> Prop) (H : exn -> Prop) :
  H e -> outcome (@raise A e) Q H.
Proof. intros He w. exact He. Qed.

Lemma outcome_for_each {A S} (l : list A) (body : A -> S -> M S) (Q : S -> Prop)
    (H : exn -> Prop) :
  (forall x acc, Q acc -> outcome (body x acc) Q H) ->
  forall acc, Q acc -> outcome (for_each l body acc) Q H.
Proof.
  intros Hb. induction l as [|x l IH]; intros acc Hacc; cbn [for_each].
  - apply outcome_ret, Hacc.
  - eapply outcome_bind; [apply Hb, Hacc|exact IH].
Qed.

Lemma outcome_with_connection {A} (m : M A) (Q : A -> Prop) (H : exn -> Prop) :
  outcome m Q H -> outcome (with_connection m) Q H.
Proof.
  intros Hm w. unfold with_connection. specialize (Hm w).
  destruct (m w) as [[a|e] w1]; exact Hm.
Qed.

(** ** Ingestion ledger: messages *)

Lemma existsb_eqb_In (v : string) (l : list string) :
  existsb (String.eqb v) l = true <-> In v l.
Proof.
  rewrite existsb_exists. split.
  - intros (x & Hx & Heq). apply String.eqb_eq in Heq. subst. exact Hx.
  - intros H. exists v. split; [exact H|apply String.eqb_refl].
Qed.

Lemma existsb_eqb_not_In (v : string) (l : list string) :
  existsb (String.eqb v) l = false <-> ~ In v l.
Proof.
  rewrite <- existsb_eqb_In. destruct (existsb _ l); split; intros; congruence.
Qed.

Lemma distinct_NoDup (l : list string) : distinct l = true <-> NoDup l.
Proof.
  induction l as [|x l IH]; cbn.
  - split; [constructor|reflexivity].
  - rewrite andb_true_iff, negb_true_iff, existsb_eqb_not_In, IH.
    rewrite NoDup_cons, list_elem_of_In. tauto.
Qed.

Lemma set_messages_same (l : Ledger) : set_messages (messages l) l = l.
Proof. destruct l; reflexivity. Qed.

Lemma coalesce_no_null (v e : string) (rows : list MessageRow) :
  has_null_row e rows = false -> map (coalesce_vector_id v e) rows = rows.
Proof.
  induction rows as [|r rows IH]; cbn; [reflexivity|].
  rewrite orb_false_iff. intros [Hr Hrest]. rewrite IH by exact Hrest. f_equal.
  unfold coalesce_vector_id. destruct (String.eqb (m_external_id r) e); [|reflexivity].
  destruct r as [? ? ? ? ? ? ? ? ? ? ? [vid|]]; cbn in *; [reflexivity|discriminate].
Qed.

Lemma coalesce_keeps_ids (v e x : string) (rows : list MessageRow) :
  In x (message_vector_ids rows) ->
  In x (message_vector_ids (map (coalesce_vector_id v e) rows)).
Proof.
  unfold message_vector_ids.
  induction rows as [|r rows IH]; cbn; [tauto|].
  unfold coalesce_vector_id at 1.
  destruct (String.eqb (m_external_id r) e); cbn;
    destruct (m_vector_id r); cbn; intuition.
Qed.

Lemma coalesce_fills_null (v e : string) (rows : list MessageRow) :
  has_null_row e rows = true ->
  In v (message_vector_ids (map (coalesce_vector_id v e) rows)).
Proof.
  unfold message_vector_ids.
  induction rows as [|r rows IH]; cbn; [discriminate|].
  rewrite orb_true_iff. intros [Hr|Hrest].
  - apply andb_true_iff in Hr as [He Hn]. unfold coalesce_vector_id at 1.
    rewrite He. destruct (m_vector_id r); [discriminate|]. cbn. auto.
  - specialize (IH Hrest). destruct (m_vector_id (coalesce_vector_id v e r)); cbn; auto.
Qed.

Lemma coalesce_collides (v e : string) (rows : list MessageRow) :
  In v (message_vector_ids rows) -> has_null_row e rows = true ->
  distinct (message_vector_ids (map (coalesce_vector_id v e) rows)) = false.
Proof.
  induction rows as [|r rows IH]; [cbn; tauto|].
  intros Hin Hnull. cbn in Hnull. apply orb_true_iff in Hnull.
  unfold message_vector_ids in *. cbn [map somes] in *.
  unfold coalesce_vector_id at 1.
  destruct (String.eqb (m_external_id r) e) eqn:He;
    destruct (m_vector_id r) as [v'|] eqn:Hv; cbn [m_vector_id somes distinct] in *;
    rewrite ?Hv; cbn [somes distinct].
  - (* indexed row under [e] *)
    destruct Hnull as [Hn|Hn]; [rewrite andb_false_r in Hn; discriminate|].
    destruct Hin as [->|Hin].
    + pose proof (coalesce_fills_null v e rows Hn) as Hf.
      apply existsb_eqb_In in Hf. unfold message_vector_ids in Hf. rewrite Hf. reflexivity.
    + rewrite (IH Hin Hn). apply andb_false_r.
  - (* bodiless row under [e]: it receives [v], already indexed further on *)
    pose proof (coalesce_keeps_ids v e v rows Hin) as Hk.
    apply existsb_eqb_In in Hk. unfold message_vector_ids in Hk. rewrite Hk. reflexivity.
  - destruct Hnull as [Hn|Hn]; [discriminate|].
    destruct Hin as [->|Hin].
    + pose proof (coalesce_fills_null v e rows Hn) as Hf.
      apply existsb_eqb_In in Hf. unfold message_vector_ids in Hf. rewrite Hf. reflexivity.
    + rewrite (IH Hin Hn). apply andb_false_r.
  - destruct Hnull as [Hn|Hn]; [discriminate|]. exact (IH Hin Hn).
Qed.

(** The [UPDATE] that follows an ignored insert changes no row, or fails. *)
Lemma update_after_conflict (v e : string) (l : Ledger) :
  distinct (message_vector_ids (messages l)) = true ->
  In v (message_vector_ids (messages l)) ->
  update_message_vector_id v e l =
    if has_null_row e (messages l)
    then Raise (mk_exn IntegrityError "UNIQUE constraint failed: messages.vector_id")
    else Ok l.
Proof.
  intros Hd Hin. unfold update_message_vector_id.
  destruct (has_null_row e (messages l)) eqn:Hn.
  - rewrite (coalesce_collides v e _ Hin Hn). reflexivity.
  - rewrite (coalesce_no_null v e _ Hn), Hd, set_messages_same. reflexivity.
Qed.

Lemma insert_or_ignore_message_inserted (row : MessageRow) (l : Ledger) :
  fst (insert_or_ignore_message row l) = true <->
  match m_vector_id row with
  | None => True
  | Some v => ~ In v (message_vector_ids (messages l))
  end.
Proof.
  unfold insert_or_ignore_message. destruct (m_vector_id row) as [v|]; [|cbn; tauto].
  destruct (existsb _ _) eqn:Hx; cbn.
  - apply existsb_eqb_In in Hx. split; [discriminate|tauto].
  - apply existsb_eqb_not_In in Hx. tauto.
Qed.

(** An insert that meets an indexed [vector_id] is ignored, and the
    [UPDATE] that follows leaves the ledger as it is or aborts. *)
Lemma store_message_on_conflict (row : MessageRow) (l : Ledger) (v : string) :
  m_vector_id row = Some v ->
  In v (message_vector_ids (messages l)) ->
  insert_or_ignore_message row l = (false, l) /\
  (distinct (message_vector_ids (messages l)) = true ->
   store_message row l =
     if has_null_row (m_external_id row) (messages l)
     then Raise (mk_exn IntegrityError "UNIQUE constraint failed: messages.vector_id")
     else Ok (false, l)).
Proof.
  intros Hv Hin.
  assert (Hins : insert_or_ignore_message row l = (false, l)).
  { unfold insert_or_ignore_message. rewrite Hv.
    apply existsb_eqb_In in Hin. rewrite Hin. reflexivity. }
  split; [exact Hins|]. intros Hd. unfold store_message. rewrite Hins, Hv.
  rewrite (update_after_conflict v _ l Hd Hin).
  destruct (has_null_row _ _); reflexivity.
Qed.

(** C3.  The ledger's only uniqueness on messages is the index on
    [vector_id]: a row without a body (NULL [vector_id]) is always appended,
    also when the very same row is stored already; a row with a [vector_id]
    is appended exactly when that id is not indexed yet, whatever its other
    fields; a row whose [vector_id] is indexed is skipped by the insert, and
    the [UPDATE] that follows can set the [vector_id] of a stored row only
    where it was NULL.  Under the unique index that [UPDATE] changes nothing:
    it leaves the ledger as it is, or aborts when a bodiless row is stored
    under the same external id. *)
Theorem message_uniqueness_is_on_vector_id (row : MessageRow) (l : Ledger) :
  (m_vector_id row = None ->
     store_message row l = Ok (true, set_messages (messages l ++ [row]) l)) /\
  (forall v, m_vector_id row = Some v ->
     ~ In v (message_vector_ids (messages l)) ->
     store_message row l = Ok (true, set_messages (messages l ++ [row]) l)) /\
  (forall v, m_vector_id row = Some v ->
     In v (message_vector_ids (messages l)) ->
     insert_or_ignore_message row l = (false, l) /\
     (forall l', store_message row l = Ok (false, l') ->
        length (messages l') = length (messages l) /\
        forall i r r', messages l !! i = Some r -> messages l' !! i = Some r' ->
          r' = r \/ (m_vector_id r = None /\ m_external_id r = m_external_id row
                     /\ r' = coalesce_vector_id v (m_external_id row) r)) /\
     (distinct (message_vector_ids (messages l)) = true ->
        store_message row l =
          if has_null_row (m_external_id row) (messages l)
          then Raise (mk_exn IntegrityError "UNIQUE constraint failed: messages.vector_id")
          else Ok (false, l))).
Proof.
  split; [|split].
  - intros Hv. unfold store_message, insert_or_ignore_message. rewrite Hv. reflexivity.
  - intros v Hv Hnin. unfold store_message, insert_or_ignore_message. rewrite Hv.
    apply existsb_eqb_not_In in Hnin. rewrite Hnin. reflexivity.
  - intros v Hv Hin.
    assert (Hins : insert_or_ignore_message row l = (false, l)).
    { unfold insert_or_ignore_message. rewrite Hv.
      apply existsb_eqb_In in Hin. rewrite Hin. reflexivity. }
    split; [exact Hins|]. split.
    + intros l'. unfold store_message. rewrite Hins, Hv.
      unfold update_message_vector_id.
      destruct (distinct _); [|discriminate].
      intros H. injection H as <-. cbn [messages set_messages]. split.
      * rewrite length_map. reflexivity.
      * intros i r r' Hr Hr'. rewrite list_lookup_fmap, Hr in Hr'. cbn in Hr'.
        injection Hr' as <-.
        destruct (String.eqb (m_external_id r) (m_external_id row)) eqn:He.
        -- destruct (m_vector_id r) as [old|] eqn:Ho.
           ++ left. unfold coalesce_vector_id. rewrite He, Ho.
              destruct r; cbn in *; subst; reflexivity.
           ++ right. apply String.eqb_eq in He. auto.
        -- left. unfold coalesce_vector_id. rewrite He. reflexivity.
    + intros Hd. unfold store_message. rewrite Hins, Hv.
      rewrite (update_after_conflict v _ l Hd Hin).
      destruct (has_null_row _ _); reflexivity.
Qed.


Lemma somes_app {A} (l1 l2 : list (option A)) : somes (l1 ++ l2) = (somes l1 ++ somes l2)%list.
Proof.
  induction l1 as [|[x|] l1 IH]; cbn; [reflexivity| |exact IH]. f_equal. exact IH.
Qed.

Lemma message_vector_ids_snoc (rows : list MessageRow) (row : MessageRow) :
  message_vector_ids (rows ++ [row]) =
  (message_vector_ids rows ++ match m_vector_id row with Some v => [v] | None => [] end)%list.
Proof.
  unfold message_vector_ids. rewrite map_app, somes_app. cbn.
  destruct (m_vector_id row); reflexivity.
Qed.

(** The unique index survives every statement on [messages]. *)
Lemma store_message_keeps_index (row : MessageRow) (l l' : Ledger) (inserted : bool) :
  distinct (message_vector_ids (messages l)) = true ->
  store_message row l = Ok (inserted, l') ->
  distinct (message_vector_ids (messages l')) = true.
Proof.
  intros Hd. unfold store_message, insert_or_ignore_message.
  destruct (m_vector_id row) as [v|] eqn:Hv.
  - destruct (existsb _ _) eqn:Hx.
    + unfold update_message_vector_id.
      destruct (distinct (message_vector_ids (map _ _))) eqn:Hd'; [|discriminate].
      intros H. injection H as _ <-. exact Hd'.
    + intros H. injection H as _ <-. cbn [messages set_messages].
      rewrite message_vector_ids_snoc, Hv.
      apply distinct_NoDup. apply distinct_NoDup in Hd.
      apply existsb_eqb_not_In in Hx.
      apply NoDup_app. split; [exact Hd|]. split.
      * intros x Hxin Hx1. apply list_elem_of_In in Hxin. apply list_elem_of_In in Hx1.
        destruct Hx1 as [<-|[]]. contradiction.
      * apply NoDup_singleton.
  - intros H. injection H as _ <-. cbn [messages set_messages].
    rewrite message_vector_ids_snoc, Hv, app_nil_r. exact Hd.
Qed.

(** Once a row with a [vector_id] has been through [store_message], the id
    is indexed. *)
Lemma store_message_indexes (row : MessageRow) (l l' : Ledger) (inserted : bool) (v : string) :
  m_vector_id row = Some v ->
  store_message row l = Ok (inserted, l') ->
  In v (message_vector_ids (messages l')).
Proof.
  intros Hv. unfold store_message, insert_or_ignore_message. rewrite Hv.
  destruct (existsb _ _) eqn:Hx.
  - unfold update_message_vector_id. destruct (distinct _); [|discriminate].
    intros H. injection H as _ <-. cbn [messages set_messages].
    apply coalesce_keeps_ids. apply existsb_eqb_In. exact Hx.
  - intros H. injection H as _ <-. cbn [messages set_messages].
    rewrite message_vector_ids_snoc, Hv. apply in_or_app. right. left. reflexivity.
Qed.

(** What the loop body of [_ingest_messages_from_table] does to the world:
    it raises exactly when the timestamp or the [UPDATE] raises, and then the
    world is as before; otherwise the ledger is the one [store_message]
    gives, the vector store is untouched, the row counts when it was
    inserted, and an embedding record is emitted exactly for a row with a
    [vector_id]. *)
Lemma ingest_message_row_spec (E : Env) (db_path : Path) (table_name : string)
    (columns : list string) (row : list sqlval) (acc : Z * list EmbeddingRecord) (w : World) :
  match build_message_row E db_path table_name columns row with
  | Raise e => ingest_message_row E db_path table_name columns row acc w = (Raise e, w)
  | Ok message =>
      match store_message message (ledger w) with
      | Raise e => ingest_message_row E db_path table_name columns row acc w = (Raise e, w)
      | Ok (inserted, l) =>
          exists recs w',
            ingest_message_row E db_path table_name columns row acc w
            = (Ok (if inserted then fst acc + 1 else fst acc, recs), w')
            /\ ledger w' = l /\ vectors w' = vectors w
            /\ map er_vector_id recs
               = (map er_vector_id (snd acc)
                  ++ match m_vector_id message with Some v => [v] | None => [] end)%list
      end
  end.
Proof.
  destruct acc as [ingested recs0]. unfold ingest_message_row.
  destruct (build_message_row _ _ _ _ _) as [message|e]; [|reflexivity].
  cbv beta iota zeta delta [bind lift get_world put_ledger modify ret].
  destruct (store_message message (ledger w)) as [[inserted l]|e]; [|reflexivity].
  pose proof (_register_message_with_graph_never_raises E (m_external_id message)
                (m_sender message) (m_receiver message) (m_timestamp message)
                (m_body message) (m_conversation_id message) (path_str db_path)
                (set_ledger l w)) as Hnr.
  pose proof (_register_message_with_graph_same_ledger E (m_external_id message)
                (m_sender message) (m_receiver message) (m_timestamp message)
                (m_body message) (m_conversation_id message) (path_str db_path)
                (set_ledger l w)) as [Hl Hv].
  destruct (_register_message_with_graph _ _ _ _ _ _ _ _ _) as [[[]|e] w1];
    cbn in Hnr, Hl, Hv; [|discriminate].
  destruct (m_vector_id message) as [v|]; cbn [fst snd].
  - eexists _, w1. split; [reflexivity|]. split; [exact Hl|]. split; [exact Hv|].
    unfold append. rewrite map_app. reflexivity.
  - eexists _, w1. split; [reflexivity|]. split; [exact Hl|]. split; [exact Hv|].
    rewrite app_nil_r. reflexivity.
Qed.

Lemma message_vector_id_cases (body : option string) (external_id : string) :
  message_vector_id body external_id = None \/
  message_vector_id body external_id = Some ("msg:" ++ external_id).
Proof.
  unfold message_vector_id. destruct body as [b|]; [|auto].
  destruct (truthy (Some b) && negb (String.eqb (strip b) "")); auto.
Qed.

Lemma build_message_row_ids (E : Env) (db_path : Path) (table_name : string)
    (columns : list string) (row : list sqlval) (message : MessageRow) :
  build_message_row E db_path table_name columns row = Ok message ->
  m_external_id message = message_external_id db_path table_name (make_payload columns row)
  /\ (m_vector_id message = None \/
      m_vector_id message = Some ("msg:" ++ m_external_id message)).
Proof.
  unfold build_message_row. destruct (_safe_parse_timestamp _ _); [|discriminate].
  intros H. apply (f_equal (fun r => match r with Ok m => Some m | Raise _ => None end)) in H.
  cbv beta iota in H. injection H as <-. cbn [m_external_id m_vector_id].
  split; [reflexivity|apply message_vector_id_cases].
Qed.

(** C10.  The external id and the [vector_id] of a message are built from
    the file's base name, the table name and the rowid: rows of two database
    files with one base name, in tables of one name and with one rowid,
    receive the same external id and, when both have a body, the same
    [vector_id].  Consequently, once the row of the first file has been
    stored, the insert of the row of the second file is ignored by the unique
    index on [vector_id]: whatever the loop body does for it, no row is
    added to [messages] and the row is not counted. *)
Theorem same_basename_rows_share_ids (E : Env) (db1 db2 : Path) (table_name : string)
    (columns1 columns2 : list string) (row1 row2 : list sqlval) (m1 m2 : MessageRow) :
  path_name db1 = path_name db2 ->
  payload_get (make_payload columns1 row1) "_rowid_"
  = payload_get (make_payload columns2 row2) "_rowid_" ->
  build_message_row E db1 table_name columns1 row1 = Ok m1 ->
  build_message_row E db2 table_name columns2 row2 = Ok m2 ->
  m_external_id m1 = m_external_id m2 /\
  (m_vector_id m1 <> None -> m_vector_id m2 <> None ->
   m_vector_id m1 = Some ("msg:" ++ m_external_id m1) /\
   m_vector_id m2 = m_vector_id m1 /\
   forall (l l1 : Ledger) (inserted : bool),
     distinct (message_vector_ids (messages l)) = true ->
     store_message m1 l = Ok (inserted, l1) ->
     insert_or_ignore_message m2 l1 = (false, l1) /\
     forall (w : World) (acc : Z * list EmbeddingRecord),
       ledger w = l1 ->
       let out := ingest_message_row E db2 table_name columns2 row2 acc w in
       messages (ledger (snd out)) = messages l1 /\
       forall n recs, fst out = Ok (n, recs) -> n = fst acc).
Proof.
  intros Hname Hrow Hb1 Hb2.
  destruct (build_message_row_ids _ _ _ _ _ _ Hb1) as [He1 Hv1].
  destruct (build_message_row_ids _ _ _ _ _ _ Hb2) as [He2 Hv2].
  assert (Hext : m_external_id m1 = m_external_id m2).
  { rewrite He1, He2. unfold message_external_id. rewrite Hname, Hrow. reflexivity. }
  split; [exact Hext|]. intros Hn1 Hn2.
  destruct Hv1 as [Hv1|Hv1]; [contradiction|].
  destruct Hv2 as [Hv2|Hv2]; [contradiction|].
  split; [exact Hv1|]. split; [rewrite Hv1, Hv2, Hext; reflexivity|].
  intros l l1 inserted Hd Hst.
  pose proof (store_message_keeps_index _ _ _ _ Hd Hst) as Hd1.
  pose proof (store_message_indexes _ _ _ _ _ Hv1 Hst) as Hin.
  rewrite Hext in Hin.
  destruct (store_message_on_conflict m2 l1 _ Hv2 Hin) as (Hins & Hupd).
  specialize (Hupd Hd1).
  split; [exact Hins|]. intros w acc Hw out. subst out.
  pose proof (ingest_message_row_spec E db2 table_name columns2 row2 acc w) as Hspec.
  rewrite Hb2, Hw, Hupd in Hspec.
  destruct (has_null_row _ _).
  - rewrite Hspec. cbn. rewrite Hw. split; [reflexivity|discriminate].
  - destruct Hspec as (recs & w' & -> & Hl & _). cbn. rewrite Hl.
    split; [reflexivity|]. intros n recs' H. injection H as <- _. reflexivity.
Qed.

(** C3, witness: a bodied row is stored once; storing it again on the
    ledger that holds it is an ignored insert. *)
Lemma message_uniqueness_witness :
  m_vector_id (sample_message (Some "hi") (Some "msg:sms.db:message:1"))
  = Some "msg:sms.db:message:1" /\
  In "msg:sms.db:message:1" (message_vector_ids (messages sample_ledger_one)) /\
  distinct (message_vector_ids (messages sample_ledger_one)) = true /\
  store_message (sample_message (Some "hi") (Some "msg:sms.db:message:1")) sample_ledger_one
  = Ok (false, sample_ledger_one).
Proof.
  split; [reflexivity|]. split; [left; reflexivity|]. split; [reflexivity|].
  destruct (message_uniqueness_is_on_vector_id
              (sample_message (Some "hi") (Some "msg:sms.db:message:1"))
              sample_ledger_one) as (_ & _ & H).
  destruct (H _ eq_refl (or_introl eq_refl)) as (_ & _ & H3).
  exact (H3 eq_refl).
Defined.

(** C10, witness: [a/sms.db] and [b/sms.db], table [message], rowid 1. *)
Lemma same_basename_rows_witness :
  path_name sample_db_a = path_name sample_db_b /\
  sample_db_a <> sample_db_b /\
  build_message_row sample_env sample_db_a "message" sample_columns sample_row_a
  = Ok sample_message_a /\
  build_message_row sample_env sample_db_b "message" sample_columns sample_row_b
  = Ok sample_message_b /\
  m_external_id sample_message_a = "sms.db:message:1" /\
  m_external_id sample_message_b = "sms.db:message:1" /\
  m_vector_id sample_message_b = Some "msg:sms.db:message:1" /\
  store_message sample_message_a empty_ledger = Ok (true, sample_ledger_a) /\
  insert_or_ignore_message sample_message_b sample_ledger_a = (false, sample_ledger_a).
Proof.
  assert (Ha : build_message_row sample_env sample_db_a "message" sample_columns sample_row_a
               = Ok sample_message_a) by (vm_compute; reflexivity).
  assert (Hb : build_message_row sample_env sample_db_b "message" sample_columns sample_row_b
               = Ok sample_message_b) by (vm_compute; reflexivity).
  assert (Hs : store_message sample_message_a empty_ledger = Ok (true, sample_ledger_a))
    by (vm_compute; reflexivity).
  destruct (same_basename_rows_share_ids sample_env sample_db_a sample_db_b "message"
              sample_columns sample_columns sample_row_a sample_row_b
              sample_message_a sample_message_b eq_refl eq_refl Ha Hb) as [Hext Hrest].
  assert (Hna : m_vector_id sample_message_a <> None) by (vm_compute; discriminate).
  assert (Hnb : m_vector_id sample_message_b <> None) by (vm_compute; discriminate).
  destruct (Hrest Hna Hnb) as (Hva & Hvb & Hskip).
  destruct (Hskip empty_ledger sample_ledger_a true eq_refl Hs) as [Hins _].
  split; [reflexivity|]. split; [discriminate|]. split; [exact Ha|]. split; [exact Hb|].
  split; [vm_compute; reflexivity|]. split; [rewrite <- Hext; vm_compute; reflexivity|].
  split; [rewrite Hvb, Hva; vm_compute; reflexivity|]. split; [exact Hs|exact Hins].
Defined.

(** ** Ingestion ledger: image inventory *)

Lemma find_app_none {A} (f : A -> bool) (l1 l2 : list A) :
  List.find f l1 = None -> List.find f (l1 ++ l2) = List.find f l2.
Proof.
  induction l1 as [|x l1 IH]; cbn; [reflexivity|].
  destruct (f x); [discriminate|exact IH].
Qed.

Lemma find_app_some {A} (f : A -> bool) (l1 l2 : list A) (x : A) :
  List.find f l1 = Some x -> List.find f (l1 ++ l2) = Some x.
Proof.
  induction l1 as [|y l1 IH]; cbn; [discriminate|].
  destruct (f y); [tauto|exact IH].
Qed.

Lemma find_none_existsb {A} (f : A -> bool) (l : list A) :
  List.find f l = None <-> existsb f l = false.
Proof.
  induction l as [|x l IH]; cbn; [tauto|].
  destruct (f x); cbn; [split; discriminate|exact IH].
Qed.

Section UpdateRows.
Context (f : ImageRow -> ImageRow).
Hypothesis f_path : forall r, i_file_path (f r) = i_file_path r.
Hypothesis f_id : forall r, i_id (f r) = i_id r.

Lemma update_rows_ids (id : Z) (rows : list ImageRow) :
  map i_id (map (fun r => if i_id r =? id then f r else r) rows) = map i_id rows.
Proof using f_id.
  induction rows as [|r rows IH]; cbn; [reflexivity|].
  rewrite IH. destruct (i_id r =? id); [rewrite f_id|]; reflexivity.
Qed.

Lemma update_rows_find_same (id : Z) (s : string) (rows : list ImageRow) (r : ImageRow) :
  List.find (fun r => String.eqb (i_file_path r) s) rows = Some r -> i_id r = id ->
  List.find (fun r => String.eqb (i_file_path r) s)
    (map (fun r => if i_id r =? id then f r else r) rows) = Some (f r).
Proof using f_path.
  intros Hf Hid. induction rows as [|x rows IH]; cbn in *; [discriminate|].
  destruct (String.eqb (i_file_path x) s) eqn:Hx.
  - injection Hf as ->. rewrite Hid, Z.eqb_refl, f_path, Hx. reflexivity.
  - destruct (i_id x =? id); [rewrite f_path|]; rewrite Hx; apply IH; exact Hf.
Qed.

Lemma update_rows_find_other (id : Z) (s : string) (rows : list ImageRow) :
  NoDup (map i_id rows) ->
  (forall r, List.find (fun r => String.eqb (i_file_path r) s) rows = Some r -> i_id r <> id) ->
  List.find (fun r => String.eqb (i_file_path r) s)
    (map (fun r => if i_id r =? id then f r else r) rows)
  = List.find (fun r => String.eqb (i_file_path r) s) rows.
Proof using f_path.
  intros _ Hne. induction rows as [|x rows IH]; cbn in *; [reflexivity|].
  destruct (String.eqb (i_file_path x) s) eqn:Hx.
  - specialize (Hne x eq_refl). apply Z.eqb_neq in Hne. rewrite Hne, Hx. reflexivity.
  - destruct (i_id x =? id); [rewrite f_path|]; rewrite Hx; apply IH; exact Hne.
Qed.

Lemma update_rows_ok (id : Z) (l : Ledger) :
  images_ok l -> images_ok (update_image_rows f id l).
Proof using f_id.
  intros [Hnd Hle]. unfold images_ok, update_image_rows. cbn [images images_seq set_images].
  rewrite update_rows_ids. split; [exact Hnd|].
  rewrite Forall_forall in *. intros r Hr. apply list_elem_of_In, in_map_iff in Hr as (x & <- & Hx).
  apply list_elem_of_In in Hx. specialize (Hle x Hx).
  destruct (i_id x =? id); [rewrite f_id|]; exact Hle.
Qed.

End UpdateRows.

Lemma find_some_path (s : string) (rows : list ImageRow) (r : ImageRow) :
  List.find (fun r => String.eqb (i_file_path r) s) rows = Some r ->
  In r rows /\ i_file_path r = s.
Proof.
  intros H. apply find_some in H as [H1 H2]. apply String.eqb_eq in H2. auto.
Qed.

(** Rows stored under different paths are different rows, so an [UPDATE ...
    WHERE id = ?] aimed at one does not reach the other. *)
Lemma other_path_other_id (s s' : string) (rows : list ImageRow) (r r' : ImageRow) :
  NoDup (map i_id rows) -> s' <> s ->
  List.find (fun r => String.eqb (i_file_path r) s) rows = Some r ->
  List.find (fun r => String.eqb (i_file_path r) s') rows = Some r' ->
  i_id r' <> i_id r.
Proof.
  intros Hnd Hne Hr Hr' Hid.
  apply find_some_path in Hr as [Hin Hp]. apply find_some_path in Hr' as [Hin' Hp'].
  assert (r' = r); [|subst; congruence].
  clear Hp Hp' Hne. induction rows as [|x rows IH]; [destruct Hin|].
  cbn in Hnd. apply NoDup_cons in Hnd as [Hx Hnd].
  destruct Hin as [->|Hin], Hin' as [->|Hin']; [reflexivity| | |auto].
  - exfalso. apply Hx. rewrite <- Hid. apply list_elem_of_In, in_map, Hin'.
  - exfalso. apply Hx. rewrite Hid. apply list_elem_of_In, in_map, Hin.
Qed.

Lemma image_at_insert_other (s s' rel src status : string) (meta : metadata) (l l' : Ledger) (id : Z) :
  insert_or_ignore_image s rel src meta status l = (Some id, l') ->
  s' <> s -> image_at s' l' = image_at s' l.
Proof.
  unfold insert_or_ignore_image. destruct (existsb _ _); [discriminate|].
  intros H Hne. injection H as _ <-. unfold image_at. cbn [images set_images].
  destruct (List.find _ (images l)) as [r|] eqn:Hf.
  - apply find_app_some. exact Hf.
  - rewrite find_app_none by exact Hf. cbn.
    destruct (String.eqb s s') eqn:Hs; [apply String.eqb_eq in Hs; congruence|reflexivity].
Qed.

(** The loop body of [log_image_inventory] on a path not seen in this pass:
    it returns, touches nothing but [images], leaves the rows of all other
    paths alone, and stores and hands over what [inventory_outcome] says. *)
Lemma log_image_step (E : Env) (extraction_dir image_path : Path)
    (records : list ImageInventoryRecord) (seen : gset string) (processed : Z) (w : World) :
  images_ok (ledger w) ->
  path_str image_path ∉ seen ->
  exists w',
    log_image E extraction_dir image_path (records, seen, processed) w
    = (Ok ((records ++ snd (inventory_outcome E extraction_dir image_path (ledger w)))%list,
           {[path_str image_path]} ∪ seen, processed + 1), w')
    /\ only_ledger w w' /\ only_images (ledger w) (ledger w') /\ images_ok (ledger w')
    /\ image_at (path_str image_path) (ledger w')
       = Some (fst (inventory_outcome E extraction_dir image_path (ledger w)))
    /\ forall s', s' <> path_str image_path ->
         image_at s' (ledger w') = image_at s' (ledger w).
Proof.
  intros [Hnd Hle] Hseen. unfold log_image, inventory_outcome.
  rewrite bool_decide_eq_false_2 by exact Hseen.
  fold (inventory_relative image_path extraction_dir).
  fold (inventory_metadata E image_path extraction_dir).
  set (rel := inventory_relative image_path extraction_dir).
  set (meta := inventory_metadata E image_path extraction_dir).
  set (s := path_str image_path).
  cbv beta iota zeta delta [bind get_world put_ledger modify ret].
  unfold insert_or_ignore_image, image_at.
  destruct (List.find (fun r => String.eqb (i_file_path r) s) (images (ledger w))) as [r|] eqn:Hf.
  - (* rediscovery *)
    assert (Hex : existsb (fun r => String.eqb (i_file_path r) s) (images (ledger w)) = true).
    { destruct (existsb _ _) eqn:Hx; [reflexivity|].
      apply find_none_existsb in Hx. congruence. }
    rewrite Hex. unfold select_image_by_path. rewrite Hf.
    fold (status_is_done (i_caption_status r)).
    fold (metadata_of_cell (i_metadata r)).
    destruct (status_is_done (i_caption_status r)) eqn:Hdone; cbn [negb fst snd].
    + eexists. split; [rewrite app_nil_r; reflexivity|].
      split; [repeat split|]. split; [repeat split|].
      split; [|split].
      * apply update_rows_ok; [reflexivity|split; assumption].
      * unfold update_image_inventory, update_image_rows. cbn [ledger set_ledger images set_images].
        rewrite (update_rows_find_same (with_inventory (path_str rel) "ufdr"
                   (dict_merge (metadata_of_cell (i_metadata r)) meta))
                   (fun _ => eq_refl) (i_id r) s _ r Hf eq_refl).
        unfold rediscovered_row, with_inventory. rewrite Hdone. reflexivity.
      * intros s' Hne. unfold update_image_inventory, update_image_rows.
        cbn [ledger set_ledger images set_images].
        apply update_rows_find_other; [reflexivity|exact Hnd|].
        intros r' Hr'. exact (other_path_other_id s s' _ r r' Hnd Hne Hf Hr').
    + eexists. split; [reflexivity|].
      split; [repeat split|]. split; [repeat split|].
      split; [|split].
      * apply update_rows_ok; [reflexivity|]. apply update_rows_ok; [reflexivity|split; assumption].
      * unfold update_image_status, update_image_inventory, update_image_rows.
        cbn [ledger set_ledger images set_images].
        pose proof (update_rows_find_same (with_inventory (path_str rel) "ufdr"
                      (dict_merge (metadata_of_cell (i_metadata r)) meta))
                      (fun _ => eq_refl) (i_id r) s _ r Hf eq_refl) as H1.
        rewrite (update_rows_find_same (with_status "pending") (fun _ => eq_refl)
                   (i_id r) s _ _ H1 eq_refl).
        unfold rediscovered_row, with_inventory, with_status. cbn. rewrite Hdone. reflexivity.
      * intros s' Hne. unfold update_image_status, update_image_inventory, update_image_rows.
        cbn [ledger set_ledger images set_images].
        assert (Hother : forall r', List.find (fun r => String.eqb (i_file_path r) s')
                                      (images (ledger w)) = Some r' -> i_id r' <> i_id r).
        { intros r' Hr'. exact (other_path_other_id s s' _ r r' Hnd Hne Hf Hr'). }
        pose proof (update_rows_find_other (with_inventory (path_str rel) "ufdr"
                      (dict_merge (metadata_of_cell (i_metadata r)) meta))
                      (fun _ => eq_refl) (i_id r) s' _ Hnd Hother) as H1.
        rewrite update_rows_find_other; [exact H1|reflexivity| |].
        -- rewrite update_rows_ids by reflexivity. exact Hnd.
        -- intros r' Hr'. rewrite H1 in Hr'. exact (Hother r' Hr').
  - (* first discovery *)
    assert (Hex : existsb (fun r => String.eqb (i_file_path r) s) (images (ledger w)) = false)
      by (apply find_none_existsb; exact Hf).
    rewrite Hex. cbn [fst snd].
    eexists. split; [reflexivity|].
    split; [repeat split|]. split; [repeat split|].
    split; [|split].
    + unfold images_ok. cbn [ledger set_ledger images images_seq set_images].
      rewrite map_app. cbn. split.
      * apply NoDup_app. split; [exact Hnd|]. split; [|apply NoDup_singleton].
        intros x Hx Hx'. apply list_elem_of_In in Hx'. destruct Hx' as [<-|[]].
        apply list_elem_of_In, in_map_iff in Hx as (r & Hr & Hin).
        rewrite Forall_forall in Hle. apply list_elem_of_In in Hin.
        specialize (Hle r Hin). lia.
      * apply Forall_app. split.
        -- eapply Forall_impl; [exact Hle|]. cbn. intros; lia.
        -- apply Forall_singleton. cbn. lia.
    + cbn [ledger set_ledger images set_images].
      rewrite find_app_none by exact Hf. cbn. rewrite String.eqb_refl. reflexivity.
    + intros s' Hne. cbn [ledger set_ledger images set_images].
      destruct (List.find (fun r => String.eqb (i_file_path r) s') (images (ledger w))) as [r|] eqn:Hf'.
      * apply find_app_some. exact Hf'.
      * rewrite find_app_none by exact Hf'. cbn.
        destruct (String.eqb s s') eqn:Hs; [apply String.eqb_eq in Hs; congruence|reflexivity].
Qed.

Lemma log_image_seen (E : Env) (extraction_dir image_path : Path)
    (acc : list ImageInventoryRecord * gset string * Z) (w : World) :
  path_str image_path ∈ snd (fst acc) ->
  log_image E extraction_dir image_path acc w = (Ok acc, w).
Proof.
  destruct acc as [[records seen] processed]. cbn. intros H.
  unfold log_image. rewrite bool_decide_eq_true_2 by exact H. reflexivity.
Qed.

Lemma same_id_same_row (rows : list ImageRow) (r r' : ImageRow) :
  NoDup (map i_id rows) -> In r rows -> In r' rows -> i_id r' = i_id r -> r' = r.
Proof.
  intros Hnd Hin Hin' Hid. induction rows as [|x rows IH]; [destruct Hin|].
  cbn in Hnd. apply NoDup_cons in Hnd as [Hx Hnd].
  destruct Hin as [->|Hin], Hin' as [->|Hin']; [reflexivity| | |auto].
  - exfalso. apply Hx. rewrite <- Hid. apply list_elem_of_In, in_map, Hin'.
  - exfalso. apply Hx. rewrite Hid. apply list_elem_of_In, in_map, Hin.
Qed.

Lemma inventory_outcome_existing (E : Env) (dir p : Path) (l l' : Ledger) (r : ImageRow) :
  image_at (path_str p) l = Some r -> image_at (path_str p) l' = Some r ->
  inventory_outcome E dir p l' = inventory_outcome E dir p l.
Proof. intros H H'. unfold inventory_outcome. rewrite H, H'. reflexivity. Qed.

Lemma inventory_step_inv (E : Env) (dir : Path) (l0 : Ledger) (all : list Path) (p : Path)
    (records : list ImageInventoryRecord) (seen : gset string) (processed : Z) (w : World) :
  inventory_inv E dir l0 all seen records w -> In p all ->
  exists records' seen' processed' w',
    log_image E dir p (records, seen, processed) w = (Ok (records', seen', processed'), w')
    /\ inventory_inv E dir l0 all seen' records' w'
    /\ seen ⊆ seen' /\ path_str p ∈ seen'
    /\ only_ledger w w' /\ only_images (ledger w) (ledger w').
Proof.
  intros (Hok & Hun & Hrec & Hhand & Hold) Hp.
  destruct (decide (path_str p ∈ seen)) as [Hs|Hs].
  - exists records, seen, processed, w. split; [apply log_image_seen; exact Hs|].
    split; [exact (conj Hok (conj Hun (conj Hrec (conj Hhand Hold))))|].
    split; [reflexivity|]. split; [exact Hs|]. split; repeat split.
  - destruct (log_image_step E dir p records seen processed w Hok Hs)
      as (w' & Hrun & Hfr & Him & Hok' & Hat & Hoth).
    eexists _, _, _, w'. split; [exact Hrun|].
    assert (Hhere : path_str p ∈ ({[path_str p]} ∪ seen : gset string))
      by (apply elem_of_union; left; apply elem_of_singleton; reflexivity).
    assert (Hmono : forall s, s ∈ seen -> s ∈ ({[path_str p]} ∪ seen : gset string))
      by (intros s Hs'; apply elem_of_union; right; exact Hs').
    split; [|split; [apply union_subseteq_r|split; [exact Hhere|split; assumption]]].
    pose proof (Hun _ Hs) as Hcur.
    split; [exact Hok'|]. split; [|split; [|split]].
    + intros s' Hs'. apply not_elem_of_union in Hs' as [Hs1 Hs2].
      rewrite not_elem_of_singleton in Hs1. rewrite Hoth by exact Hs1. apply Hun. exact Hs2.
    + intros rec Hin. apply in_app_or in Hin as [Hin|Hin].
      * destruct (Hrec rec Hin) as (H1 & H2 & (r' & H3 & H4 & H5) & H6).
        split; [apply Hmono; exact H1|]. split; [exact H2|]. split; [|exact H6].
        exists r'. rewrite Hoth by (intros Heq; rewrite Heq in H1; contradiction). auto.
      * unfold inventory_outcome in Hin, Hat. rewrite Hcur in Hin, Hat.
        destruct (image_at (path_str p) l0) as [r|] eqn:H0; cbn [fst snd] in Hin, Hat.
        -- destruct (status_is_done (i_caption_status r)) eqn:Hd; [destruct Hin|].
           destruct Hin as [<-|[]]. cbn [ir_file_path ir_id].
           split; [exact Hhere|]. split; [exact Hp|]. split.
           ++ eexists. split; [exact Hat|]. unfold rediscovered_row. cbn. rewrite Hd. auto.
           ++ right. exists r. split; [exact H0|exact Hd].
        -- destruct Hin as [<-|[]]. cbn [ir_file_path ir_id].
           split; [exact Hhere|]. split; [exact Hp|]. split.
           ++ eexists. split; [exact Hat|]. cbn. auto.
           ++ left. exact H0.
    + intros s Hin Hcap. destruct (decide (s = path_str p)) as [->|Hne].
      * unfold inventory_outcome. rewrite Hcur.
        destruct Hcap as [Hnone|(r & Hr & Hd)].
        -- rewrite Hnone. cbn [snd]. eexists. split; [apply in_or_app; right; left; reflexivity|].
           reflexivity.
        -- rewrite Hr. cbn [snd]. rewrite Hd.
           eexists. split; [apply in_or_app; right; left; reflexivity|]. reflexivity.
      * apply elem_of_union in Hin as [Hin|Hin];
          [apply elem_of_singleton in Hin; contradiction|].
        destruct (Hhand s Hin Hcap) as (rec & H1 & H2).
        exists rec. split; [apply in_or_app; left; exact H1|exact H2].
    + intros s r Hin H0. destruct (decide (s = path_str p)) as [->|Hne].
      * exists p. split; [exact Hp|]. split; [reflexivity|].
        rewrite Hat. f_equal. f_equal.
        apply (inventory_outcome_existing E dir p l0 (ledger w) r H0). rewrite Hcur. exact H0.
      * apply elem_of_union in Hin as [Hin|Hin];
          [apply elem_of_singleton in Hin; contradiction|].
        destruct (Hold s r Hin H0) as (p' & H1 & H2 & H3).
        exists p'. split; [exact H1|]. split; [exact H2|]. rewrite Hoth by exact Hne. exact H3.
Qed.

Lemma inventory_loop_inv (E : Env) (dir : Path) (l0 : Ledger) (all paths : list Path) :
  forall (records : list ImageInventoryRecord) (seen : gset string) (processed : Z) (w : World),
  inventory_inv E dir l0 all seen records w -> (forall p, In p paths -> In p all) ->
  exists records' seen' processed' w',
    for_each paths (log_image E dir) (records, seen, processed) w
    = (Ok (records', seen', processed'), w')
    /\ inventory_inv E dir l0 all seen' records' w'
    /\ seen ⊆ seen' /\ (forall p, In p paths -> path_str p ∈ seen')
    /\ only_ledger w w' /\ only_images (ledger w) (ledger w').
Proof.
  induction paths as [|p paths IH]; intros records seen processed w Hinv Hall.
  - exists records, seen, processed, w. split; [reflexivity|]. split; [exact Hinv|].
    split; [set_solver|]. split; [intros p []|]. split; repeat split.
  - destruct (inventory_step_inv E dir l0 all p records seen processed w Hinv)
      as (records1 & seen1 & processed1 & w1 & Hrun1 & Hinv1 & Hsub1 & Hp1 & Hfr1 & Him1);
      [apply Hall; left; reflexivity|].
    destruct (IH records1 seen1 processed1 w1 Hinv1)
      as (records2 & seen2 & processed2 & w2 & Hrun2 & Hinv2 & Hsub2 & Hp2 & Hfr2 & Him2);
      [intros q Hq; apply Hall; right; exact Hq|].
    exists records2, seen2, processed2, w2.
    split; [cbn [for_each]; rewrite (bind_ok _ _ _ _ _ Hrun1); exact Hrun2|].
    split; [exact Hinv2|]. split; [etransitivity; eassumption|]. split.
    + intros q [<-|Hq]; [apply Hsub2; exact Hp1|apply Hp2; exact Hq].
    + split; [etransitivity; eassumption|].
      destruct Him1 as (?&?&?), Him2 as (?&?&?). repeat split; congruence.
Qed.

Lemma dict_merge_lookup (existing new : metadata) (k : string) :
  dict_merge existing new !! k =
  match new !! k with
  | Some v => Some v
  | None => existing !! k
  end.
Proof.
  unfold dict_merge. rewrite lookup_union.
  destruct (new !! k), (existing !! k); reflexivity.
Qed.

Lemma image_at_path (s : string) (l : Ledger) (r : ImageRow) :
  image_at s l = Some r -> In r (images l) /\ i_file_path r = s.
Proof. apply find_some_path. Qed.

(** C4.  One inventory pass over [image_paths], on a ledger whose image ids
    are those [AUTOINCREMENT] gave.  The pass returns.  A path already present
    in [images] keeps its row with the metadata shallow-merged, a key of the
    new metadata winning over the same key of the stored one, and with the
    caption status set to pending unless the stored status is, in any case of
    letters, done; caption, tags, text and vector id are kept.  The records
    returned for captioning are rows now pending that were inserted by this
    pass or were stored with a status other than done; every such path has a
    record; and no record names a row that was stored as done. *)
Theorem image_rediscovery_policy (E : Env) (image_paths : list Path) (extraction_dir : Path)
    (w : World) :
  images_ok (ledger w) ->
  exists processed records w',
    log_image_inventory E image_paths extraction_dir w = (Ok (processed, records), w') /\
    (forall p r, In p image_paths -> image_at (path_str p) (ledger w) = Some r ->
       exists p' merged,
         In p' image_paths /\ path_str p' = path_str p /\
         (forall k, merged !! k =
                    match inventory_metadata E p' extraction_dir !! k with
                    | Some v => Some v
                    | None => metadata_of_cell (i_metadata r) !! k
                    end) /\
         image_at (path_str p) (ledger w')
         = Some (rediscovered_row (path_str (inventory_relative p' extraction_dir)) merged r)) /\
    (forall rec, In rec records ->
       In (ir_file_path rec) image_paths /\
       (exists r', image_at (path_str (ir_file_path rec)) (ledger w') = Some r'
                   /\ i_id r' = ir_id rec /\ i_caption_status r' = Some "pending") /\
       to_caption (path_str (ir_file_path rec)) (ledger w)) /\
    (forall p, In p image_paths -> to_caption (path_str p) (ledger w) ->
       exists rec, In rec records /\ path_str (ir_file_path rec) = path_str p) /\
    (forall p r, In p image_paths -> image_at (path_str p) (ledger w) = Some r ->
       status_is_done (i_caption_status r) = true ->
       forall rec, In rec records ->
         ir_id rec <> i_id r /\ path_str (ir_file_path rec) <> path_str p).
Proof.
  intros Hok. unfold log_image_inventory.
  destruct image_paths as [|p0 rest] eqn:Hpaths.
  { exists 0, [], w. split; [reflexivity|].
    split; [intros ? ? []|]. split; [intros ? []|]. split; [intros ? []|intros ? ? []]. }
  rewrite <- Hpaths. clear Hpaths p0 rest.
  assert (Hinit : inventory_inv E extraction_dir (ledger w) image_paths ∅ [] w).
  { split; [exact Hok|]. split; [reflexivity|]. split; [intros ? []|].
    split; intros s; [|intros r]; intros Hs; apply not_elem_of_empty in Hs; destruct Hs. }
  destruct (inventory_loop_inv E extraction_dir (ledger w) image_paths image_paths
              [] ∅ 0 w Hinit (fun _ H => H))
    as (records & seen & processed & w' & Hrun & Hinv & _ & Hseen & _ & _).
  destruct Hinv as ((Hnd & _) & _ & Hrec & Hhand & Hold).
  exists processed, records, w'. split.
  { unfold with_connection, bind. rewrite Hrun. reflexivity. }
  split; [|split; [|split]].
  - intros p r Hp Hr. destruct (Hold _ r (Hseen p Hp) Hr) as (p' & Hp' & Heq & Hat).
    unfold inventory_outcome in Hat. rewrite Heq, Hr in Hat. cbn [fst] in Hat.
    eexists p', _. split; [exact Hp'|]. split; [exact Heq|]. split; [|exact Hat].
    intros k. apply dict_merge_lookup.
  - intros rec Hin. destruct (Hrec rec Hin) as (_ & H2 & H3 & H4). auto.
  - intros p Hp Hcap. exact (Hhand _ (Hseen p Hp) Hcap).
  - intros p r Hp Hr Hdone rec Hin.
    destruct (Hrec rec Hin) as (_ & _ & (r1 & Hr1 & Hid1 & _) & Hcap).
    assert (Hpath : path_str (ir_file_path rec) <> path_str p).
    { intros Heq. rewrite Heq in Hcap. destruct Hcap as [Hn|(r2 & Hr2 & Hd2)]; congruence. }
    split; [|exact Hpath]. intros Hid.
    destruct (Hold _ r (Hseen p Hp) Hr) as (p' & _ & Heq & Hat).
    unfold inventory_outcome in Hat. rewrite Heq, Hr in Hat. cbn [fst] in Hat.
    apply image_at_path in Hr1 as [Hin1 Hp1]. apply image_at_path in Hat as [Hin2 Hp2].
    assert (r1 = rediscovered_row (path_str (inventory_relative p' extraction_dir))
                   (dict_merge (metadata_of_cell (i_metadata r))
                      (inventory_metadata E p' extraction_dir)) r).
    { apply (same_id_same_row _ _ _ Hnd Hin2 Hin1). cbn. congruence. }
    subst r1. apply Hpath. rewrite <- Hp1, <- Hp2. reflexivity.
Qed.

(** C4, witness: the pass over [cat.jpg] (stored as [Done]), [dog.jpg]
    (stored as failed) and the new [owl.png] hands over the rows 2 and 3. *)
Lemma image_rediscovery_witness :
  images_ok (ledger sample_image_world) /\
  exists processed records w',
    log_image_inventory sample_env [sample_cat; sample_dog; sample_owl] sample_dir
      sample_image_world = (Ok (processed, records), w') /\
    processed = 3 /\ map ir_id records = [2; 3] /\
    map i_caption_status (images (ledger w')) = [Some "Done"; Some "pending"; Some "pending"].
Proof.
  assert (Hok : images_ok (ledger sample_image_world)).
  { split.
    - apply NoDup_cons. split; [intros H; apply list_elem_of_In in H; cbn in H; intuition lia|].
      apply NoDup_singleton.
    - repeat constructor; cbn; lia. }
  split; [exact Hok|].
  destruct (image_rediscovery_policy sample_env [sample_cat; sample_dog; sample_owl]
              sample_dir sample_image_world Hok) as (processed & records & w' & Hrun & _).
  exists processed, records, w'. split; [exact Hrun|].
  assert (Hc : log_image_inventory sample_env [sample_cat; sample_dog; sample_owl] sample_dir
                 sample_image_world
               = (Ok (3, snd (match fst (log_image_inventory sample_env
                                [sample_cat; sample_dog; sample_owl] sample_dir
                                sample_image_world) with Ok x => x | Raise _ => (0, []) end)),
                  snd (log_image_inventory sample_env [sample_cat; sample_dog; sample_owl]
                         sample_dir sample_image_world)))
    by (vm_compute; reflexivity).
  rewrite Hc in Hrun. injection Hrun as <- <- <-.
  repeat split; vm_compute; reflexivity.
Defined.

(** ** Image captioner *)

Lemma str_of_Z_inj (a b : Z) : str_of_Z a = str_of_Z b -> a = b.
Proof.
  unfold str_of_Z. intros H.
  assert (Hn : forall z, Z.to_int z <> Decimal.Pos Decimal.Nil /\ Z.to_int z <> Decimal.Neg Decimal.Nil).
  { intros [|p|p]; cbn; split; try discriminate;
      intros Hp; injection Hp as Hp; exact (DecimalPos.Unsigned.to_uint_nonnil p Hp). }
  apply (f_equal NilZero.int_of_string) in H.
  rewrite !NilZero.isi in H by apply Hn.
  injection H as H. apply DecimalZ.to_int_inj. exact H.
Qed.

Lemma append_inj_prefix (p a b : string) : p ++ a = p ++ b -> a = b.
Proof. induction p as [|c p IH]; cbn; [tauto|]. intros H. injection H as H. auto. Qed.

Lemma caption_vector_id_inj (r1 r2 : ImageInventoryRecord) :
  caption_vector_id r1 = caption_vector_id r2 -> ir_id r1 = ir_id r2.
Proof.
  unfold caption_vector_id. intros H. apply append_inj_prefix in H. apply str_of_Z_inj. exact H.
Qed.

Lemma find_by_id_map (g : ImageRow -> ImageRow) (id : Z) (rows : list ImageRow) :
  (forall r, i_id (g r) = i_id r) ->
  List.find (fun r => i_id r =? id) (map g rows)
  = g <$> List.find (fun r => i_id r =? id) rows.
Proof.
  intros Hg. induction rows as [|r rows IH]; cbn; [reflexivity|].
  rewrite Hg. destruct (i_id r =? id); [reflexivity|exact IH].
Qed.

Lemma image_by_id_update (f : ImageRow -> ImageRow) (id id' : Z) (l : Ledger) :
  (forall r, i_id (f r) = i_id r) ->
  image_by_id id' (update_image_rows f id l) =
  if id' =? id then f <$> image_by_id id' l else image_by_id id' l.
Proof.
  intros Hf. unfold image_by_id, update_image_rows. cbn [images set_images].
  rewrite find_by_id_map by (intros r; destruct (i_id r =? id); [apply Hf|reflexivity]).
  destruct (List.find _ (images l)) as [r|] eqn:Hfind; cbn.
  - apply find_some in Hfind as [_ Hid]. apply Z.eqb_eq in Hid. rewrite Hid.
    destruct (id' =? id); reflexivity.
  - destruct (id' =? id); reflexivity.
Qed.

Lemma captions_ok_distinct (l : Ledger) :
  captions_ok l -> distinct (image_vector_ids (images l)) = true.
Proof.
  intros [Hnd Hown]. apply distinct_NoDup. unfold image_vector_ids, vector_ids_own in *.
  induction (images l) as [|r rows IH]; cbn; [constructor|].
  cbn in Hnd. apply NoDup_cons in Hnd as [Hr Hnd].
  apply Forall_cons in Hown as [Hown_r Hown].
  specialize (IH Hnd Hown).
  destruct (i_vector_id r) as [v|] eqn:Hv; [|exact IH].
  apply NoDup_cons. split; [|exact IH].
  destruct Hown_r as [H|H]; [discriminate|]. injection H as ->.
  intros Hin. apply Hr. clear -Hin Hown.
  induction rows as [|x rows IH]; cbn in *; [apply not_elem_of_nil in Hin; destruct Hin|].
  apply Forall_cons in Hown as [Hx Hown].
  destruct (i_vector_id x) as [v|] eqn:Hv; cbn in Hin.
  - apply elem_of_cons in Hin as [Heq|Hin].
    + destruct Hx as [H|H]; [discriminate|]. injection H as ->.
      apply append_inj_prefix, str_of_Z_inj in Heq. rewrite Heq. apply elem_of_cons. left. reflexivity.
    + apply elem_of_cons. right. apply IH; assumption.
  - apply elem_of_cons. right. apply IH; assumption.
Qed.

Lemma captions_ok_update (f : ImageRow -> ImageRow) (id : Z) (l : Ledger) :
  (forall r, i_id (f r) = i_id r) ->
  (forall r, i_id r = id ->
     i_vector_id (f r) = i_vector_id r \/ i_vector_id (f r) = Some ("img:" ++ str_of_Z id)) ->
  captions_ok l -> captions_ok (update_image_rows f id l).
Proof.
  intros Hid Hv [Hnd Hown]. split.
  - unfold update_image_rows. cbn [images set_images]. rewrite update_rows_ids by exact Hid.
    exact Hnd.
  - unfold vector_ids_own, update_image_rows in *. cbn [images set_images].
    rewrite Forall_forall in *. intros r Hr.
    apply list_elem_of_In, in_map_iff in Hr as (x & <- & Hx). apply list_elem_of_In in Hx.
    specialize (Hown x Hx). destruct (i_id x =? id) eqn:He; [|exact Hown].
    apply Z.eqb_eq in He. rewrite Hid. destruct (Hv x He) as [H|H]; rewrite H.
    + exact Hown.
    + right. rewrite He. reflexivity.
Qed.

(** Under the unique index, the [UPDATE] of a successful caption goes
    through. *)
Lemma update_image_caption_ok (description : string) (tags detected : option string)
    (status stamp : string) (meta : metadata) (id : Z) (l : Ledger) :
  captions_ok l ->
  update_image_caption description tags detected ("img:" ++ str_of_Z id) status stamp meta id l
  = Ok (update_image_rows
          (with_caption description tags detected ("img:" ++ str_of_Z id) status stamp meta) id l).
Proof.
  intros Hok. unfold update_image_caption.
  rewrite captions_ok_distinct; [reflexivity|].
  apply captions_ok_update; [reflexivity| |exact Hok]. intros r _. right. reflexivity.
Qed.

(** The loop body of [describe_and_index_images]: it returns whatever the
    vision call does; a described image is marked done, counted, and gives
    one embedding record; an image whose call raises is marked failed and
    gives nothing. *)
Lemma describe_one_step (E : Env) (record : ImageInventoryRecord)
    (successes : Z) (embeddings : list EmbeddingRecord) (w : World) :
  captions_ok (ledger w) ->
  describe_one E record (successes, embeddings) w =
  (Ok match describe_image E (clock w) (ir_file_path record) with
      | Ok description => (successes + 1, append embeddings (caption_embedding record description))
      | Raise _ => (successes, embeddings)
      end,
   set_ledger (update_image_rows (attempt_row E (clock w) record) (ir_id record) (ledger w))
     (set_clock (S (clock w)) w)).
Proof.
  intros Hok. unfold describe_one, caption_image, attempt_row.
  cbv beta iota zeta delta [bind tick try_except lift get_world put_ledger modify ret].
  cbn [clock set_clock ledger].
  destruct (describe_image E (clock w) (ir_file_path record)) as [description|exc].
  - unfold caption_vector_id. rewrite update_image_caption_ok by exact Hok.
    destruct w; reflexivity.
  - cbn. destruct w; reflexivity.
Qed.

Lemma attempt_row_id (E : Env) (n : nat) (record : ImageInventoryRecord) (r : ImageRow) :
  i_id (attempt_row E n record r) = i_id r.
Proof. unfold attempt_row. destruct (describe_image E n _); reflexivity. Qed.

Lemma attempt_keeps_captions_ok (E : Env) (n : nat) (record : ImageInventoryRecord) (l : Ledger) :
  captions_ok l ->
  captions_ok (update_image_rows (attempt_row E n record) (ir_id record) l).
Proof.
  apply captions_ok_update; [apply attempt_row_id|].
  intros r _. unfold attempt_row. destruct (describe_image E n _); [right|left]; reflexivity.
Qed.

Lemma expected_embeddings_from (E : Env) (n : nat) (records : list ImageInventoryRecord)
    (er : EmbeddingRecord) :
  In er (expected_embeddings E n records) <->
  exists i record description,
    records !! i = Some record /\
    describe_image E (n + i) (ir_file_path record) = Ok description /\
    er = caption_embedding record description.
Proof.
  revert n. induction records as [|r rest IH]; intros n; cbn [expected_embeddings].
  - split; [intros []|intros (i & record & d & H & _); discriminate].
  - rewrite in_app_iff, IH. split.
    + intros [H|(i & record & d & H1 & H2 & H3)].
      * exists O, r. rewrite Nat.add_0_r.
        destruct (describe_image E n (ir_file_path r)) as [d|]; [|destruct H].
        destruct H as [<-|[]]. exists d. auto.
      * exists (S i), record, d. rewrite Nat.add_succ_r. auto.
    + intros ([|i] & record & d & H1 & H2 & H3).
      * left. cbn in H1. injection H1 as <-. rewrite Nat.add_0_r in H2. rewrite H2.
        left. symmetry. exact H3.
      * right. exists i, record, d. rewrite Nat.add_succ_r in H2. auto.
Qed.

(** The captioning loop, from any accumulator. *)
Lemma describe_loop (E : Env) (records : list ImageInventoryRecord) :
  forall (successes : Z) (embeddings : list EmbeddingRecord) (w : World),
  captions_ok (ledger w) ->
  exists w',
    for_each records (describe_one E) (successes, embeddings) w
    = (Ok (successes + Z.of_nat (length (expected_embeddings E (clock w) records)),
           (embeddings ++ expected_embeddings E (clock w) records)%list), w')
    /\ captions_ok (ledger w')
    /\ only_images (ledger w) (ledger w')
    /\ graph w' = graph w /\ vectors w' = vectors w
    /\ (forall id, ~ In id (map ir_id records) ->
          image_by_id id (ledger w') = image_by_id id (ledger w))
    /\ (NoDup (map ir_id records) ->
        forall i record, records !! i = Some record ->
          image_by_id (ir_id record) (ledger w')
          = attempt_row E (clock w + i) record <$> image_by_id (ir_id record) (ledger w)).
Proof.
  induction records as [|r rest IH]; intros successes embeddings w Hok.
  - exists w. cbn. rewrite Z.add_0_r, app_nil_r.
    split; [reflexivity|]. split; [exact Hok|]. split; [repeat split|].
    split; [reflexivity|]. split; [reflexivity|]. split; [reflexivity|].
    intros _ i record H. discriminate.
  - cbn [for_each expected_embeddings].
    rewrite (bind_ok _ _ _ _ _ (describe_one_step E r successes embeddings w Hok)).
    set (w1 := set_ledger _ _).
    assert (Hok1 : captions_ok (ledger w1)) by (apply attempt_keeps_captions_ok; exact Hok).
    assert (Hc1 : clock w1 = S (clock w)) by reflexivity.
    destruct (describe_image E (clock w) (ir_file_path r)) as [d|exc] eqn:Hd.
    + destruct (IH (successes + 1) (append embeddings (caption_embedding r d)) w1 Hok1)
        as (w' & Hrun & Hok' & Him & Hg & Hv & Hnot & Hat).
      exists w'. rewrite Hc1 in Hrun, Hat. split.
      { rewrite Hrun. f_equal. f_equal. f_equal.
        - cbn [length app]. lia.
        - unfold append. rewrite <- app_assoc. reflexivity. }
      split; [exact Hok'|].
      split; [destruct Him as (?&?&?); repeat split; assumption|].
      split; [exact Hg|]. split; [exact Hv|]. split.
      * intros id Hid.
        assert (Hne : id <> ir_id r) by (intros ->; apply Hid; left; reflexivity).
        assert (Hrest : ~ In id (map ir_id rest)) by (intros H; apply Hid; right; exact H).
        rewrite Hnot by exact Hrest. subst w1. cbn [ledger set_ledger].
        rewrite image_by_id_update by apply attempt_row_id.
        apply Z.eqb_neq in Hne. rewrite Hne. reflexivity.
      * intros Hnd [|i] record Hrec; cbn in Hnd; apply NoDup_cons in Hnd as [Hr Hnd].
        -- cbn in Hrec. injection Hrec as <-. rewrite Nat.add_0_r.
           rewrite Hnot by (intros H; apply Hr, list_elem_of_In, H).
           subst w1. cbn [ledger set_ledger].
           rewrite image_by_id_update, Z.eqb_refl by apply attempt_row_id. reflexivity.
        -- cbn in Hrec. rewrite (Hat Hnd i record Hrec).
           rewrite Nat.add_succ_r. cbn [Nat.add]. f_equal.
           subst w1. cbn [ledger set_ledger].
           rewrite image_by_id_update by apply attempt_row_id.
           destruct (ir_id record =? ir_id r) eqn:He; [|reflexivity].
           apply Z.eqb_eq in He. exfalso. apply Hr. rewrite <- He.
           apply list_elem_of_In, in_map. apply list_elem_of_In.
           apply list_elem_of_lookup. eauto.
    + destruct (IH successes embeddings w1 Hok1)
        as (w' & Hrun & Hok' & Him & Hg & Hv & Hnot & Hat).
      exists w'. rewrite Hc1 in Hrun, Hat. split; [exact Hrun|].
      split; [exact Hok'|].
      split; [destruct Him as (?&?&?); repeat split; assumption|].
      split; [exact Hg|]. split; [exact Hv|]. split.
      * intros id Hid.
        assert (Hne : id <> ir_id r) by (intros ->; apply Hid; left; reflexivity).
        assert (Hrest : ~ In id (map ir_id rest)) by (intros H; apply Hid; right; exact H).
        rewrite Hnot by exact Hrest. subst w1. cbn [ledger set_ledger].
        rewrite image_by_id_update by apply attempt_row_id.
        apply Z.eqb_neq in Hne. rewrite Hne. reflexivity.
      * intros Hnd [|i] record Hrec; cbn in Hnd; apply NoDup_cons in Hnd as [Hr Hnd].
        -- cbn in Hrec. injection Hrec as <-. rewrite Nat.add_0_r.
           rewrite Hnot by (intros H; apply Hr, list_elem_of_In, H).
           subst w1. cbn [ledger set_ledger].
           rewrite image_by_id_update, Z.eqb_refl by apply attempt_row_id. reflexivity.
        -- cbn in Hrec. rewrite (Hat Hnd i record Hrec).
           rewrite Nat.add_succ_r. cbn [Nat.add]. f_equal.
           subst w1. cbn [ledger set_ledger].
           rewrite image_by_id_update by apply attempt_row_id.
           destruct (ir_id record =? ir_id r) eqn:He; [|reflexivity].
           apply Z.eqb_eq in He. exfalso. apply Hr. rewrite <- He.
           apply list_elem_of_In, in_map. apply list_elem_of_In.
           apply list_elem_of_lookup. eauto.
Qed.

(** C7.  A captioning batch over records with distinct ids, on a ledger
    that satisfies the schema, with the vision client available.  The batch
    always returns.  For an image whose vision call raises, the row is set to
    failed with the first 512 characters of the error text and the time of the
    attempt, and no embedding record carries its vector id.  For every other
    image, before or after a failing one, the row is set to done and its
    embedding record is emitted; the success count is the number of embedding
    records, one per described image. *)
Theorem caption_failures_are_isolated (E : Env) (records : list ImageInventoryRecord)
    (w : World) :
  vision_client E = None ->
  NoDup (map ir_id records) ->
  captions_ok (ledger w) ->
  exists successes embeddings w',
    describe_and_index_images E records w = (Ok (successes, embeddings), w') /\
    embeddings = expected_embeddings E (clock w) records /\
    successes = Z.of_nat (length embeddings) /\
    forall i record, records !! i = Some record ->
      match describe_image E (clock w + i) (ir_file_path record) with
      | Raise exc =>
          image_by_id (ir_id record) (ledger w')
          = failure_row E (clock w + i) exc <$> image_by_id (ir_id record) (ledger w) /\
          forall er, In er embeddings -> er_vector_id er <> caption_vector_id record
      | Ok description =>
          image_by_id (ir_id record) (ledger w')
          = caption_row E (clock w + i) record description
              <$> image_by_id (ir_id record) (ledger w) /\
          In (caption_embedding record description) embeddings
      end.
Proof.
  intros Hclient Hnd Hok. unfold describe_and_index_images.
  destruct records as [|r0 rest] eqn:Hrecords.
  { exists 0, [], w. split; [reflexivity|]. split; [reflexivity|]. split; [reflexivity|].
    intros i record H. destruct i; discriminate. }
  rewrite <- Hrecords in *. clear Hrecords r0 rest.
  rewrite Hclient.
  destruct (describe_loop E records 0 [] w Hok) as (w' & Hrun & _ & _ & _ & _ & _ & Hat).
  exists (Z.of_nat (length (expected_embeddings E (clock w) records))),
         (expected_embeddings E (clock w) records), w'.
  split.
  { cbv beta iota delta [bind ret]. unfold with_connection. rewrite Hrun. reflexivity. }
  split; [reflexivity|]. split; [reflexivity|].
  intros i record Hrec. specialize (Hat Hnd i record Hrec). unfold attempt_row in Hat.
  destruct (describe_image E (clock w + i) (ir_file_path record)) as [d|exc] eqn:Hd.
  - split; [exact Hat|]. apply expected_embeddings_from. exists i, record, d. auto.
  - split; [exact Hat|]. intros er Hin Hvid.
    apply expected_embeddings_from in Hin as (j & record' & d' & Hj & Hd' & ->).
    cbn [er_vector_id caption_embedding] in Hvid. apply caption_vector_id_inj in Hvid.
    assert (j = i).
    { eapply NoDup_lookup; [exact Hnd| |].
      - rewrite list_lookup_fmap, Hj. reflexivity.
      - rewrite list_lookup_fmap, Hrec. cbn. f_equal. symmetry. exact Hvid. }
    subst j. rewrite Hj in Hrec. injection Hrec as ->. congruence.
Qed.

(** When the vision client itself cannot be built, the batch raises before
    touching any row; the orchestrator reports it as one note. *)
Lemma describe_and_index_images_no_client (E : Env) (records : list ImageInventoryRecord)
    (w : World) (exc : exn) :
  vision_client E = Some exc -> records <> [] ->
  describe_and_index_images E records w = (Raise exc, w).
Proof.
  intros H Hne. unfold describe_and_index_images. destruct records; [contradiction|].
  rewrite H. reflexivity.
Qed.

(** C7, witness: the first vision call fails, the second succeeds. *)
Lemma caption_failures_witness :
  vision_client flaky_env = None /\
  NoDup (map ir_id sample_records) /\
  captions_ok (ledger sample_image_world) /\
  exists successes embeddings w',
    describe_and_index_images flaky_env sample_records sample_image_world
    = (Ok (successes, embeddings), w') /\
    successes = 1 /\
    map er_vector_id embeddings = ["img:1"] /\
    map i_caption_status (images (ledger w')) = [Some "done"; Some "failed"] /\
    map i_caption_error (images (ledger w'))
    = [None; Some "Gemini Vision request failed: 503"].
Proof.
  assert (Hnd : NoDup (map ir_id sample_records))
    by (refine (bool_decide_unpack _ _); vm_compute; exact I).
  assert (Hok : captions_ok (ledger sample_image_world)).
  { split; [refine (bool_decide_unpack _ _); vm_compute; exact I|].
    apply Forall_cons; split; [right; reflexivity|].
    apply Forall_cons; split; [left; reflexivity|apply Forall_nil; exact I]. }
  split; [reflexivity|]. split; [exact Hnd|]. split; [exact Hok|].
  destruct (caption_failures_are_isolated flaky_env sample_records sample_image_world
              eq_refl Hnd Hok) as (successes & embeddings & w' & Hrun & Hemb & Hs & _).
  exists successes, embeddings, w'. split; [exact Hrun|].
  assert (Hw : w' = snd (describe_and_index_images flaky_env sample_records sample_image_world))
    by (rewrite Hrun; reflexivity).
  subst embeddings successes. rewrite Hw.
  repeat split; vm_compute; reflexivity.
Defined.

(** ** Identity and graph synchroniser *)

#[local] Instance counter_grows_refl : Reflexive counter_grows.
Proof. intros w. split; [reflexivity|tauto]. Qed.

#[local] Instance counter_grows_trans : Transitive counter_grows.
Proof. intros a b c [H1 H2] [H3 H4]. split; [etransitivity; eassumption|tauto]. Qed.

Lemma register_person_counter_grows (E : Env) id dn gn fn raw src :
  preserves counter_grows (register_person E id dn gn fn raw src).
Proof.
  assert (H : forall w, run_stats (snd (register_person E id dn gn fn raw src w)) = run_stats w).
  { intros w. unfold register_person.
    cbv beta iota zeta delta [bind modify ret execute_write tick].
    destruct (_ || _); [reflexivity|]. cbn [clock set_graph].
    destruct (neo4j_commits E _); reflexivity. }
  intros w. unfold counter_grows, contacts_counted. rewrite H. split; [reflexivity|tauto].
Qed.

(** The part of C6 the code satisfies: within a run, the contacts counter is
    the number of canonical identifiers seen, so it grows at most once per
    identifier. *)
Lemma contacts_counter_counts_identifiers (E : Env) dn gn fn ph em src :
  preserves counter_grows (_register_contact_with_graph E dn gn fn ph em src).
Proof.
  unfold _register_contact_with_graph.
  destruct (negb _); [apply preserves_ret; typeclasses eauto|].
  apply preserves_for_each; [typeclasses eauto..|].
  intros [canonical raw] []. apply preserves_bind; [typeclasses eauto..| |].
  - apply register_person_counter_grows.
  - intros [|]; [|apply preserves_ret; typeclasses eauto].
    apply preserves_bind; [typeclasses eauto..| |intros _].
    + apply preserves_modify. intros w. unfold counter_grows.
      destruct (bool_decide _) eqn:Hb; [split; [reflexivity|tauto]|].
      apply bool_decide_eq_false in Hb. cbn. split; [apply union_subseteq_r|].
      unfold contacts_counted. cbn. intros ->.
      rewrite size_union by (apply disjoint_singleton_l; exact Hb).
      rewrite size_singleton. lia.
    + destruct (or_else _ _); [|apply preserves_ret; typeclasses eauto].
      destruct (truthy _); [|apply preserves_ret; typeclasses eauto].
      apply preserves_modify. intros w. split; [reflexivity|tauto].
Qed.

(** C6.  The code on a contacts table that lists one person twice: the
    second row is registered with the graph store again, under the same
    canonical identifier; only the counter is guarded by the seen set. *)
Theorem duplicate_contact_is_registered_again :
  let out := ingest_contacts_from_sqlite sample_env sample_contacts_path
               sample_contacts_db empty_world in
  fst out = Ok 2 /\
  g_log (graph (snd out))
  = [CallRegisterPerson "+15551230002"; CallRegisterPerson "+15551230002"] /\
  clock (snd out) = 2%nat /\
  contacts_registered (run_stats (snd out)) = 1 /\
  size (persons (graph (snd out))) = 1%nat.
Proof. repeat split; vm_compute; reflexivity. Qed.

(** ** The orchestrator: what reaches the caller *)

Lemma log_image_never_raises (E : Env) (extraction_dir image_path : Path) acc :
  never_raises (log_image E extraction_dir image_path acc).
Proof.
  destruct acc as [[records seen_paths] processed]. unfold log_image.
  destruct (bool_decide _); [apply never_raises_ret|].
  intros w. cbv beta iota zeta delta [bind get_world put_ledger modify ret].
  destruct (insert_or_ignore_image _ _ _ _ _ _) as [[image_id|] l]; [reflexivity|].
  destruct (select_image_by_path _ l) as [[[image_id existing_status] existing_cell]|];
    [|reflexivity].
  destruct (negb _); reflexivity.
Qed.

Lemma log_image_inventory_never_raises (E : Env) (image_paths : list Path) (dir : Path) :
  never_raises (log_image_inventory E image_paths dir).
Proof.
  unfold log_image_inventory. destruct image_paths as [|p rest]; [apply never_raises_ret|].
  apply never_raises_with_connection, never_raises_bind.
  - apply never_raises_for_each. intros x acc. apply log_image_never_raises.
  - intros [[records seen] processed]. apply never_raises_ret.
Qed.

Lemma caught_by_Exception (e : exn) : caught_by [Exception] e = true.
Proof. reflexivity. Qed.

Lemma incl_append (notes notes' : list string) (note : string) :
  incl notes notes' -> incl notes (append notes' note).
Proof. intros H x Hx. apply in_or_app. left. apply H, Hx. Qed.

Lemma In_append (notes : list string) (note : string) : In note (append notes note).
Proof. apply in_or_app. right. left. reflexivity. Qed.

(** A file that cannot be opened fails each ingestion before any write. *)
Lemma ingest_messages_open_error (E : Env) p c e :
  open_error c = Some e -> fails_with (ingest_messages_from_sqlite E) p c e.
Proof. destruct c; try discriminate. intros [= ->] w. reflexivity. Qed.

Lemma ingest_contacts_open_error (E : Env) p c e :
  open_error c = Some e -> fails_with (ingest_contacts_from_sqlite E) p c e.
Proof. destruct c; try discriminate. intros [= ->] w. reflexivity. Qed.

Lemma ingest_contacts_xml_open_error (E : Env) p c e :
  open_error c = Some e -> fails_with (ingest_contacts_from_xml E) p c e.
Proof. destruct c; try discriminate. intros [= ->] w. reflexivity. Qed.

Lemma ingest_system_info_open_error (E : Env) p c e :
  open_error c = Some e -> fails_with (ingest_system_info_from_plist E) p c e.
Proof. destruct c; try discriminate. intros [= ->] w. reflexivity. Qed.

(** One turn of a per-source loop: the notes grow, and a file whose
    ingestion raises whatever the stores hold leaves its failure note. *)
Lemma message_db_step_notes (E : Env) (dir : Path) p c n recs notes :
  outcome (message_db_step E dir (p, c) (n, recs, notes))
    (fun '(_, _, notes') =>
       incl notes notes' /\
       forall e, fails_with (ingest_messages_from_sqlite E) p c e ->
         In (failure_note "Failed parsing messages from " p e) notes')
    no_exn.
Proof.
  intros w. unfold message_db_step, try_except, bind.
  destruct (ingest_messages_from_sqlite E p c w) as [[[processed embeddings]|exc] w1]
    eqn:Hrun.
  - destruct (relative_note p dir); cbn;
      (split; [apply incl_append, incl_refl|]; intros e' He; specialize (He w);
       rewrite Hrun in He; discriminate He).
  - cbn. split; [apply incl_append, incl_refl|]. intros e' He. specialize (He w).
    rewrite Hrun in He. injection He as <-. apply In_append.
Qed.

Lemma message_loop_notes (E : Env) (dir : Path) (dbs : list (Path * FileContent)) acc :
  outcome (for_each dbs (message_db_step E dir) acc)
    (fun '(_, _, notes') =>
       incl (snd acc) notes' /\
       forall p c e, In (p, c) dbs -> fails_with (ingest_messages_from_sqlite E) p c e ->
         In (failure_note "Failed parsing messages from " p e) notes')
    no_exn.
Proof.
  revert acc. induction dbs as [|[p c] dbs IH]; intros [[n recs] notes].
  - apply outcome_ret. split; [apply incl_refl|]. intros p c e [].
  - cbn [for_each]. eapply outcome_bind; [apply message_db_step_notes|].
    intros [[n1 recs1] notes1] [Hincl Hfail].
    eapply outcome_weaken; [apply IH| |tauto].
    intros [[n2 recs2] notes2] [Hincl2 Hfail2]. cbn [snd] in *. split.
    + intros x Hx. apply Hincl2, Hincl, Hx.
    + intros p' c' e [[= <- <-]|Hin] Hopen; [apply Hincl2, Hfail, Hopen|].
      apply (Hfail2 p' c' e Hin Hopen).
Qed.

Section Counted.
Context (dir : Path) (ingest_one : Path -> FileContent -> M Z) (what failed : string).

Lemma counted_step_notes p c total notes :
  outcome (counted_step dir ingest_one what failed (p, c) (total, notes))
    (fun '(_, notes') =>
       incl notes notes' /\
       forall e, fails_with ingest_one p c e -> In (failure_note failed p e) notes')
    no_exn.
Proof.
  intros w. unfold counted_step, try_except, bind.
  destruct (ingest_one p c w) as [[processed|exc] w1] eqn:Hrun.
  - destruct (relative_note p dir); cbn;
      (split; [apply incl_append, incl_refl|]; intros e' He; specialize (He w);
       rewrite Hrun in He; discriminate He).
  - cbn. split; [apply incl_append, incl_refl|]. intros e' He. specialize (He w).
    rewrite Hrun in He. injection He as <-. apply In_append.
Qed.

Lemma counted_loop_notes (files : list (Path * FileContent)) acc :
  outcome (ingest_counted dir ingest_one what failed files acc)
    (fun '(_, notes') =>
       incl (snd acc) notes' /\
       forall p c e, In (p, c) files -> fails_with ingest_one p c e ->
         In (failure_note failed p e) notes')
    no_exn.
Proof.
  unfold ingest_counted. revert acc. induction files as [|[p c] files IH]; intros [total notes].
  - apply outcome_ret. split; [apply incl_refl|]. intros p c e [].
  - cbn [for_each]. eapply outcome_bind; [apply counted_step_notes|].
    intros [total1 notes1] [Hincl Hfail].
    eapply outcome_weaken; [apply IH| |tauto].
    intros [total2 notes2] [Hincl2 Hfail2]. cbn [snd] in *. split.
    + intros x Hx. apply Hincl2, Hincl, Hx.
    + intros p' c' e [[= <- <-]|Hin] Hopen; [apply Hincl2, Hfail, Hopen|].
      apply (Hfail2 p' c' e Hin Hopen).
Qed.
End Counted.

(** A per-source loop goes on after a file that raised: the counts are
    kept, the failure is noted, and the files that follow are ingested. *)
Lemma message_loop_continues (E : Env) (dir : Path) l1 p c l2 acc w n recs notes w1 exc w2 :
  for_each l1 (message_db_step E dir) acc w = (Ok (n, recs, notes), w1) ->
  ingest_messages_from_sqlite E p c w1 = (Raise exc, w2) ->
  for_each (l1 ++ (p, c) :: l2) (message_db_step E dir) acc w
  = for_each l2 (message_db_step E dir)
      (n, recs, append notes (failure_note "Failed parsing messages from " p exc)) w2.
Proof.
  intros H1 H2. rewrite for_each_app, H1. cbn [for_each]. unfold bind at 1.
  unfold message_db_step at 1. unfold try_except, bind. rewrite H2. reflexivity.
Qed.

Lemma counted_loop_continues (dir : Path) ingest_one what failed l1 p c l2 acc w
    total notes w1 exc w2 :
  for_each l1 (counted_step dir ingest_one what failed) acc w = (Ok (total, notes), w1) ->
  ingest_one p c w1 = (Raise exc, w2) ->
  ingest_counted dir ingest_one what failed (l1 ++ (p, c) :: l2) acc w
  = ingest_counted dir ingest_one what failed l2
      (total, append notes (failure_note failed p exc)) w2.
Proof.
  intros H1 H2. unfold ingest_counted. rewrite for_each_app, H1. cbn [for_each].
  unfold bind at 1. unfold counted_step at 1. unfold try_except, bind. rewrite H2. reflexivity.
Qed.

(** The embedding step raises what its collaborators raise. *)
Lemma index_embeddings_outcome (E : Env) (records : list EmbeddingRecord) :
  embedding_fails_with_RuntimeError E ->
  outcome (_index_embeddings E records) (fun _ => True)
    (fun e => caught_by [RuntimeError] e = true).
Proof.
  intros [Henc Hups] w. unfold _index_embeddings.
  destruct records as [|r records]; [exact I|].
  destruct (negb (vector_enabled E)) eqn:Hen; [exact I|].
  unfold bind, lift, encode_texts. cbn [map].
  specialize (Henc (er_text r :: map er_text records)).
  destruct (embedder_encode E _) as [vectors|e]; [|exact Henc].
  destruct vectors as [|v vectors]; [exact I|].
  unfold vector_store_upsert. rewrite Hen.
  specialize (Hups (er_vector_id r :: map er_vector_id records)).
  destruct (chroma_upsert E _) as [e|]; [exact Hups|].
  cbn [length] in *. rewrite !length_map in *. rewrite Henc, Nat.eqb_refl. exact I.
Qed.

(** X27.  Failures of single sources are isolated.  When the archive-level
    steps succeed and the embedding step fails, if at all, with a
    [RuntimeError], the orchestrator returns a summary whose notes name, with
    its exception, every classified file whose ingestion raises whatever the
    stores hold: a file that cannot be opened, whose tables cannot be listed
    or whose first table cannot be read.  And a per-source loop goes on after
    any file whose ingestion raised, with the counts kept and the failure
    noted. *)
Theorem per_source_failures_are_isolated (E : Env) (upload : Upload) (unique_id : string)
    (members : list (Path * FileContent)) (w : World) :
  truthy (up_filename upload) = true ->
  up_write_error upload = None ->
  up_extract upload = Ok members ->
  embedding_fails_with_RuntimeError E ->
  let extraction_dir := path_join (extracted_dir E) unique_id in
  (exists summary w',
     ingest_ufdr_archive E upload unique_id w = (Ok summary, w') /\
     names_failures E (classify_archive extraction_dir members) (notes summary)) /\
  (forall l1 p c l2 acc w0 n recs notes w1 exc w2,
     for_each l1 (message_db_step E extraction_dir) acc w0 = (Ok (n, recs, notes), w1) ->
     ingest_messages_from_sqlite E p c w1 = (Raise exc, w2) ->
     for_each (l1 ++ (p, c) :: l2) (message_db_step E extraction_dir) acc w0
     = for_each l2 (message_db_step E extraction_dir)
         (n, recs, append notes (failure_note "Failed parsing messages from " p exc)) w2) /\
  (forall ingest_one what failed l1 p c l2 acc w0 total notes w1 exc w2,
     for_each l1 (counted_step extraction_dir ingest_one what failed) acc w0
     = (Ok (total, notes), w1) ->
     ingest_one p c w1 = (Raise exc, w2) ->
     ingest_counted extraction_dir ingest_one what failed (l1 ++ (p, c) :: l2) acc w0
     = ingest_counted extraction_dir ingest_one what failed l2
         (total, append notes (failure_note failed p exc)) w2).
Proof.
  intros Hname Hwrite Hextract Hemb extraction_dir.
  split; [|split; [apply message_loop_continues|apply counted_loop_continues]].
  apply outcome_returns.
  unfold ingest_ufdr_archive, persist_upload. rewrite Hname, Hwrite, Hextract. cbn [negb].
  fold extraction_dir. set (sources := classify_archive extraction_dir members).
  cbv zeta.
  eapply outcome_bind; [apply outcome_never_raises, never_raises_modify|intros _ _].
  eapply outcome_bind; [apply outcome_never_raises, never_raises_modify|intros _ _].
  eapply outcome_bind; [apply message_loop_notes|].
  intros [[messages_ingested message_records] notes1] [_ Hmessages].
  eapply outcome_bind;
    [apply counted_loop_notes|].
  intros [contacts1 notes2] [Hincl2 Hcontacts]. cbn [snd] in Hincl2.
  eapply outcome_bind;
    [apply counted_loop_notes|].
  intros [contacts2 notes3] [Hincl3 Hxml]. cbn [snd] in Hincl3.
  eapply outcome_bind;
    [apply counted_loop_notes|].
  intros [system_records notes4] [Hincl4 Hplists]. cbn [snd] in Hincl4.
  eapply outcome_bind;
    [apply outcome_never_raises, log_image_inventory_never_raises|].
  intros [image_count new_images] _.
  set (notes5 := if negb (image_count =? 0) then _ else notes4).
  assert (Hincl5 : incl notes4 notes5).
  { subst notes5. destruct (negb _); [apply incl_append|]; apply incl_refl. }
  clearbody notes5.
  eapply outcome_bind with (Q1 := fun '(_, _, notes') => incl notes5 notes').
  { unfold caption_step.
    destruct new_images as [|record rest]; [apply outcome_ret, incl_refl|].
    eapply outcome_try_except with (H1 := fun _ => True).
    - eapply outcome_bind with (Q1 := fun _ => True).
      + intros w0. destruct (fst _); exact I.
      + intros [captioned records] _.
        destruct (negb (captioned =? 0)); apply outcome_ret, incl_append, incl_refl.
    - intros e _ _. apply outcome_ret, incl_append, incl_refl.
    - intros e _ Hc. rewrite caught_by_Exception in Hc. discriminate. }
  intros [[images_captioned image_records] notes6] Hincl6.
  eapply outcome_bind with (Q1 := fun notes' => incl notes6 notes').
  { unfold index_step.
    destruct (vector_enabled E); [|apply outcome_ret, incl_append, incl_refl].
    destruct (message_records ++ image_records)%list as [|r combined] eqn:Hcombined;
      [apply outcome_ret, incl_append, incl_refl|].
    eapply outcome_try_except.
    - eapply outcome_bind; [apply (index_embeddings_outcome E _ Hemb)|].
      intros _ _. apply outcome_ret, incl_append, incl_refl.
    - intros e _ _. apply outcome_ret, incl_append, incl_refl.
    - intros e He Hc. cbv beta in He. rewrite He in Hc. discriminate. }
  intros notes7 Hincl7.
  eapply outcome_bind; [apply outcome_never_raises, never_raises_get_world|].
  intros w0 _. apply outcome_ret. cbn [notes].
  set (notes8 := if graph_enabled E then _ else _).
  assert (Hincl8 : incl notes7 notes8).
  { subst notes8. destruct (graph_enabled E); [destruct (_ || _)|];
      apply incl_append, incl_refl. }
  clearbody notes8.
  assert (Hlate : incl notes4 notes8).
  { intros x Hx. apply Hincl8, Hincl7, Hincl6, Hincl5, Hx. }
  repeat split; intros p c e Hin Hopen; apply Hlate.
  - apply Hincl4, Hincl3, Hincl2, (Hmessages p c e Hin Hopen).
  - apply Hincl4, Hincl3, (Hcontacts p c e Hin Hopen).
  - apply Hincl4, (Hxml p c e Hin Hopen).
  - apply (Hplists p c e Hin Hopen).
Qed.

Lemma sample_env_embedding : embedding_fails_with_RuntimeError sample_env.
Proof. split; intros l; cbn; [apply length_map|exact I]. Qed.

(** An archive whose first message database opens and holds a
    [WITHOUT ROWID] table: the summary names it, and the second database is
    ingested. *)
Lemma per_source_failures_witness :
  exists summary w',
    ingest_ufdr_archive sample_env sample_upload_without_rowid "u1" empty_world
    = (Ok summary, w') /\
    In "Failed parsing messages from chat.db: no such column: rowid" (notes summary).
Proof.
  destruct (per_source_failures_are_isolated sample_env sample_upload_without_rowid "u1" _
              empty_world eq_refl eq_refl eq_refl sample_env_embedding)
    as [(summary & w' & Hrun & Hmessages & _) _].
  exists summary, w'. split; [exact Hrun|].
  apply (Hmessages (path_concat (path_join (extracted_dir sample_env) "u1")
                      (mk_path false ["db"; "chat.db"]))
           sample_without_rowid (mk_exn OperationalError "no such column: rowid")).
  - left. reflexivity.
  - intros w. reflexivity.
Defined.

(** C8.  The code fails the claim.  The archive is stored and extracted,
    one of its message databases cannot be read and the other is ingested,
    and then the embedding model fails to load with an [OSError]: the
    embedding step is wrapped in [except RuntimeError], not in
    [except Exception] as the per-source loops and the captioning step are,
    so the caller gets the exception and no summary, although this is no
    archive-level failure. *)
Lemma embedding_failure_reaches_the_caller :
  truthy (up_filename sample_upload) = true /\
  up_write_error sample_upload = None /\
  is_ok (up_extract sample_upload) = true /\
  map (fun x => (path_name (fst x), open_error (snd x)))
    (message_dbs (classify_archive (path_join (extracted_dir offline_env) "u1")
                    [ (mk_path false ["db"; "chat.db"], sample_corrupt);
                      (mk_path false ["db"; "sms.db"], sample_sms) ]))
  = [("chat.db", Some (mk_exn DatabaseError "file is not a database")); ("sms.db", None)] /\
  (let out := ingest_ufdr_archive offline_env sample_upload "u1" empty_world in
   fst out
   = Raise (mk_exn OSError "We couldn't connect to 'https://huggingface.co' to load this file")
   /\ length (messages (ledger (snd out))) = 1%nat).
Proof. repeat split; vm_compute; reflexivity. Qed.

(** ** Ingesting an archive twice *)

Lemma ledger_below_refl (l : Ledger) : ledger_below l l.
Proof. split; [apply incl_refl|tauto]. Qed.

Lemma ledger_below_trans (l1 l2 l3 : Ledger) :
  ledger_below l1 l2 -> ledger_below l2 l3 -> ledger_below l1 l3.
Proof.
  intros [H1 H2] [H3 H4]. split; [intros x Hx; apply H3, H1, Hx|].
  intros e He. apply H4, H2, He.
Qed.

#[local] Instance grows_refl : Reflexive grows.
Proof. intros w. split; [apply ledger_below_refl|]. repeat split; (reflexivity || tauto). Qed.

#[local] Instance grows_trans : Transitive grows.
Proof.
  intros a b c (H1 & H2 & H3 & H4 & H5) (K1 & K2 & K3 & K4 & K5).
  split; [eapply ledger_below_trans; eassumption|].
  repeat split; try (etransitivity; eassumption). tauto.
Qed.

#[local] Instance keeps_refl : Reflexive keeps.
Proof. intros w. repeat split. Qed.

#[local] Instance keeps_trans : Transitive keeps.
Proof. intros a b c (H1 & H2 & H3 & H4) (K1 & K2 & K3 & K4). repeat split; congruence. Qed.

Lemma keeps_grows (w w' : World) : keeps w w' -> grows w w'.
Proof.
  intros (Hm & Hp & Hr & Hv). unfold grows, ledger_below, index_ok. rewrite Hm, Hp, Hr, Hv.
  repeat split; (reflexivity || tauto || apply incl_refl).
Qed.

Lemma preserves_with_connection {A} (R : World -> World -> Prop) (m : M A) :
  (forall w w', R w w' -> R w (set_ledger (ledger w) w')) ->
  preserves R m -> preserves R (with_connection m).
Proof.
  intros Hroll Hm w. unfold with_connection. specialize (Hm w).
  destruct (m w) as [[a|e] w1]; cbn in *; [exact Hm|apply Hroll, Hm].
Qed.

Lemma preserves_weaken {A} (R R' : World -> World -> Prop) (m : M A) :
  (forall w w', R w w' -> R' w w') -> preserves R m -> preserves R' m.
Proof. intros H Hm w. apply H, Hm. Qed.

Lemma grows_rollback (w w' : World) : grows w w' -> grows w (set_ledger (ledger w) w').
Proof.
  intros (_ & H2 & H3 & H4 & _). split; [apply ledger_below_refl|].
  repeat split; (assumption || tauto).
Qed.

Lemma keeps_rollback (w w' : World) : keeps w w' -> keeps w (set_ledger (ledger w) w').
Proof. intros (_ & H2 & H3 & H4). repeat split; assumption. Qed.

(** *** Frame proofs by the shape of the program

    [frame] proves [preserves grows m] and [preserves keeps m] by the rule of
    the head construct of [m]; the lemmas on the functions of the program are
    collected in the hint database [frame]. *)
Create HintDb frame discriminated.

(* Patterns of a loop body or a continuation: split the tuples bound. *)
Ltac split_pairs :=
  repeat match goal with x : (_ * _)%type |- _ => destruct x end; cbv beta iota zeta.

(* An update of the world away from messages, graph and vector store. *)
Ltac keeps_world :=
  repeat match goal with |- context [if ?b then _ else _] => destruct b end;
  repeat split.

Ltac frame_step :=
  lazymatch goal with
  | |- preserves _ (ret _) => apply preserves_ret; typeclasses eauto
  | |- preserves _ (raise _) => apply preserves_raise; typeclasses eauto
  | |- preserves _ (lift _) => apply preserves_lift; typeclasses eauto
  | |- preserves _ get_world => apply preserves_get_world; typeclasses eauto
  | |- preserves _ (bind _ _) =>
      apply preserves_bind; [typeclasses eauto..| |intros ?; split_pairs]
  | |- preserves _ (for_each _ _ _) =>
      apply preserves_for_each; [typeclasses eauto..|intros ? ?; split_pairs]
  | |- preserves _ (try_except _ _ _) =>
      apply preserves_try_except; [typeclasses eauto..| |intros ?]
  | |- preserves grows (with_connection _) =>
      apply preserves_with_connection; [exact grows_rollback|]
  | |- preserves keeps (with_connection _) =>
      apply preserves_with_connection; [exact keeps_rollback|]
  | |- preserves _ (if ?b then _ else _) => destruct b
  | |- preserves _ (match ?x with _ => _ end) => destruct x
  | |- preserves keeps (modify _) =>
      solve [apply preserves_modify; intros ?; keeps_world]
  | |- preserves grows (modify _) =>
      solve [apply preserves_modify; intros ?; apply keeps_grows; keeps_world]
  | |- preserves _ _ => solve [auto with frame]
  end.

Ltac frame := split_pairs; repeat frame_step.

(** *** The graph client only adds keys *)

Lemma dom_merge_person id dn gn fn raw src (g : gmap string Person) :
  dom (cypher_merge_person id dn gn fn raw src g) = {[id]} ∪ dom g.
Proof. unfold cypher_merge_person. apply dom_insert_L. Qed.

Lemma dom_merge_endpoint id label src (g : gmap string Person) :
  dom (cypher_merge_endpoint id label src g) = {[id]} ∪ dom g.
Proof. unfold cypher_merge_endpoint. apply dom_insert_L. Qed.

Lemma tick_keeps : preserves keeps tick.
Proof. intros w. repeat split. Qed.

Lemma execute_write_grows (E : Env) (tx : GraphDb -> GraphDb) :
  (forall g, dom (persons g) ⊆ dom (persons (tx g)) /\
             dom (relationships g) ⊆ dom (relationships (tx g))) ->
  preserves grows (execute_write E tx).
Proof.
  intros Htx w. unfold execute_write, bind, tick, modify, ret.
  destruct (neo4j_commits E (clock w)); cbn.
  - destruct (Htx (graph w)) as [Hp Hr]. split; [apply ledger_below_refl|].
    repeat split; (assumption || reflexivity || tauto).
  - apply keeps_grows. repeat split.
Qed.

Lemma register_person_grows (E : Env) id dn gn fn raw src :
  preserves grows (register_person E id dn gn fn raw src).
Proof.
  unfold register_person. frame.
  apply execute_write_grows. intros g. cbn. rewrite dom_merge_person.
  split; [apply union_subseteq_r|reflexivity].
Qed.

Lemma register_message_grows (E : Env) mid s r ts body conv sl rl src :
  preserves grows (register_message E mid s r ts body conv sl rl src).
Proof.
  unfold register_message. frame.
  apply execute_write_grows. intros g. cbn. rewrite !dom_merge_endpoint, dom_insert_L.
  split; [|apply union_subseteq_r].
  etransitivity; [|apply union_subseteq_r]. apply union_subseteq_r.
Qed.

#[local] Hint Resolve register_person_grows register_message_grows : frame.


Lemma _register_contact_with_graph_grows (E : Env) dn gn fn ph em src :
  preserves grows (_register_contact_with_graph E dn gn fn ph em src).
Proof. unfold _register_contact_with_graph. frame. Qed.

Lemma _register_message_with_graph_grows (E : Env) mid s r ts body conv src :
  preserves grows (_register_message_with_graph E mid s r ts body conv src).
Proof. unfold _register_message_with_graph. frame. Qed.

#[local] Hint Resolve _register_contact_with_graph_grows
  _register_message_with_graph_grows : frame.

(** *** The message rows of the ledger only grow *)

Lemma has_null_row_app (e : string) (rows rows' : list MessageRow) :
  has_null_row e (rows ++ rows') = has_null_row e rows || has_null_row e rows'.
Proof. apply existsb_app. Qed.

(** What [store_message] can do: append the row, leave the ledger as it
    is, or abort. *)
Lemma store_message_cases (row : MessageRow) (l : Ledger) :
  match store_message row l with
  | Ok (inserted, l') =>
      (inserted = true /\ l' = set_messages (messages l ++ [row]) l /\
       forall v, m_vector_id row = Some v -> ~ In v (message_vector_ids (messages l))) \/
      (inserted = false /\ l' = l /\
       exists v, m_vector_id row = Some v /\ In v (message_vector_ids (messages l)) /\
                 has_null_row (m_external_id row) (messages l) = false)
  | Raise _ =>
      exists v, m_vector_id row = Some v /\ In v (message_vector_ids (messages l)) /\
                (has_null_row (m_external_id row) (messages l) = true \/ ~ index_ok l)
  end.
Proof.
  unfold store_message, insert_or_ignore_message.
  destruct (m_vector_id row) as [v|] eqn:Hv; [|left; repeat split; intros; discriminate].
  destruct (existsb _ _) eqn:Hx.
  - apply existsb_eqb_In in Hx. unfold update_message_vector_id.
    destruct (has_null_row (m_external_id row) (messages l)) eqn:Hnull.
    + rewrite (coalesce_collides v _ _ Hx Hnull). exists v. auto.
    + rewrite (coalesce_no_null v _ _ Hnull).
      destruct (distinct _) eqn:Hd.
      * right. rewrite set_messages_same. repeat split. exists v. auto.
      * exists v. repeat split; [exact Hx|]. right. unfold index_ok. congruence.
  - apply existsb_eqb_not_In in Hx. left. repeat split. intros v' [= <-]. exact Hx.
Qed.

Lemma ledger_below_snoc (row : MessageRow) (l : Ledger) :
  ledger_below l (set_messages (messages l ++ [row]) l).
Proof.
  split; cbn [messages set_messages].
  - rewrite message_vector_ids_snoc. apply incl_appl, incl_refl.
  - intros e He. rewrite has_null_row_app, He. reflexivity.
Qed.

Lemma index_ok_snoc (row : MessageRow) (l : Ledger) :
  index_ok l ->
  (forall v, m_vector_id row = Some v -> ~ In v (message_vector_ids (messages l))) ->
  index_ok (set_messages (messages l ++ [row]) l).
Proof.
  unfold index_ok. cbn [messages set_messages].
  rewrite message_vector_ids_snoc, !distinct_NoDup.
  intros Hd Hv. destruct (m_vector_id row) as [v|]; [|rewrite app_nil_r; exact Hd].
  apply NoDup_app. split; [exact Hd|]. split; [|apply NoDup_singleton].
  intros x Hx Hx'. apply list_elem_of_In in Hx. apply list_elem_of_singleton in Hx'.
  subst. exact (Hv v eq_refl Hx).
Qed.

Lemma store_message_grows (row : MessageRow) (l l' : Ledger) (inserted : bool) :
  store_message row l = Ok (inserted, l') ->
  ledger_below l l' /\ (index_ok l -> index_ok l').
Proof.
  intros H. pose proof (store_message_cases row l) as Hc. rewrite H in Hc.
  destruct Hc as [(_ & -> & Hv)|(_ & -> & _)].
  - split; [apply ledger_below_snoc|]. intros Hd. apply index_ok_snoc; assumption.
  - split; [apply ledger_below_refl|tauto].
Qed.

(** The row loop body, step by step: the timestamp or the [UPDATE] may
    raise, and then nothing is written; otherwise the ledger is the one
    [store_message] gives and the message is registered with the graph. *)
Lemma ingest_message_row_run (E : Env) (p : Path) (t : string) (cols : list string)
    (row : list sqlval) (acc : Z * list EmbeddingRecord) (w : World) :
  match build_message_row E p t cols row with
  | Raise e => ingest_message_row E p t cols row acc w = (Raise e, w)
  | Ok message =>
      match store_message message (ledger w) with
      | Raise e => ingest_message_row E p t cols row acc w = (Raise e, w)
      | Ok (inserted, l) =>
          exists recs,
            ingest_message_row E p t cols row acc w
            = (Ok (if inserted then fst acc + 1 else fst acc, recs),
               snd (_register_message_with_graph E (m_external_id message)
                      (m_sender message) (m_receiver message) (m_timestamp message)
                      (m_body message) (m_conversation_id message) (path_str p)
                      (set_ledger l w)))
            /\ map er_vector_id recs
               = (map er_vector_id (snd acc)
                  ++ match m_vector_id message with Some v => [v] | None => [] end)%list
      end
  end.
Proof.
  destruct acc as [ingested recs0]. unfold ingest_message_row.
  destruct (build_message_row _ _ _ _ _) as [message|e]; [|reflexivity].
  cbv beta iota zeta delta [bind lift get_world put_ledger modify ret].
  destruct (store_message message (ledger w)) as [[inserted l]|e]; [|reflexivity].
  pose proof (_register_message_with_graph_never_raises E (m_external_id message)
                (m_sender message) (m_receiver message) (m_timestamp message)
                (m_body message) (m_conversation_id message) (path_str p)
                (set_ledger l w)) as Hnr.
  destruct (_register_message_with_graph _ _ _ _ _ _ _ _ _) as [[[]|e] w1];
    cbn in Hnr; [|discriminate].
  destruct (m_vector_id message) as [v|]; cbn [fst snd].
  - eexists. split; [reflexivity|]. unfold append. rewrite map_app. reflexivity.
  - eexists. split; [reflexivity|]. rewrite app_nil_r. reflexivity.
Qed.

Lemma grows_set_ledger (l : Ledger) (w : World) :
  ledger_below (ledger w) l -> (index_ok (ledger w) -> index_ok l) ->
  grows w (set_ledger l w).
Proof. intros Hb Hi. split; [exact Hb|]. repeat split; (reflexivity || exact Hi). Qed.

Lemma ingest_message_row_grows (E : Env) p t cols row acc :
  preserves grows (ingest_message_row E p t cols row acc).
Proof.
  intros w. pose proof (ingest_message_row_run E p t cols row acc w) as H.
  destruct (build_message_row E p t cols row) as [message|e]; [|rewrite H; reflexivity].
  destruct (store_message message (ledger w)) as [[inserted l]|e] eqn:Hstore;
    [|rewrite H; reflexivity].
  destruct H as (recs & -> & _). cbn [snd].
  destruct (store_message_grows _ _ _ _ Hstore) as [Hb Hi].
  etransitivity; [apply (grows_set_ledger l w Hb Hi)|].
  apply _register_message_with_graph_grows.
Qed.

#[local] Hint Resolve ingest_message_row_grows : frame.

Lemma ingest_messages_from_sqlite_grows (E : Env) p c :
  preserves grows (ingest_messages_from_sqlite E p c).
Proof. unfold ingest_messages_from_sqlite, _ingest_messages_from_table. frame. Qed.

Lemma message_db_step_grows (E : Env) dir file acc :
  preserves grows (message_db_step E dir file acc).
Proof.
  unfold message_db_step. split_pairs.
  pose proof (ingest_messages_from_sqlite_grows E). frame.
Qed.

Lemma ingest_contacts_from_sqlite_grows (E : Env) p c :
  preserves grows (ingest_contacts_from_sqlite E p c).
Proof.
  unfold ingest_contacts_from_sqlite, _ingest_contacts_from_table, ingest_contact_row.
  frame.
Qed.

Lemma ingest_contacts_from_xml_grows (E : Env) p c :
  preserves grows (ingest_contacts_from_xml E p c).
Proof. unfold ingest_contacts_from_xml. frame. Qed.

Lemma ingest_system_info_from_plist_keeps (E : Env) p c :
  preserves keeps (ingest_system_info_from_plist E p c).
Proof. unfold ingest_system_info_from_plist. frame. Qed.

Lemma counted_step_preserves (R : World -> World -> Prop) `{!Reflexive R} `{!Transitive R}
    dir ingest_one what failed file acc :
  (forall p c, preserves R (ingest_one p c)) ->
  preserves R (counted_step dir ingest_one what failed file acc).
Proof. intros H. unfold counted_step. split_pairs. frame. Qed.

(** *** Images and captions leave messages, graph and vectors alone *)

Lemma log_image_keeps (E : Env) (dir p : Path) acc :
  preserves keeps (log_image E dir p acc).
Proof.
  destruct acc as [[records seen] processed]. unfold log_image.
  destruct (bool_decide _); [frame|].
  intros w. cbv beta iota zeta delta [bind get_world put_ledger modify ret].
  unfold insert_or_ignore_image.
  destruct (existsb _ (images (ledger w))); [|repeat split].
  destruct (select_image_by_path _ _) as [[[image_id status] cell]|]; [|repeat split].
  destruct (negb _); repeat split.
Qed.

Lemma log_image_inventory_keeps (E : Env) (paths : list Path) (dir : Path) :
  preserves keeps (log_image_inventory E paths dir).
Proof.
  pose proof (log_image_keeps E dir). unfold log_image_inventory. frame.
Qed.

Lemma describe_one_keeps (E : Env) (record : ImageInventoryRecord) acc :
  preserves keeps (describe_one E record acc).
Proof.
  destruct acc as [successes embeddings]. unfold describe_one.
  apply preserves_bind; [typeclasses eauto..|apply tick_keeps|intros n].
  apply preserves_try_except; [typeclasses eauto..| |intros e; frame].
  unfold caption_image. apply preserves_bind; [typeclasses eauto..|frame|intros d].
  intros w. cbv beta iota zeta delta [bind get_world put_ledger modify ret lift].
  unfold update_image_caption. destruct (distinct _); repeat split.
Qed.

Lemma describe_and_index_images_keeps (E : Env) (records : list ImageInventoryRecord) :
  preserves keeps (describe_and_index_images E records).
Proof.
  pose proof (describe_one_keeps E). unfold describe_and_index_images. frame.
Qed.

(** *** The embedding step only adds vector entries *)

Lemma dom_chroma_store ids embeddings metadatas documents (store : gmap string VectorEntry) :
  dom store ⊆ dom (chroma_store ids embeddings metadatas documents store).
Proof.
  revert embeddings metadatas documents store.
  induction ids as [|id ids IH]; intros [|e es] [|m ms] [|d ds] store; cbn;
    try reflexivity.
  etransitivity; [|apply IH]. rewrite dom_insert_L. apply union_subseteq_r.
Qed.

Lemma _index_embeddings_grows (E : Env) (records : list EmbeddingRecord) :
  preserves grows (_index_embeddings E records).
Proof.
  unfold _index_embeddings, vector_store_upsert. frame.
  apply preserves_modify. intros w. split; [apply ledger_below_refl|].
  repeat split; try reflexivity; [|tauto]. apply dom_chroma_store.
Qed.

Lemma ingest_contact_row_grows (E : Env) p t cols row n :
  preserves grows (ingest_contact_row E p t cols row n).
Proof. unfold ingest_contact_row. frame. Qed.

Lemma _ingest_messages_from_table_grows (E : Env) (p : Path) (table : SqliteTable) :
  preserves grows (_ingest_messages_from_table E p table).
Proof. unfold _ingest_messages_from_table. frame. Qed.

Lemma log_image_inventory_grows (E : Env) (paths : list Path) (dir : Path) :
  preserves grows (log_image_inventory E paths dir).
Proof. apply (preserves_weaken keeps); [exact keeps_grows|apply log_image_inventory_keeps]. Qed.

Lemma describe_and_index_images_grows (E : Env) (records : list ImageInventoryRecord) :
  preserves grows (describe_and_index_images E records).
Proof.
  apply (preserves_weaken keeps); [exact keeps_grows|apply describe_and_index_images_keeps].
Qed.

Lemma ingest_system_info_from_plist_grows (E : Env) p c :
  preserves grows (ingest_system_info_from_plist E p c).
Proof.
  apply (preserves_weaken keeps); [exact keeps_grows|apply ingest_system_info_from_plist_keeps].
Qed.

Lemma ingest_counted_grows dir ingest_one what failed files acc :
  (forall p c, preserves grows (ingest_one p c)) ->
  preserves grows (ingest_counted dir ingest_one what failed files acc).
Proof.
  intros H. unfold ingest_counted. apply preserves_for_each; [typeclasses eauto..|].
  intros x a. apply counted_step_preserves; [typeclasses eauto..|exact H].
Qed.

Lemma ingest_message_dbs_grows (E : Env) dir dbs notes :
  preserves grows (ingest_message_dbs E dir dbs notes).
Proof.
  unfold ingest_message_dbs. apply preserves_for_each; [typeclasses eauto..|].
  intros x a. apply message_db_step_grows.
Qed.

#[local] Hint Resolve ingest_contact_row_grows _ingest_messages_from_table_grows
  ingest_messages_from_sqlite_grows message_db_step_grows
  ingest_contacts_from_sqlite_grows ingest_contacts_from_xml_grows
  ingest_system_info_from_plist_grows log_image_inventory_grows
  describe_and_index_images_grows _index_embeddings_grows ingest_message_dbs_grows
  : frame.

(** *** Classification does not depend on the extraction directory *)

Lemma last_app_nonempty {A} (l1 l2 : list A) (d : A) :
  l2 <> [] -> List.last (l1 ++ l2) d = List.last l2 d.
Proof.
  intros Hl2. induction l1 as [|x l1 IH]; [reflexivity|].
  cbn [app]. destruct (l1 ++ l2)%list as [|y rest] eqn:Happ.
  - destruct l1; [cbn in Happ; congruence|discriminate].
  - exact IH.
Qed.

Lemma path_name_concat (dir rel : Path) :
  parts rel <> [] -> path_name (path_concat dir rel) = path_name rel.
Proof. intros H. unfold path_name, path_concat. cbn [parts]. apply last_app_nonempty, H. Qed.

Lemma Forall2_snoc {A B} (P : A -> B -> Prop) l1 l2 x1 x2 :
  Forall2 P l1 l2 -> P x1 x2 -> Forall2 P (l1 ++ [x1]) (l2 ++ [x2]).
Proof. intros Hl Hx. apply Forall2_app; [exact Hl|]. constructor; [exact Hx|constructor]. Qed.

Lemma classify_file_same x1 x2 s1 s2 :
  same_member x1 x2 -> same_sources s1 s2 ->
  same_sources (classify_file x1 s1) (classify_file x2 s2).
Proof.
  intros Hx (Hm & Hc & Hxml & Hp). pose proof Hx as [Hn _].
  unfold classify_file, path_suffix. rewrite Hn.
  repeat match goal with |- context [if ?b then _ else _] => destruct b end;
    unfold same_sources; cbn; auto using Forall2_snoc.
Qed.

Lemma discover_sources_same tree1 tree2 r1 r2 :
  Forall2 same_member tree1 tree2 ->
  same_sources (discover_sources tree1 r1) (discover_sources tree2 r2).
Proof.
  unfold discover_sources. intros Ht.
  assert (Hinit : same_sources
            {| report := r1; message_dbs := []; contact_dbs := [];
               contact_xml_files := []; system_plists := []; image_files := [] |}
            {| report := r2; message_dbs := []; contact_dbs := [];
               contact_xml_files := []; system_plists := []; image_files := [] |}).
  { repeat split; constructor. }
  revert Hinit. generalize
    {| report := r1; message_dbs := []; contact_dbs := [];
       contact_xml_files := []; system_plists := []; image_files := [] |}
    {| report := r2; message_dbs := []; contact_dbs := [];
       contact_xml_files := []; system_plists := []; image_files := [] |}.
  induction Ht as [|x1 x2 t1 t2 Hx Ht IH]; intros s1 s2 Hs; cbn [fold_left]; [exact Hs|].
  apply IH, classify_file_same; assumption.
Qed.

Lemma classify_archive_same (dir1 dir2 : Path) (members : list (Path * FileContent)) :
  Forall relative_member members ->
  same_sources (classify_archive dir1 members) (classify_archive dir2 members).
Proof.
  intros Hrel. unfold classify_archive. apply discover_sources_same.
  induction Hrel as [|[rel c] members Hm Hrel IH]; cbn [map]; constructor; [|exact IH].
  split; [|reflexivity]. cbn [fst]. unfold relative_member in Hm. cbn [fst] in Hm.
  rewrite !path_name_concat by exact Hm. reflexivity.
Qed.

(** *** The second ingestion follows the first *)

Lemma outcome_top {A} (m : M A) : outcome m (fun _ => True) (fun _ => True).
Proof. intros w. destruct (fst (m w)); exact I. Qed.

Ltac solve_adds :=
  split; [reflexivity|]; repeat split; cbn;
  rewrite ?dom_merge_person, ?dom_merge_endpoint, ?dom_insert_L,
          ?(left_id_L (∅ : gset string) (∪)),
          ?(left_id_L (∅ : gset (string * string * string)) (∪)),
          ?(assoc_L (∪));
  reflexivity.

(** What a registration writes, when the graph store commits. *)
Lemma register_person_run (E : Env) id dn gn fn raw src (w : World) :
  graph_commits E ->
  let registered := negb (negb (graph_enabled E) || String.eqb id "") in
  let out := register_person E id dn gn fn raw src w in
  fst out = Ok registered /\
  adds (if registered then {[id]} else ∅) ∅ w (snd out).
Proof.
  intros Hc. unfold register_person. cbv beta iota zeta delta [bind modify ret].
  destruct (negb (graph_enabled E) || String.eqb id "") eqn:Hskip; cbn [negb].
  - solve_adds.
  - unfold execute_write, bind, tick, modify, ret. rewrite Hc. solve_adds.
Qed.

Lemma register_message_run (E : Env) mid s r ts body conv sl rl src (w : World) :
  graph_commits E ->
  let registered :=
    negb (negb (graph_enabled E)
          || (String.eqb mid "" || String.eqb s "" || String.eqb r "")) in
  let out := register_message E mid s r ts body conv sl rl src w in
  fst out = Ok registered /\
  adds (if registered then {[r; s]} else ∅)
       (if registered then {[(s, r, mid)]} else ∅) w (snd out).
Proof.
  intros Hc. unfold register_message. cbv beta iota zeta delta [bind modify ret].
  destruct (negb (graph_enabled E)) eqn:Hen; cbn [negb orb]; [solve_adds|].
  destruct (String.eqb mid "" || String.eqb s "" || String.eqb r "") eqn:Hskip; cbn [negb].
  - solve_adds.
  - unfold execute_write, bind, tick, modify, ret. rewrite Hc. solve_adds.
Qed.

Lemma Forall2_same {A} (l : list A) : Forall2 eq l l.
Proof. induction l; constructor; [reflexivity|assumption]. Qed.

Section Follows.
Context (E : Env) (commits : graph_commits E).
Context (L : Ledger) (GP : gset string) (GR : gset (string * string * string))
  (GV : gset string).
Context (F : Ledger -> Prop) (F_closed : closed_below F).

Abbreviation behind := (behind L GP GR GV).
Abbreviation follows := (follows L GP GR GV F).

Lemma behind_grows_left (w1 w1' w2 : World) :
  behind w1 w2 -> grows w1 w1' -> behind w1' w2.
Proof.
  intros (Hi & Hb & Hp & Hr & Hv) (_ & Gp & Gr & Gv & Gi).
  split; [tauto|]. split; [exact Hb|]. split; [|split].
  - etransitivity; [exact Hp|]. apply union_mono_r, Gp.
  - etransitivity; [exact Hr|]. apply union_mono_r, Gr.
  - intros k Hk. destruct (Hv k Hk) as [H|H]; [left|right; exact H].
    apply elem_of_union in H as [H|H]; apply elem_of_union; [left; apply Gv, H|right; exact H].
Qed.

Lemma behind_keeps (w1 w1' w2 w2' : World) :
  behind w1 w2 -> keeps w1 w1' -> keeps w2 w2' -> behind w1' w2'.
Proof.
  intros (Hi & Hb & Hp & Hr & Hv) (K1 & K2 & K3 & K4) (J1 & J2 & J3 & J4).
  unfold behind, index_ok, ledger_below in *. rewrite K1, K2, K3, K4, J1, J2, J3, J4.
  repeat split; tauto.
Qed.

Lemma follows_ret {A1 A2} (Q : A1 -> A2 -> Prop) a1 a2 :
  Q a1 a2 -> follows Q (ret a1) (ret a2).
Proof. intros HQ w1 w2 Hb _. split; [exact Hb|exact HQ]. Qed.

Lemma follows_lift {A1 A2} (Q : A1 -> A2 -> Prop) r1 r2 :
  res_follows Q r1 r2 -> follows Q (lift r1) (lift r2).
Proof. intros HQ w1 w2 Hb _. split; [exact Hb|exact HQ]. Qed.

Lemma follows_bind {A1 A2 B1 B2} (Q : A1 -> A2 -> Prop) (Q' : B1 -> B2 -> Prop)
    (m1 : M A1) (m2 : M A2) (k1 : A1 -> M B1) (k2 : A2 -> M B2) :
  follows Q m1 m2 ->
  (forall a1 a2, Q a1 a2 -> follows Q' (k1 a1) (k2 a2)) ->
  (forall a1, preserves grows (k1 a1)) ->
  follows Q' (bind m1 k1) (bind m2 k2).
Proof using F_closed.
  intros Hm Hk Hg w1 w2 Hb Hfut. unfold bind in *. specialize (Hm w1 w2 Hb).
  destruct (m1 w1) as [[a1|e1] w1m]; destruct (m2 w2) as [[a2|e2] w2m]; cbn [fst snd] in *.
  - pose proof (Hg a1 w1m) as Hgrow.
    destruct Hm as [Hbm HQ].
    { eapply F_closed; [apply Hgrow|exact Hfut]. }
    apply (Hk a1 a2 HQ w1m w2m Hbm Hfut).
  - pose proof (Hg a1 w1m) as Hgrow.
    destruct Hm as [Hbm _].
    { eapply F_closed; [apply Hgrow|exact Hfut]. }
    split; [|exact I]. eapply behind_grows_left; eassumption.
  - destruct (Hm Hfut) as [_ []].
  - destruct (Hm Hfut) as [Hbm _]. split; [exact Hbm|exact I].
Qed.

(** Steps that leave messages, graph and vectors alone. *)
Lemma follows_keeps {A1 A2} (P2 : A2 -> Prop) (m1 : M A1) (m2 : M A2) :
  preserves keeps m1 -> preserves keeps m2 -> never_raises m1 ->
  outcome m2 P2 (fun _ => True) ->
  follows (fun _ a2 => P2 a2) m1 m2.
Proof.
  intros K1 K2 Hnr Hout w1 w2 Hb _. split; [eapply behind_keeps; eauto|].
  specialize (Hnr w1). specialize (Hout w2). unfold res_follows.
  destruct (fst (m2 w2)); [|exact I]. destruct (fst (m1 w1)); [exact Hout|discriminate].
Qed.

Lemma follows_for_each {A1 A2 S1 S2} (P : A1 -> A2 -> Prop) (Q : S1 -> S2 -> Prop)
    (l1 : list A1) (l2 : list A2) (b1 : A1 -> S1 -> M S1) (b2 : A2 -> S2 -> M S2) :
  Forall2 P l1 l2 ->
  (forall x1 x2 s1 s2, P x1 x2 -> Q s1 s2 -> follows Q (b1 x1 s1) (b2 x2 s2)) ->
  (forall x1 s1, preserves grows (b1 x1 s1)) ->
  forall s1 s2, Q s1 s2 -> follows Q (for_each l1 b1 s1) (for_each l2 b2 s2).
Proof using F_closed.
  intros Hl Hb Hg. induction Hl as [|x1 x2 l1 l2 Hx Hl IH]; intros s1 s2 HQ; cbn [for_each].
  - apply follows_ret, HQ.
  - eapply follows_bind; [apply (Hb _ _ _ _ Hx HQ)|exact IH|].
    intros a1. apply preserves_for_each; [typeclasses eauto..|]. intros x s. apply Hg.
Qed.


Lemma behind_adds SP SR (w1 w1' w2 w2' : World) :
  behind w1 w2 -> adds SP SR w1 w1' -> adds SP SR w2 w2' -> behind w1' w2'.
Proof using Type.
  intros (Hi & Hb & Hp & Hr & Hv) (K1 & K2 & K3 & K4) (J1 & J2 & J3 & J4).
  unfold behind. rewrite K1, K2, K3, K4, J1, J2, J3, J4.
  split; [exact Hi|]. split; [exact Hb|]. split; [|split; [|exact Hv]].
  - rewrite <- (assoc_L (∪)). apply union_mono_l, Hp.
  - rewrite <- (assoc_L (∪)). apply union_mono_l, Hr.
Qed.

Lemma follows_total {A1 A2} (m1 : M A1) (m2 : M A2) :
  preserves keeps m1 -> preserves keeps m2 -> never_raises m1 ->
  follows (fun _ _ => True) m1 m2.
Proof using Type.
  intros K1 K2 Hnr. apply (follows_keeps (fun _ => True)); try assumption.
  apply outcome_top.
Qed.

Lemma register_person_follows id dn1 gn1 fn1 raw1 src1 dn2 gn2 fn2 raw2 src2 :
  follows eq (register_person E id dn1 gn1 fn1 raw1 src1)
             (register_person E id dn2 gn2 fn2 raw2 src2).
Proof using commits.
  intros w1 w2 Hb _.
  destruct (register_person_run E id dn1 gn1 fn1 raw1 src1 w1 commits) as [Hr1 Ha1].
  destruct (register_person_run E id dn2 gn2 fn2 raw2 src2 w2 commits) as [Hr2 Ha2].
  split; [eapply behind_adds; eassumption|]. rewrite Hr1, Hr2. reflexivity.
Qed.

Ltac total := apply follows_total; [frame..|repeat first
  [apply never_raises_ret | apply never_raises_modify | apply never_raises_get_world
  |apply never_raises_bind; [|intros ?]]].

Lemma _register_contact_with_graph_follows dn gn fn ph em src1 src2 :
  follows (fun _ _ => True) (_register_contact_with_graph E dn gn fn ph em src1)
                            (_register_contact_with_graph E dn gn fn ph em src2).
Proof using commits F_closed.
  unfold _register_contact_with_graph.
  destruct (negb (graph_enabled E)); [apply follows_ret; exact I|].
  apply follows_for_each with (P := eq); [apply Forall2_same| |intros; frame|exact I].
  - intros [canonical raw] ? [] [] <- _.
    eapply follows_bind; [apply register_person_follows| |intros; frame].
    intros success ? <-. destruct success; [|apply follows_ret; exact I].
    total; destruct (or_else _ _); try destruct (truthy _);
      first [apply never_raises_modify|apply never_raises_ret].
Qed.

Lemma adds_same (SP : gset string) (SR : gset (string * string * string)) (w w1 w2 : World) :
  adds SP SR w w1 -> ledger w2 = ledger w1 -> vectors w2 = vectors w1 ->
  persons (graph w2) = persons (graph w1) ->
  relationships (graph w2) = relationships (graph w1) ->
  adds SP SR w w2.
Proof using Type.
  intros (H1 & H2 & H3 & H4) K1 K2 K3 K4. unfold adds. rewrite K1, K2, K3, K4. tauto.
Qed.

Lemma adds_nothing (w : World) : adds ∅ ∅ w w.
Proof using Type.
  repeat split; rewrite (left_id_L _ (∪)); reflexivity.
Qed.

(** The keys a message adds to the graph are decided by its identifier and
    its two endpoints. *)
Lemma _register_message_with_graph_adds mid sender receiver :
  exists SP SR, forall ts body conv src w,
    adds SP SR w (snd (_register_message_with_graph E mid sender receiver ts body conv src w)).
Proof using commits.
  unfold _register_message_with_graph.
  destruct (negb (graph_enabled E)) eqn:Hen; [exists ∅, ∅; intros; apply adds_nothing|].
  destruct (canonicalize_actor sender) as [s|]; [|exists ∅, ∅; intros; apply adds_nothing].
  destruct (canonicalize_actor receiver) as [r|]; [|exists ∅, ∅; intros; apply adds_nothing].
  destruct (negb (truthy (Some s)) || negb (truthy (Some r)));
    [exists ∅, ∅; intros; apply adds_nothing|].
  exists (if negb (negb (graph_enabled E)
                   || (String.eqb mid "" || String.eqb s "" || String.eqb r ""))
          then {[r; s]} else ∅),
         (if negb (negb (graph_enabled E)
                   || (String.eqb mid "" || String.eqb s "" || String.eqb r ""))
          then {[(s, r, mid)]} else ∅).
  intros ts body conv src w.
  cbv beta iota zeta delta [bind get_world].
  match goal with |- context [register_message E mid s r ?a ?b ?c ?d ?e ?f w] =>
    destruct (register_message_run E mid s r a b c d e f w commits) as [Hr Ha];
    destruct (register_message E mid s r a b c d e f w) as [[success|e0] w1]
  end; cbn [fst snd] in *; [|discriminate].
  destruct success; cbn [snd modify ret]; [|exact Ha].
  eapply adds_same; [exact Ha|..]; destruct (bool_decide _); reflexivity.
Qed.

(** Rows built from one row of one table, under two paths with one name. *)
Lemma build_message_row_paths (p1 p2 : Path) t cols row :
  path_name p1 = path_name p2 ->
  match build_message_row E p1 t cols row, build_message_row E p2 t cols row with
  | Ok m1, Ok m2 =>
      m_external_id m1 = m_external_id m2 /\ m_vector_id m1 = m_vector_id m2 /\
      m_sender m1 = m_sender m2 /\ m_receiver m1 = m_receiver m2
  | Raise _, Raise _ => True
  | _, _ => False
  end.
Proof using Type.
  intros Hn. unfold build_message_row, message_external_id. rewrite Hn.
  destruct (_safe_parse_timestamp E _); [cbn; repeat split|exact I].
Qed.

Lemma ledger_below_snoc2 (l1 l2 : Ledger) (m1 m2 : MessageRow) :
  ledger_below l1 l2 ->
  m_external_id m1 = m_external_id m2 -> m_vector_id m1 = m_vector_id m2 ->
  ledger_below (set_messages (messages l1 ++ [m1]) l1) (set_messages (messages l2 ++ [m2]) l2).
Proof using Type.
  intros [Hv Hn] He Hvid. split; cbn [messages set_messages].
  - rewrite !message_vector_ids_snoc, Hvid. apply incl_app; [apply incl_appl, Hv|].
    apply incl_appr, incl_refl.
  - intros e. rewrite !has_null_row_app, !orb_true_iff. intros [H|H]; [left; apply Hn, H|].
    right. cbn in *. rewrite <- He, <- Hvid. exact H.
Qed.

Lemma ledger_below_snoc_old (l1 l2 : Ledger) (m1 : MessageRow) (v : string) :
  ledger_below l1 l2 -> m_vector_id m1 = Some v ->
  In v (message_vector_ids (messages l2)) ->
  ledger_below (set_messages (messages l1 ++ [m1]) l1) l2.
Proof using Type.
  intros [Hv Hn] Hvid Hin. split; cbn [messages set_messages].
  - rewrite message_vector_ids_snoc, Hvid. apply incl_app; [exact Hv|].
    intros x [<-|[]]. exact Hin.
  - intros e. rewrite has_null_row_app, orb_true_iff. intros [H|H]; [apply Hn, H|].
    cbn in H. rewrite Hvid, andb_false_r in H. discriminate.
Qed.

(** One row, in the two ingestions, inside the transaction of its table.
    The second stores the row, ignores it or aborts; it aborts whenever
    the first does, and ignores whenever the first does. *)
Lemma ingest_message_row_in_step (p1 p2 : Path) t cols row acc1 acc2 (w1 w2 : World) :
  path_name p1 = path_name p2 ->
  incl (record_ids (snd acc2)) (record_ids (snd acc1)) ->
  behind w1 w2 -> ledger_below (ledger w1) (ledger w2) ->
  behind (snd (ingest_message_row E p1 t cols row acc1 w1))
         (snd (ingest_message_row E p2 t cols row acc2 w2)) /\
  res_follows
    (fun a1 a2 =>
       incl (record_ids (snd a2)) (record_ids (snd a1)) /\
       ledger_below (ledger (snd (ingest_message_row E p1 t cols row acc1 w1)))
                    (ledger (snd (ingest_message_row E p2 t cols row acc2 w2))))
    (fst (ingest_message_row E p1 t cols row acc1 w1))
    (fst (ingest_message_row E p2 t cols row acc2 w2)).
Proof using commits.
  intros Hn Hacc Hb Hbelow.
  pose proof (ingest_message_row_grows E p1 t cols row acc1 w1) as Hg1.
  pose proof (ingest_message_row_run E p1 t cols row acc1 w1) as R1.
  pose proof (ingest_message_row_run E p2 t cols row acc2 w2) as R2.
  pose proof (build_message_row_paths p1 p2 t cols row Hn) as Hp.
  destruct (build_message_row E p1 t cols row) as [m1|e1];
    destruct (build_message_row E p2 t cols row) as [m2|e2]; try contradiction.
  2:{ rewrite R1, R2. split; [exact Hb|exact I]. }
  destruct Hp as (He & Hv & Hs & Hr).
  pose proof (store_message_cases m1 (ledger w1)) as C1.
  pose proof (store_message_cases m2 (ledger w2)) as C2.
  destruct (store_message m2 (ledger w2)) as [[ins2 l2']|e2] eqn:S2.
  2:{ rewrite R2. cbn [fst snd]. split; [|exact I]. eapply behind_grows_left; eassumption. }
  destruct Hb as (Hi & HL & Hgp & Hgr & Hgv).
  destruct (store_message m1 (ledger w1)) as [[ins1 l1']|e1] eqn:S1.
  2:{ exfalso. destruct C1 as (v & Hv1 & Hin1 & [Hnull|Hbad]); [|exact (Hbad Hi)].
      apply (proj2 Hbelow) in Hnull. apply (proj1 Hbelow) in Hin1.
      rewrite He in Hnull. rewrite Hv in Hv1.
      destruct C2 as [(_ & _ & Hfresh)|(_ & _ & v' & _ & _ & Hnone)].
      - exact (Hfresh v Hv1 Hin1).
      - congruence. }
  destruct R1 as (recs1 & R1 & Hids1). destruct R2 as (recs2 & R2 & Hids2).
  rewrite R1, R2. cbn [fst snd]. clear R1 R2 Hg1.
  destruct (_register_message_with_graph_adds (m_external_id m1) (m_sender m1)
              (m_receiver m1)) as (SP & SR & Hadds).
  rewrite <- He, <- Hs, <- Hr.
  pose proof (Hadds (m_timestamp m1) (m_body m1) (m_conversation_id m1) (path_str p1)
                (set_ledger l1' w1)) as A1.
  pose proof (Hadds (m_timestamp m2) (m_body m2) (m_conversation_id m2) (path_str p2)
                (set_ledger l2' w2)) as A2.
  destruct (store_message_grows _ _ _ _ S1) as [Hb1 Hi1].
  destruct (store_message_grows _ _ _ _ S2) as [Hb2 _].
  unfold res_follows. cbn [fst snd]. split; [|split].
  - apply (behind_adds SP SR (set_ledger l1' w1) _ (set_ledger l2' w2) _); [|exact A1|exact A2].
    split; [exact (Hi1 Hi)|]. split; [exact (ledger_below_trans _ _ _ HL Hb2)|].
    split; [exact Hgp|]. split; [exact Hgr|exact Hgv].
  - unfold record_ids. rewrite Hids1, Hids2, Hv.
    apply incl_app; [apply incl_appl, Hacc|apply incl_appr, incl_refl].
  - rewrite (proj1 A1), (proj1 A2). cbn [ledger set_ledger].
    destruct C1 as [(_ & -> & Hfresh1)|(_ & -> & _)].
    + destruct C2 as [(_ & -> & _)|(_ & -> & v & Hv2 & Hin2 & _)].
      * apply ledger_below_snoc2; assumption.
      * apply (ledger_below_snoc_old _ _ _ v); [assumption|congruence|assumption].
    + exact (ledger_below_trans _ _ _ Hbelow Hb2).
Qed.

Lemma message_rows_in_step (p1 p2 : Path) t cols rows :
  path_name p1 = path_name p2 ->
  forall acc1 acc2 (w1 w2 : World),
  incl (record_ids (snd acc2)) (record_ids (snd acc1)) ->
  behind w1 w2 -> ledger_below (ledger w1) (ledger w2) ->
  behind (snd (for_each rows (ingest_message_row E p1 t cols) acc1 w1))
         (snd (for_each rows (ingest_message_row E p2 t cols) acc2 w2)) /\
  res_follows
    (fun a1 a2 =>
       incl (record_ids (snd a2)) (record_ids (snd a1)) /\
       ledger_below (ledger (snd (for_each rows (ingest_message_row E p1 t cols) acc1 w1)))
                    (ledger (snd (for_each rows (ingest_message_row E p2 t cols) acc2 w2))))
    (fst (for_each rows (ingest_message_row E p1 t cols) acc1 w1))
    (fst (for_each rows (ingest_message_row E p2 t cols) acc2 w2)).
Proof using commits.
  intros Hn. induction rows as [|row rows IH]; intros acc1 acc2 w1 w2 Hacc Hb Hbelow.
  { cbn. auto. }
  cbn [for_each]. unfold bind.
  pose proof (ingest_message_row_in_step p1 p2 t cols row acc1 acc2 w1 w2 Hn Hacc Hb Hbelow)
    as [Hb' Hres].
  destruct (ingest_message_row E p1 t cols row acc1 w1) as [[a1|e1] w1m];
    destruct (ingest_message_row E p2 t cols row acc2 w2) as [[a2|e2] w2m];
    cbn [fst snd res_follows] in *.
  - destruct Hres as [Hacc' Hbelow']. exact (IH a1 a2 w1m w2m Hacc' Hb' Hbelow').
  - split; [|exact I]. eapply behind_grows_left; [exact Hb'|].
    apply (preserves_for_each grows). intros x acc. apply ingest_message_row_grows.
  - destruct Hres.
  - split; [exact Hb'|exact I].
Qed.

Lemma behind_rollback (w1 w2 w1' w2' : World) :
  behind w1 w2 -> behind w1' w2' ->
  behind (set_ledger (ledger w1) w1') (set_ledger (ledger w2) w2').
Proof using Type.
  intros (Hi & HL & _) (_ & _ & Hp & Hr & Hv).
  exact (conj Hi (conj HL (conj Hp (conj Hr Hv)))).
Qed.

Lemma behind_rollback_right (w2 w1' w2' : World) :
  ledger_below L (ledger w2) -> behind w1' w2' -> behind w1' (set_ledger (ledger w2) w2').
Proof using Type.
  intros HL (Hi & _ & Hp & Hr & Hv).
  exact (conj Hi (conj HL (conj Hp (conj Hr Hv)))).
Qed.

Lemma res_follows_same {A} (r : result A) : res_follows eq r r.
Proof using Type. destruct r; cbn; auto. Qed.

(** [try ... except Exception] around the two, with handlers that only
    return. *)
Lemma follows_try {A1 A2} (Q : A1 -> A2 -> Prop) (P1 : A1 -> Prop)
    (m1 : M A1) (m2 : M A2) (h1 : exn -> A1) (h2 : exn -> A2) :
  follows Q m1 m2 ->
  outcome m1 P1 (fun _ => True) ->
  (forall a1 e2, P1 a1 -> Q a1 (h2 e2)) ->
  (forall e1 e2, Q (h1 e1) (h2 e2)) ->
  follows Q (try_except m1 [Exception] (fun e => ret (h1 e)))
            (try_except m2 [Exception] (fun e => ret (h2 e))).
Proof using Type.
  intros Hm Hout Hok Hraise w1 w2 Hb Hfut. unfold try_except in *.
  specialize (Hm w1 w2 Hb). specialize (Hout w1).
  destruct (m1 w1) as [[a1|e1] w1m]; destruct (m2 w2) as [[a2|e2] w2m];
    cbn [fst snd ret res_follows caught_by existsb subclass_of orb] in *.
  - apply Hm, Hfut.
  - destruct (Hm Hfut) as [Hb' _]. split; [exact Hb'|]. apply Hok, Hout.
  - destruct (Hm Hfut) as [_ []].
  - destruct (Hm Hfut) as [Hb' _]. split; [exact Hb'|]. apply Hraise.
Qed.

Lemma ingest_contact_row_follows (p1 p2 : Path) t cols row n1 n2 :
  follows (fun _ _ => True) (ingest_contact_row E p1 t cols row n1)
                            (ingest_contact_row E p2 t cols row n2).
Proof using commits F_closed.
  unfold ingest_contact_row.
  eapply follows_bind; [total| |intros; frame]. intros _ _ _.
  eapply follows_bind; [apply _register_contact_with_graph_follows| |intros; frame].
  intros _ _ _. apply follows_ret. exact I.
Qed.

Lemma contact_rows_follow (p1 p2 : Path) t cols rows n1 n2 :
  follows (fun _ _ => True) (for_each rows (ingest_contact_row E p1 t cols) n1)
                            (for_each rows (ingest_contact_row E p2 t cols) n2).
Proof using commits F_closed.
  apply follows_for_each with (P := eq); [apply Forall2_same| |intros; frame|exact I].
  intros row ? s1 s2 <- _. apply ingest_contact_row_follows.
Qed.

End Follows.

(** A transaction on the ledger whose body needs no proviso. *)
Lemma follows_with_connection L GP GR GV (F : Ledger -> Prop) {A1 A2}
    (Q : A1 -> A2 -> Prop) (m1 : M A1) (m2 : M A2) :
  follows L GP GR GV (fun _ => True) Q m1 m2 ->
  follows L GP GR GV F Q (with_connection m1) (with_connection m2).
Proof.
  intros Hm w1 w2 Hb _. unfold with_connection. specialize (Hm w1 w2 Hb I).
  destruct (m1 w1) as [[a1|e1] w1']; destruct (m2 w2) as [[a2|e2] w2'];
    cbn [fst snd res_follows] in *; destruct Hm as [Hb' Hres].
  - auto.
  - split; [|exact I]. apply behind_rollback_right; [apply Hb|exact Hb'].
  - destruct Hres.
  - split; [|exact I]. apply behind_rollback; assumption.
Qed.

Lemma closed_below_True : closed_below (fun _ => True).
Proof. intros l l' _ _. exact I. Qed.

Lemma closed_below_committed (L : Ledger) : closed_below (committed L).
Proof. intros l l' H H'. exact (ledger_below_trans _ _ _ H H'). Qed.

Section FollowsArchive.
Context (E : Env) (commits : graph_commits E).
Context (L : Ledger) (GP : gset string) (GR : gset (string * string * string))
  (GV : gset string).

Abbreviation behind := (behind L GP GR GV).
Abbreviation follows := (follows L GP GR GV (committed L)).

(** One table, in the two ingestions.  When the second aborts and rolls
    back while the first commits, what the first has written is in what it
    ends with, which the second started from. *)
Lemma _ingest_messages_from_table_follows (p1 p2 : Path) (table : SqliteTable) :
  path_name p1 = path_name p2 ->
  follows (fun a1 a2 => fewer_records (snd a1) (snd a2))
    (_ingest_messages_from_table E p1 table) (_ingest_messages_from_table E p2 table).
Proof using commits.
  intros Hn w1 w2 Hb Hfut.
  pose proof (_ingest_messages_from_table_grows E p1 table w1) as Hg.
  unfold _ingest_messages_from_table, bind, lift, select_rows in *.
  destruct (tbl_select_error table) as [e|]; [split; [exact Hb|exact I]|].
  destruct (tbl_rows table) as [|row rows]; [split; [exact Hb|apply incl_refl]|].
  assert (Hstart : ledger_below (ledger w1) (ledger w2)).
  { eapply ledger_below_trans; [|apply Hb].
    eapply ledger_below_trans; [apply Hg|exact Hfut]. }
  pose proof (message_rows_in_step E commits L GP GR GV p1 p2 (tbl_name table)
                (tbl_columns table) (row :: rows) Hn (0, []) (0, []) w1 w2
                (incl_refl _) Hb Hstart) as [Hb' Hres].
  unfold with_connection.
  destruct (for_each (row :: rows) _ _ w1) as [[a1|e1] w1'];
    destruct (for_each (row :: rows) _ _ w2) as [[a2|e2] w2'];
    cbn [fst snd res_follows] in *.
  - split; [exact Hb'|apply Hres].
  - split; [|exact I]. apply behind_rollback_right; [apply Hb|exact Hb'].
  - destruct Hres.
  - split; [|exact I]. apply behind_rollback; assumption.
Qed.

Lemma ingest_messages_from_sqlite_follows (p1 p2 : Path) (c : FileContent) :
  path_name p1 = path_name p2 ->
  follows (fun a1 a2 => fewer_records (snd a1) (snd a2))
    (ingest_messages_from_sqlite E p1 c) (ingest_messages_from_sqlite E p2 c).
Proof using commits.
  intros Hn. unfold ingest_messages_from_sqlite.
  eapply follows_bind; [apply closed_below_committed|apply follows_lift, res_follows_same| |].
  2:{ intros tables. frame. }
  intros tables ? <-.
  apply follows_for_each with (P := eq);
    [apply closed_below_committed|apply Forall2_same| | |apply incl_refl].
  2:{ intros table acc. frame. }
  intros table ? [n1 recs1] [n2 recs2] <- Hacc.
  destruct (negb _); [apply follows_ret, Hacc|].
  eapply follows_bind;
    [apply closed_below_committed|apply (_ingest_messages_from_table_follows _ _ _ Hn)| |].
  2:{ intros a. frame. }
  intros [k1 r1] [k2 r2] Hrec. apply follows_ret.
  unfold fewer_records, record_ids in *. cbn [snd] in *. rewrite !map_app.
  apply incl_app; [apply incl_appl, Hacc|apply incl_appr, Hrec].
Qed.

Lemma message_db_step_follows (dir1 dir2 : Path) file1 file2 acc1 acc2 :
  same_member file1 file2 ->
  fewer_records (snd (fst acc1)) (snd (fst acc2)) ->
  follows (fun a1 a2 => fewer_records (snd (fst a1)) (snd (fst a2)))
    (message_db_step E dir1 file1 acc1) (message_db_step E dir2 file2 acc2).
Proof using commits.
  destruct file1 as [p1 c1], file2 as [p2 c2], acc1 as [[n1 recs1] notes1],
    acc2 as [[n2 recs2] notes2].
  intros [Hn Hc] Hacc. cbn [fst snd] in *. subst c2. unfold message_db_step.
  apply follows_try with (P1 := fun a1 => fewer_records (snd (fst a1)) recs2).
  - eapply follows_bind;
      [apply closed_below_committed|apply (ingest_messages_from_sqlite_follows _ _ _ Hn)| |].
    2:{ intros a. frame. }
    intros [k1 r1] [k2 r2] Hrec.
    assert (Hall : fewer_records (recs1 ++ r1) (recs2 ++ r2)).
    { unfold fewer_records, record_ids in *. cbn [snd] in *. rewrite !map_app.
      apply incl_app; [apply incl_appl, Hacc|apply incl_appr, Hrec]. }
    destruct (relative_note p1 dir1); destruct (relative_note p2 dir2);
      apply follows_ret; exact Hall.
  - eapply outcome_bind; [apply outcome_top|]. intros [k1 r1] _.
    assert (Hall : fewer_records (recs1 ++ r1) recs2).
    { unfold fewer_records, record_ids in *. rewrite map_app. apply incl_appl, Hacc. }
    destruct (relative_note p1 dir1); apply outcome_ret; exact Hall.
  - intros a1 e2 H. exact H.
  - intros e1 e2. exact Hacc.
Qed.

Lemma ingest_message_dbs_follows (dir1 dir2 : Path) dbs1 dbs2 notes1 notes2 :
  Forall2 same_member dbs1 dbs2 ->
  follows (fun a1 a2 => fewer_records (snd (fst a1)) (snd (fst a2)))
    (ingest_message_dbs E dir1 dbs1 notes1) (ingest_message_dbs E dir2 dbs2 notes2).
Proof using commits.
  intros Hdbs. unfold ingest_message_dbs.
  apply follows_for_each with (P := same_member);
    [apply closed_below_committed|exact Hdbs| |intros; frame|apply incl_refl].
  intros x1 x2 s1 s2 Hx Hs. apply message_db_step_follows; assumption.
Qed.

Lemma ingest_contacts_from_sqlite_follows (p1 p2 : Path) (c : FileContent) :
  follows (fun _ _ => True) (ingest_contacts_from_sqlite E p1 c)
                            (ingest_contacts_from_sqlite E p2 c).
Proof using commits.
  unfold ingest_contacts_from_sqlite.
  eapply follows_bind; [apply closed_below_committed|apply follows_lift, res_follows_same| |].
  2:{ intros tables. unfold _ingest_contacts_from_table. frame. }
  intros tables ? <-.
  apply follows_for_each with (P := eq);
    [apply closed_below_committed|apply Forall2_same| | |exact I].
  2:{ intros table acc. unfold _ingest_contacts_from_table. frame. }
  intros table ? n1 n2 <- _.
  destruct (negb _); [apply follows_ret; exact I|].
  eapply follows_bind with (Q := fun _ _ => True); [apply closed_below_committed| | |].
  - unfold _ingest_contacts_from_table.
    eapply follows_bind;
      [apply closed_below_committed|apply follows_lift, res_follows_same| |].
    2:{ intros rows. frame. }
    intros rows ? <-.
    destruct rows as [|row rows]; [apply follows_ret; exact I|].
    apply follows_with_connection.
    apply (contact_rows_follow E commits L GP GR GV _ closed_below_True).
  - intros ? ? _. apply follows_ret. exact I.
  - intros a. frame.
Qed.

Lemma ingest_contacts_from_xml_follows (p1 p2 : Path) (c : FileContent) :
  follows (fun _ _ => True) (ingest_contacts_from_xml E p1 c)
                            (ingest_contacts_from_xml E p2 c).
Proof using commits.
  unfold ingest_contacts_from_xml.
  eapply follows_bind; [apply closed_below_committed|apply follows_lift, res_follows_same| |].
  2:{ intros contacts. frame. }
  intros contacts ? <-. apply follows_with_connection.
  apply follows_for_each with (P := eq);
    [apply closed_below_True|apply Forall2_same| | |exact I].
  2:{ intros contact acc. frame. }
  intros contact ? n1 n2 <- _.
  eapply follows_bind with (Q := fun _ _ => True); [apply closed_below_True| | |].
  - apply follows_total; [frame..|apply never_raises_modify].
  - intros ? ? _.
    eapply follows_bind with (Q := fun _ _ => True); [apply closed_below_True| | |].
    + apply (_register_contact_with_graph_follows E commits L GP GR GV _ closed_below_True).
    + intros ? ? _. apply follows_ret. exact I.
    + intros a. frame.
  - intros a. frame.
Qed.

Lemma ingest_system_info_from_plist_follows (p1 p2 : Path) (c : FileContent) :
  follows (fun _ _ => True) (ingest_system_info_from_plist E p1 c)
                            (ingest_system_info_from_plist E p2 c).
Proof using Type.
  unfold ingest_system_info_from_plist.
  eapply follows_bind; [apply closed_below_committed|apply follows_lift, res_follows_same| |].
  2:{ intros tree. frame. }
  intros tree ? <-. apply follows_with_connection.
  apply follows_for_each with (P := eq);
    [apply closed_below_True|apply Forall2_same| | |exact I].
  2:{ intros x acc. frame. }
  intros [key value] ? n1 n2 <- _.
  eapply follows_bind with (Q := fun _ _ => True); [apply closed_below_True| | |].
  - apply follows_total; [frame..|apply never_raises_modify].
  - intros ? ? _. apply follows_ret. exact I.
  - intros a. frame.
Qed.

Lemma ingest_counted_follows (dir1 dir2 : Path) ingest_one1 ingest_one2 what failed
    files1 files2 acc1 acc2 :
  (forall p1 p2 c, follows (fun _ _ => True) (ingest_one1 p1 c) (ingest_one2 p2 c)) ->
  (forall p c, preserves grows (ingest_one1 p c)) ->
  Forall2 same_member files1 files2 ->
  follows (fun _ _ => True)
    (ingest_counted dir1 ingest_one1 what failed files1 acc1)
    (ingest_counted dir2 ingest_one2 what failed files2 acc2).
Proof using Type.
  intros Hone Hgrows Hfiles. unfold ingest_counted.
  apply follows_for_each with (P := same_member);
    [apply closed_below_committed|exact Hfiles| | |exact I].
  2:{ intros x a. apply counted_step_preserves; [typeclasses eauto..|exact Hgrows]. }
  intros [p1 c1] [p2 c2] [n1 notes1] [n2 notes2] [_ Hc] _. cbn [snd] in Hc. subst c2.
  unfold counted_step.
  apply follows_try with (P1 := fun _ => True).
  - eapply follows_bind with (Q := fun _ _ => True); [apply closed_below_committed|apply Hone| |].
    + intros k1 k2 _. destruct (relative_note p1 dir1); destruct (relative_note p2 dir2);
        apply follows_ret; exact I.
    + intros a. frame.
  - apply outcome_top.
  - intros; exact I.
  - intros; exact I.
Qed.

Lemma startswith_append (p s : string) : startswith (p ++ s) p = true.
Proof using Type.
  induction p as [|a p IH]; [destruct s; reflexivity|].
  change (Ascii.eqb a a && startswith (p ++ s) p = true).
  rewrite Ascii.eqb_refl. exact IH.
Qed.

Lemma caption_embedding_id (record : ImageInventoryRecord) (d : ImageDescription) :
  is_caption_id (er_vector_id (caption_embedding record d)) = true.
Proof using Type.
  unfold caption_embedding. cbn [er_vector_id]. apply startswith_append.
Qed.

(** The records of a captioning batch carry caption ids. *)
Lemma describe_and_index_images_ids (records : list ImageInventoryRecord) :
  outcome (describe_and_index_images E records)
    (fun a => Forall (fun k => is_caption_id k = true) (record_ids (snd a)))
    (fun _ => True).
Proof using Type.
  unfold describe_and_index_images. destruct records as [|r0 rest];
    [apply outcome_ret; constructor|].
  eapply outcome_bind with (Q1 := fun _ => True).
  { destruct (vision_client E); [apply outcome_raise; exact I|apply outcome_ret; exact I]. }
  intros _ _. apply outcome_with_connection, outcome_for_each; [|constructor].
  intros record [successes embeddings] Hacc. unfold describe_one.
  eapply outcome_bind; [apply outcome_top|]. intros n _.
  eapply outcome_try_except with (H1 := fun _ => True).
  - unfold caption_image. eapply outcome_bind; [apply outcome_top|]. intros d _.
    eapply outcome_bind; [apply outcome_top|]. intros w0 _.
    eapply outcome_bind; [apply outcome_top|]. intros l _.
    eapply outcome_bind; [apply outcome_top|]. intros _ _.
    apply outcome_ret. unfold record_ids, append in *. cbn [snd] in *.
    rewrite map_app. apply Forall_app. split; [exact Hacc|].
    constructor; [apply caption_embedding_id|constructor].
  - intros e _ _. eapply outcome_bind; [apply outcome_top|]. intros _ _.
    apply outcome_ret, Hacc.
  - intros e _ _. exact I.
Qed.

Lemma caption_step_keeps (images : list ImageInventoryRecord) notes :
  preserves keeps (caption_step E images notes).
Proof using Type.
  pose proof (describe_and_index_images_keeps E). unfold caption_step. frame.
Qed.

Lemma caption_step_never_raises (images : list ImageInventoryRecord) notes :
  never_raises (caption_step E images notes).
Proof using Type.
  unfold caption_step. destruct images; [apply never_raises_ret|].
  apply never_raises_try_except_all. intros e. apply never_raises_ret.
Qed.

Lemma caption_step_ids (images : list ImageInventoryRecord) notes :
  outcome (caption_step E images notes)
    (fun a => Forall (fun k => is_caption_id k = true) (record_ids (snd (fst a))))
    (fun _ => True).
Proof using Type.
  unfold caption_step. destruct images as [|r0 rest]; [apply outcome_ret; constructor|].
  eapply outcome_try_except with (H1 := fun _ => True).
  - eapply outcome_bind; [apply describe_and_index_images_ids|].
    intros [captioned records] H. destruct (negb _); apply outcome_ret, H.
  - intros e _ _. apply outcome_ret. constructor.
  - intros e _ _. exact I.
Qed.

Lemma caption_step_follows images1 images2 notes1 notes2 :
  follows (fun _ a2 => Forall (fun k => is_caption_id k = true) (record_ids (snd (fst a2))))
    (caption_step E images1 notes1) (caption_step E images2 notes2).
Proof using Type.
  apply (follows_keeps L GP GR GV (committed L)
           (fun a2 => Forall (fun k => is_caption_id k = true) (record_ids (snd (fst a2))))).
  - apply caption_step_keeps.
  - apply caption_step_keeps.
  - apply caption_step_never_raises.
  - apply caption_step_ids.
Qed.

Lemma log_image_inventory_follows paths1 paths2 dir1 dir2 :
  follows (fun _ _ => True) (log_image_inventory E paths1 dir1)
                            (log_image_inventory E paths2 dir2).
Proof using Type.
  apply follows_total; [apply log_image_inventory_keeps..|].
  apply log_image_inventory_never_raises.
Qed.

(** *** The embedding step, when its collaborators succeed *)

Lemma dom_chroma_store_exact ids embeddings metadatas documents
    (store : gmap string VectorEntry) :
  length embeddings = length ids -> length metadatas = length ids ->
  length documents = length ids ->
  dom (chroma_store ids embeddings metadatas documents store) = list_to_set ids ∪ dom store.
Proof using Type.
  revert embeddings metadatas documents store.
  induction ids as [|id ids IH]; intros [|e es] [|m ms] [|d ds] store; cbn;
    try discriminate; intros H1 H2 H3.
  - rewrite (left_id_L _ (∪)). reflexivity.
  - injection H1 as H1. injection H2 as H2. injection H3 as H3.
    rewrite (IH es ms ds _ H1 H2 H3), dom_insert_L.
    rewrite (assoc_L (∪)), (comm_L (∪) (list_to_set ids) {[id]}). reflexivity.
Qed.

Context (succeeds : embedding_succeeds E).

Lemma _index_embeddings_run (records : list EmbeddingRecord) (w : World) :
  vector_enabled E = true ->
  exists w', _index_embeddings E records w = (Ok tt, w') /\
             ledger w' = ledger w /\ graph w' = graph w /\
             dom (vectors w') = list_to_set (record_ids records) ∪ dom (vectors w).
Proof using succeeds.
  intros Hen. unfold _index_embeddings.
  destruct records as [|r records].
  { exists w. repeat split. cbn. rewrite (left_id_L _ (∪)). reflexivity. }
  rewrite Hen. cbn [negb]. unfold bind, lift, encode_texts. cbn [map].
  destruct succeeds as [Henc Hups].
  destruct (Henc (er_text r :: map er_text records)) as (vs & -> & Hlen).
  cbn [length] in Hlen. rewrite length_map in Hlen.
  destruct vs as [|v vs]; [discriminate|].
  unfold vector_store_upsert. rewrite Hen, Hups. cbn [negb].
  assert (Hl : (length (v :: vs) =? length (er_vector_id r :: map er_vector_id records))%nat
               = true).
  { apply Nat.eqb_eq. cbn [length]. rewrite length_map. exact Hlen. }
  rewrite Hl. cbn [negb modify]. eexists. split; [reflexivity|]. repeat split.
  cbn [vectors set_vectors]. unfold record_ids.
  apply dom_chroma_store_exact; cbn [length map] in *;
    rewrite ?length_map; [exact Hlen|reflexivity..].
Qed.

Lemma index_step_run (records images : list EmbeddingRecord) notes (w : World) :
  exists notes' w',
    index_step E records images notes w = (Ok notes', w') /\
    ledger w' = ledger w /\ graph w' = graph w /\
    dom (vectors w')
    = (if vector_enabled E then list_to_set (record_ids (records ++ images)) else ∅)
      ∪ dom (vectors w).
Proof using succeeds.
  unfold index_step. destruct (vector_enabled E) eqn:Hen.
  - destruct (records ++ images)%list as [|r combined] eqn:Hc.
    + eexists _, w. split; [reflexivity|]. repeat split.
      cbn. rewrite (left_id_L _ (∪)). reflexivity.
    + destruct (_index_embeddings_run (r :: combined) w Hen) as (w' & Hrun & Hl & Hg & Hv).
      unfold try_except, bind. rewrite Hrun. eexists _, w'. split; [reflexivity|].
      repeat split; assumption.
  - eexists _, w. split; [reflexivity|]. repeat split.
    rewrite (left_id_L _ (∪)). reflexivity.
Qed.

Lemma index_step_grows (records images : list EmbeddingRecord) notes :
  preserves grows (index_step E records images notes).
Proof using Type. unfold index_step. frame. Qed.

Lemma index_step_follows records1 records2 images1 images2 notes1 notes2 :
  fewer_records records1 records2 ->
  Forall (fun k => is_caption_id k = true) (record_ids images2) ->
  follows (fun _ _ => True) (index_step E records1 images1 notes1)
                            (index_step E records2 images2 notes2).
Proof using succeeds.
  intros Hrec Himg w1 w2 (Hi & HL & Hp & Hr & Hv) _.
  destruct (index_step_run records1 images1 notes1 w1) as (n1 & w1' & -> & Hl1 & Hg1 & Hv1).
  destruct (index_step_run records2 images2 notes2 w2) as (n2 & w2' & -> & Hl2 & Hg2 & Hv2).
  cbn [fst snd res_follows]. split; [|exact I].
  unfold behind. rewrite Hl1, Hl2, Hg1, Hg2.
  split; [exact Hi|]. split; [exact HL|]. split; [exact Hp|]. split; [exact Hr|].
  intros k. rewrite Hv1, Hv2, !elem_of_union.
  intros [Hk|Hk]; [|destruct (Hv k Hk) as [H|H]; [left|right; exact H];
                     apply elem_of_union in H as [H|H]; auto].
  destruct (vector_enabled E); [|apply elem_of_empty in Hk; destruct Hk].
  apply elem_of_list_to_set, list_elem_of_In in Hk.
  unfold record_ids in *. rewrite map_app in Hk. apply in_app_or in Hk as [Hk|Hk].
  - left. left. left. apply elem_of_list_to_set, list_elem_of_In.
    rewrite map_app. apply in_or_app. left. apply Hrec, Hk.
  - right. rewrite Forall_forall in Himg. apply Himg, list_elem_of_In, Hk.
Qed.

Lemma follows_raise {A1 A2} (Q : A1 -> A2 -> Prop) (e1 e2 : exn) :
  follows Q (raise e1) (raise e2).
Proof using Type. intros w1 w2 Hb _. split; [exact Hb|exact I]. Qed.

Lemma caption_step_grows (images : list ImageInventoryRecord) notes :
  preserves grows (caption_step E images notes).
Proof using Type.
  apply (preserves_weaken keeps); [exact keeps_grows|apply caption_step_keeps].
Qed.

#[local] Hint Resolve caption_step_grows index_step_grows ingest_counted_grows : frame.

(** The whole ingestion of an upload, twice. *)
Lemma ingest_ufdr_archive_follows (upload : Upload) (u1 u2 : string) :
  (forall members, up_extract upload = Ok members -> Forall relative_member members) ->
  follows (fun _ _ => True) (ingest_ufdr_archive E upload u1)
                            (ingest_ufdr_archive E upload u2).
Proof using commits succeeds.
  intros Hrel. unfold ingest_ufdr_archive.
  destruct (negb (truthy (up_filename upload))); [apply follows_raise|].
  unfold persist_upload.
  destruct (up_write_error upload) as [[[|] text]|]; try apply follows_raise.
  destruct (up_extract upload) as [members|exc];
    [|destruct (caught_by _ _); apply follows_raise].
  destruct (classify_archive_same (path_join (extracted_dir E) u1)
              (path_join (extracted_dir E) u2) members (Hrel members eq_refl))
    as (Hm & Hc & Hx & Hp).
  cbv zeta.
  eapply follows_bind with (Q := fun _ _ => True);
    [apply closed_below_committed|apply follows_total; [frame..|apply never_raises_modify]
    | |intros; frame].
  intros _ _ _.
  eapply follows_bind with (Q := fun _ _ => True);
    [apply closed_below_committed|apply follows_total; [frame..|apply never_raises_modify]
    | |intros; frame].
  intros _ _ _.
  eapply follows_bind;
    [apply closed_below_committed|apply (ingest_message_dbs_follows _ _ _ _ _ _ Hm)
    | |intros; frame].
  intros [[n1 records1] notes1] [[n2 records2] notes2] Hrec. cbn [fst snd] in Hrec.
  eapply follows_bind with (Q := fun _ _ => True);
    [apply closed_below_committed
    |apply ingest_counted_follows;
       [intros; apply ingest_contacts_from_sqlite_follows
       |apply ingest_contacts_from_sqlite_grows|exact Hc]
    | |intros; frame].
  intros [c1 notes1a] [c2 notes2a] _.
  eapply follows_bind with (Q := fun _ _ => True);
    [apply closed_below_committed
    |apply ingest_counted_follows;
       [intros; apply ingest_contacts_from_xml_follows
       |apply ingest_contacts_from_xml_grows|exact Hx]
    | |intros; frame].
  intros [c1b notes1b] [c2b notes2b] _.
  eapply follows_bind with (Q := fun _ _ => True);
    [apply closed_below_committed
    |apply ingest_counted_follows;
       [intros; apply ingest_system_info_from_plist_follows
       |apply ingest_system_info_from_plist_grows|exact Hp]
    | |intros; frame].
  intros [s1 notes1c] [s2 notes2c] _.
  eapply follows_bind with (Q := fun _ _ => True);
    [apply closed_below_committed|apply log_image_inventory_follows| |intros; frame].
  intros [count1 new1] [count2 new2] _.
  eapply follows_bind;
    [apply closed_below_committed|apply caption_step_follows| |intros; frame].
  intros [[k1 images1] notes1d] [[k2 images2] notes2d] Himg. cbn [fst snd] in Himg.
  eapply follows_bind with (Q := fun _ _ => True);
    [apply closed_below_committed|apply (index_step_follows _ _ _ _ _ _ Hrec Himg)
    | |intros; frame].
  intros notes1i notes2i _.
  eapply follows_bind with (Q := fun _ _ => True);
    [apply closed_below_committed
    |apply follows_total; [frame..|apply never_raises_get_world]
    | |intros; frame].
  intros w1 w2 _. apply follows_ret. exact I.
Qed.

End FollowsArchive.

#[local] Hint Resolve caption_step_grows index_step_grows ingest_counted_grows : frame.

Lemma ingest_ufdr_archive_grows (E : Env) (upload : Upload) (unique_id : string) :
  preserves grows (ingest_ufdr_archive E upload unique_id).
Proof.
  unfold ingest_ufdr_archive.
  destruct (negb (truthy (up_filename upload))); [frame|].
  destruct (persist_upload E upload unique_id) as [[archive_path extraction_dir]|exc];
    [|frame].
  destruct (up_extract upload) as [members|exc]; [|frame].
  cbv zeta. frame.
Qed.

(** X26.  An archive is ingested, and then ingested again under another
    extraction id, with a graph store that commits every write and an
    embedder and vector store that accept every batch.  The second ingestion
    leaves the set of person keys (canonical identifiers) and the set of
    relationship keys (sender, receiver and message id) of the graph as the
    first left them, and so the two counts; it keeps every key of the vector
    store and adds keys of image captions only; and no two stored messages
    share a vector id, so that no message with a body is stored twice. *)
Theorem reingest_keeps_graph_and_message_vectors (E : Env) (upload : Upload)
    (u1 u2 : string) (w : World) :
  graph_commits E ->
  embedding_succeeds E ->
  index_ok (ledger w) ->
  (forall members, up_extract upload = Ok members -> Forall relative_member members) ->
  let w1 := once E upload u1 w in
  let w2 := twice E upload u1 u2 w in
  dom (persons (graph w2)) = dom (persons (graph w1)) /\
  size (persons (graph w2)) = size (persons (graph w1)) /\
  dom (relationships (graph w2)) = dom (relationships (graph w1)) /\
  size (relationships (graph w2)) = size (relationships (graph w1)) /\
  dom (vectors w1) ⊆ dom (vectors w2) /\
  (forall k, k ∈ dom (vectors w2) -> k ∈ dom (vectors w1) \/ is_caption_id k = true) /\
  index_ok (ledger w2).
Proof.
  intros Hc Hs Hi Hrel w1 w2.
  assert (Hb : behind (ledger w1) (dom (persons (graph w1)))
                 (dom (relationships (graph w1))) (dom (vectors w1)) w w1).
  { split; [exact Hi|]. split; [apply ledger_below_refl|].
    split; [apply union_subseteq_r|]. split; [apply union_subseteq_r|].
    intros k Hk. left. apply elem_of_union. right. exact Hk. }
  destruct (ingest_ufdr_archive_follows E Hc _ _ _ _ Hs upload u1 u2 Hrel w w1 Hb
              (ledger_below_refl _)) as [(_ & _ & Hp & Hr & Hv) _].
  destruct (ingest_ufdr_archive_grows E upload u2 w1) as (_ & Gp & Gr & Gv & Gi).
  destruct (ingest_ufdr_archive_grows E upload u1 w) as (_ & _ & _ & _ & Gi1).
  fold (once E upload u1 w) in Hp, Hr, Hv. fold w1 in Hp, Hr, Hv.
  fold (once E upload u1 w) in Gi1. fold w1 in Gi1.
  fold (once E upload u2 w1) in Hp, Hr, Hv, Gp, Gr, Gv, Gi.
  change (once E upload u2 w1) with w2 in *.
  rewrite (idemp_L (∪)) in Hp. rewrite (idemp_L (∪)) in Hr.
  assert (Hpe : dom (persons (graph w2)) = dom (persons (graph w1))).
  { apply (anti_symm (⊆)); assumption. }
  assert (Hre : dom (relationships (graph w2)) = dom (relationships (graph w1))).
  { apply (anti_symm (⊆)); assumption. }
  split; [exact Hpe|]. split; [rewrite <- !size_dom, Hpe; reflexivity|].
  split; [exact Hre|]. split; [rewrite <- !size_dom, Hre; reflexivity|].
  split; [exact Gv|]. split; [|exact (Gi (Gi1 Hi))].
  intros k Hk. destruct (Hv k Hk) as [H|H]; [left|right; exact H].
  apply elem_of_union in H as [H|H]; exact H.
Qed.

Lemma sample_env_commits : graph_commits sample_env.
Proof. intros n. reflexivity. Qed.

Lemma sample_env_embeds : embedding_succeeds sample_env.
Proof.
  split; [|intros ids; reflexivity].
  intros texts. eexists. split; [reflexivity|]. apply length_map.
Qed.

Lemma sample_archive_relative members :
  up_extract sample_archive = Ok members -> Forall relative_member members.
Proof. intros [= <-]. repeat constructor; discriminate. Qed.

Lemma reingest_witness :
  let w1 := once sample_env sample_archive "u1" empty_world in
  let w2 := twice sample_env sample_archive "u1" "u2" empty_world in
  dom (persons (graph w2)) = dom (persons (graph w1)) /\
  size (persons (graph w2)) = size (persons (graph w1)) /\
  dom (relationships (graph w2)) = dom (relationships (graph w1)) /\
  size (relationships (graph w2)) = size (relationships (graph w1)) /\
  dom (vectors w1) ⊆ dom (vectors w2) /\
  (forall k, k ∈ dom (vectors w2) -> k ∈ dom (vectors w1) \/ is_caption_id k = true) /\
  index_ok (ledger w2).
Proof.
  apply (reingest_keeps_graph_and_message_vectors sample_env sample_archive "u1" "u2"
           empty_world sample_env_commits sample_env_embeds eq_refl
           sample_archive_relative).
Defined.

(** C1.  The code fails the claim.  The second ingestion of the sample
    archive finds its picture under the new extraction directory, a path the
    ledger has not seen, so the branch of [log_image_inventory] that merges a
    rediscovered image is not taken: a second image row is stored and
    captioned, and its caption is a new vector entry.  Image rows go from 1
    to 2 and vector entries from 2 to 3, where the claim asks for identical
    counts; the rows of [system_info] are stored again as well.  Persons,
    relationships and messages are as the first ingestion left them. *)
Lemma reingest_adds_image_rows :
  let w1 := once sample_env sample_archive "u1" empty_world in
  let w2 := twice sample_env sample_archive "u1" "u2" empty_world in
  (length (images (ledger w1)) = 1 /\ length (images (ledger w2)) = 2)%nat /\
  map i_file_path (images (ledger w2))
  = ["/storage/extracted/u1/media/cat.jpg"; "/storage/extracted/u2/media/cat.jpg"] /\
  (size (vectors w1) = 2 /\ size (vectors w2) = 3)%nat /\
  (length (system_info (ledger w1)) = 2 /\ length (system_info (ledger w2)) = 4)%nat /\
  (size (persons (graph w1)) = 2 /\ size (persons (graph w2)) = 2)%nat /\
  (size (relationships (graph w1)) = 1 /\ size (relationships (graph w2)) = 1)%nat /\
  (length (messages (ledger w1)) = 1 /\ length (messages (ledger w2)) = 1)%nat.
Proof. repeat split; vm_compute; reflexivity. Qed.

(** * Further properties of the code *)

(** ** Source discovery and table detection *)

Lemma any_in_covered (fields l1 l2 : list string) :
  (forall c, In c l1 -> In c l2) -> any_in fields l1 = true -> any_in fields l2 = true.
Proof.
  intros Hsub. unfold any_in. rewrite !existsb_exists.
  intros (f & Hf & Hx). exists f. split; [exact Hf|].
  apply existsb_exists in Hx as (c & Hc & Heq). apply existsb_exists.
  exists c. split; [apply Hsub, Hc|exact Heq].
Qed.

(** X1.  Table detection looks at the lower-cased column names only: a table
    that has, up to case, every column of a table detected as a message
    table (as a contact table) is detected as one too, whatever the order of
    its columns and whatever further columns it has. *)
Theorem table_detection_ignores_case_and_extra_columns (cols1 cols2 : list string) :
  (forall c, In c cols1 -> exists c', In c' cols2 /\ lower c' = lower c) ->
  (_looks_like_message_table cols1 = true -> _looks_like_message_table cols2 = true) /\
  (_looks_like_contact_table cols1 = true -> _looks_like_contact_table cols2 = true).
Proof.
  intros Hcov.
  assert (Hsub : forall c, In c (map lower cols1) -> In c (map lower cols2)).
  { intros c Hc. apply in_map_iff in Hc as (c1 & <- & Hc1).
    destruct (Hcov c1 Hc1) as (c2 & Hc2 & <-). apply in_map, Hc2. }
  unfold _looks_like_message_table, _looks_like_contact_table. split; intros H.
  - apply andb_true_iff in H as [H1 H2].
    rewrite (any_in_covered _ _ _ Hsub H1), (any_in_covered _ _ _ Hsub H2). reflexivity.
  - apply andb_true_iff in H as [H1 H2]. apply orb_true_iff in H1.
    rewrite (any_in_covered _ _ _ Hsub H2), andb_true_r. apply orb_true_iff.
    destruct H1 as [H1|H1]; [left|right]; exact (any_in_covered _ _ _ Hsub H1).
Qed.

Lemma table_detection_witness :
  _looks_like_message_table ["ROWID"; "Date"; "Is_From_Me"; "TEXT"] = true /\
  _looks_like_contact_table ["ROWID"; "Date"; "Is_From_Me"; "TEXT"] = false.
Proof.
  split; [|reflexivity].
  apply (table_detection_ignores_case_and_extra_columns ["text"; "date"]).
  - intros c [<-|[<-|[]]]; [exists "TEXT"|exists "Date"]; simpl; auto 10.
  - reflexivity.
Defined.

Lemma classify_file_paths (x : Path * FileContent) (s : UFDRSources) :
  classified_paths (classify_file x s) ≡ₚ classified_paths s \/
  classified_paths (classify_file x s) ≡ₚ fst x :: classified_paths s.
Proof.
  unfold classify_file.
  repeat match goal with |- context [if ?b then _ else _] => destruct b end;
    try (left; reflexivity); right; unfold classified_paths; cbn;
    rewrite ?map_app; cbn [map]; rewrite <- ?app_assoc; cbn [app];
    rewrite !app_assoc, <- Permutation_middle, <- ?app_assoc, ?app_nil_r; reflexivity.
Qed.

Lemma discover_sources_paths (tree : list (Path * FileContent)) (s : UFDRSources) :
  exists kept, sublist kept (map fst tree) /\
    classified_paths (fold_left (fun sources x => classify_file x sources) tree s)
    ≡ₚ (classified_paths s ++ kept)%list.
Proof.
  revert s. induction tree as [|x tree IH]; intros s; cbn [fold_left map].
  - exists []. split; [constructor|]. rewrite app_nil_r. reflexivity.
  - destruct (IH (classify_file x s)) as (kept & Hsub & Hperm).
    destruct (classify_file_paths x s) as [H|H].
    + exists kept. split; [apply sublist_cons, Hsub|]. rewrite Hperm, H. reflexivity.
    + exists (fst x :: kept). split; [apply sublist_skip, Hsub|].
      rewrite Hperm, H. cbn [app]. apply Permutation_middle.
Qed.

(** X2.  [discover_sources] hands every file of the extracted tree to at
    most one parser, and at most once: the five classified lists together
    hold only files of the tree and, the walk yielding each file once, no
    file twice.  In particular a database whose name carries a message
    keyword and the word [contact] is ingested as a message database only. *)
Theorem discover_sources_hands_each_file_to_one_parser
    (tree : list (Path * FileContent)) (report_path : option Path) :
  NoDup (map fst tree) ->
  NoDup (classified_paths (discover_sources tree report_path)) /\
  (forall p, In p (classified_paths (discover_sources tree report_path)) ->
             In p (map fst tree)).
Proof.
  intros Hnd. unfold discover_sources.
  destruct (discover_sources_paths tree
              {| report := report_path; message_dbs := []; contact_dbs := [];
                 contact_xml_files := []; system_plists := []; image_files := [] |})
    as (kept & Hsub & Hperm).
  cbn [classified_paths message_dbs contact_dbs contact_xml_files system_plists image_files
       map app] in Hperm.
  split.
  - rewrite Hperm. eapply sublist_NoDup; eassumption.
  - intros p Hp. apply list_elem_of_In. eapply sublist_subseteq; [exact Hsub|].
    rewrite <- Hperm. apply list_elem_of_In, Hp.
Qed.

Lemma discover_sources_witness :
  let tree := [(mk_path true ["x"; "contacts_sms.db"], FOther);
               (mk_path true ["x"; "contacts.db"], FOther);
               (mk_path true ["x"; "cat.JPG"], FOther)] in
  map fst (message_dbs (discover_sources tree None)) = [mk_path true ["x"; "contacts_sms.db"]] /\
  map fst (contact_dbs (discover_sources tree None)) = [mk_path true ["x"; "contacts.db"]] /\
  NoDup (classified_paths (discover_sources tree None)).
Proof.
  split; [reflexivity|]. split; [reflexivity|].
  apply (discover_sources_hands_each_file_to_one_parser _ None).
  cbn. repeat constructor; rewrite ?list_elem_of_In; cbn; intuition discriminate.
Defined.

(** ** What the per-file parsers write *)

Lemma system_info_loop (p : Path) (leaves : list (string * string)) (count : Z) (w : World) :
  for_each leaves
    (fun '(key, value) count =>
       let* _ := modify (fun w =>
         set_ledger
           (insert_system_info
              {| s_info_key := key; s_info_value := value;
                 s_category := path_stem p; s_source := path_str p |} (ledger w)) w) in
       ret (count + 1)) count w
  = (Ok (count + Z.of_nat (length leaves)),
     set_ledger
       {| messages := messages (ledger w); contacts := contacts (ledger w);
          system_info := system_info (ledger w) ++ map (system_info_row p) leaves;
          images := images (ledger w); images_seq := images_seq (ledger w) |} w).
Proof.
  revert count w. induction leaves as [|[key value] leaves IH]; intros count w.
  - cbn. rewrite Z.add_0_r, app_nil_r. destruct w as [[] ? ? ? ? ?]. reflexivity.
  - cbn [for_each]. unfold bind at 1. unfold bind at 1. unfold modify at 1. unfold ret at 1.
    rewrite IH. f_equal; [f_equal; cbn [length]; lia|].
    unfold set_ledger, insert_system_info. cbn. rewrite <- app_assoc. reflexivity.
Qed.

(** X3.  A property list that loads is stored leaf by leaf: the count
    returned is the number of flattened leaves, and exactly one
    [system_info] row per leaf is appended, in order, with the file stem as
    category and the file path as source; nothing else changes, and nothing
    is looked up first, so a second ingestion appends the same rows again. *)
Theorem plist_rows_match_count (E : Env) (plist_path : Path) (tree : plist) (w : World) :
  let leaves := _flatten "" tree in
  let out := ingest_system_info_from_plist E plist_path (FPlist tree) w in
  fst out = Ok (Z.of_nat (length leaves)) /\
  system_info (ledger (snd out))
  = (system_info (ledger w) ++ map (system_info_row plist_path) leaves)%list /\
  messages (ledger (snd out)) = messages (ledger w) /\
  contacts (ledger (snd out)) = contacts (ledger w) /\
  images (ledger (snd out)) = images (ledger w) /\
  only_ledger w (snd out).
Proof.
  cbv zeta.
  assert (Hrun : ingest_system_info_from_plist E plist_path (FPlist tree) w
                 = (Ok (Z.of_nat (length (_flatten "" tree))),
                    set_ledger
                      {| messages := messages (ledger w); contacts := contacts (ledger w);
                         system_info := system_info (ledger w)
                                        ++ map (system_info_row plist_path) (_flatten "" tree);
                         images := images (ledger w);
                         images_seq := images_seq (ledger w) |} w)).
  { unfold ingest_system_info_from_plist, load_plist, lift.
    unfold bind at 1. unfold with_connection. rewrite system_info_loop. reflexivity. }
  rewrite Hrun. cbn. repeat split.
Qed.

Lemma contacts_added_none (w : World) : contacts_added 0 w w.
Proof. exists []. rewrite app_nil_r. repeat split. Qed.

Lemma contacts_added_trans (j k : nat) (w1 w2 w3 : World) :
  contacts_added j w1 w2 -> contacts_added k w2 w3 -> contacts_added (j + k) w1 w3.
Proof.
  intros (a1 & H1 & Hc1 & Hm1 & Hs1 & Hi1 & Hv1) (a2 & H2 & Hc2 & Hm2 & Hs2 & Hi2 & Hv2).
  exists (a1 ++ a2)%list. rewrite length_app, Hc2, Hc1, <- app_assoc.
  repeat split; congruence.
Qed.

Lemma ingest_contact_row_run (E : Env) (p : Path) (t : string) (cols : list string)
    (row : list sqlval) (n : Z) (w : World) :
  exists w', ingest_contact_row E p t cols row n w = (Ok (n + 1), w') /\ contacts_added 1 w w'.
Proof.
  unfold ingest_contact_row. cbv beta iota zeta delta [bind modify ret].
  match goal with |- context [_register_contact_with_graph ?E ?a ?b ?c ?d ?e ?f ?w] =>
    pose proof (_register_contact_with_graph_never_raises E a b c d e f w) as Hnr;
    pose proof (_register_contact_with_graph_same_ledger E a b c d e f w) as [Hl Hv];
    destruct (_register_contact_with_graph E a b c d e f w) as [[[]|e0] w1]
  end; cbn in Hnr, Hl, Hv; [|discriminate].
  eexists. split; [reflexivity|]. eexists [_]. rewrite Hl, Hv. cbn. repeat split.
Qed.

Lemma contact_rows_run (E : Env) (p : Path) (t : string) (cols : list string)
    (rows : list (list sqlval)) (n : Z) (w : World) :
  exists w', for_each rows (ingest_contact_row E p t cols) n w
             = (Ok (n + Z.of_nat (length rows)), w') /\
             contacts_added (length rows) w w'.
Proof.
  revert n w. induction rows as [|row rows IH]; intros n w.
  - exists w. cbn. rewrite Z.add_0_r. split; [reflexivity|apply contacts_added_none].
  - destruct (ingest_contact_row_run E p t cols row n w) as (w1 & Hrow & H1).
    destruct (IH (n + 1) w1) as (w2 & Hrows & H2).
    exists w2. cbn [for_each]. unfold bind. rewrite Hrow, Hrows. split.
    + do 2 f_equal. cbn [length]. lia.
    + exact (contacts_added_trans 1 _ _ _ _ H1 H2).
Qed.

Lemma _ingest_contacts_from_table_run (E : Env) (p : Path) (table : SqliteTable) (w : World) :
  match tbl_select_error table with
  | Some e => _ingest_contacts_from_table E p table w = (Raise e, w)
  | None =>
      exists w', _ingest_contacts_from_table E p table w
                 = (Ok (Z.of_nat (length (tbl_rows table))), w') /\
                 contacts_added (length (tbl_rows table)) w w'
  end.
Proof.
  unfold _ingest_contacts_from_table, bind, lift, select_rows.
  destruct (tbl_select_error table) as [e|]; [reflexivity|].
  destruct (tbl_rows table) as [|row rows] eqn:Hrows.
  - exists w. split; [reflexivity|apply contacts_added_none].
  - destruct (contact_rows_run E p (tbl_name table) (tbl_columns table) (row :: rows) 0 w)
      as (w' & Hrun & Hadd).
    exists w'. unfold with_connection. rewrite Hrun. split; [reflexivity|exact Hadd].
Qed.

Lemma contact_tables_run (E : Env) (p : Path) (tables : list SqliteTable) (n : Z) (w : World) :
  let found := List.filter (fun t => _looks_like_contact_table (tbl_columns t)) tables in
  let k := length (flat_map tbl_rows (readable_prefix found)) in
  exists w',
    for_each tables
      (fun table total_ingested =>
         if negb (_looks_like_contact_table (tbl_columns table)) then ret total_ingested
         else
           let* processed := _ingest_contacts_from_table E p table in
           ret (total_ingested + processed)) n w
    = (match first_select_error found with
       | Some e => Raise e
       | None => Ok (n + Z.of_nat k)
       end, w') /\ contacts_added k w w'.
Proof.
  cbv zeta. revert n w. induction tables as [|table tables IH]; intros n w.
  - exists w. cbn. rewrite Z.add_0_r. split; [reflexivity|apply contacts_added_none].
  - cbn [for_each List.filter]. unfold bind at 1.
    destruct (_looks_like_contact_table (tbl_columns table)); cbn [negb].
    + pose proof (_ingest_contacts_from_table_run E p table w) as Htable.
      unfold first_select_error. cbn [readable_prefix map somes].
      destruct (tbl_select_error table) as [e|].
      * exists w. unfold bind at 1. rewrite Htable. cbn.
        split; [reflexivity|apply contacts_added_none].
      * destruct Htable as (w1 & Hrun & H1).
        unfold bind at 1. rewrite Hrun. unfold ret at 1.
        destruct (IH (n + Z.of_nat (length (tbl_rows table))) w1) as (w2 & Hrest & H2).
        exists w2. rewrite Hrest. cbn [flat_map]. rewrite length_app. split.
        -- unfold first_select_error. destruct (head _); [reflexivity|].
           do 2 f_equal. lia.
        -- exact (contacts_added_trans _ _ _ _ _ H1 H2).
    + unfold ret at 1. apply IH.
Qed.




Lemma messages_added_none (w : World) : messages_added 0 w w.
Proof. exists []. rewrite app_nil_r. repeat split. Qed.

Lemma messages_added_trans (j k : nat) (w1 w2 w3 : World) :
  messages_added j w1 w2 -> messages_added k w2 w3 -> messages_added (j + k) w1 w3.
Proof.
  intros (a1 & H1 & Hc1 & Hm1 & Hs1 & Hi1 & Hv1) (a2 & H2 & Hc2 & Hm2 & Hs2 & Hi2 & Hv2).
  exists (a1 ++ a2)%list. rewrite length_app, Hc2, Hc1, <- app_assoc.
  repeat split; congruence.
Qed.

Lemma messages_added_rollback (k : nat) (w w' : World) :
  messages_added k w w' -> messages_added 0 w (set_ledger (ledger w) w').
Proof.
  intros (a & _ & _ & _ & _ & _ & Hv). exists []. cbn. rewrite app_nil_r. repeat split.
  exact Hv.
Qed.

(** One source row: nothing is written when the row raises; otherwise at
    most the row itself is appended, and it is counted exactly then. *)
Lemma ingest_message_row_adds (E : Env) (p : Path) (t : string) (cols : list string)
    (row : list sqlval) (n : Z) (recs : list EmbeddingRecord) (w : World) :
  match ingest_message_row E p t cols row (n, recs) w with
  | (Ok (n', _), w') =>
      exists k, (k <= 1)%nat /\ n' = n + Z.of_nat k /\ messages_added k w w'
  | (Raise _, w') => w' = w
  end.
Proof.
  pose proof (ingest_message_row_run E p t cols row (n, recs) w) as Hrun.
  destruct (build_message_row E p t cols row) as [message|e]; [|rewrite Hrun; reflexivity].
  pose proof (store_message_cases message (ledger w)) as Hcases.
  destruct (store_message message (ledger w)) as [[inserted l]|e];
    [|rewrite Hrun; reflexivity].
  destruct Hrun as (recs' & -> & _). cbn [fst snd].
  match goal with |- context [_register_message_with_graph ?E ?a ?b ?c ?d ?e ?f ?g ?w] =>
    pose proof (_register_message_with_graph_same_ledger E a b c d e f g w) as [Hl Hv]
  end. cbn [ledger vectors set_ledger] in Hl, Hv.
  destruct Hcases as [(-> & -> & _)|(-> & -> & _)].
  - exists 1%nat. split; [lia|]. split; [reflexivity|]. exists [message].
    rewrite Hl, Hv. cbn. repeat split.
  - exists 0%nat. split; [lia|]. split; [lia|]. exists [].
    rewrite Hl, Hv, app_nil_r. repeat split.
Qed.

Lemma message_rows_add (E : Env) (p : Path) (t : string) (cols : list string)
    (rows : list (list sqlval)) (n : Z) (recs : list EmbeddingRecord) (w : World) :
  match for_each rows (ingest_message_row E p t cols) (n, recs) w with
  | (Ok (n', _), w') =>
      exists k, (k <= length rows)%nat /\ n' = n + Z.of_nat k /\ messages_added k w w'
  | (Raise _, w') => exists k, messages_added k w w'
  end.
Proof.
  revert n recs w. induction rows as [|row rows IH]; intros n recs w.
  - cbn. exists 0%nat. split; [lia|]. split; [lia|apply messages_added_none].
  - cbn [for_each]. unfold bind.
    pose proof (ingest_message_row_adds E p t cols row n recs w) as Hrow.
    destruct (ingest_message_row E p t cols row (n, recs) w) as [[[n1 recs1]|e] w1].
    + destruct Hrow as (k1 & Hk1 & -> & H1).
      specialize (IH (n + Z.of_nat k1) recs1 w1).
      destruct (for_each rows _ _ w1) as [[[n2 recs2]|e] w2].
      * destruct IH as (k2 & Hk2 & -> & H2). exists (k1 + k2)%nat.
        split; [cbn [length]; lia|]. split; [lia|].
        exact (messages_added_trans _ _ _ _ _ H1 H2).
      * destruct IH as (k2 & H2). exists (k1 + k2)%nat.
        exact (messages_added_trans _ _ _ _ _ H1 H2).
    + subst w1. exists 0%nat. apply messages_added_none.
Qed.

Lemma _ingest_messages_from_table_adds (E : Env) (p : Path) (table : SqliteTable) (w : World) :
  match _ingest_messages_from_table E p table w with
  | (Ok (n, _), w') =>
      exists k, (k <= length (tbl_rows table))%nat /\ n = Z.of_nat k /\ messages_added k w w'
  | (Raise _, w') => ledger w' = ledger w /\ vectors w' = vectors w
  end.
Proof.
  unfold _ingest_messages_from_table, bind, lift, select_rows.
  destruct (tbl_select_error table) as [e|]; [split; reflexivity|].
  destruct (tbl_rows table) as [|row rows].
  - exists 0%nat. split; [cbn; lia|]. split; [reflexivity|apply messages_added_none].
  - unfold with_connection.
    pose proof (message_rows_add E p (tbl_name table) (tbl_columns table) (row :: rows) 0 [] w)
      as Hrows.
    destruct (for_each (row :: rows) _ _ w) as [[[n recs]|e] w1].
    + destruct Hrows as (k & Hk & -> & Hadd). exists k. repeat split; [exact Hk|exact Hadd].
    + destruct Hrows as (k & a & _ & _ & _ & _ & _ & Hv). split; [reflexivity|exact Hv].
Qed.

Lemma message_tables_add (E : Env) (p : Path) (tables : list SqliteTable) (n : Z)
    (recs : list EmbeddingRecord) (w : World) :
  match for_each tables
          (fun table '(total_ingested, embedding_records) =>
             if negb (_looks_like_message_table (tbl_columns table))
             then ret (total_ingested, embedding_records)
             else
               let* (processed, records) := _ingest_messages_from_table E p table in
               ret (total_ingested + processed, (embedding_records ++ records)%list))
          (n, recs) w with
  | (Ok (n', _), w') =>
      exists k, (k <= length (flat_map tbl_rows tables))%nat /\ n' = n + Z.of_nat k /\
                messages_added k w w'
  | (Raise _, w') => exists k, messages_added k w w'
  end.
Proof.
  revert n recs w. induction tables as [|table tables IH]; intros n recs w.
  - cbn. exists 0%nat. split; [lia|]. split; [lia|apply messages_added_none].
  - cbn [for_each flat_map]. rewrite length_app. unfold bind at 1.
    destruct (negb (_looks_like_message_table (tbl_columns table))).
    + unfold ret at 1. specialize (IH n recs w).
      destruct (for_each tables _ _ w) as [[[n2 recs2]|e] w2]; [|exact IH].
      destruct IH as (k & Hk & -> & Hadd). exists k. split; [lia|]. split; [reflexivity|exact Hadd].
    + unfold bind at 1.
      pose proof (_ingest_messages_from_table_adds E p table w) as Htable.
      destruct (_ingest_messages_from_table E p table w) as [[[n1 recs1]|e] w1].
      * destruct Htable as (k1 & Hk1 & -> & H1). unfold ret at 1.
        specialize (IH (n + Z.of_nat k1) (recs ++ recs1)%list w1).
        destruct (for_each tables _ _ w1) as [[[n2 recs2]|e] w2].
        -- destruct IH as (k2 & Hk2 & -> & H2). exists (k1 + k2)%nat.
           split; [lia|]. split; [lia|exact (messages_added_trans _ _ _ _ _ H1 H2)].
        -- destruct IH as (k2 & H2). exists (k1 + k2)%nat.
           exact (messages_added_trans _ _ _ _ _ H1 H2).
      * destruct Htable as [Hl Hv]. exists 0%nat. exists []. rewrite Hl, Hv, app_nil_r.
        repeat split.
Qed.

(** X5.  The count a message database returns is the number of rows it
    added to [messages], not the number of rows it read: a row the unique
    index ignores is not counted.  Rows are only appended, never changed or
    removed.  When a table fails its rows are rolled back, and the rows of
    the tables before it stay in the ledger although the file then reports
    no count at all. *)
Theorem message_count_is_rows_added (E : Env) (db_path : Path) (w : World) :
  (forall table,
     match _ingest_messages_from_table E db_path table w with
     | (Ok (n, _), w') =>
         exists k, (k <= length (tbl_rows table))%nat /\ n = Z.of_nat k /\
                   messages_added k w w'
     | (Raise _, w') => ledger w' = ledger w
     end) /\
  (forall content,
     match ingest_messages_from_sqlite E db_path content w with
     | (Ok (n, _), w') => exists k, n = Z.of_nat k /\ messages_added k w w'
     | (Raise _, w') => exists k, messages_added k w w'
     end).
Proof.
  split.
  - intros table. pose proof (_ingest_messages_from_table_adds E db_path table w) as H.
    destruct (_ingest_messages_from_table E db_path table w) as [[[n recs]|e] w'];
      [exact H|apply H].
  - intros content. unfold ingest_messages_from_sqlite, lift. unfold bind at 1.
    destruct (_iter_user_tables content) as [tables|e].
    + pose proof (message_tables_add E db_path tables 0 [] w) as H.
      destruct (for_each tables _ _ w) as [[[n recs]|e] w']; [|exact H].
      destruct H as (k & _ & -> & Hadd). exists k. split; [reflexivity|exact Hadd].
    + exists 0%nat. apply messages_added_none.
Qed.

(** ** Invariants of a whole ingestion

    A relation on worlds that does not look at the ledger, the alias map or
    the clock, and that the two graph registration helpers and the embedding
    indexer preserve, is preserved by every step of the orchestrator after
    its reset. *)

Section StoreInvariant.
Context (E : Env) (R : World -> World -> Prop) `{!Reflexive R} `{!Transitive R}.
Hypothesis blind : forall w w', stores_same w w' -> R w w'.
Hypothesis contact_ok : forall dn gn fn ph em src,
  preserves R (_register_contact_with_graph E dn gn fn ph em src).
Hypothesis message_ok : forall mid s r ts body conv src,
  preserves R (_register_message_with_graph E mid s r ts body conv src).
Hypothesis indexer_ok : forall records, preserves R (_index_embeddings E records).

Lemma store_rollback (w w' : World) : R w w' -> R w (set_ledger (ledger w) w').
Proof. intros H. etransitivity; [exact H|]. apply blind. repeat split. Qed.

Ltac store_step :=
  lazymatch goal with
  | |- preserves _ (ret _) => apply preserves_ret; typeclasses eauto
  | |- preserves _ (raise _) => apply preserves_raise; typeclasses eauto
  | |- preserves _ (lift _) => apply preserves_lift; typeclasses eauto
  | |- preserves _ get_world => apply preserves_get_world; typeclasses eauto
  | |- preserves _ (bind _ _) =>
      apply preserves_bind; [typeclasses eauto..| |intros ?; split_pairs]
  | |- preserves _ (for_each _ _ _) =>
      apply preserves_for_each; [typeclasses eauto..|intros ? ?; split_pairs]
  | |- preserves _ (try_except _ _ _) =>
      apply preserves_try_except; [typeclasses eauto..| |intros ?]
  | |- preserves _ (with_connection _) =>
      apply preserves_with_connection; [exact store_rollback|]
  | |- preserves _ (if ?b then _ else _) => destruct b
  | |- preserves _ (match ?x with _ => _ end) => destruct x
  | |- preserves _ (modify _) =>
      solve [apply preserves_modify; intros ?; apply blind; keeps_world]
  | |- preserves _ _ => solve [auto]
  end.

Ltac store_frame := split_pairs; repeat store_step.

Lemma ingest_message_row_store p t cols row acc :
  preserves R (ingest_message_row E p t cols row acc).
Proof.
  intros w. pose proof (ingest_message_row_run E p t cols row acc w) as H.
  destruct (build_message_row E p t cols row) as [message|e]; [|rewrite H; reflexivity].
  destruct (store_message message (ledger w)) as [[inserted l]|e];
    [|rewrite H; reflexivity].
  destruct H as (recs & -> & _). cbn [snd].
  etransitivity; [|apply message_ok]. apply blind. repeat split.
Qed.

Lemma ingest_messages_from_sqlite_store p c :
  preserves R (ingest_messages_from_sqlite E p c).
Proof.
  pose proof ingest_message_row_store.
  unfold ingest_messages_from_sqlite, _ingest_messages_from_table. store_frame.
Qed.

Lemma ingest_contacts_from_sqlite_store p c :
  preserves R (ingest_contacts_from_sqlite E p c).
Proof.
  unfold ingest_contacts_from_sqlite, _ingest_contacts_from_table, ingest_contact_row.
  store_frame.
Qed.

Lemma ingest_contacts_from_xml_store p c :
  preserves R (ingest_contacts_from_xml E p c).
Proof. unfold ingest_contacts_from_xml. store_frame. Qed.

Lemma ingest_system_info_from_plist_store p c :
  preserves R (ingest_system_info_from_plist E p c).
Proof. unfold ingest_system_info_from_plist. store_frame. Qed.

Lemma log_image_store (dir p : Path) acc : preserves R (log_image E dir p acc).
Proof.
  destruct acc as [[records seen] processed]. unfold log_image.
  destruct (bool_decide _); [store_frame|].
  intros w. cbv beta iota zeta delta [bind get_world put_ledger modify ret].
  unfold insert_or_ignore_image. apply blind.
  destruct (existsb _ (images (ledger w))); [|repeat split].
  destruct (select_image_by_path _ _) as [[[image_id status] cell]|]; [|repeat split].
  destruct (negb _); repeat split.
Qed.

Lemma log_image_inventory_store (paths : list Path) (dir : Path) :
  preserves R (log_image_inventory E paths dir).
Proof. pose proof log_image_store. unfold log_image_inventory. store_frame. Qed.

Lemma describe_one_store (record : ImageInventoryRecord) acc :
  preserves R (describe_one E record acc).
Proof.
  destruct acc as [successes embeddings]. unfold describe_one.
  apply preserves_bind; [typeclasses eauto..| |intros n].
  { intros w. apply blind. repeat split. }
  apply preserves_try_except; [typeclasses eauto..| |intros e; store_frame].
  unfold caption_image. apply preserves_bind; [typeclasses eauto..|store_frame|intros d].
  intros w. cbv beta iota zeta delta [bind get_world put_ledger modify ret lift].
  apply blind. unfold update_image_caption. destruct (distinct _); repeat split.
Qed.

Lemma caption_step_store (records : list ImageInventoryRecord) (notes : list string) :
  preserves R (caption_step E records notes).
Proof.
  pose proof describe_one_store.
  unfold caption_step, describe_and_index_images. store_frame.
Qed.

Lemma index_step_store (m i : list EmbeddingRecord) (notes : list string) :
  preserves R (index_step E m i notes).
Proof. unfold index_step. store_frame. Qed.

Lemma ingest_message_dbs_store dir dbs notes :
  preserves R (ingest_message_dbs E dir dbs notes).
Proof.
  pose proof ingest_messages_from_sqlite_store.
  unfold ingest_message_dbs, message_db_step. store_frame.
Qed.

Lemma ingest_counted_store dir ingest_one what failed files acc :
  (forall p c, preserves R (ingest_one p c)) ->
  preserves R (ingest_counted dir ingest_one what failed files acc).
Proof. intros H. unfold ingest_counted, counted_step. store_frame. Qed.

(** The orchestrator either fails on the archive itself, before any write,
    or runs the sources from the reset world. *)
Lemma ingest_ufdr_archive_from_reset (upload : Upload) (unique_id : string) (w : World) :
  (exists e, ingest_ufdr_archive E upload unique_id w = (Raise e, w)) \/
  R (reset_run w) (snd (ingest_ufdr_archive E upload unique_id w)).
Proof.
  unfold ingest_ufdr_archive.
  destruct (negb (truthy (up_filename upload))); [left; eexists; reflexivity|].
  destruct (persist_upload E upload unique_id) as [[archive_path extraction_dir]|exc].
  2: { left. repeat match goal with |- context [if ?b then _ else _] => destruct b end;
         eexists; reflexivity. }
  destruct (up_extract upload) as [members|exc].
  2: { left. destruct (caught_by _ _); eexists; reflexivity. }
  right. cbv zeta. unfold bind at 1. unfold modify at 1. unfold bind at 1. unfold modify at 1.
  fold (reset_run w).
  pose proof ingest_message_dbs_store. pose proof ingest_counted_store.
  pose proof ingest_contacts_from_sqlite_store. pose proof ingest_contacts_from_xml_store.
  pose proof ingest_system_info_from_plist_store. pose proof log_image_inventory_store.
  pose proof caption_step_store. pose proof index_step_store.
  lazymatch goal with
  | |- R _ (snd (?m _)) => cut (preserves R m); [intros Hp; apply Hp|]
  end.
  store_frame.
Qed.

End StoreInvariant.

(** ** The counters of a run *)

#[local] Instance counters_kept_refl : Reflexive counters_kept.
Proof. intros w H. exact H. Qed.

#[local] Instance counters_kept_trans : Transitive counters_kept.
Proof. intros a b c H1 H2 H. apply H2, H1, H. Qed.

Lemma counters_kept_blind (w w' : World) : stores_same w w' -> counters_kept w w'.
Proof. intros (Hg & _ & Hs). unfold counters_kept, run_counted. rewrite Hg, Hs. tauto. Qed.

(** What one call of the client does to the graph: keys are only added, and
    [True] is returned only after the keys of the call were written. *)
Lemma register_person_effect (E : Env) id dn gn fn raw src (w : World) :
  exists (success : bool) (w' : World),
    register_person E id dn gn fn raw src w = (Ok success, w') /\
    run_stats w' = run_stats w /\
    dom (persons (graph w)) ⊆ dom (persons (graph w')) /\
    relationships (graph w') = relationships (graph w) /\
    (success = true -> id ∈ dom (persons (graph w'))).
Proof.
  unfold register_person. cbv beta iota zeta delta [bind modify ret].
  destruct (negb (graph_enabled E) || String.eqb id "").
  - eexists false, _. split; [reflexivity|]. cbn. split; [reflexivity|]. split; [reflexivity|]. split; [reflexivity|discriminate].
  - unfold execute_write, bind, tick, modify, ret. cbn [clock set_graph].
    destruct (neo4j_commits E _).
    + eexists true, _. split; [reflexivity|]. cbn. rewrite dom_merge_person.
      split; [reflexivity|]. split; [apply union_subseteq_r|]. split; [reflexivity|].
      intros _. apply elem_of_union_l, elem_of_singleton. reflexivity.
    + eexists false, _. split; [reflexivity|]. cbn. split; [reflexivity|]. split; [reflexivity|]. split; [reflexivity|discriminate].
Qed.

Lemma register_message_effect (E : Env) mid s r ts body conv sl rl src (w : World) :
  exists (success : bool) (w' : World),
    register_message E mid s r ts body conv sl rl src w = (Ok success, w') /\
    run_stats w' = run_stats w /\
    dom (persons (graph w)) ⊆ dom (persons (graph w')) /\
    dom (relationships (graph w)) ⊆ dom (relationships (graph w')) /\
    (success = true -> (s, r, mid) ∈ dom (relationships (graph w'))).
Proof.
  unfold register_message. cbv beta iota zeta delta [bind modify ret].
  destruct (negb (graph_enabled E)).
  { eexists false, _. split; [reflexivity|]. cbn. split; [reflexivity|]. split; [reflexivity|]. split; [reflexivity|discriminate]. }
  destruct (String.eqb mid "" || String.eqb s "" || String.eqb r "").
  { eexists false, _. split; [reflexivity|]. cbn. split; [reflexivity|]. split; [reflexivity|]. split; [reflexivity|discriminate]. }
  unfold execute_write, bind, tick, modify, ret. cbn [clock set_graph].
  destruct (neo4j_commits E _).
  - eexists true, _. split; [reflexivity|]. cbn.
    rewrite !dom_merge_endpoint, dom_insert_L. split; [reflexivity|].
    split; [etransitivity; [|apply union_subseteq_r]; apply union_subseteq_r|].
    split; [apply union_subseteq_r|].
    intros _. apply elem_of_union_l, elem_of_singleton. reflexivity.
  - eexists false, _. split; [reflexivity|]. cbn. split; [reflexivity|]. split; [reflexivity|]. split; [reflexivity|discriminate].
Qed.

Lemma run_counted_grows (w w' : World) :
  run_stats w' = run_stats w ->
  dom (persons (graph w)) ⊆ dom (persons (graph w')) ->
  dom (relationships (graph w)) ⊆ dom (relationships (graph w')) ->
  run_counted w -> run_counted w'.
Proof.
  intros Hs Hp Hr (H1 & H2 & H3 & H4). unfold run_counted. rewrite Hs.
  split; [exact H1|]. split; [exact H2|]. split; [etransitivity; eassumption|].
  intros mid Hmid. destruct (H4 mid Hmid) as (s & r & Hin). exists s, r. apply Hr, Hin.
Qed.

Lemma _register_contact_with_graph_counters (E : Env) dn gn fn ph em src :
  preserves counters_kept (_register_contact_with_graph E dn gn fn ph em src).
Proof.
  unfold _register_contact_with_graph.
  destruct (negb _); [apply preserves_ret; typeclasses eauto|].
  apply preserves_for_each; [typeclasses eauto..|].
  intros [canonical raw] [] w. unfold bind at 1.
  match goal with |- context [register_person E ?a ?b ?c ?d ?e ?f w] =>
    destruct (register_person_effect E a b c d e f w)
      as (success & w1 & -> & Hs & Hp & Hr & Hin)
  end.
  assert (H1 : counters_kept w w1).
  { unfold counters_kept. apply run_counted_grows; [exact Hs|exact Hp|rewrite Hr; reflexivity]. }
  destruct success; [|exact H1].
  etransitivity; [exact H1|]. clear H1.
  unfold bind at 1. unfold modify at 1.
  match goal with |- counters_kept _ (snd (?k ?w2)) =>
    assert (H2 : counters_kept w1 w2); [|etransitivity; [exact H2|]]
  end.
  - intros (C1 & C2 & C3 & C4).
    destruct (bool_decide _) eqn:Hb; [repeat split; assumption|].
    apply bool_decide_eq_false in Hb. unfold run_counted, contacts_counted. cbn.
    split; [|split; [exact C2|split; [|exact C4]]].
    + unfold contacts_counted in C1. rewrite C1.
      rewrite size_union by (apply disjoint_singleton_l; exact Hb).
      rewrite size_singleton. lia.
    + apply union_least; [|exact C3]. apply singleton_subseteq_l, Hin. reflexivity.
  - destruct (or_else _ _); [|reflexivity].
    destruct (truthy _); [|reflexivity].
    apply counters_kept_blind. repeat split.
Qed.

Lemma _register_message_with_graph_counters (E : Env) mid s r ts body conv src :
  preserves counters_kept (_register_message_with_graph E mid s r ts body conv src).
Proof.
  unfold _register_message_with_graph.
  destruct (negb _); [apply preserves_ret; typeclasses eauto|].
  destruct (canonicalize_actor s) as [sender_id|]; [|apply preserves_ret; typeclasses eauto].
  destruct (canonicalize_actor r) as [receiver_id|]; [|apply preserves_ret; typeclasses eauto].
  destruct (_ || _); [apply preserves_ret; typeclasses eauto|].
  intros w. unfold bind at 1. unfold get_world at 1. unfold bind at 1.
  match goal with |- context [register_message E ?a ?b ?c ?d ?e ?f ?g ?h ?i w] =>
    destruct (register_message_effect E a b c d e f g h i w)
      as (success & w1 & -> & Hs & Hp & Hr & Hin)
  end.
  assert (H1 : counters_kept w w1).
  { unfold counters_kept. apply run_counted_grows; assumption. }
  destruct success; [|exact H1].
  etransitivity; [exact H1|]. clear H1.
  unfold bind at 1. unfold modify at 1.
  match goal with |- counters_kept _ (snd (?k ?w2)) =>
    assert (H2 : counters_kept w1 w2); [|etransitivity; [exact H2|]]
  end.
  - intros (C1 & C2 & C3 & C4).
    destruct (bool_decide _) eqn:Hb; [repeat split; assumption|].
    apply bool_decide_eq_false in Hb. unfold run_counted, relationships_counted. cbn.
    split; [exact C1|]. split; [|split; [exact C3|]].
    + unfold relationships_counted in C2. rewrite C2.
      rewrite size_union by (apply disjoint_singleton_l; exact Hb).
      rewrite size_singleton. lia.
    + intros m Hm. apply elem_of_union in Hm as [Hm|Hm]; [|exact (C4 m Hm)].
      apply elem_of_singleton in Hm as ->. exists sender_id, receiver_id.
      apply Hin. reflexivity.
  - apply counters_kept_blind. repeat split.
Qed.

Lemma _index_embeddings_only_vectors (E : Env) (records : list EmbeddingRecord) :
  preserves only_vectors (_index_embeddings E records).
Proof.
  intros w. unfold _index_embeddings.
  destruct records as [|record records]; [repeat split|].
  destruct (negb (vector_enabled E)) eqn:Hv; [repeat split|].
  unfold bind, lift. destruct (encode_texts E _) as [[|e es]|exc]; try (repeat split; fail).
  unfold vector_store_upsert. rewrite Hv. destruct (chroma_upsert E _); [repeat split|].
  destruct (negb (_ =? _)%nat); repeat split.
Qed.

Lemma _index_embeddings_counters (E : Env) (records : list EmbeddingRecord) :
  preserves counters_kept (_index_embeddings E records).
Proof.
  intros w. destruct (_index_embeddings_only_vectors E records w) as (_ & Hg & _ & Hs & _).
  unfold counters_kept, run_counted. rewrite Hg, Hs. tauto.
Qed.

(** X6.  The counters of a run that returns count distinct identifiers: the
    contacts counter is the number of canonical identifiers registered with
    success in this run, each of them a node of the graph, and the
    message-link counter the number of distinct message ids registered with
    success, each of them on an edge of the graph.  A contact or a message
    met twice in the archive is counted once. *)
Theorem run_counters_count_distinct_identifiers (E : Env) (upload : Upload)
    (unique_id : string) (w : World) :
  let out := ingest_ufdr_archive E upload unique_id w in
  is_ok (fst out) = true -> run_counted (snd out).
Proof.
  cbv zeta. intros Hok.
  destruct (ingest_ufdr_archive_from_reset E counters_kept counters_kept_blind
              (_register_contact_with_graph_counters E)
              (_register_message_with_graph_counters E)
              (_index_embeddings_counters E) upload unique_id w) as [(e & He)|H].
  - rewrite He in Hok. discriminate.
  - apply H. unfold run_counted, contacts_counted, relationships_counted. cbn.
    rewrite !size_empty. repeat split; [apply empty_subseteq|].
    intros m Hm. apply elem_of_empty in Hm as [].
Qed.

Lemma run_counters_witness :
  let w := snd (ingest_ufdr_archive sample_env sample_archive "u1" empty_world) in
  run_counted w /\ contacts_registered (run_stats w) = 0 /\
  relationships_registered (run_stats w) = 1.
Proof.
  split; [|split; vm_compute; reflexivity].
  apply (run_counters_count_distinct_identifiers sample_env sample_archive "u1" empty_world).
  vm_compute. reflexivity.
Defined.

(** ** Stores that are switched off *)

#[local] Instance graph_untouched_refl : Reflexive graph_untouched.
Proof. intros w. reflexivity. Qed.

#[local] Instance graph_untouched_trans : Transitive graph_untouched.
Proof. intros a b c H1 H2. unfold graph_untouched in *. congruence. Qed.

#[local] Instance vectors_untouched_refl : Reflexive vectors_untouched.
Proof. intros w. reflexivity. Qed.

#[local] Instance vectors_untouched_trans : Transitive vectors_untouched.
Proof. intros a b c H1 H2. unfold vectors_untouched in *. congruence. Qed.

(** X7.  A store that is switched off is never touched: with the graph
    client disabled an ingestion leaves the graph as it is and issues no
    call of the client's write API, and with the vector store disabled it
    leaves every vector entry as it is, whatever the archive holds and
    whether the ingestion returns or raises. *)
Theorem disabled_stores_are_left_alone (E : Env) (upload : Upload) (unique_id : string)
    (w : World) :
  let out := ingest_ufdr_archive E upload unique_id w in
  (graph_enabled E = false -> graph (snd out) = graph w) /\
  (vector_enabled E = false -> vectors (snd out) = vectors w).
Proof.
  cbv zeta. split; intros Hoff.
  - destruct (ingest_ufdr_archive_from_reset E graph_untouched) with
      (upload := upload) (unique_id := unique_id) (w := w) as [(e & ->)|H];
      [| | | |reflexivity|exact H].
    + intros w1 w2 (Hg & _). exact Hg.
    + intros dn gn fn ph em src w1. unfold _register_contact_with_graph.
      rewrite Hoff. reflexivity.
    + intros mid s r ts body conv src w1. unfold _register_message_with_graph.
      rewrite Hoff. reflexivity.
    + intros records w1. apply (_index_embeddings_only_vectors E records w1).
  - destruct (ingest_ufdr_archive_from_reset E vectors_untouched) with
      (upload := upload) (unique_id := unique_id) (w := w) as [(e & ->)|H];
      [| | | |reflexivity|exact H].
    + intros w1 w2 (_ & Hv & _). exact Hv.
    + intros dn gn fn ph em src w1.
      apply (_register_contact_with_graph_same_ledger E dn gn fn ph em src w1).
    + intros mid s r ts body conv src w1.
      apply (_register_message_with_graph_same_ledger E mid s r ts body conv src w1).
    + intros records w1. unfold _index_embeddings.
      destruct records; [reflexivity|]. rewrite Hoff. reflexivity.
Qed.

Lemma disabled_stores_witness :
  let out := ingest_ufdr_archive ledger_only_env sample_archive "u1" empty_world in
  is_ok (fst out) = true /\ graph (snd out) = empty_graph /\ vectors (snd out) = ∅.
Proof.
  split; [vm_compute; reflexivity|].
  destruct (disabled_stores_are_left_alone ledger_only_env sample_archive "u1" empty_world)
    as [Hg Hv].
  split; [apply Hg|apply Hv]; reflexivity.
Defined.

(** ** What a graph write never changes *)

Lemma person_kept_refl (p : Person) : person_kept p p.
Proof. repeat split; intros; assumption. Qed.

Lemma person_kept_trans (p1 p2 p3 : Person) :
  person_kept p1 p2 -> person_kept p2 p3 -> person_kept p1 p3.
Proof.
  intros (A1 & A2 & A3 & A4) (B1 & B2 & B3 & B4). repeat split.
  - intros r Hr. apply B1, A1, Hr.
  - intros r d Hr Hd Hne. apply (B2 r d); [apply A1, Hr|apply (A2 r d); assumption|exact Hne].
  - intros g Hg Hne. apply B3; [apply A3; assumption|exact Hne].
  - intros f Hf Hne. apply B4; [apply A4; assumption|exact Hne].
Qed.

#[local] Instance persons_kept_refl : Reflexive persons_kept.
Proof. intros w id p Hp. exists p. split; [exact Hp|apply person_kept_refl]. Qed.

#[local] Instance persons_kept_trans : Transitive persons_kept.
Proof.
  intros a b c H1 H2 id p Hp. destruct (H1 id p Hp) as (p1 & Hp1 & K1).
  destruct (H2 id p1 Hp1) as (p2 & Hp2 & K2). exists p2.
  split; [exact Hp2|exact (person_kept_trans _ _ _ K1 K2)].
Qed.

Lemma persons_kept_same (w w' : World) :
  persons (graph w') = persons (graph w) -> persons_kept w w'.
Proof. intros H id p Hp. exists p. rewrite H. split; [exact Hp|apply person_kept_refl]. Qed.

Lemma eqb_neq_false (a b : string) : a <> b -> String.eqb a b = false.
Proof. intros H. apply String.eqb_neq, H. Qed.

Lemma cypher_merge_person_kept id dn gn fn raw src (g : gmap string Person) id' p :
  g !! id' = Some p ->
  exists p', cypher_merge_person id dn gn fn raw src g !! id' = Some p' /\ person_kept p p'.
Proof.
  intros Hp. unfold cypher_merge_person. destruct (decide (id = id')) as [<-|Hne].
  - rewrite lookup_insert_eq. eexists. split; [reflexivity|]. rewrite Hp. cbn [default].
    repeat split; cbn.
    + intros r ->. reflexivity.
    + intros r d -> -> Hd. destruct dn as [dn|]; [|reflexivity].
      cbn. rewrite (eqb_neq_false _ _ Hd). reflexivity.
    + intros g0 -> Hg. destruct gn as [gn|]; [|reflexivity].
      rewrite (eqb_neq_false _ _ Hg). reflexivity.
    + intros f0 -> Hf. destruct fn as [fn|]; [|reflexivity].
      rewrite (eqb_neq_false _ _ Hf). reflexivity.
  - rewrite lookup_insert_ne by exact Hne. exists p. split; [exact Hp|apply person_kept_refl].
Qed.

Lemma cypher_merge_endpoint_kept id label src (g : gmap string Person) id' p :
  g !! id' = Some p ->
  exists p', cypher_merge_endpoint id label src g !! id' = Some p' /\ person_kept p p'.
Proof.
  intros Hp. unfold cypher_merge_endpoint. destruct (decide (id = id')) as [<-|Hne].
  - rewrite lookup_insert_eq. eexists. split; [reflexivity|]. rewrite Hp. cbn [default].
    repeat split; cbn; try (intros; assumption).
    intros r d _ -> _. reflexivity.
  - rewrite lookup_insert_ne by exact Hne. exists p. split; [exact Hp|apply person_kept_refl].
Qed.

Lemma execute_write_persons_kept (E : Env) (tx : GraphDb -> GraphDb) :
  (forall g id p, persons g !! id = Some p ->
     exists p', persons (tx g) !! id = Some p' /\ person_kept p p') ->
  preserves persons_kept (execute_write E tx).
Proof.
  intros Htx w. unfold execute_write, bind, tick, modify, ret.
  destruct (neo4j_commits E (clock w)); cbn; [|apply persons_kept_same; reflexivity].
  intros id p Hp. apply Htx, Hp.
Qed.

Lemma register_person_persons_kept (E : Env) id dn gn fn raw src :
  preserves persons_kept (register_person E id dn gn fn raw src).
Proof.
  unfold register_person.
  apply preserves_bind; [typeclasses eauto..| |intros _].
  - intros w. apply persons_kept_same. reflexivity.
  - destruct (_ || _); [apply preserves_ret; typeclasses eauto|].
    apply execute_write_persons_kept. intros g id' p Hp. cbn.
    apply cypher_merge_person_kept, Hp.
Qed.

Lemma register_message_persons_kept (E : Env) mid s r ts body conv sl rl src :
  preserves persons_kept (register_message E mid s r ts body conv sl rl src).
Proof.
  unfold register_message.
  apply preserves_bind; [typeclasses eauto..| |intros _].
  - intros w. apply persons_kept_same. reflexivity.
  - destruct (negb _); [apply preserves_ret; typeclasses eauto|].
    destruct (_ || _); [apply preserves_ret; typeclasses eauto|].
    apply execute_write_persons_kept. intros g id' p Hp. cbn.
    destruct (cypher_merge_endpoint_kept s
                (if truthy sl then default s sl else s) src _ _ _ Hp) as (p1 & Hp1 & K1).
    destruct (cypher_merge_endpoint_kept r
                (if truthy rl then default r rl else r) src _ _ _ Hp1) as (p2 & Hp2 & K2).
    exists p2. split; [exact Hp2|exact (person_kept_trans _ _ _ K1 K2)].
Qed.

Lemma _register_contact_with_graph_persons_kept (E : Env) dn gn fn ph em src :
  preserves persons_kept (_register_contact_with_graph E dn gn fn ph em src).
Proof.
  unfold _register_contact_with_graph.
  destruct (negb _); [apply preserves_ret; typeclasses eauto|].
  apply preserves_for_each; [typeclasses eauto..|]. intros [canonical raw] [].
  apply preserves_bind; [typeclasses eauto..|apply register_person_persons_kept|].
  intros [|]; [|apply preserves_ret; typeclasses eauto].
  apply preserves_bind; [typeclasses eauto..| |intros _].
  - intros w. apply persons_kept_same. cbn. destruct (bool_decide _); reflexivity.
  - destruct (or_else _ _); [|apply preserves_ret; typeclasses eauto].
    destruct (truthy _); [|apply preserves_ret; typeclasses eauto].
    intros w. apply persons_kept_same. reflexivity.
Qed.

Lemma _register_message_with_graph_persons_kept (E : Env) mid s r ts body conv src :
  preserves persons_kept (_register_message_with_graph E mid s r ts body conv src).
Proof.
  unfold _register_message_with_graph.
  destruct (negb _); [apply preserves_ret; typeclasses eauto|].
  destruct (canonicalize_actor s) as [sender_id|]; [|apply preserves_ret; typeclasses eauto].
  destruct (canonicalize_actor r) as [receiver_id|]; [|apply preserves_ret; typeclasses eauto].
  destruct (_ || _); [apply preserves_ret; typeclasses eauto|].
  apply preserves_bind; [typeclasses eauto..|apply preserves_get_world; typeclasses eauto|].
  intros w0.
  apply preserves_bind; [typeclasses eauto..|apply register_message_persons_kept|].
  intros [|]; [|apply preserves_ret; typeclasses eauto].
  apply preserves_bind; [typeclasses eauto..| |intros _].
  - intros w. apply persons_kept_same. cbn. destruct (bool_decide _); reflexivity.
  - intros w. apply persons_kept_same. reflexivity.
Qed.

Lemma resync_contact_persons_kept (E : Env) (row : ContactRow) (st : ResyncState) :
  preserves persons_kept (resync_contact E row st).
Proof.
  unfold resync_contact. cbv zeta.
  destruct (resync_identifiers row); [apply preserves_ret; typeclasses eauto|].
  apply preserves_for_each; [typeclasses eauto..|]. intros [canonical raw] st'.
  unfold resync_identifier.
  destruct (bool_decide _); [apply preserves_ret; typeclasses eauto|].
  apply preserves_bind; [typeclasses eauto..|apply register_person_persons_kept|].
  intros [|]; apply preserves_ret; typeclasses eauto.
Qed.

Lemma resync_message_persons_kept (E : Env) (row : MessageRow) (st : ResyncState) :
  preserves persons_kept (resync_message E row st).
Proof.
  unfold resync_message. cbv zeta.
  destruct (_ || _); [apply preserves_ret; typeclasses eauto|].
  apply preserves_bind; [typeclasses eauto..|apply register_message_persons_kept|].
  intros [|]; apply preserves_ret; typeclasses eauto.
Qed.

Lemma resync_graph_persons_kept (E : Env) (db : result Ledger) :
  preserves persons_kept (resync_graph E false db).
Proof.
  unfold resync_graph.
  destruct (negb _); [apply preserves_ret; typeclasses eauto|].
  apply preserves_bind; [typeclasses eauto..|apply preserves_ret; typeclasses eauto|].
  intros stats. cbn [andb].
  destruct db as [l|e]; [|apply preserves_ret; typeclasses eauto].
  apply preserves_bind; [typeclasses eauto..| |intros st1].
  { apply preserves_for_each; [typeclasses eauto..|].
    intros row st. apply resync_contact_persons_kept. }
  apply preserves_bind; [typeclasses eauto..| |intros st2; apply preserves_ret; typeclasses eauto].
  apply preserves_for_each; [typeclasses eauto..|].
  intros row st. apply resync_message_persons_kept.
Qed.

(** X8.  The graph keeps what it has learnt about a person first.  No
    ingestion, and no resynchronisation that does not clear the graph,
    removes a person node, changes a raw identifier that is set, replaces a
    display name that differs from the node's raw identifier, or replaces a
    given or family name that is not empty: later writes can only fill what
    is missing. *)
Theorem ingestion_keeps_settled_person_fields (E : Env) (w : World) :
  (forall upload unique_id,
     persons_kept w (snd (ingest_ufdr_archive E upload unique_id w))) /\
  (forall db, persons_kept w (snd (resync_graph E false db w))).
Proof.
  split; [|intros db; apply resync_graph_persons_kept].
  intros upload unique_id.
  destruct (ingest_ufdr_archive_from_reset E persons_kept) with
    (upload := upload) (unique_id := unique_id) (w := w) as [(e & ->)|H];
    [| | | |reflexivity|].
  - intros w1 w2 (Hg & _). apply persons_kept_same. rewrite Hg. reflexivity.
  - apply _register_contact_with_graph_persons_kept.
  - apply _register_message_with_graph_persons_kept.
  - intros records w1. apply persons_kept_same.
    destruct (_index_embeddings_only_vectors E records w1) as (_ & -> & _). reflexivity.
  - etransitivity; [|exact H]. apply persons_kept_same. reflexivity.
Qed.

(** A second ingestion of the sample archive leaves Jane Smith her given name. *)
Lemma settled_person_fields_witness :
  exists p p',
    persons (graph sample_synced_world) !! "+15551230002" = Some p /\
    p_given_name p = Some "Jane" /\
    persons (graph (snd (ingest_ufdr_archive sample_env sample_archive "u2"
                           sample_synced_world))) !! "+15551230002" = Some p' /\
    p_given_name p' = Some "Jane".
Proof.
  destruct (ingestion_keeps_settled_person_fields sample_env sample_synced_world) as [H _].
  specialize (H sample_archive "u2").
  destruct (persons (graph sample_synced_world) !! "+15551230002") as [p|] eqn:Hp;
    [|vm_compute in Hp; discriminate Hp].
  assert (Hg : p_given_name p = Some "Jane").
  { vm_compute in Hp. injection Hp as <-. reflexivity. }
  destruct (H _ _ Hp) as (p' & Hp' & _ & _ & Hgiven & _).
  exists p, p'. split; [reflexivity|]. split; [exact Hg|]. split; [exact Hp'|].
  apply (Hgiven _ Hg). discriminate.
Defined.

(** ** A graph write repeated *)

Lemma cypher_merge_person_idempotent id dn gn fn raw src (g : gmap string Person) :
  cypher_merge_person id dn gn fn raw src (cypher_merge_person id dn gn fn raw src g)
  = cypher_merge_person id dn gn fn raw src g.
Proof.
  unfold cypher_merge_person. rewrite lookup_insert_eq, insert_insert_eq. cbn [default].
  f_equal. destruct (default null_person (g !! id)) as [praw pdn pgn pfn psrc]. cbn.
  f_equal.
  - destruct praw; reflexivity.
  - destruct dn as [d|]; [|reflexivity]. destruct pdn as [old|].
    + destruct praw as [r|]; cbn.
      * destruct (String.eqb old r) eqn:Ho; cbn; [|rewrite Ho; reflexivity].
        destruct (String.eqb d r); reflexivity.
      * destruct (String.eqb old raw) eqn:Ho; cbn; [|rewrite Ho; reflexivity].
        destruct (String.eqb d raw); reflexivity.
    + destruct praw as [r|]; cbn; [destruct (String.eqb d r)|destruct (String.eqb d raw)];
        reflexivity.
  - destruct gn as [x|]; [|reflexivity].
    destruct pgn as [old|]; cbn; [|destruct (String.eqb x ""); reflexivity].
    destruct (String.eqb old "") eqn:Ho; cbn; [|rewrite Ho; reflexivity].
    destruct (String.eqb x ""); reflexivity.
  - destruct fn as [x|]; [|reflexivity].
    destruct pfn as [old|]; cbn; [|destruct (String.eqb x ""); reflexivity].
    destruct (String.eqb old "") eqn:Ho; cbn; [|rewrite Ho; reflexivity].
    destruct (String.eqb x ""); reflexivity.
Qed.

(** An endpoint that has a display name and was last seen in [src] is left
    as it is by the [MERGE] of [register_message]. *)
Lemma cypher_merge_endpoint_same id label src (g : gmap string Person) p :
  g !! id = Some p -> p_display_name p <> None -> p_last_seen_source p = src ->
  cypher_merge_endpoint id label src g = g.
Proof.
  intros Hp Hd Hs. unfold cypher_merge_endpoint. rewrite Hp. cbn [default].
  apply insert_id. rewrite Hp. f_equal. destruct p as [praw [d|] pgn pfn psrc]; cbn in *;
    [subst; reflexivity|congruence].
Qed.

Lemma cypher_merge_endpoint_lookup id label src (g : gmap string Person) :
  exists p, cypher_merge_endpoint id label src g !! id = Some p /\
            p_display_name p <> None /\ p_last_seen_source p = src.
Proof.
  unfold cypher_merge_endpoint. rewrite lookup_insert_eq. eexists. split; [reflexivity|].
  cbn. split; [|reflexivity]. destruct (p_display_name _); discriminate.
Qed.

Lemma cypher_merge_endpoints_idempotent s ls r lr src (g : gmap string Person) :
  let tx g := cypher_merge_endpoint r lr src (cypher_merge_endpoint s ls src g) in
  tx (tx g) = tx g.
Proof.
  cbv zeta. set (g1 := cypher_merge_endpoint r lr src (cypher_merge_endpoint s ls src g)).
  assert (Hs : exists p, g1 !! s = Some p /\ p_display_name p <> None
                         /\ p_last_seen_source p = src).
  { unfold g1. destruct (decide (r = s)) as [->|Hne];
      [apply cypher_merge_endpoint_lookup|].
    unfold cypher_merge_endpoint at 1. rewrite lookup_insert_ne by exact Hne.
    apply cypher_merge_endpoint_lookup. }
  destruct Hs as (p & Hp & Hd & Hsrc).
  rewrite (cypher_merge_endpoint_same s ls src g1 p Hp Hd Hsrc).
  destruct (cypher_merge_endpoint_lookup r lr src (cypher_merge_endpoint s ls src g))
    as (q & Hq & Hqd & Hqs).
  exact (cypher_merge_endpoint_same r lr src g1 q Hq Hqd Hqs).
Qed.

(** X9.  A graph write repeated is absorbed.  With a store that commits,
    registering a person a second time with the same arguments leaves every
    node and edge as the first call left them, and so does registering a
    message a second time: the Cypher statements are idempotent. *)
Theorem graph_writes_are_idempotent (E : Env) (w : World) :
  graph_commits E ->
  (forall id dn gn fn raw src,
     let w1 := snd (register_person E id dn gn fn raw src w) in
     let w2 := snd (register_person E id dn gn fn raw src w1) in
     persons (graph w2) = persons (graph w1) /\
     relationships (graph w2) = relationships (graph w1)) /\
  (forall mid s r ts body conv sl rl src,
     let w1 := snd (register_message E mid s r ts body conv sl rl src w) in
     let w2 := snd (register_message E mid s r ts body conv sl rl src w1) in
     persons (graph w2) = persons (graph w1) /\
     relationships (graph w2) = relationships (graph w1)).
Proof.
  intros Hc. split.
  - intros id dn gn fn raw src. cbv zeta. unfold register_person.
    cbv beta iota zeta delta [bind modify ret].
    destruct (negb (graph_enabled E) || String.eqb id ""); [split; reflexivity|].
    unfold execute_write, bind, tick, modify, ret. rewrite !Hc. cbn.
    split; [apply cypher_merge_person_idempotent|reflexivity].
  - intros mid s r ts body conv sl rl src. cbv zeta. unfold register_message.
    cbv beta iota zeta delta [bind modify ret].
    destruct (negb (graph_enabled E)); [split; reflexivity|].
    destruct (String.eqb mid "" || String.eqb s "" || String.eqb r "");
      [split; reflexivity|].
    unfold execute_write, bind, tick, modify, ret. rewrite !Hc. cbn.
    split; [apply cypher_merge_endpoints_idempotent|apply insert_insert_eq].
Qed.

Lemma graph_writes_witness :
  let w1 := snd (register_person sample_env "+15551230001" (Some "Alice") VNull VNull
                   (Some "+1 555 123 0001") (Some "contacts.db") empty_world) in
  let w2 := snd (register_person sample_env "+15551230001" (Some "Alice") VNull VNull
                   (Some "+1 555 123 0001") (Some "contacts.db") w1) in
  persons (graph w2) = persons (graph w1) /\ size (persons (graph w1)) = 1%nat.
Proof.
  split; [|reflexivity].
  apply (graph_writes_are_idempotent sample_env empty_world sample_env_commits).
Defined.

(** ** The embedding indexer *)

Lemma chroma_store_other ids embeddings metadatas documents
    (store : gmap string VectorEntry) (k : string) :
  ~ In k ids ->
  chroma_store ids embeddings metadatas documents store !! k = store !! k.
Proof.
  revert embeddings metadatas documents store.
  induction ids as [|id ids IH]; intros [|e es] [|m ms] [|d ds] store Hk; cbn;
    try reflexivity.
  rewrite IH by (intros H; apply Hk; right; exact H).
  apply lookup_insert_ne. intros ->. apply Hk. left. reflexivity.
Qed.

Lemma chroma_store_lookup (records : list EmbeddingRecord) (embeddings : list (list float))
    (store : gmap string VectorEntry) (i : nat) (record : EmbeddingRecord) (e : list float) :
  NoDup (map er_vector_id records) ->
  records !! i = Some record -> embeddings !! i = Some e ->
  chroma_store (map er_vector_id records) embeddings (map er_metadata records)
    (map er_text records) store !! er_vector_id record
  = Some {| ve_embedding := e; ve_metadata := er_metadata record;
            ve_document := er_text record |}.
Proof.
  revert embeddings store i.
  induction records as [|r records IH]; intros embeddings store i Hnd Hr He;
    [discriminate|].
  destruct embeddings as [|e0 es]; [destruct i; discriminate|].
  cbn [map chroma_store]. apply NoDup_cons in Hnd as [Hnot Hnd].
  destruct i as [|i]; cbn in Hr, He.
  - injection Hr as ->. injection He as ->.
    rewrite chroma_store_other by (rewrite <- list_elem_of_In; exact Hnot).
    apply lookup_insert_eq.
  - eapply IH; eassumption.
Qed.

(** X10.  The embedding indexer keeps the four parallel lists aligned: when
    the batch is stored, the entry under the vector id of a record holds the
    text and the metadata of that record and the vector computed for its
    text, and every entry under another id is left as it was. *)
Theorem indexed_records_are_found_under_their_ids (E : Env)
    (records : list EmbeddingRecord) (embeddings : list (list float)) (w : World) :
  vector_enabled E = true ->
  embedder_encode E (map er_text records) = Ok embeddings ->
  length embeddings = length records ->
  chroma_upsert E (map er_vector_id records) = None ->
  NoDup (map er_vector_id records) ->
  let out := _index_embeddings E records w in
  fst out = Ok tt /\
  (forall i record e,
     records !! i = Some record -> embeddings !! i = Some e ->
     vectors (snd out) !! er_vector_id record
     = Some {| ve_embedding := e; ve_metadata := er_metadata record;
               ve_document := er_text record |}) /\
  (forall k, ~ In k (map er_vector_id records) -> vectors (snd out) !! k = vectors w !! k).
Proof.
  intros Hon Henc Hlen Hup Hnd. cbv zeta.
  destruct records as [|r0 records].
  { cbn. split; [reflexivity|]. split; [intros i record e H; destruct i; discriminate|].
    reflexivity. }
  destruct embeddings as [|e0 es]; [discriminate|].
  assert (Hrun : _index_embeddings E (r0 :: records) w
                 = (Ok tt,
                    set_vectors
                      (chroma_store (map er_vector_id (r0 :: records)) (e0 :: es)
                         (map er_metadata (r0 :: records)) (map er_text (r0 :: records))
                         (vectors w)) w)).
  { unfold _index_embeddings. rewrite Hon. cbn [negb]. unfold encode_texts.
    cbn [map] in Henc, Hup |- *. rewrite Henc. unfold bind, lift.
    unfold vector_store_upsert. rewrite Hon, Hup. cbn [negb].
    cbn [length] in Hlen |- *. rewrite length_map, Hlen, Nat.eqb_refl. reflexivity. }
  rewrite Hrun. cbn [fst snd vectors set_vectors]. split; [reflexivity|]. split.
  - intros i record e Hr He. apply (chroma_store_lookup _ _ _ i); assumption.
  - intros k Hk. apply chroma_store_other, Hk.
Qed.

Lemma indexed_records_witness :
  let record := {| er_vector_id := "msg:sms.db:message:1"; er_text := "hello";
                   er_metadata := {["table" := "message"]} |} in
  vectors (snd (_index_embeddings sample_env [record] empty_world)) !! "msg:sms.db:message:1"
  = Some {| ve_embedding := []; ve_metadata := {["table" := "message"]};
            ve_document := "hello" |}.
Proof.
  cbv zeta.
  refine (proj1 (proj2 (indexed_records_are_found_under_their_ids sample_env
            [ {| er_vector_id := "msg:sms.db:message:1"; er_text := "hello";
                 er_metadata := {["table" := "message"]} |} ] [ [] ] empty_world
            eq_refl eq_refl eq_refl eq_refl _)) 0%nat _ [] eq_refl eq_refl).
  apply NoDup_singleton.
Defined.

(** ** The image inventory counts paths *)

Lemma log_image_counts (E : Env) (dir p : Path) (records : list ImageInventoryRecord)
    (seen : gset string) (processed : Z) (w : World) :
  exists records' w',
    log_image E dir p (records, seen, processed) w
    = (Ok (records', {[path_str p]} ∪ seen,
           if bool_decide (path_str p ∈ seen) then processed else processed + 1), w') /\
    (length records <= length records')%nat /\
    (Z.of_nat (length records') - Z.of_nat (length records)
     <= if bool_decide (path_str p ∈ seen) then 0 else 1).
Proof.
  unfold log_image. destruct (bool_decide (path_str p ∈ seen)) eqn:Hseen.
  - apply bool_decide_eq_true in Hseen. exists records, w.
    rewrite (subseteq_union_1_L {[path_str p]} seen)
      by (apply singleton_subseteq_l, Hseen).
    split; [reflexivity|]. split; lia.
  - cbv beta iota zeta delta [bind get_world put_ledger modify ret].
    destruct (insert_or_ignore_image _ _ _ _ _ _) as [[image_id|] l].
    + eexists _, _. split; [reflexivity|]. rewrite length_app. cbn. split; lia.
    + destruct (select_image_by_path _ l) as [[[image_id status] cell]|].
      * destruct (negb _); eexists _, _; (split; [reflexivity|]);
          rewrite ?length_app; cbn; split; lia.
      * eexists _, _. split; [reflexivity|]. split; lia.
Qed.

Lemma log_images_count (E : Env) (dir : Path) (paths : list Path)
    (records : list ImageInventoryRecord) (seen : gset string) (processed : Z) (w : World) :
  exists records' w',
    for_each paths (log_image E dir) (records, seen, processed) w
    = (Ok (records', list_to_set (map path_str paths) ∪ seen,
           processed + Z.of_nat (size (list_to_set (map path_str paths) ∪ seen))
           - Z.of_nat (size seen)), w') /\
    (length records <= length records')%nat /\
    (Z.of_nat (length records') - Z.of_nat (length records)
     <= Z.of_nat (size (list_to_set (map path_str paths) ∪ seen)) - Z.of_nat (size seen)).
Proof.
  revert records seen processed w.
  induction paths as [|p paths IH]; intros records seen processed w.
  - exists records, w. cbn [map list_to_set for_each].
    rewrite (left_id_L (∅ : gset string) (∪)). split; [unfold ret; do 3 f_equal; lia|].
    split; lia.
  - destruct (log_image_counts E dir p records seen processed w)
      as (records1 & w1 & Hrun1 & Hle1 & Hlen1).
    destruct (IH records1 ({[path_str p]} ∪ seen)
                (if bool_decide (path_str p ∈ seen) then processed else processed + 1) w1)
      as (records2 & w2 & Hrun2 & Hle2 & Hlen2).
    exists records2, w2. cbn [for_each map list_to_set].
    rewrite (bind_ok _ _ _ _ _ Hrun1), Hrun2.
    assert (Hset : list_to_set (map path_str paths) ∪ ({[path_str p]} ∪ seen)
                   = ({[path_str p]} ∪ list_to_set (map path_str paths)) ∪ seen :> gset string).
    { rewrite (assoc_L (∪)). f_equal. apply (comm_L (∪)). }
    rewrite Hset in *.
    assert (Hsize : Z.of_nat (size ({[path_str p]} ∪ seen))
                    = Z.of_nat (size seen)
                      + if bool_decide (path_str p ∈ seen) then 0 else 1).
    { destruct (bool_decide (path_str p ∈ seen)) eqn:Hseen.
      - apply bool_decide_eq_true in Hseen.
        rewrite (subseteq_union_1_L {[path_str p]} seen)
          by (apply singleton_subseteq_l, Hseen). lia.
      - apply bool_decide_eq_false in Hseen.
        rewrite size_union by (apply disjoint_singleton_l; exact Hseen).
        rewrite size_singleton. lia. }
    split; [|split; [lia|]].
    + do 3 f_equal. destruct (bool_decide (path_str p ∈ seen)); lia.
    + destruct (bool_decide (path_str p ∈ seen)); lia.
Qed.

(** X11.  The image inventory never fails, and the count it returns is the
    number of distinct image paths it was given, whether their rows are new,
    reset or left alone; the records it hands to the captioner are at most
    that many. *)
Theorem inventory_counts_distinct_paths (E : Env) (image_paths : list Path)
    (extraction_dir : Path) (w : World) :
  exists records,
    fst (log_image_inventory E image_paths extraction_dir w)
    = Ok (Z.of_nat (size (list_to_set (map path_str image_paths) : gset string)), records) /\
    (length records <= size (list_to_set (map path_str image_paths) : gset string))%nat.
Proof.
  unfold log_image_inventory. destruct image_paths as [|p paths].
  - exists []. cbn. rewrite size_empty. split; [reflexivity|lia].
  - destruct (log_images_count E extraction_dir (p :: paths) [] ∅ 0 w)
      as (records & w' & Hrun & _ & Hlen).
    exists records. unfold with_connection. rewrite (bind_ok _ _ _ _ _ Hrun).
    rewrite (right_id_L (∅ : gset string) (∪)) in Hlen |- *.
    rewrite size_empty in Hlen |- *. cbn in Hlen |- *.
    split; [do 3 f_equal; lia|lia].
Qed.

(** ** Rebuilding the graph from the ledger *)

Lemma resync_identifiers_nonempty (row : ContactRow) (canonical raw : string) :
  In (canonical, raw) (resync_identifiers row) -> canonical <> "".
Proof.
  unfold resync_identifiers. cbv zeta.
  set (identifier_of := fun raw0 : option string => _).
  assert (H : forall o, In (canonical, raw) (identifier_of o) -> canonical <> "").
  { intros o. unfold identifier_of. destruct (canonicalize_actor o) as [[|c0 c]|];
      cbn; try tauto. intros [[= <- _]|[]]. discriminate. }
  destruct (flat_map identifier_of _) eqn:Hids.
  - apply H.
  - rewrite <- Hids. intros Hin. apply in_flat_map in Hin as (o & _ & Hin). exact (H o Hin).
Qed.

Lemma first_occurrences_spec (seen : gset string) (l : list string) :
  NoDup (first_occurrences seen l) /\
  (forall x, In x (first_occurrences seen l) <-> In x l /\ x ∉ seen).
Proof.
  revert seen. induction l as [|x l IH]; intros seen; cbn [first_occurrences].
  - split; [constructor|]. intros x. cbn. tauto.
  - destruct (bool_decide (x ∈ seen)) eqn:Hx.
    + apply bool_decide_eq_true in Hx. destruct (IH seen) as [Hnd Hin].
      split; [exact Hnd|]. intros y. rewrite Hin. cbn. split; [tauto|].
      intros [[<-|Hy] Hns]; [contradiction|tauto].
    + apply bool_decide_eq_false in Hx. destruct (IH ({[x]} ∪ seen)) as [Hnd Hin].
      split.
      * constructor; [|exact Hnd]. rewrite list_elem_of_In, Hin.
        intros [_ Hn]. apply Hn, elem_of_union_l, elem_of_singleton. reflexivity.
      * intros y. cbn. rewrite Hin, not_elem_of_union, not_elem_of_singleton.
        split.
        -- intros [<-|(Hy & Hne & Hns)]; tauto.
        -- intros [[<-|Hy] Hns]; [tauto|]. destruct (decide (y = x)) as [->|Hne]; tauto.
Qed.

Lemma first_occurrences_app (seen : gset string) (l1 l2 : list string) :
  first_occurrences seen (l1 ++ l2)
  = (first_occurrences seen l1
     ++ first_occurrences (list_to_set (first_occurrences seen l1) ∪ seen) l2)%list.
Proof.
  revert seen. induction l1 as [|x l1 IH]; intros seen; cbn [app first_occurrences].
  - cbn. rewrite (left_id_L (∅ : gset string) (∪)). reflexivity.
  - destruct (bool_decide (x ∈ seen)); [apply IH|].
    cbn [app]. rewrite IH. do 3 f_equal. cbn [list_to_set].
    generalize (first_occurrences ({[x]} ∪ seen) l1). intros L.
    rewrite (assoc_L (∪) (list_to_set L)), (comm_L (∪) (list_to_set L) {[x]}). reflexivity.
Qed.

Lemma resync_effect_none (st : ResyncState) (w : World) : resync_effect [] 0 st st w w.
Proof.
  unfold resync_effect. cbn. rewrite app_nil_r, !(left_id_L (∅ : gset string) (∪)).
  repeat split; lia.
Qed.

Lemma resync_effect_trans n1 n2 k1 k2 (st st1 st2 : ResyncState) (w w1 w2 : World) :
  resync_effect n1 k1 st st1 w w1 -> resync_effect n2 k2 st1 st2 w1 w2 ->
  resync_effect (n1 ++ n2) (k1 + k2) st st2 w w2.
Proof.
  intros (A1 & A2 & A3 & A4 & A5 & A6 & A7 & A8 & A9 & A10)
         (B1 & B2 & B3 & B4 & B5 & B6 & B7 & B8 & B9 & B10).
  unfold resync_effect.
  rewrite B1, A1, B2, A2, B3, A3, B4, A4, B5, A5, B6, A6, B7, A7, B8, A8, B9, A9, B10, A10.
  rewrite map_app, <- app_assoc, length_app, list_to_set_app_L.
  rewrite !(assoc_L (∪)), (comm_L (∪) (list_to_set n2)).
  repeat split; lia.
Qed.

Section ResyncCommits.
Context (E : Env).
Hypothesis enabled : graph_enabled E = true.
Hypothesis commits : graph_commits E.

Lemma resync_identifier_run (row : ContactRow) (pn : option string) (canonical raw : string)
    (st : ResyncState) (w : World) :
  canonical <> "" ->
  exists st' w',
    resync_identifier E row pn (canonical, raw) st w = (Ok st', w') /\
    resync_effect (first_occurrences (rs_seen_contacts st) [canonical]) 0 st st' w w'.
Proof.
  intros Hne. unfold resync_identifier. cbn [first_occurrences].
  destruct (bool_decide (canonical ∈ rs_seen_contacts st)).
  - eexists _, w. split; [reflexivity|]. unfold resync_effect. cbn.
    rewrite app_nil_r, !(left_id_L (∅ : gset string) (∪)). repeat split; lia.
  - unfold register_person. cbv beta iota zeta delta [bind modify ret].
    rewrite enabled. apply String.eqb_neq in Hne. rewrite Hne. cbn [negb orb].
    unfold execute_write, bind, tick, modify, ret. rewrite commits.
    eexists _, _. split; [reflexivity|]. unfold resync_effect. cbn.
    rewrite dom_merge_person, !(right_id_L (∅ : gset string) (∪)).
    repeat split; lia.
Qed.

Lemma resync_identifiers_run (row : ContactRow) (pn : option string)
    (ids : list (string * string)) (st : ResyncState) (w : World) :
  (forall canonical raw, In (canonical, raw) ids -> canonical <> "") ->
  exists st' w',
    for_each ids (resync_identifier E row pn) st w = (Ok st', w') /\
    resync_effect (first_occurrences (rs_seen_contacts st) (map fst ids)) 0 st st' w w'.
Proof.
  revert st w. induction ids as [|[canonical raw] ids IH]; intros st w Hne.
  - exists st, w. split; [reflexivity|apply resync_effect_none].
  - destruct (resync_identifier_run row pn canonical raw st w) as (st1 & w1 & Hrun1 & H1);
      [apply (Hne canonical raw); left; reflexivity|].
    destruct (IH st1 w1) as (st2 & w2 & Hrun2 & H2);
      [intros c r Hin; apply (Hne c r); right; exact Hin|].
    exists st2, w2. cbn [for_each]. rewrite (bind_ok _ _ _ _ _ Hrun1). split; [exact Hrun2|].
    change (map fst ((canonical, raw) :: ids)) with ([canonical] ++ map fst ids)%list.
    rewrite first_occurrences_app.
    pose proof H1 as (_ & Hseen & _). rewrite <- Hseen.
    exact (resync_effect_trans _ _ 0 0 _ _ _ _ _ _ H1 H2).
Qed.

Lemma resync_contact_run (row : ContactRow) (st : ResyncState) (w : World) :
  exists st' w',
    resync_contact E row st w = (Ok st', w') /\
    resync_effect
      (first_occurrences (rs_seen_contacts st) (map fst (resync_identifiers row)))
      (match resync_identifiers row with [] => 1 | _ => 0 end) st st' w w'.
Proof.
  unfold resync_contact. cbv zeta.
  pose proof (resync_identifiers_nonempty row) as Hne.
  destruct (resync_identifiers row) as [|id ids] eqn:Hids.
  - eexists _, w. split; [reflexivity|]. unfold resync_effect. cbn.
    rewrite app_nil_r, !(left_id_L (∅ : gset string) (∪)). repeat split; lia.
  - apply resync_identifiers_run. exact Hne.
Qed.

Lemma resync_contacts_run (rows : list ContactRow) (st : ResyncState) (w : World) :
  exists st' w',
    for_each rows (resync_contact E) st w = (Ok st', w') /\
    resync_effect (first_occurrences (rs_seen_contacts st) (resync_contact_ids rows))
      (Z.of_nat (length (List.filter
                           (fun row => match resync_identifiers row with
                                       | [] => true | _ => false end) rows)))
      st st' w w'.
Proof.
  revert st w. induction rows as [|row rows IH]; intros st w.
  - exists st, w. split; [reflexivity|apply resync_effect_none].
  - destruct (resync_contact_run row st w) as (st1 & w1 & Hrun1 & H1).
    destruct (IH st1 w1) as (st2 & w2 & Hrun2 & H2).
    exists st2, w2. cbn [for_each]. rewrite (bind_ok _ _ _ _ _ Hrun1). split; [exact Hrun2|].
    unfold resync_contact_ids. cbn [flat_map List.filter]. fold (resync_contact_ids rows).
    rewrite first_occurrences_app.
    pose proof H1 as (_ & Hseen & _). rewrite <- Hseen.
    pose proof (resync_effect_trans _ _ _ _ _ _ _ _ _ _ H1 H2) as H.
    destruct (resync_identifiers row); cbn [length] in *;
      [replace (Z.of_nat (S _)) with (1 + Z.of_nat (length (List.filter
         (fun row => match resync_identifiers row with [] => true | _ => false end) rows)))
         by lia|]; exact H.
Qed.

Lemma person_calls_app (l1 l2 : list GraphCall) :
  person_calls (l1 ++ l2) = (person_calls l1 ++ person_calls l2)%list.
Proof. apply flat_map_app. Qed.

Lemma person_calls_persons (ids : list string) :
  person_calls (map CallRegisterPerson ids) = ids.
Proof. induction ids as [|x ids IH]; [reflexivity|]. cbn. f_equal. exact IH. Qed.

Lemma resync_message_run (row : MessageRow) (st : ResyncState) (w : World) :
  exists st' w',
    resync_message E row st w = (Ok st', w') /\
    resync_message_effect [row] st st' w w'.
Proof.
  unfold resync_message, resync_message_effect, resync_endpoint_ids, resync_edge_keys.
  cbn [List.filter]. unfold syncable, edge_key.
  destruct (canonicalize_actor (m_sender row)) as [[|c1 s1]|] eqn:Hs;
    try (eexists _, w; split; [reflexivity|]; cbn;
         rewrite !(left_id_L ∅ (∪)); repeat split; lia).
  destruct (canonicalize_actor (m_receiver row)) as [[|c2 s2]|] eqn:Hr;
    try (eexists _, w; split; [reflexivity|]; cbn;
         rewrite !(left_id_L ∅ (∪)); repeat split; lia).
  cbn [truthy negb orb andb from_option id fst snd].
  unfold register_message. cbv beta iota zeta delta [bind modify ret].
  rewrite enabled. cbn [negb].
  destruct (String.eqb (m_external_id row) "") eqn:Hid;
    cbn [negb orb andb String.eqb from_option id].
  - eexists _, _. split; [reflexivity|]. cbn.
    rewrite person_calls_app, app_nil_r, !(left_id_L ∅ (∪)). repeat split; lia.
  - unfold execute_write, bind, tick, modify, ret. rewrite commits.
    eexists _, _. split; [reflexivity|]. cbn -[cypher_merge_endpoint].
    rewrite ?Hs, ?Hr. cbn [from_option id].
    rewrite person_calls_app, app_nil_r, !dom_merge_endpoint, dom_insert_L,
      !(right_id_L ∅ (∪)).
    repeat split; try lia.
    rewrite (assoc_L (∪)), (comm_L (∪) {[String c2 s2]}). reflexivity.
Qed.

Lemma resync_message_effect_trans rows1 rows2 (st st1 st2 : ResyncState) (w w1 w2 : World) :
  resync_message_effect rows1 st st1 w w1 -> resync_message_effect rows2 st1 st2 w1 w2 ->
  resync_message_effect (rows1 ++ rows2) st st2 w w2.
Proof.
  intros (A1 & A2 & A3 & A4 & A5 & A6 & A7 & A8 & A9)
         (B1 & B2 & B3 & B4 & B5 & B6 & B7 & B8 & B9).
  unfold resync_message_effect, resync_endpoint_ids, resync_edge_keys in *.
  rewrite B1, A1, B2, A2, B3, A3, B4, A4, B5, A5, B6, A6, B7, A7, B8, A8, B9, A9.
  rewrite !List.filter_app, !length_app, map_app, flat_map_app, !list_to_set_app_L.
  repeat split; try lia.
  - rewrite !(assoc_L (∪)). f_equal. apply (comm_L (∪)).
  - rewrite !(assoc_L (∪)). f_equal. apply (comm_L (∪)).
Qed.

Lemma resync_messages_run (rows : list MessageRow) (st : ResyncState) (w : World) :
  exists st' w',
    for_each rows (resync_message E) st w = (Ok st', w') /\
    resync_message_effect rows st st' w w'.
Proof.
  revert st w. induction rows as [|row rows IH]; intros st w.
  - exists st, w. split; [reflexivity|]. unfold resync_message_effect, resync_endpoint_ids,
      resync_edge_keys. cbn. rewrite !(left_id_L ∅ (∪)). repeat split; lia.
  - destruct (resync_message_run row st w) as (st1 & w1 & Hrun1 & H1).
    destruct (IH st1 w1) as (st2 & w2 & Hrun2 & H2).
    exists st2, w2. cbn [for_each]. rewrite (bind_ok _ _ _ _ _ Hrun1). split; [exact Hrun2|].
    exact (resync_message_effect_trans [row] rows _ _ _ _ _ _ H1 H2).
Qed.

End ResyncCommits.

(** The whole resynchronisation against a store that commits. *)
Lemma resync_graph_run (E : Env) (clear_first : bool) (l : Ledger) (w : World) :
  graph_enabled E = true -> graph_commits E ->
  let new := first_occurrences ∅ (resync_contact_ids (contacts l)) in
  exists stats w',
    resync_graph E clear_first (Ok l) w = (Ok stats, w') /\
    person_calls (g_log (graph w')) = (person_calls (g_log (graph w)) ++ new)%list /\
    cleared stats = clear_first /\ detail stats = None /\
    contacts_synced stats = Z.of_nat (length new) /\
    skipped_contacts stats
    = Z.of_nat (length (List.filter
                          (fun row => match resync_identifiers row with
                                      | [] => true | _ => false end) (contacts l))) /\
    relationships_synced stats = Z.of_nat (length (List.filter syncable (messages l))) /\
    skipped_messages stats
    = Z.of_nat (length (List.filter (fun row => negb (syncable row)) (messages l))) /\
    dom (persons (graph w'))
    = resync_endpoint_ids (messages l) ∪ (list_to_set new
        ∪ (if clear_first then ∅ else dom (persons (graph w)))) /\
    dom (relationships (graph w'))
    = resync_edge_keys (messages l)
        ∪ (if clear_first then ∅ else dom (relationships (graph w))).
Proof.
  intros Hon Hc. cbv zeta. unfold resync_graph. rewrite Hon. cbn [negb].
  set (w0 := if clear_first
             then set_graph {| persons := ∅; relationships := ∅; g_log := g_log (graph w) |}
                    (set_clock (S (clock w)) w)
             else w).
  assert (Hstart : (if clear_first
                    then let* was_cleared := clear_all E in
                         ret (set_cleared was_cleared new_GraphResyncStats)
                    else ret new_GraphResyncStats) w
                   = (Ok (set_cleared clear_first new_GraphResyncStats), w0)).
  { unfold w0. destruct clear_first; [|reflexivity].
    unfold clear_all. rewrite Hon. cbn [negb].
    unfold execute_write, bind, tick, modify, ret. rewrite Hc. reflexivity. }
  rewrite (bind_ok _ _ _ _ _ Hstart).
  replace (clear_first && negb (cleared (set_cleared clear_first new_GraphResyncStats)))
    with false by (destruct clear_first; reflexivity).
  destruct (resync_contacts_run E Hon Hc (contacts l)
              {| rs_stats := set_cleared clear_first new_GraphResyncStats;
                 rs_alias_map := ∅; rs_seen_contacts := ∅ |} w0)
    as (st1 & w1 & Hrun1 & A1 & A2 & A3 & A4 & A5 & A6 & A7 & A8 & A9 & A10).
  destruct (resync_messages_run E Hon Hc (messages l) st1 w1)
    as (st2 & w2 & Hrun2 & B1 & B2 & B3 & B4 & B5 & B6 & B7 & B8 & B9).
  exists (rs_stats st2), w2.
  rewrite (bind_ok _ _ _ _ _ Hrun1), (bind_ok _ _ _ _ _ Hrun2).
  cbn [rs_stats rs_seen_contacts] in *.
  split; [reflexivity|].
  assert (Hlog : g_log (graph w0) = g_log (graph w)) by (unfold w0; destruct clear_first; reflexivity).
  assert (Hp : dom (persons (graph w0)) = if clear_first then ∅ else dom (persons (graph w))).
  { unfold w0. destruct clear_first; [apply dom_empty_L|reflexivity]. }
  assert (Hr : dom (relationships (graph w0))
               = if clear_first then ∅ else dom (relationships (graph w))).
  { unfold w0. destruct clear_first; [apply dom_empty_L|reflexivity]. }
  rewrite B1, A1, Hlog, person_calls_app, person_calls_persons.
  rewrite B2, A3, B3, A4, B4, A7, B5, A8, B6, A5, B7, A6, B8, A9, B9, A10, Hp, Hr.
  cbn. repeat split; lia.
Qed.

(** X12.  A resynchronisation against a store that commits registers every
    canonical identifier of the contact rows exactly once, however often the
    rows list it: the register-person calls it issues are pairwise distinct,
    they are the identifiers of the rows, and [contacts_synced] is their
    number; [skipped_contacts] counts the rows that yield no identifier. *)
Theorem resync_registers_each_identifier_once (E : Env) (clear_first : bool) (l : Ledger)
    (w : World) :
  graph_enabled E = true -> graph_commits E ->
  let out := resync_graph E clear_first (Ok l) w in
  exists stats calls,
    fst out = Ok stats /\
    person_calls (g_log (graph (snd out))) = (person_calls (g_log (graph w)) ++ calls)%list /\
    NoDup calls /\
    (forall id, In id calls <-> In id (resync_contact_ids (contacts l))) /\
    contacts_synced stats = Z.of_nat (length calls) /\
    skipped_contacts stats
    = Z.of_nat (length (List.filter
                          (fun row => match resync_identifiers row with
                                      | [] => true | _ => false end) (contacts l))) /\
    detail stats = None.
Proof.
  intros Hon Hc. cbv zeta.
  destruct (resync_graph_run E clear_first l w Hon Hc)
    as (stats & w' & Hrun & Hlog & _ & Hd & Hcs & Hsk & _).
  rewrite Hrun. cbn [fst snd].
  exists stats, (first_occurrences ∅ (resync_contact_ids (contacts l))).
  destruct (first_occurrences_spec ∅ (resync_contact_ids (contacts l))) as [Hnd Hin].
  split; [reflexivity|]. split; [exact Hlog|]. split; [exact Hnd|].
  split; [|split; [exact Hcs|split; [exact Hsk|exact Hd]]].
  intros id. rewrite Hin. split; [tauto|]. intros H. split; [exact H|].
  apply not_elem_of_empty.
Qed.

Lemma resync_registers_witness :
  let out := resync_graph sample_env false (Ok sample_sync_ledger) empty_world in
  length (contacts sample_sync_ledger) = 2%nat /\
  person_calls (g_log (graph (snd out))) = ["+15551230002"] /\
  exists stats calls,
    fst out = Ok stats /\
    person_calls (g_log (graph (snd out)))
    = (person_calls (g_log (graph empty_world)) ++ calls)%list /\
    NoDup calls /\
    (forall id, In id calls <-> In id (resync_contact_ids (contacts sample_sync_ledger))) /\
    contacts_synced stats = Z.of_nat (length calls) /\
    skipped_contacts stats
    = Z.of_nat (length (List.filter
                          (fun row => match resync_identifiers row with
                                      | [] => true | _ => false end)
                          (contacts sample_sync_ledger))) /\
    detail stats = None.
Proof.
  split; [reflexivity|]. split; [vm_compute; reflexivity|].
  apply (resync_registers_each_identifier_once sample_env false sample_sync_ledger
           empty_world eq_refl sample_env_commits).
Defined.

(** X13.  With [clear_first] and a store that commits, the graph a
    resynchronisation leaves is a function of the ledger alone: its person
    nodes are the canonical identifiers of the contact rows and of the two
    actors of every message row the client accepts, its edges the keys of
    these message rows, whatever the graph held before; without
    [clear_first] the same keys are added to the ones the graph has.  Every
    message row is counted, as synchronised when the client accepts it and
    as skipped otherwise. *)
Theorem resync_rebuilds_the_keys_of_the_ledger (E : Env) (clear_first : bool) (l : Ledger)
    (w : World) :
  graph_enabled E = true -> graph_commits E ->
  let out := resync_graph E clear_first (Ok l) w in
  dom (persons (graph (snd out)))
  = resync_endpoint_ids (messages l) ∪ (list_to_set (resync_contact_ids (contacts l))
      ∪ (if clear_first then ∅ else dom (persons (graph w)))) /\
  dom (relationships (graph (snd out)))
  = resync_edge_keys (messages l)
      ∪ (if clear_first then ∅ else dom (relationships (graph w))) /\
  exists stats,
    fst out = Ok stats /\ cleared stats = clear_first /\
    relationships_synced stats = Z.of_nat (length (List.filter syncable (messages l))) /\
    skipped_messages stats
    = Z.of_nat (length (List.filter (fun row => negb (syncable row)) (messages l))).
Proof.
  intros Hon Hc. cbv zeta.
  destruct (resync_graph_run E clear_first l w Hon Hc)
    as (stats & w' & Hrun & _ & Hcl & _ & _ & _ & Hrs & Hsm & Hp & Hr).
  rewrite Hrun. cbn [fst snd].
  split; [|split; [exact Hr|exists stats; auto]].
  rewrite Hp. do 2 f_equal. apply leibniz_equiv. intros id.
  rewrite !elem_of_list_to_set, !list_elem_of_In.
  destruct (first_occurrences_spec ∅ (resync_contact_ids (contacts l))) as [_ Hin].
  rewrite Hin. split; [tauto|]. intros H. split; [exact H|apply not_elem_of_empty].
Qed.

Lemma resync_rebuilds_witness :
  let w := snd (ingest_ufdr_archive sample_env sample_archive "u1" empty_world) in
  let out := resync_graph sample_env true (Ok sample_sync_ledger) w in
  dom (persons (graph (snd out)))
  = resync_endpoint_ids (messages sample_sync_ledger)
      ∪ (list_to_set (resync_contact_ids (contacts sample_sync_ledger)) ∪ ∅).
Proof.
  cbv zeta.
  apply (resync_rebuilds_the_keys_of_the_ledger sample_env true sample_sync_ledger _
           eq_refl sample_env_commits).
Defined.

(** *** Whatever the store does *)

Lemma contacts_progress_refl (st : ResyncState) : contacts_progress ∅ st st.
Proof.
  unfold contacts_progress, stats_progress. rewrite (left_id_L ∅ (∪)).
  repeat split; (reflexivity || lia).
Qed.

Lemma contacts_progress_trans (ids1 ids2 : gset string) (st st1 st2 : ResyncState) :
  contacts_progress ids1 st st1 -> contacts_progress ids2 st1 st2 ->
  contacts_progress (ids1 ∪ ids2) st st2.
Proof.
  intros ((A1 & A2 & A3 & A4 & A5 & A6 & A7) & A8 & A9 & A10)
         ((B1 & B2 & B3 & B4 & B5 & B6 & B7) & B8 & B9 & B10).
  unfold contacts_progress, stats_progress.
  split; [repeat split; (congruence || lia)|].
  split; [etransitivity; eassumption|]. split; [|lia].
  intros x Hx. apply B9 in Hx. apply elem_of_union in Hx as [Hx|Hx].
  - apply elem_of_union_l, elem_of_union_r, Hx.
  - apply A9 in Hx. apply elem_of_union in Hx as [Hx|Hx].
    + apply elem_of_union_l, elem_of_union_l, Hx.
    + apply elem_of_union_r, Hx.
Qed.

Lemma resync_identifier_progress (E : Env) (row : ContactRow) (pn : option string)
    (canonical raw : string) (st : ResyncState) (w : World) :
  exists st' w',
    resync_identifier E row pn (canonical, raw) st w = (Ok st', w') /\
    contacts_progress {[canonical]} st st'.
Proof.
  unfold resync_identifier.
  destruct (bool_decide (canonical ∈ rs_seen_contacts st)) eqn:Hseen.
  - eexists _, w. split; [reflexivity|]. unfold contacts_progress, stats_progress. cbn.
    repeat split; try (reflexivity || lia). apply union_subseteq_r.
  - apply bool_decide_eq_false in Hseen.
    destruct (register_person_effect E canonical pn (c_given_name row) (c_family_name row)
                (Some raw) (Some (c_source row)) w) as (success & w1 & Hrun & _).
    rewrite (bind_ok _ _ _ _ _ Hrun). destruct success.
    + eexists _, w1. split; [reflexivity|]. unfold contacts_progress, stats_progress. cbn.
      rewrite size_union by (apply disjoint_singleton_l; exact Hseen).
      rewrite size_singleton.
      repeat split; try (reflexivity || lia). apply union_subseteq_r.
    + eexists _, w1. split; [reflexivity|]. unfold contacts_progress, stats_progress. cbn.
      repeat split; try (reflexivity || lia). apply union_subseteq_r.
Qed.

Lemma resync_identifiers_progress (E : Env) (row : ContactRow) (pn : option string)
    (ids : list (string * string)) (st : ResyncState) (w : World) :
  exists st' w',
    for_each ids (resync_identifier E row pn) st w = (Ok st', w') /\
    contacts_progress (list_to_set (map fst ids)) st st'.
Proof.
  revert st w. induction ids as [|[canonical raw] ids IH]; intros st w.
  - exists st, w. split; [reflexivity|apply contacts_progress_refl].
  - destruct (resync_identifier_progress E row pn canonical raw st w)
      as (st1 & w1 & Hrun1 & H1).
    destruct (IH st1 w1) as (st2 & w2 & Hrun2 & H2).
    exists st2, w2. cbn [for_each]. rewrite (bind_ok _ _ _ _ _ Hrun1). split; [exact Hrun2|].
    exact (contacts_progress_trans _ _ _ _ _ H1 H2).
Qed.

Lemma resync_contacts_progress (E : Env) (rows : list ContactRow) (st : ResyncState)
    (w : World) :
  exists st' w',
    for_each rows (resync_contact E) st w = (Ok st', w') /\
    contacts_progress (list_to_set (resync_contact_ids rows)) st st'.
Proof.
  revert st w. induction rows as [|row rows IH]; intros st w.
  - exists st, w. split; [reflexivity|apply contacts_progress_refl].
  - assert (H1 : exists st1 w1, resync_contact E row st w = (Ok st1, w1) /\
                   contacts_progress (list_to_set (map fst (resync_identifiers row))) st st1).
    { unfold resync_contact. cbv zeta. destruct (resync_identifiers row) as [|id ids] eqn:Hids.
      - eexists _, w. split; [reflexivity|]. unfold contacts_progress, stats_progress. cbn.
        repeat split; try (reflexivity || lia). apply union_subseteq_r.
      - apply resync_identifiers_progress. }
    destruct H1 as (st1 & w1 & Hrun1 & H1).
    destruct (IH st1 w1) as (st2 & w2 & Hrun2 & H2).
    exists st2, w2. cbn [for_each]. rewrite (bind_ok _ _ _ _ _ Hrun1). split; [exact Hrun2|].
    unfold resync_contact_ids. cbn [flat_map]. rewrite list_to_set_app_L.
    exact (contacts_progress_trans _ _ _ _ _ H1 H2).
Qed.

Lemma resync_message_progress (E : Env) (row : MessageRow) (st : ResyncState) (w : World) :
  exists st' w',
    resync_message E row st w = (Ok st', w') /\ messages_progress [row] st st'.
Proof.
  unfold resync_message, messages_progress, stats_progress. cbn [List.filter length].
  unfold syncable.
  destruct (canonicalize_actor (m_sender row)) as [[|c1 s1]|];
    try (eexists _, w; split; [reflexivity|]; cbn; repeat split; lia).
  destruct (canonicalize_actor (m_receiver row)) as [[|c2 s2]|];
    try (eexists _, w; split; [reflexivity|]; cbn; repeat split; lia).
  cbn [truthy negb orb andb from_option id fst snd].
  unfold register_message. cbv beta iota zeta delta [bind modify ret].
  destruct (negb (graph_enabled E)).
  { eexists _, _. split; [reflexivity|]. cbn.
    destruct (negb _); cbn; repeat split; lia. }
  destruct (String.eqb (m_external_id row) "") eqn:Hid;
    cbn [negb orb andb String.eqb from_option id].
  - eexists _, _. split; [reflexivity|]. cbn. repeat split; lia.
  - unfold execute_write, bind, tick, modify, ret. cbn [clock set_graph].
    destruct (neo4j_commits E _); eexists _, _; (split; [reflexivity|]); cbn;
      repeat split; lia.
Qed.

Lemma resync_messages_progress (E : Env) (rows : list MessageRow) (st : ResyncState)
    (w : World) :
  exists st' w',
    for_each rows (resync_message E) st w = (Ok st', w') /\ messages_progress rows st st'.
Proof.
  revert st w. induction rows as [|row rows IH]; intros st w.
  - exists st, w. split; [reflexivity|]. unfold messages_progress, stats_progress. cbn.
    repeat split; lia.
  - destruct (resync_message_progress E row st w) as (st1 & w1 & Hrun1 & H1).
    destruct (IH st1 w1) as (st2 & w2 & Hrun2 & H2).
    exists st2, w2. cbn [for_each]. rewrite (bind_ok _ _ _ _ _ Hrun1). split; [exact Hrun2|].
    destruct H1 as ((A1 & A2 & A3 & A4 & A5 & A6 & A7) & A8 & A9 & A10).
    destruct H2 as ((B1 & B2 & B3 & B4 & B5 & B6 & B7) & B8 & B9 & B10).
    unfold messages_progress, stats_progress.
    change (row :: rows) with ([row] ++ rows)%list.
    rewrite List.filter_app, !length_app. cbn [length] in *.
    repeat split; (congruence || lia).
Qed.

(** X14.  Whatever the graph store does, a resynchronisation that reads the
    ledger accounts for every message row exactly once, as synchronised or
    as skipped, counts as synchronised only rows the client accepts, and
    never counts more contacts than the rows have distinct canonical
    identifiers; a failing write is counted as skipped, not raised. *)
Theorem resync_counts_every_message_once (E : Env) (l : Ledger) (w : World) :
  graph_enabled E = true ->
  exists stats,
    fst (resync_graph E false (Ok l) w) = Ok stats /\
    detail stats = None /\ cleared stats = false /\
    relationships_synced stats + skipped_messages stats = Z.of_nat (length (messages l)) /\
    0 <= relationships_synced stats <= Z.of_nat (length (List.filter syncable (messages l))) /\
    0 <= skipped_messages stats /\ 0 <= skipped_contacts stats /\
    0 <= contacts_synced stats
      <= Z.of_nat (size (list_to_set (resync_contact_ids (contacts l)) : gset string)).
Proof.
  intros Hon. unfold resync_graph. rewrite Hon. cbn [negb andb]. unfold bind at 1.
  unfold ret at 1.
  destruct (resync_contacts_progress E (contacts l)
              {| rs_stats := new_GraphResyncStats; rs_alias_map := ∅;
                 rs_seen_contacts := ∅ |} w)
    as (st1 & w1 & Hrun1 & (A1 & A2 & A3 & A4 & A5 & A6 & A7) & A8 & A9 & A10).
  destruct (resync_messages_progress E (messages l) st1 w1)
    as (st2 & w2 & Hrun2 & (B1 & B2 & B3 & B4 & B5 & B6 & B7) & B8 & B9 & B10).
  rewrite (bind_ok _ _ _ _ _ Hrun1), (bind_ok _ _ _ _ _ Hrun2).
  exists (rs_stats st2). cbn [fst rs_stats rs_seen_contacts new_GraphResyncStats cleared detail
    contacts_synced relationships_synced skipped_contacts skipped_messages] in *.
  rewrite size_empty in A10. rewrite (right_id_L ∅ (∪)) in A9.
  apply subseteq_size in A9.
  split; [reflexivity|]. repeat split; (congruence || lia).
Qed.

Lemma resync_counts_witness :
  exists stats,
    fst (resync_graph unreliable_graph_env false (Ok sample_sync_ledger) empty_world) = Ok stats /\
    detail stats = None /\ cleared stats = false /\
    relationships_synced stats + skipped_messages stats
    = Z.of_nat (length (messages sample_sync_ledger)) /\
    0 <= relationships_synced stats
      <= Z.of_nat (length (List.filter syncable (messages sample_sync_ledger))) /\
    0 <= skipped_messages stats /\ 0 <= skipped_contacts stats /\
    0 <= contacts_synced stats
      <= Z.of_nat (size (list_to_set (resync_contact_ids (contacts sample_sync_ledger))
                         : gset string)).
Proof.
  apply (resync_counts_every_message_once unreliable_graph_env sample_sync_ledger empty_world).
  reflexivity.
Defined.

(** X15.  How a resynchronisation fails.  With the graph client disabled
    the endpoint answers 503 and the graph is not touched.  When clearing
    fails it answers 500 and nothing is registered.  When the ledger cannot
    be read it answers with the text of the error, under status 500 (503
    when the text mentions "disabled"), and reports no failure status at all
    when the text is empty; by then a requested clearing has been done, so
    the graph is left empty. *)
Theorem resync_failure_modes (E : Env) (clear_first : bool) (w : World) :
  (graph_enabled E = false ->
   forall db,
     resync_graph_view E clear_first db w
     = (Raise (mk_exn (HTTPException 503) "Neo4j integration is disabled"), w)) /\
  (graph_enabled E = true -> clear_first = true -> neo4j_commits E (clock w) = false ->
   forall db,
     let out := resync_graph_view E clear_first db w in
     fst out = Raise (mk_exn (HTTPException 500) "Failed to clear Neo4j graph") /\
     graph (snd out) = graph w) /\
  (graph_enabled E = true -> (clear_first = true -> neo4j_commits E (clock w) = true) ->
   forall e,
     let out := resync_graph_view E clear_first (Raise e) w in
     fst out
     = (if String.eqb (exn_msg e) "" then
          Ok {| resp_success := false; resp_detail := Some "";
                resp_stats := stats_unread clear_first "" |}
        else
          Raise (mk_exn (HTTPException
                           (if contains "disabled" (lower (exn_msg e)) then 503 else 500))
                   (exn_msg e))) /\
     persons (graph (snd out)) = (if clear_first then ∅ else persons (graph w)) /\
     relationships (graph (snd out)) = (if clear_first then ∅ else relationships (graph w))).
Proof.
  split; [|split].
  - intros Hoff db. unfold resync_graph_view, resync_graph. rewrite Hoff. reflexivity.
  - intros Hon -> Hfail db. cbv zeta. unfold resync_graph_view, resync_graph, clear_all.
    rewrite Hon. cbn [negb]. unfold execute_write, bind, tick, modify, ret, lift.
    rewrite Hfail. cbn. split; reflexivity.
  - intros Hon Hclear e. cbv zeta. unfold resync_graph_view, resync_graph, clear_all.
    rewrite Hon. cbn [negb]. destruct clear_first.
    + unfold execute_write, bind, tick, modify, ret, lift. rewrite (Hclear eq_refl). cbn.
      unfold _stats_to_response. cbn. destruct (exn_msg e) as [|c s]; cbn; [auto|].
      destruct (contains _ _); auto.
    + unfold bind, ret, lift. cbn. unfold _stats_to_response. cbn.
      destruct (exn_msg e) as [|c s]; cbn; [auto|]. destruct (contains _ _); auto.
Qed.

Lemma resync_failure_witness :
  let w := snd (ingest_ufdr_archive sample_env sample_archive "u1" empty_world) in
  let out := resync_graph_view sample_env true
               (Raise (mk_exn DatabaseError "unable to open database file")) w in
  size (persons (graph w)) = 2%nat /\
  fst out = Raise (mk_exn (HTTPException 500) "unable to open database file") /\
  persons (graph (snd out)) = ∅.
Proof.
  split; [vm_compute; reflexivity|].
  destruct (resync_failure_modes sample_env true
              (snd (ingest_ufdr_archive sample_env sample_archive "u1" empty_world)))
    as (_ & _ & H).
  destruct (H eq_refl (fun _ => eq_refl)
              (mk_exn DatabaseError "unable to open database file")) as (H1 & H2 & _).
  split; [exact H1|exact H2].
Defined.

(** ** Answering a query *)

Lemma clamp_top_k (k : Z) : 1 <= Z.max 1 (Z.min k 20) <= 20.
Proof. lia. Qed.

(** X16.  [run_query] guards its collaborators.  With an incomplete
    configuration it answers 503 and calls nothing.  Otherwise it searches
    exactly once, with a number of results between 1 and 20 whatever the
    request and the configured default are, and asks Gemini at most once and
    only after the search returned; a [RuntimeError] of the search becomes
    status 500, one of Gemini status 502, and any other exception of either
    reaches the caller as it is.  A response carries the evidence the
    context sections were built from. *)
Theorem run_query_guards_its_calls (E : QueryEnv) (payload : QueryRequest) :
  match run_query E payload with
  | (Raise e, []) =>
      exists text, e = http_error 503 text /\
        settings_vector_store_enabled E && truthy (settings_gemini_api_key E)
        && store_is_enabled E = false
  | (Raise e, [CallSearch query k where_]) =>
      query = question payload /\ 1 <= k <= 20 /\
      exists e0, similarity_search E query k where_ = Raise e0 /\
        e = (if caught_by [RuntimeError] e0 then http_error 500 (exn_msg e0) else e0)
  | (Raise e, [CallSearch query k where_; CallGenerate asked sections turns]) =>
      query = question payload /\ asked = question payload /\ 1 <= k <= 20 /\
      is_ok (similarity_search E query k where_) = true /\
      exists e0, gemini_answer E asked sections turns = Raise e0 /\
        e = (if caught_by [RuntimeError] e0 then http_error 502 (exn_msg e0) else e0)
  | (Ok response, [CallSearch query k where_; CallGenerate asked sections turns]) =>
      query = question payload /\ asked = question payload /\ 1 <= k <= 20 /\
      is_ok (similarity_search E query k where_) = true /\
      gemini_answer E asked sections turns = Ok (answer response) /\
      sections = _build_context_sections E (evidence response) /\
      model response = gemini_model_name E
  | _ => False
  end.
Proof.
  unfold run_query.
  destruct (settings_vector_store_enabled E); cbn [negb andb];
    [|eexists; split; reflexivity].
  destruct (truthy (settings_gemini_api_key E)); cbn [negb andb];
    [|eexists; split; reflexivity].
  destruct (store_is_enabled E); cbn [negb andb]; [|eexists; split; reflexivity].
  cbv zeta.
  match goal with |- context [Z.max 1 (Z.min ?k 20)] =>
    pose proof (clamp_top_k k) as Hk; set (n := Z.max 1 (Z.min k 20)) in *
  end.
  match goal with |- context [similarity_search E _ n ?f] => set (where_ := f) end.
  destruct (similarity_search E (question payload) n where_) as [results|e0] eqn:Hsearch.
  - cbn [app].
    match goal with |- context [gemini_answer E ?q ?s ?t] =>
      destruct (gemini_answer E q s t) as [text|e1] eqn:Hanswer
    end.
    + cbn. rewrite Hsearch. repeat split; (exact Hanswer || lia).
    + destruct (caught_by [RuntimeError] e1) eqn:Hcaught.
      * split; [reflexivity|]. split; [reflexivity|]. split; [exact Hk|].
        rewrite Hsearch. split; [reflexivity|]. exists e1. rewrite Hcaught.
        split; [exact Hanswer|reflexivity].
      * split; [reflexivity|]. split; [reflexivity|]. split; [exact Hk|].
        rewrite Hsearch. split; [reflexivity|]. exists e1. rewrite Hcaught.
        split; [exact Hanswer|reflexivity].
  - destruct (caught_by [RuntimeError] e0) eqn:Hcaught.
    + split; [reflexivity|]. split; [exact Hk|]. exists e0. rewrite Hcaught.
      split; [exact Hsearch|reflexivity].
    + split; [reflexivity|]. split; [exact Hk|]. exists e0. rewrite Hcaught.
      split; [exact Hsearch|reflexivity].
Qed.

Lemma collect_evidence_from (n : nat) (all : list (option string)) (ids : list string)
    (scores : list (option float)) (metas : list (option (list (string * sqlval)))) :
  let ev := collect_evidence n (drop n all) ids scores metas in
  map ev_text ev = somes (List.filter truthy (drop n all)) /\
  (forall j item, ev !! j = Some item ->
     exists i, (n + j <= i)%nat /\ all !! i = Some (Some (ev_text item)) /\
       ev_text item <> "" /\
       ev_id item = default ("evidence-" ++ nat_str i) (ids !! i) /\
       ev_score item = default None (scores !! i) /\
       ev_metadata item = _normalize_metadata (default None (metas !! i))).
Proof.
  cbv zeta. remember (drop n all) as rest eqn:Hrest. revert n Hrest.
  induction rest as [|doc rest IH]; intros n Hrest.
  - split; [reflexivity|]. intros j item H. destruct j; discriminate.
  - assert (Hdoc : all !! n = Some doc).
    { rewrite <- (Nat.add_0_r n), <- lookup_drop, <- Hrest. reflexivity. }
    assert (Hnext : rest = drop (S n) all).
    { rewrite <- Nat.add_1_r, <- drop_drop, <- Hrest. reflexivity. }
    destruct (IH (S n) Hnext) as [IHt IHl].
    cbn [collect_evidence List.filter].
    destruct doc as [[|c text]|]; cbn [truthy negb].
    + split; [exact IHt|]. intros j item H. destruct (IHl j item H) as (i & Hi & Hrest').
      exists i. split; [lia|exact Hrest'].
    + split; [cbn [map somes ev_text default]; f_equal; exact IHt|].
      intros [|j] item H.
      * injection H as <-. exists n. cbn. split; [lia|]. split; [exact Hdoc|].
        split; [discriminate|]. repeat split.
      * cbn in H. destruct (IHl j item H) as (i & Hi & Hrest'). exists i.
        split; [lia|exact Hrest'].
    + split; [exact IHt|]. intros j item H. destruct (IHl j item H) as (i & Hi & Hrest').
      exists i. split; [lia|exact Hrest'].
Qed.

(** X17.  The evidence of a response keeps the alignment of the result
    lists.  The items are the non-empty documents, in the order returned;
    each item carries the id, the distance and the metadata found at the
    index of its own document, not at its position among the items, with
    [evidence-<index>] for a missing id, no score for a missing distance and
    no metadata for a missing entry; metadata values that are null are
    dropped. *)
Theorem evidence_keeps_the_index_of_its_document (documents : list (option string))
    (ids : list string) (scores : list (option float))
    (metas : list (option (list (string * sqlval)))) :
  let items := collect_evidence 0 documents ids scores metas in
  map ev_text items = somes (List.filter truthy documents) /\
  (forall j item, items !! j = Some item ->
     exists i, (j <= i)%nat /\ documents !! i = Some (Some (ev_text item)) /\
       ev_text item <> "" /\
       ev_id item = default ("evidence-" ++ nat_str i) (ids !! i) /\
       ev_score item = default None (scores !! i) /\
       ev_metadata item = _normalize_metadata (default None (metas !! i))) /\
  (forall raw key value, In (key, value) (_normalize_metadata raw) ->
     exists cell, cell <> VNull /\ value = py_str cell /\
       exists entries, raw = Some entries /\ In (key, cell) entries).
Proof.
  cbv zeta. destruct (collect_evidence_from 0 documents ids scores metas) as [Ht Hl].
  rewrite drop_0 in Ht, Hl. split; [exact Ht|]. split; [exact Hl|].
  intros [entries|] key value Hin; [|destruct Hin].
  unfold _normalize_metadata in Hin. apply in_flat_map in Hin as ([k cell] & Hin & Hkv).
  exists cell. destruct cell; cbn in Hkv; try destruct Hkv as [[= <- <-]|[]];
    try (split; [discriminate|]; split; [reflexivity|]; exists entries; auto).
  destruct Hkv.
Qed.

(** The second document, the first one being empty, keeps the second id. *)
Lemma evidence_witness :
  exists item,
    collect_evidence 0 [None; Some "wiped at 09:00"] ["a"; "b"] [] [] !! 0%nat = Some item /\
    ev_id item = "b" /\ ev_score item = None /\ ev_metadata item = [].
Proof.
  destruct (evidence_keeps_the_index_of_its_document
              [None; Some "wiped at 09:00"] ["a"; "b"] [] []) as (_ & H & _).
  eexists. split; [reflexivity|].
  destruct (H 0%nat _ eq_refl) as (i & _ & Hdoc & _ & Hid & Hs & Hm).
  destruct i as [|[|i]]; [discriminate Hdoc| |discriminate Hdoc].
  split; [exact Hid|]. split; [exact Hs|exact Hm].
Defined.

(** ** The Gemini client *)

Lemma lower_app (s t : string) : lower (s ++ t) = lower s ++ lower t.
Proof.
  induction s as [|c s IH]; [reflexivity|].
  change (String (lower_char c) (lower (s ++ t)) = String (lower_char c) (lower s ++ lower t)).
  rewrite IH. reflexivity.
Qed.

Lemma lower_slice_from (n : nat) (s : string) : lower (slice_from n s) = slice_from n (lower s).
Proof.
  revert s. induction n as [|n IH]; intros s; [reflexivity|].
  destruct s as [|c s]; [reflexivity|]. cbn. apply IH.
Qed.

Lemma startswith_app (s p t : string) :
  startswith s p = true -> startswith (s ++ t) p = true.
Proof.
  revert s. induction p as [|a p IH]; intros s H; [destruct (s ++ t); reflexivity|].
  destruct s as [|b s]; [discriminate|].
  change (Ascii.eqb a b && startswith (s ++ t) p = true).
  cbn [startswith] in H. apply andb_true_iff in H as [H1 H2]. rewrite H1. apply IH, H2.
Qed.

Lemma startswith_slice_from (p q s : string) :
  startswith s (p ++ q) = true -> startswith (slice_from (String.length p) s) q = true.
Proof.
  revert s. induction p as [|a p IH]; intros s H; [exact H|].
  destruct s as [|b s]; [discriminate|].
  change (Ascii.eqb a b && startswith s (p ++ q) = true) in H.
  apply andb_true_iff in H as [_ H]. cbn [String.length slice_from]. apply IH, H.
Qed.

Lemma legacy_names_with_latest (name : string) :
  existsb (String.eqb name) LEGACY_MODEL_NAMES = true ->
  existsb (String.eqb (name ++ "-latest")) LEGACY_MODEL_NAMES = false.
Proof.
  unfold LEGACY_MODEL_NAMES. cbn [existsb]. intros H.
  repeat (apply orb_true_iff in H as [H|H]); try discriminate;
    apply String.eqb_eq in H; subst name; reflexivity.
Qed.

(** X18.  A configured model name is normalised under one prefix.  The
    name is refused with [ValueError] exactly when it is missing or blank;
    otherwise the result, lower-cased, begins with [models/] and is never
    one of the four retired names, which get [-latest] appended.  The prefix
    test is case-sensitive and the removal of a doubled prefix is not: a
    name that spells the prefix in capitals comes back without a lower-case
    prefix. *)
Theorem normalized_model_names_carry_the_prefix (model_name : option string) :
  match _normalize_model_name model_name with
  | Ok normalized =>
      (exists name, model_name = Some name /\ strip name <> "") /\
      startswith (lower normalized) "models/" = true /\
      existsb (String.eqb (lower normalized)) LEGACY_MODEL_NAMES = false
  | Raise e =>
      exn_cls e = ValueError /\
      (model_name = None \/ exists name, model_name = Some name /\ strip name = "")
  end /\
  _normalize_model_name (Some "gemini-1.5-pro") = Ok "models/gemini-1.5-pro-latest" /\
  _normalize_model_name (Some "models/MODELS/gemini-2.5-flash") = Ok "MODELS/gemini-2.5-flash".
Proof.
  split; [|split; vm_compute; reflexivity].
  unfold _normalize_model_name. destruct model_name as [name|]; [|split; auto].
  destruct (truthy (Some name)) eqn:Htruthy; cbn [negb].
  2: { split; [reflexivity|]. right. exists name. split; [reflexivity|].
       destruct name; [reflexivity|discriminate]. }
  destruct (String.eqb (strip name) "") eqn:Hblank.
  { apply String.eqb_eq in Hblank. split; [reflexivity|]. right. exists name. auto. }
  apply String.eqb_neq in Hblank.
  set (prefixed := if negb (startswith (strip name) "models/")
                   then "models/" ++ strip name else strip name).
  assert (Hprefixed : startswith (lower prefixed) "models/" = true).
  { unfold prefixed. destruct (startswith (strip name) "models/") eqn:Hp; cbn [negb].
    - revert Hp. generalize (strip name). intros s Hp.
      repeat (destruct s as [|? s]; [discriminate|];
              cbn [startswith] in Hp; apply andb_true_iff in Hp as [Hc Hp];
              apply Ascii.eqb_eq in Hc; subst).
      destruct s; reflexivity.
    - rewrite lower_app. apply (startswith_app (lower "models/")). reflexivity. }
  destruct (startswith (lower prefixed) "models/models/") eqn:Hdouble.
  - assert (Hsliced : startswith (lower (slice_from 7 prefixed)) "models/" = true).
    { rewrite lower_slice_from. apply (startswith_slice_from "models/" "models/"), Hdouble. }
    destruct (existsb _ _ && _) eqn:Hlegacy.
    + apply andb_true_iff in Hlegacy as [Hlegacy _].
      split; [exists name; auto|]. rewrite lower_app.
      split; [apply startswith_app, Hsliced|].
      apply (legacy_names_with_latest _ Hlegacy).
    + split; [exists name; auto|]. split; [exact Hsliced|].
      apply andb_false_iff in Hlegacy as [Hlegacy|Hlegacy]; [exact Hlegacy|].
      apply negb_false_iff in Hlegacy.
      destruct (existsb _ LEGACY_MODEL_NAMES) eqn:Hin; [|reflexivity].
      unfold LEGACY_MODEL_NAMES in Hin. cbn [existsb] in Hin.
      repeat (apply orb_true_iff in Hin as [Hin|Hin]); try discriminate;
        apply String.eqb_eq in Hin; rewrite Hin in Hlegacy; discriminate.
  - destruct (existsb _ _ && _) eqn:Hlegacy.
    + apply andb_true_iff in Hlegacy as [Hlegacy _].
      split; [exists name; auto|]. rewrite lower_app.
      split; [apply startswith_app, Hprefixed|].
      apply (legacy_names_with_latest _ Hlegacy).
    + split; [exists name; auto|]. split; [exact Hprefixed|].
      apply andb_false_iff in Hlegacy as [Hlegacy|Hlegacy]; [exact Hlegacy|].
      apply negb_false_iff in Hlegacy.
      destruct (existsb _ LEGACY_MODEL_NAMES) eqn:Hin; [|reflexivity].
      unfold LEGACY_MODEL_NAMES in Hin. cbn [existsb] in Hin.
      repeat (apply orb_true_iff in Hin as [Hin|Hin]); try discriminate;
        apply String.eqb_eq in Hin; rewrite Hin in Hlegacy; discriminate.
Qed.

Lemma generate_attempts_fail (g : nat -> GenerateOutcome) (remaining attempt : nat)
    (last_error : option string) :
  (forall i, (attempt <= i < attempt + remaining)%nat -> retry_error (g i) <> None) ->
  generate_attempts g attempt remaining last_error
  = Raise (mk_exn RuntimeError
             ("Gemini request failed: "
              ++ default "None"
                   (match remaining with
                    | O => last_error
                    | S r => retry_error (g (attempt + r)%nat)
                    end))).
Proof.
  revert attempt last_error.
  induction remaining as [|r IH]; intros attempt last_error Hall; [reflexivity|].
  assert (Hrest : forall i, (S attempt <= i < S attempt + r)%nat -> retry_error (g i) <> None)
    by (intros i Hi; apply Hall; lia).
  pose proof (Hall attempt ltac:(lia)) as Hfirst.
  cbn [generate_attempts]. unfold retry_error in Hfirst.
  assert (Hlast : forall e, retry_error (g attempt) = Some e ->
            match r with
            | O => Some e
            | S r' => retry_error (g (S attempt + r')%nat)
            end = retry_error (g (attempt + r)%nat)).
  { intros e He. destruct r as [|r']; [rewrite Nat.add_0_r; symmetry; exact He|].
    f_equal. f_equal. lia. }
  unfold retry_error in Hlast at 1.
  destruct (g attempt) as [text|message|e].
  - destruct (truthy text); [congruence|]. rewrite IH by exact Hrest.
    rewrite (Hlast _ eq_refl). reflexivity.
  - rewrite IH by exact Hrest. rewrite (Hlast _ eq_refl). reflexivity.
  - destruct (caught_by [ValueError] e); [|congruence]. rewrite IH by exact Hrest.
    rewrite (Hlast _ eq_refl). reflexivity.
Qed.

Lemma generate_attempts_answer (g : nat -> GenerateOutcome) (k remaining attempt : nat)
    (last_error : option string) (text : string) :
  (k < remaining)%nat ->
  (forall i, (attempt <= i < attempt + k)%nat -> retry_error (g i) <> None) ->
  g (attempt + k)%nat = GenText (Some text) -> text <> "" ->
  generate_attempts g attempt remaining last_error = Ok (strip text).
Proof.
  revert remaining attempt last_error.
  induction k as [|k IH]; intros remaining attempt last_error Hk Hall Hg Htext.
  - destruct remaining as [|r]; [lia|]. cbn [generate_attempts].
    rewrite Nat.add_0_r in Hg. rewrite Hg. destruct text; [congruence|reflexivity].
  - destruct remaining as [|r]; [lia|]. cbn [generate_attempts].
    pose proof (Hall attempt ltac:(lia)) as Hfirst. unfold retry_error in Hfirst.
    assert (Hnext : generate_attempts g (S attempt) r
                      (retry_error (g attempt)) = Ok (strip text)).
    { apply IH; [lia|intros i Hi; apply Hall; lia| |exact Htext].
      rewrite <- Hg. f_equal. lia. }
    unfold retry_error in Hnext.
    destruct (g attempt) as [t|message|e].
    + destruct (truthy t); [congruence|exact Hnext].
    + exact Hnext.
    + destruct (caught_by [ValueError] e); [exact Hnext|congruence].
Qed.

Lemma generate_attempts_raises (g : nat -> GenerateOutcome) (remaining attempt : nat)
    (last_error : option string) (e : exn) :
  generate_attempts g attempt remaining last_error = Raise e ->
  exn_cls e = RuntimeError \/
  exists i, (attempt <= i < attempt + remaining)%nat /\ g i = GenRaise e
            /\ caught_by [ValueError] e = false.
Proof.
  revert attempt last_error.
  induction remaining as [|r IH]; intros attempt last_error H.
  - injection H as <-. left. reflexivity.
  - cbn [generate_attempts] in H.
    assert (Hstep : forall last, generate_attempts g (S attempt) r last = Raise e ->
              exn_cls e = RuntimeError \/
              exists i, (attempt <= i < attempt + S r)%nat /\ g i = GenRaise e
                        /\ caught_by [ValueError] e = false).
    { intros last Hl. destruct (IH _ _ Hl) as [Hr|(i & Hi & Hgi & Hc)]; [left; exact Hr|].
      right. exists i. split; [lia|auto]. }
    destruct (g attempt) as [text|message|e0] eqn:Hg.
    + destruct (truthy text); [discriminate|]. exact (Hstep _ H).
    + exact (Hstep _ H).
    + destruct (caught_by [ValueError] e0) eqn:Hc; [exact (Hstep _ H)|].
      injection H as <-. right. exists attempt. split; [lia|auto].
Qed.

(** X19.  The retry loop of [generate_answer].  It answers with the
    stripped text of the first attempt that has a non-empty text, provided
    every attempt before it failed with an API error, a [ValueError] or an
    empty response and the attempt is within the configured number; when all
    configured attempts fail in these ways it raises [RuntimeError] naming
    the error of the last one, and with no attempt configured it raises
    [RuntimeError] at once, naming [None].  The only other exceptions that
    leave it are the ones the model raised that are neither. *)
Theorem generate_answer_retries (attempts : Z)
    (generate_content : list (string * string) -> nat -> GenerateOutcome)
    (question : string) (sections : list string)
    (conversation : option (list (string * string))) :
  let g := generate_content (build_contents question sections conversation) in
  let out := generate_answer attempts generate_content question sections conversation in
  (forall k text,
     (Z.of_nat k < attempts) ->
     (forall i, (1 <= i <= k)%nat -> retry_error (g i) <> None) ->
     g (S k) = GenText (Some text) -> text <> "" ->
     out = Ok (strip text)) /\
  ((forall i, 1 <= Z.of_nat i <= attempts -> retry_error (g i) <> None) ->
   out = Raise (mk_exn RuntimeError
                  ("Gemini request failed: "
                   ++ (if attempts <=? 0 then "None"
                       else default "None" (retry_error (g (Z.to_nat attempts))))))) /\
  (forall e, out = Raise e ->
     exn_cls e = RuntimeError \/
     exists i, 1 <= Z.of_nat i <= attempts /\ g i = GenRaise e
               /\ caught_by [ValueError] e = false).
Proof.
  cbv zeta. unfold generate_answer.
  set (g := generate_content (build_contents question sections conversation)).
  split; [|split].
  - intros k text Hk Hall Hg Htext.
    apply (generate_attempts_answer g k); [lia|intros i Hi; apply Hall; lia|exact Hg|exact Htext].
  - intros Hall. rewrite generate_attempts_fail by (intros i Hi; apply Hall; lia).
    destruct (attempts <=? 0) eqn:Hle.
    + apply Z.leb_le in Hle. replace (Z.to_nat attempts) with 0%nat by lia. reflexivity.
    + apply Z.leb_gt in Hle. destruct (Z.to_nat attempts) as [|r] eqn:Hn; [lia|].
      reflexivity.
  - intros e He. destruct (generate_attempts_raises g _ _ _ _ He) as [Hr|(i & Hi & Hgi & Hc)];
      [left; exact Hr|].
    right. exists i. split; [lia|auto].
Qed.

Lemma generate_answer_witness :
  generate_answer 3 sample_generate "When was the device wiped?" [] None
  = Ok "The device was wiped on 2024-01-01 [msg:sms.db:message:1]." /\
  generate_answer 2 sample_generate "When was the device wiped?" [] None
  = Raise (mk_exn RuntimeError "Gemini request failed: Gemini returned an empty response.").
Proof.
  destruct (generate_answer_retries 3 sample_generate "When was the device wiped?" [] None)
    as (Hanswer & _).
  destruct (generate_answer_retries 2 sample_generate "When was the device wiped?" [] None)
    as (_ & Hfail & _).
  split.
  - apply (Hanswer 2%nat " The device was wiped on 2024-01-01 [msg:sms.db:message:1]. ").
    + lia.
    + intros [|[|[|i]]] Hi; try lia; discriminate.
    + reflexivity.
    + discriminate.
  - apply Hfail. intros [|[|[|i]]] Hi; try lia; discriminate.
Defined.

(** ** Failures of the archive itself, and of a timestamp *)

(** X20.  An upload is refused before any store is touched when the
    archive itself fails: status 400 without a file name, 507 when the disk
    is full, 500 for another write error, 400 for a file that is not a ZIP
    archive; any other exception of the extraction reaches the caller as it
    is.  In each case the ledger, the graph, the vector store and the
    counters of the previous run are left as they were. *)
Theorem archive_failures_touch_no_store (E : Env) (upload : Upload) (unique_id : string)
    (w : World) :
  let out := ingest_ufdr_archive E upload unique_id w in
  (truthy (up_filename upload) = false ->
   out = (Raise (mk_exn (HTTPException 400) "Uploaded file is missing a filename"), w)) /\
  (truthy (up_filename upload) = true ->
   forall enospc text, up_write_error upload = Some (enospc, text) ->
     snd out = w /\
     exists e, fst out = Raise e /\
       exn_cls e = HTTPException (if enospc then 507 else 500) /\
       (enospc = false -> exn_msg e = "Failed writing UFDR upload to disk: " ++ text)) /\
  (truthy (up_filename upload) = true -> up_write_error upload = None ->
   forall e, up_extract upload = Raise e ->
     out = (Raise (if caught_by [BadZipFile] e
                   then mk_exn (HTTPException 400) "UFDR archive is corrupt or not a valid ZIP"
                   else e), w)).
Proof.
  cbv zeta. unfold ingest_ufdr_archive, persist_upload. split; [|split].
  - intros ->. reflexivity.
  - intros -> enospc text ->. cbn [negb]. destruct enospc; cbn.
    + split; [reflexivity|]. eexists. split; [reflexivity|]. split; [reflexivity|discriminate].
    + split; [reflexivity|]. eexists. split; [reflexivity|]. split; reflexivity.
  - intros -> -> e ->. cbn [negb]. destruct (caught_by [BadZipFile] e); reflexivity.
Qed.

Lemma archive_failures_witness :
  ingest_ufdr_archive sample_env
    {| up_filename := Some "case.ufdr"; up_write_error := None;
       up_extract := Raise (mk_exn BadZipFile "File is not a zip file") |} "u1" empty_world
  = (Raise (mk_exn (HTTPException 400) "UFDR archive is corrupt or not a valid ZIP"),
     empty_world).
Proof.
  destruct (archive_failures_touch_no_store sample_env
              {| up_filename := Some "case.ufdr"; up_write_error := None;
                 up_extract := Raise (mk_exn BadZipFile "File is not a zip file") |}
              "u1" empty_world) as (_ & _ & H).
  exact (H eq_refl eq_refl _ eq_refl).
Defined.

(** X21.  What [_safe_parse_timestamp] can do with a value.  An absent
    value stays absent and a present one never becomes absent.  The only
    exception that leaves the function is an [OSError], and only for a text
    that [float] accepts; a text that [float] refuses is returned rendered
    or verbatim, never raised. *)
Theorem safe_parse_timestamp_error_behaviour (E : Env) (value : option string) :
  match _safe_parse_timestamp E value with
  | Ok None => value = None
  | Ok (Some _) => value <> None
  | Raise e =>
      exn_cls e = OSError /\
      exists text x, value = Some text /\ float_of_str text = Ok x /\
                     fromtimestamp_utc (adjust_numeric x) = Raise e
  end.
Proof.
  pose proof (safe_parse_timestamp_raises_only_OSError E value) as Hos.
  destruct value as [text|]; [|reflexivity].
  unfold _safe_parse_timestamp in *.
  destruct (float_of_str text) as [x|e0] eqn:Hf.
  - destruct (fromtimestamp_utc (adjust_numeric x)) as [d|e1] eqn:Ht; [discriminate|].
    destruct (caught_by [OverflowError; ValueError] e1); [discriminate|].
    split; [apply Hos; reflexivity|]. exists text, x. auto.
  - apply float_of_str_raises_ValueError in Hf.
    unfold caught_by in *. cbn in *. rewrite Hf in *. cbn in *.
    destruct (fromisoformat E text); discriminate.
Qed.

(** ** Strings: stripping and canonical forms *)

Lemma rstrip_cons (c : ascii) (s : string) :
  rstrip (String c s)
  = match rstrip s with
    | EmptyString => if is_space c then EmptyString else String c EmptyString
    | r => String c r
    end.
Proof. reflexivity. Qed.

Lemma rstrip_idempotent (s : string) : rstrip (rstrip s) = rstrip s.
Proof.
  induction s as [|c s IH]; [reflexivity|]. rewrite rstrip_cons.
  destruct (rstrip s) as [|c' r] eqn:Hr.
  - destruct (is_space c) eqn:Hc; [reflexivity|]. cbn. rewrite Hc. reflexivity.
  - rewrite rstrip_cons, IH. reflexivity.
Qed.

Lemma lstrip_head (s : string) :
  match lstrip s with
  | EmptyString => True
  | String c _ => is_space c = false
  end.
Proof.
  induction s as [|c s IH]; [exact I|]. cbn [lstrip].
  destruct (is_space c) eqn:Hc; [exact IH|exact Hc].
Qed.

Lemma rstrip_head (c : ascii) (s : string) :
  is_space c = false -> exists r, rstrip (String c s) = String c r.
Proof.
  intros Hc. cbn [rstrip]. destruct (rstrip s); [rewrite Hc|]; eexists; reflexivity.
Qed.

Lemma strip_idempotent (s : string) : strip (strip s) = strip s.
Proof.
  unfold strip. pose proof (lstrip_head s) as Hhead.
  destruct (lstrip s) as [|c t]; [reflexivity|].
  destruct (rstrip_head c t Hhead) as (r & Hr). rewrite Hr.
  cbn [lstrip]. rewrite Hhead, <- Hr. apply rstrip_idempotent.
Qed.

Lemma all_chars_lstrip (f : ascii -> bool) (s : string) :
  all_chars f s = true -> all_chars f (lstrip s) = true.
Proof.
  induction s as [|c s IH]; [reflexivity|]. cbn [lstrip all_chars]. intros H.
  destruct (is_space c); [apply IH; apply andb_true_iff in H; tauto|exact H].
Qed.

Lemma all_chars_rstrip (f : ascii -> bool) (s : string) :
  all_chars f s = true -> all_chars f (rstrip s) = true.
Proof.
  induction s as [|c s IH]; [reflexivity|]. cbn [rstrip all_chars]. intros H.
  apply andb_true_iff in H as [Hc Hs]. specialize (IH Hs).
  destruct (rstrip s); [destruct (is_space c); cbn; rewrite ?Hc; reflexivity|].
  cbn [all_chars] in *. rewrite Hc, IH. reflexivity.
Qed.

Lemma all_chars_strip (f : ascii -> bool) (s : string) :
  all_chars f s = true -> all_chars f (strip s) = true.
Proof. intros H. apply all_chars_rstrip, all_chars_lstrip, H. Qed.

Lemma all_chars_append (f : ascii -> bool) (s t : string) :
  all_chars f (s ++ t) = all_chars f s && all_chars f t.
Proof.
  induction s as [|c s IH]; [reflexivity|].
  change (f c && all_chars f (s ++ t) = f c && all_chars f s && all_chars f t).
  rewrite IH, andb_assoc. reflexivity.
Qed.

Lemma re_split_tags_parts (skipping : bool) (current s : string) :
  all_chars not_separator current = true ->
  Forall (fun part => all_chars not_separator part = true) (re_split_tags skipping current s).
Proof.
  revert skipping current. induction s as [|c s IH]; intros skipping current Hcur.
  - repeat constructor. exact Hcur.
  - cbn [re_split_tags]. destruct (skipping && is_space c); [apply IH, Hcur|].
    destruct (Ascii.eqb c "," || Ascii.eqb c "010") eqn:Hsep.
    + constructor; [exact Hcur|]. apply IH. reflexivity.
    + apply IH. rewrite all_chars_append, Hcur. cbn. unfold not_separator.
      rewrite Hsep. reflexivity.
Qed.

Lemma stripped_parts_spec (parts : list string) (tag : string) :
  In tag (stripped_parts parts) <->
  tag <> "" /\ exists part, In part parts /\ tag = strip part.
Proof.
  unfold stripped_parts. rewrite filter_In, in_map_iff, negb_true_iff, String.eqb_neq.
  split.
  - intros ((part & <- & Hin) & Hne). split; [exact Hne|]. exists part. auto.
  - intros (Hne & part & Hin & ->). split; [exists part; auto|exact Hne].
Qed.

(** X22.  The tags of an image description are clean.  A missing value
    gives no tag.  A string is cut at commas and line ends, a list is taken
    item by item, and in both cases every tag kept is non-empty and carries
    no blank at either end; a tag cut from a string holds neither a comma
    nor a line end. *)
Theorem normalized_tags_are_clean (value : TagsValue) (tag : string) :
  _normalize_tags TagsNone = [] /\
  (In tag (_normalize_tags value) ->
   match value with
   | TagsNone => False
   | TagsStr _ => tag <> "" /\ strip tag = tag /\ all_chars not_separator tag = true
   | TagsList items => tag <> "" /\ strip tag = tag /\ exists item, In item items /\ tag = strip item
   | TagsOther text => tag = strip text
   end).
Proof.
  split; [reflexivity|]. destruct value as [|text|items|text]; cbn [_normalize_tags].
  - intros [].
  - intros Hin. apply stripped_parts_spec in Hin as (Hne & part & Hpart & ->).
    split; [exact Hne|]. split; [apply strip_idempotent|].
    apply all_chars_strip.
    pose proof (re_split_tags_parts false "" text eq_refl) as Hall.
    rewrite Forall_forall in Hall. apply Hall. apply list_elem_of_In, Hpart.
  - intros Hin. apply stripped_parts_spec in Hin as (Hne & part & Hpart & ->).
    split; [exact Hne|]. split; [apply strip_idempotent|]. exists part. auto.
  - intros [<-|[]]. reflexivity.
Qed.

Lemma normalized_tags_witness :
  _normalize_tags (TagsStr ("cat,  dog" ++ newline ++ "  , two words ,"))
  = ["cat"; "dog"; "two words"] /\
  strip "two words" = "two words".
Proof.
  split; [vm_compute; reflexivity|].
  apply (normalized_tags_are_clean (TagsStr ("cat,  dog" ++ newline ++ "  , two words ,"))
           "two words").
  vm_compute. auto.
Defined.

Lemma lower_char_facts (c : ascii) :
  is_space (lower_char c) = is_space c /\
  isdigit (lower_char c) = isdigit c /\
  (isdigit c = true -> lower_char c = c) /\
  (isdigit c = true -> is_space c = false) /\
  Ascii.eqb "@" (lower_char c) = Ascii.eqb "@" c.
Proof.
  destruct c as [[] [] [] [] [] [] [] []]; vm_compute;
    repeat split; intros; (reflexivity || discriminate).
Qed.

Lemma contains_char_lower (s : string) :
  contains_char "@" (lower s) = contains_char "@" s.
Proof.
  induction s as [|c s IH]; [reflexivity|]. cbn [lower contains_char].
  destruct (lower_char_facts c) as (_ & _ & _ & _ & ->). rewrite IH. reflexivity.
Qed.

Lemma filter_digits_lower (s : string) :
  filter_chars isdigit (lower s) = filter_chars isdigit s.
Proof.
  induction s as [|c s IH]; [reflexivity|]. cbn [lower filter_chars].
  destruct (lower_char_facts c) as (_ & -> & Hsame & _). rewrite IH.
  destruct (isdigit c) eqn:Hd; [rewrite (Hsame eq_refl)|]; reflexivity.
Qed.

Lemma filter_chars_all (f : ascii -> bool) (s : string) :
  all_chars f (filter_chars f s) = true.
Proof.
  induction s as [|c s IH]; [reflexivity|]. cbn [filter_chars].
  destruct (f c) eqn:Hc; [cbn [all_chars]; rewrite Hc|]; exact IH.
Qed.

Lemma digits_fixed (d : string) :
  all_chars isdigit d = true ->
  lstrip d = d /\ rstrip d = d /\ lower d = d /\ filter_chars isdigit d = d /\
  contains_char "@" d = false /\ startswith d "tel:" = false /\ startswith d "+" = false.
Proof.
  intros Hd.
  assert (Hl : lstrip d = d).
  { destruct d as [|c d]; [reflexivity|]. cbn in Hd |- *.
    apply andb_true_iff in Hd as [Hc _].
    destruct (lower_char_facts c) as (_ & _ & _ & Hns & _). rewrite (Hns Hc). reflexivity. }
  assert (Hhead : startswith d "tel:" = false /\ startswith d "+" = false).
  { destruct d as [|c d]; [split; reflexivity|]. cbn in Hd.
    apply andb_true_iff in Hd as [Hc _]. cbn [startswith].
    destruct c as [[] [] [] [] [] [] [] []]; try discriminate; split; reflexivity. }
  split; [exact Hl|]. clear Hl. destruct Hhead as [H1 H2].
  repeat split; try assumption; clear H1 H2.
  - induction d as [|c d IH]; [reflexivity|]. cbn in Hd.
    apply andb_true_iff in Hd as [Hc Hd]. rewrite rstrip_cons, (IH Hd).
    destruct (lower_char_facts c) as (_ & _ & _ & Hns & _). rewrite (Hns Hc).
    destruct d; reflexivity.
  - induction d as [|c d IH]; [reflexivity|]. cbn in Hd |- *.
    apply andb_true_iff in Hd as [Hc Hd]. rewrite (IH Hd).
    destruct (lower_char_facts c) as (_ & _ & Hsame & _). rewrite (Hsame Hc). reflexivity.
  - induction d as [|c d IH]; [reflexivity|]. cbn in Hd |- *.
    apply andb_true_iff in Hd as [Hc Hd]. rewrite Hc, (IH Hd). reflexivity.
  - induction d as [|c d IH]; [reflexivity|]. cbn in Hd |- *.
    apply andb_true_iff in Hd as [Hc Hd]. rewrite (IH Hd), orb_false_r.
    destruct c as [[] [] [] [] [] [] [] []]; try discriminate; reflexivity.
Qed.

Lemma canonicalize_actor_digits (plus : bool) (d : string) :
  all_chars isdigit d = true -> d <> "" ->
  canonicalize_actor (Some ((if plus then "+" else "") ++ d))
  = Some ((if plus then "+" else "") ++ d).
Proof.
  intros Hd Hne.
  destruct (digits_fixed d Hd) as (Hl & Hr & Hlow & Hf & Hat & Htel & Hplus).
  destruct d as [|c d]; [congruence|].
  unfold canonicalize_actor, strip. destruct plus.
  - change ("+" ++ String c d) with (String "+" (String c d)).
    cbn [lstrip]. change (is_space "+") with false. cbv iota.
    rewrite rstrip_cons, Hr. cbv iota.
    change (String.eqb (String "+" (String c d)) "") with false. cbv iota.
    change (lower (String "+" (String c d))) with (String "+" (lower (String c d))).
    rewrite Hlow. change (startswith (String "+" (String c d)) "tel:") with false. cbv iota.
    change (contains_char "@" (String "+" (String c d))) with (contains_char "@" (String c d)).
    rewrite Hat.
    change (filter_chars isdigit (String "+" (String c d)))
      with (filter_chars isdigit (String c d)).
    rewrite Hf. change (String.eqb (String c d) "") with false. cbn [negb].
    cbn [lstrip]. change (is_space "+") with false. cbv iota.
    rewrite rstrip_cons, Hr. reflexivity.
  - change ("" ++ String c d) with (String c d).
    rewrite Hl, Hr. change (String.eqb (String c d) "") with false. cbv iota.
    rewrite Hlow, Htel, Hat, Hf. change (String.eqb (String c d) "") with false.
    cbn [negb]. rewrite Hl, Hr, Hplus. reflexivity.
Qed.

(** X23.  Canonical phone identifiers are stable.  When the canonical
    form of a value has no [@] and holds a digit, it consists of digits
    after an optional leading [+], and canonicalising it again gives it
    back; so an identifier stored in the graph can be looked up by itself. *)
Theorem canonical_phone_identifiers_are_fixed_points (value canonical : string) :
  canonicalize_actor (Some value) = Some canonical ->
  contains_char "@" canonical = false ->
  filter_chars isdigit canonical <> "" ->
  canonicalize_actor (Some canonical) = Some canonical /\
  exists plus digits,
    canonical = (if plus : bool then "+" else "") ++ digits /\
    all_chars isdigit digits = true /\ digits <> "".
Proof.
  intros Hcanon Hat Hdigits. unfold canonicalize_actor in Hcanon.
  destruct (String.eqb (strip value) "") ; [discriminate|].
  set (text := if startswith (lower (strip value)) "tel:"
               then slice_from 4 (strip value) else strip value) in *.
  assert (Hshape : exists plus digits,
            canonical = (if plus : bool then "+" else "") ++ digits /\
            all_chars isdigit digits = true /\ digits <> "").
  { destruct (startswith (lower (strip value)) "tel:"); cbv iota beta in Hcanon;
      fold text in Hcanon.
    all: destruct (contains_char "@" text) eqn:Htext;
      [injection Hcanon as <-; rewrite contains_char_lower, Htext in Hat; discriminate|].
    all: destruct (String.eqb (filter_chars isdigit text) "") eqn:Hnone; cbn [negb] in Hcanon;
      [injection Hcanon as <-; apply String.eqb_eq in Hnone;
       rewrite filter_digits_lower in Hdigits; contradiction|].
    all: apply String.eqb_neq in Hnone; injection Hcanon as <-;
      exists (startswith (strip text) "+"), (filter_chars isdigit text);
      split; [destruct (startswith (strip text) "+"); reflexivity|];
      split; [apply filter_chars_all|exact Hnone]. }
  split; [|exact Hshape].
  destruct Hshape as (plus & digits & -> & Hall & Hne).
  apply canonicalize_actor_digits; assumption.
Qed.

Lemma canonical_phone_witness :
  canonicalize_actor (Some "tel:+1 (555) 123-0001") = Some "+15551230001" /\
  canonicalize_actor (Some "+15551230001") = Some "+15551230001".
Proof.
  split; [reflexivity|].
  apply (canonical_phone_identifiers_are_fixed_points "tel:+1 (555) 123-0001" "+15551230001").
  - reflexivity.
  - reflexivity.
  - discriminate.
Defined.

(** ** Vector identifiers *)

Lemma append_same_prefix (p a b : string) : p ++ a = p ++ b -> a = b.
Proof.
  induction p as [|c p IH]; intros H; [exact H|].
  change (String c (p ++ a) = String c (p ++ b)) in H. injection H as H. exact (IH H).
Qed.

(** X24.  Messages and image captions share one vector collection without
    clashing.  A message gets a vector id exactly when its body is not
    blank; the id is the external id under the prefix [msg:], so two
    messages have one id only when they have one external id; the id of an
    image caption is the row id under the prefix [img:], so two images never
    share one, and no message id is an image id. *)
Theorem vector_ids_do_not_collide (body : option string) (external_id : string) :
  (message_vector_id body external_id <> None <->
   exists text, body = Some text /\ strip text <> "") /\
  (forall v, message_vector_id body external_id = Some v ->
     v = "msg:" ++ external_id /\
     (forall body' external_id', message_vector_id body' external_id' = Some v ->
        external_id' = external_id) /\
     (forall record, v <> caption_vector_id record)) /\
  (forall r1 r2, caption_vector_id r1 = caption_vector_id r2 -> ir_id r1 = ir_id r2).
Proof.
  assert (Hshape : forall b e v, message_vector_id b e = Some v ->
            v = "msg:" ++ e /\ exists text, b = Some text /\ strip text <> "").
  { intros b e v. unfold message_vector_id. destruct b as [text|]; [|discriminate].
    destruct (truthy (Some text)); cbn [andb]; [|discriminate].
    destruct (String.eqb (strip text) "") eqn:Hblank; cbn [negb]; [discriminate|].
    intros [= <-]. split; [reflexivity|]. exists text. split; [reflexivity|].
    apply String.eqb_neq, Hblank. }
  split; [|split].
  - split.
    + destruct (message_vector_id body external_id) as [v|] eqn:Hv; [|congruence].
      intros _. apply (Hshape _ _ _ Hv).
    + intros (text & -> & Hne). unfold message_vector_id.
      assert (Htruthy : truthy (Some text) = true).
      { destruct text; [|reflexivity]. exfalso. apply Hne. reflexivity. }
      rewrite Htruthy. apply String.eqb_neq in Hne. rewrite Hne. discriminate.
  - intros v Hv. destruct (Hshape _ _ _ Hv) as [-> _]. split; [reflexivity|]. split.
    + intros body' external_id' Hv'. destruct (Hshape _ _ _ Hv') as [Heq _].
      symmetry. exact (append_same_prefix "msg:" _ _ Heq).
    + intros record. unfold caption_vector_id. discriminate.
  - apply caption_vector_id_inj.
Qed.

(** A body gives the message its id, a blank body gives none. *)
Lemma vector_ids_witness :
  message_vector_id (Some "hi") "sms.db:message:1" = Some "msg:sms.db:message:1" /\
  message_vector_id (Some "  ") "sms.db:message:2" = None /\
  forall record, "msg:sms.db:message:1" <> caption_vector_id record.
Proof.
  destruct (vector_ids_do_not_collide (Some "hi") "sms.db:message:1") as (_ & H & _).
  destruct (H _ eq_refl) as (_ & _ & Hc).
  split; [reflexivity|]. split; [reflexivity|exact Hc].
Defined.

(** ** The counts of the summary *)

Lemma rows_added_none (w : World) : rows_added 0 0 0 w w.
Proof. unfold rows_added. repeat split; lia. Qed.

Lemma rows_added_trans m1 c1 s1 m2 c2 s2 (w w1 w2 : World) :
  rows_added m1 c1 s1 w w1 -> rows_added m2 c2 s2 w1 w2 ->
  rows_added (m1 + m2) (c1 + c2) (s1 + s2) w w2.
Proof. unfold rows_added. intros (A1 & A2 & A3) (B1 & B2 & B3). repeat split; lia. Qed.

Lemma rows_added_same (w w' : World) : tables_same w w' -> rows_added 0 0 0 w w'.
Proof. intros (H1 & H2 & H3). unfold rows_added. rewrite H1, H2, H3. repeat split; lia. Qed.

Lemma messages_added_rows (k : nat) (w w' : World) :
  messages_added k w w' -> rows_added (Z.of_nat k) 0 0 w w'.
Proof.
  intros (added & Hk & Hm & Hc & Hs & _). unfold rows_added.
  rewrite Hm, Hc, Hs, length_app, Hk. repeat split; lia.
Qed.

Lemma contacts_added_rows (k : nat) (w w' : World) :
  contacts_added k w w' -> rows_added 0 (Z.of_nat k) 0 w w'.
Proof.
  intros (added & Hk & Hc & Hm & Hs & _). unfold rows_added.
  rewrite Hm, Hc, Hs, length_app, Hk. repeat split; lia.
Qed.

#[local] Instance tables_same_refl : Reflexive tables_same.
Proof. intros w. repeat split. Qed.

#[local] Instance tables_same_trans : Transitive tables_same.
Proof. intros a b c (A1 & A2 & A3) (B1 & B2 & B3). repeat split; congruence. Qed.

Lemma tables_same_rollback (w w' : World) :
  tables_same w w' -> tables_same w (set_ledger (ledger w) w').
Proof. intros _. repeat split. Qed.

Lemma log_image_inventory_tables (E : Env) (paths : list Path) (dir : Path) :
  preserves tables_same (log_image_inventory E paths dir).
Proof.
  unfold log_image_inventory. destruct paths as [|p paths]; [apply preserves_ret; typeclasses eauto|].
  apply preserves_with_connection; [exact tables_same_rollback|].
  apply preserves_bind; [typeclasses eauto..| |intros [[records seen] processed];
    apply preserves_ret; typeclasses eauto].
  apply preserves_for_each; [typeclasses eauto..|].
  intros image_path [[records seen] processed]. unfold log_image.
  destruct (bool_decide _); [apply preserves_ret; typeclasses eauto|].
  intros w. cbv beta iota zeta delta [bind get_world put_ledger modify ret].
  unfold insert_or_ignore_image.
  destruct (existsb _ (images (ledger w))); [|repeat split].
  destruct (select_image_by_path _ _) as [[[image_id status] cell]|]; [|repeat split].
  destruct (negb _); repeat split.
Qed.

Lemma caption_step_tables (E : Env) (records : list ImageInventoryRecord)
    (notes : list string) :
  preserves tables_same (caption_step E records notes).
Proof.
  unfold caption_step. destruct records as [|r records]; [apply preserves_ret; typeclasses eauto|].
  apply preserves_try_except; [typeclasses eauto..| |intros e; apply preserves_ret; typeclasses eauto].
  apply preserves_bind; [typeclasses eauto..|
    |intros [captioned recs]; destruct (negb _); apply preserves_ret; typeclasses eauto].
  unfold describe_and_index_images.
  apply preserves_bind; [typeclasses eauto..| |intros _].
  { destruct (vision_client E); [apply preserves_raise|apply preserves_ret]; typeclasses eauto. }
  apply preserves_with_connection; [exact tables_same_rollback|].
  apply preserves_for_each; [typeclasses eauto..|].
  intros record [successes embeddings]. unfold describe_one.
  apply preserves_bind; [typeclasses eauto..| |intros n].
  { intros w. repeat split. }
  apply preserves_try_except; [typeclasses eauto..| |intros e].
  - unfold caption_image.
    apply preserves_bind; [typeclasses eauto..|apply preserves_lift; typeclasses eauto|].
    intros d w. cbv beta iota zeta delta [bind get_world put_ledger modify ret lift].
    unfold update_image_caption. destruct (distinct _); repeat split.
  - apply preserves_bind; [typeclasses eauto..| |intros _; apply preserves_ret; typeclasses eauto].
    intros w. repeat split.
Qed.

Lemma index_step_tables (E : Env) (m i : list EmbeddingRecord) (notes : list string) :
  preserves tables_same (index_step E m i notes).
Proof.
  unfold index_step. destruct (vector_enabled E); [|apply preserves_ret; typeclasses eauto].
  destruct (m ++ i)%list as [|r rs] eqn:Hrecords; [apply preserves_ret; typeclasses eauto|].
  apply preserves_try_except; [typeclasses eauto..| |intros e; apply preserves_ret; typeclasses eauto].
  apply preserves_bind; [typeclasses eauto..| |intros _; apply preserves_ret; typeclasses eauto].
  intros w. destruct (_index_embeddings_only_vectors E (r :: rs) w) as (Hl & _).
  unfold tables_same. rewrite Hl. repeat split.
Qed.

(** What each parser reports and writes, file by file. *)
Lemma ingest_messages_from_sqlite_rows (E : Env) (p : Path) (c : FileContent) (w : World) :
  match ingest_messages_from_sqlite E p c w with
  | (Ok (n, _), w') => rows_added n 0 0 w w'
  | (Raise _, w') => exists m, 0 <= m /\ rows_added m 0 0 w w'
  end.
Proof.
  unfold ingest_messages_from_sqlite, lift. unfold bind at 1.
  destruct (_iter_user_tables c) as [tables|e].
  - pose proof (message_tables_add E p tables 0 [] w) as H.
    destruct (for_each tables _ _ w) as [[[n recs]|e] w'].
    + destruct H as (k & _ & -> & Hadd). apply messages_added_rows, Hadd.
    + destruct H as (k & Hadd). exists (Z.of_nat k). split; [lia|].
      apply messages_added_rows, Hadd.
  - exists 0. split; [lia|apply rows_added_none].
Qed.

Lemma ingest_contacts_from_sqlite_rows (E : Env) (p : Path) (c : FileContent) (w : World) :
  match ingest_contacts_from_sqlite E p c w with
  | (Ok n, w') => rows_added 0 n 0 w w'
  | (Raise _, w') => exists k, 0 <= k /\ rows_added 0 k 0 w w'
  end.
Proof.
  unfold ingest_contacts_from_sqlite, lift. unfold bind at 1.
  destruct (_iter_user_tables c) as [tables|e].
  - destruct (contact_tables_run E p tables 0 w) as (w' & Hrun & Hadd).
    rewrite Hrun. apply contacts_added_rows in Hadd.
    destruct (first_select_error _); [|exact Hadd].
    eexists. split; [|exact Hadd]. lia.
  - exists 0. split; [lia|apply rows_added_none].
Qed.

Lemma xml_contacts_loop (E : Env) (p : Path) (elems : list XmlContact) (count : Z) (w : World) :
  exists w',
    for_each elems
      (fun contact_elem count =>
         let display_name := xc_display_name contact_elem in
         let given_name := xc_first_name contact_elem in
         let family_name := xc_last_name contact_elem in
         let phone_number := xc_phone contact_elem in
         let email := xc_email contact_elem in
         let raw_data : payload :=
           fold_left (fun acc '(tag, text) => <[tag := val_of_opt text]> acc)
             (xc_children contact_elem) ∅ in
         let* _ := modify (fun w =>
           set_ledger
             (insert_contact
                {| c_external_id := path_name p ++ ":" ++ str_of_Z count;
                   c_display_name := display_name;
                   c_given_name := val_of_opt given_name;
                   c_family_name := val_of_opt family_name;
                   c_phone_number := phone_number; c_email := email;
                   c_source := path_str p; c_raw_data := raw_data |}
                (ledger w)) w) in
         let* _ :=
           _register_contact_with_graph E display_name (val_of_opt given_name)
             (val_of_opt family_name) phone_number email (path_str p) in
         ret (count + 1)) count w
    = (Ok (count + Z.of_nat (length elems)), w') /\
    contacts_added (length elems) w w'.
Proof.
  revert count w. induction elems as [|elem elems IH]; intros count w.
  - exists w. cbn. rewrite Z.add_0_r. split; [reflexivity|apply contacts_added_none].
  - cbn [for_each]. cbv zeta. unfold bind at 1. unfold bind at 1. unfold modify at 1.
    unfold bind at 1.
    match goal with |- context [_register_contact_with_graph ?E ?a ?b ?c ?d ?e ?f ?w0] =>
      pose proof (_register_contact_with_graph_never_raises E a b c d e f w0) as Hnr;
      pose proof (_register_contact_with_graph_same_ledger E a b c d e f w0) as [Hl Hv];
      destruct (_register_contact_with_graph E a b c d e f w0) as [[[]|e0] w1]
    end; cbn in Hnr, Hl, Hv; [|discriminate].
    unfold ret at 1. destruct (IH (count + 1) w1) as (w2 & Hrun & Hadd).
    exists w2. cbv zeta in Hrun. rewrite Hrun. split; [do 2 f_equal; cbn [length]; lia|].
    apply (contacts_added_trans 1 _ w w1 w2); [|exact Hadd].
    eexists [_]. rewrite Hl, Hv. cbn. repeat split.
Qed.

Lemma ingest_contacts_from_xml_rows (E : Env) (p : Path) (c : FileContent) (w : World) :
  match ingest_contacts_from_xml E p c w with
  | (Ok n, w') => rows_added 0 n 0 w w'
  | (Raise _, w') => rows_added 0 0 0 w w'
  end.
Proof.
  unfold ingest_contacts_from_xml, lift. unfold bind at 1.
  destruct (parse_contacts_xml c) as [elems|e]; [|apply rows_added_none].
  unfold with_connection. destruct (xml_contacts_loop E p elems 0 w) as (w' & Hrun & Hadd).
  cbv zeta in Hrun. rewrite Hrun. apply contacts_added_rows, Hadd.
Qed.

Lemma ingest_system_info_from_plist_rows (E : Env) (p : Path) (c : FileContent) (w : World) :
  match ingest_system_info_from_plist E p c w with
  | (Ok n, w') => rows_added 0 0 n w w'
  | (Raise _, w') => rows_added 0 0 0 w w'
  end.
Proof.
  unfold ingest_system_info_from_plist, lift. unfold bind at 1.
  destruct (load_plist c) as [tree|e]; [|apply rows_added_none].
  unfold with_connection. rewrite system_info_loop. unfold rows_added. cbn.
  rewrite length_app, length_map. repeat split; lia.
Qed.

Lemma no_failure_notes_incl (notes notes' : list string) :
  incl notes notes' -> no_failure_notes notes' -> no_failure_notes notes.
Proof. intros Hincl H note Hin. apply H, Hincl, Hin. Qed.

Lemma no_failure_notes_append (notes : list string) (note : string) :
  is_failure_note note = true -> ~ no_failure_notes (append notes note).
Proof. intros Hnote H. rewrite (H note (In_append notes note)) in Hnote. discriminate. Qed.

(** A loop over files that are stored whole or not at all: the count is
    the number of rows added. *)
Section CountedLoop.
Context (D : Z -> World -> World -> Prop).
Hypothesis D_none : forall w, D 0 w w.
Hypothesis D_trans : forall a b w w1 w2, D a w w1 -> D b w1 w2 -> D (a + b) w w2.
Context (dir : Path) (ingest_one : Path -> FileContent -> M Z) (what failed : string).
Hypothesis file_rows : forall p c w,
  match ingest_one p c w with
  | (Ok k, w') => D k w w'
  | (Raise _, w') => D 0 w w'
  end.

Lemma counted_step_rows (file : Path * FileContent) (total : Z) (notes : list string)
    (w : World) :
  exists total' notes' w',
    counted_step dir ingest_one what failed file (total, notes) w
    = (Ok (total', notes'), w') /\ incl notes notes' /\ D (total' - total) w w'.
Proof.
  destruct file as [p c]. unfold counted_step, try_except. unfold bind at 1.
  pose proof (file_rows p c w) as H.
  destruct (ingest_one p c w) as [[k|e] w1].
  - destruct (relative_note p dir); eexists _, _, w1; (split; [reflexivity|]);
      (split; [apply incl_append, incl_refl|]);
      replace (total + k - total) with k by lia; exact H.
  - rewrite caught_by_Exception. eexists _, _, w1. split; [reflexivity|].
    split; [apply incl_append, incl_refl|].
    replace (total - total) with 0 by lia. exact H.
Qed.

Lemma ingest_counted_rows (files : list (Path * FileContent)) (total : Z)
    (notes : list string) (w : World) :
  exists total' notes' w',
    ingest_counted dir ingest_one what failed files (total, notes) w
    = (Ok (total', notes'), w') /\ incl notes notes' /\ D (total' - total) w w'.
Proof.
  unfold ingest_counted. revert total notes w.
  induction files as [|file files IH]; intros total notes w.
  - exists total, notes, w. split; [reflexivity|]. split; [apply incl_refl|].
    replace (total - total) with 0 by lia. apply D_none.
  - destruct (counted_step_rows file total notes w) as (t1 & n1 & w1 & Hrun1 & Hi1 & H1).
    destruct (IH t1 n1 w1) as (t2 & n2 & w2 & Hrun2 & Hi2 & H2).
    exists t2, n2, w2. cbn [for_each]. rewrite (bind_ok _ _ _ _ _ Hrun1).
    split; [exact Hrun2|]. split; [intros x Hx; apply Hi2, Hi1, Hx|].
    replace (t2 - total) with ((t1 - total) + (t2 - t1)) by lia.
    exact (D_trans _ _ _ _ _ H1 H2).
Qed.

End CountedLoop.

(** A loop over files that may fail after a part of them was stored: the
    count is at most the number of rows added, and is that number when no
    file left a failure note. *)
Section PartialLoop.
Context (D : Z -> World -> World -> Prop).
Hypothesis D_none : forall w, D 0 w w.
Hypothesis D_trans : forall a b w w1 w2, D a w w1 -> D b w1 w2 -> D (a + b) w w2.
Context (dir : Path) (ingest_one : Path -> FileContent -> M Z) (what failed : string).
Hypothesis failed_note : forall p e, is_failure_note (failure_note failed p e) = true.
Hypothesis file_rows : forall p c w,
  match ingest_one p c w with
  | (Ok k, w') => D k w w'
  | (Raise _, w') => exists j, 0 <= j /\ D j w w'
  end.

Lemma partial_step_rows (file : Path * FileContent) (total : Z) (notes : list string)
    (w : World) :
  exists total' notes' w',
    counted_step dir ingest_one what failed file (total, notes) w
    = (Ok (total', notes'), w') /\ incl notes notes' /\
    exists j, total' - total <= j /\ D j w w' /\
              (no_failure_notes notes' -> j = total' - total).
Proof.
  destruct file as [p c]. unfold counted_step, try_except. unfold bind at 1.
  pose proof (file_rows p c w) as H.
  destruct (ingest_one p c w) as [[k|e] w1].
  - destruct (relative_note p dir); eexists _, _, w1; (split; [reflexivity|]);
      (split; [apply incl_append, incl_refl|]);
      exists k; (split; [lia|]); (split; [exact H|]); intros _; lia.
  - rewrite caught_by_Exception. destruct H as (j & Hj & H).
    eexists _, _, w1. split; [reflexivity|]. split; [apply incl_append, incl_refl|].
    exists j. split; [lia|]. split; [exact H|]. intros Hno.
    destruct (no_failure_notes_append _ _ (failed_note p e) Hno).
Qed.

Lemma partial_loop_rows (files : list (Path * FileContent)) (total : Z)
    (notes : list string) (w : World) :
  exists total' notes' w',
    ingest_counted dir ingest_one what failed files (total, notes) w
    = (Ok (total', notes'), w') /\ incl notes notes' /\
    exists j, total' - total <= j /\ D j w w' /\
              (no_failure_notes notes' -> j = total' - total).
Proof.
  unfold ingest_counted. revert total notes w.
  induction files as [|file files IH]; intros total notes w.
  - exists total, notes, w. split; [reflexivity|]. split; [apply incl_refl|].
    exists 0. split; [lia|]. split; [apply D_none|]. intros _. lia.
  - destruct (partial_step_rows file total notes w)
      as (t1 & n1 & w1 & Hrun1 & Hi1 & j1 & Hj1 & H1 & E1).
    destruct (IH t1 n1 w1) as (t2 & n2 & w2 & Hrun2 & Hi2 & j2 & Hj2 & H2 & E2).
    exists t2, n2, w2. cbn [for_each]. rewrite (bind_ok _ _ _ _ _ Hrun1).
    split; [exact Hrun2|]. split; [intros x Hx; apply Hi2, Hi1, Hx|].
    exists (j1 + j2). split; [lia|]. split; [exact (D_trans _ _ _ _ _ H1 H2)|].
    intros Hno. specialize (E2 Hno).
    specialize (E1 (no_failure_notes_incl _ _ Hi2 Hno)). lia.
Qed.

End PartialLoop.

Lemma ingest_message_dbs_rows (E : Env) (dir : Path) (dbs : list (Path * FileContent))
    (n : Z) (recs : list EmbeddingRecord) (notes : list string) (w : World) :
  exists n' recs' notes' w',
    for_each dbs (message_db_step E dir) (n, recs, notes) w = (Ok (n', recs', notes'), w') /\
    incl notes notes' /\
    exists m, n' - n <= m /\ rows_added m 0 0 w w' /\
              (no_failure_notes notes' -> m = n' - n).
Proof.
  revert n recs notes w. induction dbs as [|[p c] dbs IH]; intros n recs notes w.
  - exists n, recs, notes, w. split; [reflexivity|]. split; [apply incl_refl|].
    exists 0. split; [lia|]. split; [apply rows_added_none|]. intros _. lia.
  - assert (Hstep : exists n1 recs1 notes1 w1,
              message_db_step E dir (p, c) (n, recs, notes) w = (Ok (n1, recs1, notes1), w1) /\
              incl notes notes1 /\
              exists m, n1 - n <= m /\ rows_added m 0 0 w w1 /\
                        (no_failure_notes notes1 -> m = n1 - n)).
    { unfold message_db_step, try_except. unfold bind at 1.
      pose proof (ingest_messages_from_sqlite_rows E p c w) as H.
      destruct (ingest_messages_from_sqlite E p c w) as [[[k embeddings]|e] w1].
      - destruct (relative_note p dir); eexists _, _, _, w1; (split; [reflexivity|]);
          (split; [apply incl_append, incl_refl|]);
          exists k; (split; [lia|]); (split; [exact H|]); intros _; lia.
      - rewrite caught_by_Exception. destruct H as (m & Hm & H).
        eexists _, _, _, w1. split; [reflexivity|]. split; [apply incl_append, incl_refl|].
        exists m. split; [lia|]. split; [exact H|]. intros Hno.
        destruct (no_failure_notes_append notes
                    (failure_note "Failed parsing messages from " p e) eq_refl Hno). }
    destruct Hstep as (n1 & recs1 & notes1 & w1 & Hrun1 & Hi1 & m1 & Hm1 & H1 & E1).
    destruct (IH n1 recs1 notes1 w1)
      as (n2 & recs2 & notes2 & w2 & Hrun2 & Hi2 & m2 & Hm2 & H2 & E2).
    exists n2, recs2, notes2, w2. cbn [for_each]. rewrite (bind_ok _ _ _ _ _ Hrun1).
    split; [exact Hrun2|]. split; [intros x Hx; apply Hi2, Hi1, Hx|].
    exists (m1 + m2). split; [lia|].
    split; [exact (rows_added_trans _ _ _ _ _ _ _ _ _ H1 H2)|].
    intros Hno. specialize (E2 Hno).
    specialize (E1 (no_failure_notes_incl _ _ Hi2 Hno)). lia.
Qed.

(** The steps after the parsers only add notes. *)
Lemma caption_step_notes (E : Env) (images : list ImageInventoryRecord)
    (notes : list string) (w : World) :
  match fst (caption_step E images notes w) with
  | Ok (_, _, notes') => incl notes notes'
  | Raise _ => True
  end.
Proof.
  unfold caption_step. destruct images as [|record rest]; [apply incl_refl|].
  unfold try_except, bind.
  destruct (describe_and_index_images E (record :: rest) w) as [[[captioned recs]|e] w1].
  - destruct (negb (captioned =? 0)); apply incl_append, incl_refl.
  - rewrite caught_by_Exception. apply incl_append, incl_refl.
Qed.

Lemma index_step_notes (E : Env) (m i : list EmbeddingRecord) (notes : list string)
    (w : World) :
  match fst (index_step E m i notes w) with
  | Ok notes' => incl notes notes'
  | Raise _ => True
  end.
Proof.
  unfold index_step. destruct (vector_enabled E); [|apply incl_append, incl_refl].
  destruct (m ++ i)%list as [|r rs]; [apply incl_append, incl_refl|].
  unfold try_except, bind.
  destruct (_index_embeddings E (r :: rs) w) as [[[]|e] w1].
  - apply incl_append, incl_refl.
  - destruct (caught_by [RuntimeError] e); [apply incl_append, incl_refl|exact I].
Qed.

(** X25.  The counts of the summary never overstate what the ledger
    received.  When an ingestion returns, [system_records_ingested] is
    exactly the number of rows added to [system_info], a property list being
    stored whole or not at all; [messages_ingested] and [contacts_ingested]
    are at most the numbers of rows added to [messages] and to [contacts],
    the rows of a database that failed at a later table being kept but not
    counted; and they are exactly these numbers when the notes of the
    summary hold no failure note. *)
Theorem summary_counts_match_the_ledger (E : Env) (upload : Upload) (unique_id : string)
    (w w' : World) (summary : IngestionSummary) :
  ingest_ufdr_archive E upload unique_id w = (Ok summary, w') ->
  exists m c,
    messages_ingested summary <= m /\ contacts_ingested summary <= c /\
    rows_added m c (system_records_ingested summary) w w' /\
    (no_failure_notes (notes summary) ->
     m = messages_ingested summary /\ c = contacts_ingested summary).
Proof.
  unfold ingest_ufdr_archive.
  destruct (negb (truthy (up_filename upload))); [discriminate|].
  destruct (persist_upload E upload unique_id) as [[archive_path extraction_dir]|exc].
  2: { repeat match goal with |- context [if ?b then _ else _] => destruct b end;
         discriminate. }
  destruct (up_extract upload) as [members|exc].
  2: { destruct (caught_by _ _); discriminate. }
  cbv zeta. unfold bind at 1. unfold modify at 1. unfold bind at 1. unfold modify at 1.
  fold (reset_run w).
  set (sources := classify_archive extraction_dir members).
  set (notes0 := match message_dbs sources, contact_dbs sources with
                 | [], [] => _ | _, _ => _ end).
  unfold ingest_message_dbs.
  destruct (ingest_message_dbs_rows E extraction_dir (message_dbs sources) 0 [] notes0
              (reset_run w)) as (n1 & recs1 & notes1 & w1 & Hrun1 & _ & m & Hm & H1 & E1).
  rewrite (bind_ok _ _ _ _ _ Hrun1).
  destruct (partial_loop_rows (fun k => rows_added 0 k 0) rows_added_none
              (fun a b => rows_added_trans 0 a 0 0 b 0) extraction_dir
              (ingest_contacts_from_sqlite E) "contacts" "Failed parsing contacts from "
              (fun _ _ => eq_refl)
              (ingest_contacts_from_sqlite_rows E) (contact_dbs sources) 0 notes1 w1)
    as (c2 & notes2 & w2 & Hrun2 & I2 & c & Hc & H2 & E2).
  rewrite (bind_ok _ _ _ _ _ Hrun2).
  destruct (ingest_counted_rows (fun k => rows_added 0 k 0) rows_added_none
              (fun a b => rows_added_trans 0 a 0 0 b 0) extraction_dir
              (ingest_contacts_from_xml E) "contacts" "Failed parsing contacts XML "
              (ingest_contacts_from_xml_rows E) (contact_xml_files sources) c2 notes2 w2)
    as (c3 & notes3 & w3 & Hrun3 & I3 & H3).
  rewrite (bind_ok _ _ _ _ _ Hrun3).
  destruct (ingest_counted_rows (fun k => rows_added 0 0 k) rows_added_none
              (fun a b => rows_added_trans 0 0 a 0 0 b) extraction_dir
              (ingest_system_info_from_plist E) "system records"
              "Failed parsing system plist "
              (ingest_system_info_from_plist_rows E) (system_plists sources) 0 notes3 w3)
    as (s4 & notes4 & w4 & Hrun4 & I4 & H4).
  rewrite (bind_ok _ _ _ _ _ Hrun4).
  unfold bind at 1.
  pose proof (log_image_inventory_tables E (image_files sources) extraction_dir w4) as H5.
  destruct (log_image_inventory E (image_files sources) extraction_dir w4)
    as [[[image_count new_images]|e5] w5]; [|discriminate].
  cbn [snd] in H5. unfold bind at 1.
  set (notes5 := if negb (image_count =? 0) then _ else notes4).
  assert (I5 : incl notes4 notes5).
  { subst notes5. destruct (negb _); [apply incl_append|]; apply incl_refl. }
  clearbody notes5.
  pose proof (caption_step_tables E new_images notes5 w5) as H6.
  pose proof (caption_step_notes E new_images notes5 w5) as I6.
  destruct (caption_step E new_images notes5 w5) as [[[[captioned recs6] notes6]|e6] w6];
    [|discriminate].
  cbn [fst snd] in H6, I6. unfold bind at 1.
  pose proof (index_step_tables E recs1 recs6 notes6 w6) as H7.
  pose proof (index_step_notes E recs1 recs6 notes6 w6) as I7.
  destruct (index_step E recs1 recs6 notes6 w6) as [[notes7|e7] w7]; [|discriminate].
  cbn [fst snd] in H7, I7. unfold bind, get_world, ret.
  set (notes8 := if graph_enabled E then _ else _).
  assert (I8 : incl notes7 notes8).
  { subst notes8. destruct (graph_enabled E); [destruct (_ || _)|];
      apply incl_append, incl_refl. }
  clearbody notes8. intros [= <- <-].
  cbn [messages_ingested contacts_ingested system_records_ingested notes].
  exists m, (c + (c3 - c2)). split; [lia|]. split; [lia|].
  apply rows_added_same in H5, H6, H7.
  assert (H0 : rows_added 0 0 0 w (reset_run w)) by (apply rows_added_same; repeat split).
  pose proof (rows_added_trans _ _ _ _ _ _ _ _ _ H0 H1) as K1.
  pose proof (rows_added_trans _ _ _ _ _ _ _ _ _ K1 H2) as K2.
  pose proof (rows_added_trans _ _ _ _ _ _ _ _ _ K2 H3) as K3.
  pose proof (rows_added_trans _ _ _ _ _ _ _ _ _ K3 H4) as K4.
  pose proof (rows_added_trans _ _ _ _ _ _ _ _ _ K4 H5) as K5.
  pose proof (rows_added_trans _ _ _ _ _ _ _ _ _ K5 H6) as K6.
  pose proof (rows_added_trans _ _ _ _ _ _ _ _ _ K6 H7) as K7.
  split.
  - revert K7. unfold rows_added. intros (A1 & A2 & A3). repeat split; lia.
  - intros Hno.
    assert (Hno2 : no_failure_notes notes2).
    { apply (no_failure_notes_incl _ notes8); [|exact Hno].
      intros x Hx. apply I8, I7, I6, I5, I4, I3, Hx. }
    specialize (E2 Hno2). specialize (E1 (no_failure_notes_incl _ _ I2 Hno2)). lia.
Qed.

(** The sample archive: one message database, one property list, one
    picture. *)
Lemma summary_counts_witness :
  let out := ingest_ufdr_archive sample_env sample_archive "u1" empty_world in
  exists summary,
    fst out = Ok summary /\
    exists m c,
      messages_ingested summary <= m /\ contacts_ingested summary <= c /\
      rows_added m c (system_records_ingested summary) empty_world (snd out) /\
      (no_failure_notes (notes summary) ->
       m = messages_ingested summary /\ c = contacts_ingested summary).
Proof.
  cbv zeta.
  assert (Hok : is_ok (fst (ingest_ufdr_archive sample_env sample_archive "u1" empty_world))
                = true) by (vm_compute; reflexivity).
  destruct (ingest_ufdr_archive sample_env sample_archive "u1" empty_world)
    as [[summary|e] w'] eqn:Hout; [|discriminate].
  exists summary. split; [reflexivity|].
  exact (summary_counts_match_the_ledger sample_env sample_archive "u1" empty_world w'
           summary Hout).
Defined.
